(** * RACV insurance MCP app: a shallow embedding of the quoting core

    The development follows the TypeScript sources:
    - [src/utils/racv-scraper.ts] (registration mode): the browser
      resource, [extractVehicleFromAuraResponse], [scrapeRacvQuote];
    - [src/tools/get-motor-quote.ts] (manual mode): the tool handler
      that overrides the mock quote with scraped premiums;
    - [src/tools/get-coverage.ts]: the coverage table and its handler.

    Conventions.  JavaScript strings are modelled by [string], a
    sequence of bytes.  The string routines of the model (case
    mapping, [trim], the classes [\s] and [.] of regular expressions,
    [slice]) are those of JavaScript on ASCII text, where a byte is a
    character: case mapping touches the letters a-z and A-Z only and
    white space is the ASCII white space.  Outside ASCII they are not
    JavaScript's, so every property of a routine that rests on them is
    stated for ASCII texts ([ascii_text]).  JavaScript numbers are IEEE
    binary64 values, modelled by the primitive [float].  Every awaited
    browser operation is an [Action] answered by an environment, which
    may make it fail; the scraper is a finite tree of such actions. *)

From Stdlib Require Import ZArith Floats Ascii String List Lia Bool.
From stdpp Require Import base option list strings pretty gmap.
Import ListNotations.

Set Warnings "-inexact-float,-register-all".
Local Open Scope string_scope.

(* ===================================================================== *)
(** * Part I: definitions                                                 *)
(* ===================================================================== *)

(** ** JavaScript strings and numbers *)

Module JS.

Definition chars (s : string) : list ascii := list_ascii_of_string s.
Definition text (l : list ascii) : string := string_of_list_ascii l.

Definition code (c : ascii) : nat := nat_of_ascii c.

Definition is_digit (c : ascii) : bool :=
  (48 <=? code c)%nat && (code c <=? 57)%nat.
Definition is_upper (c : ascii) : bool :=
  (65 <=? code c)%nat && (code c <=? 90)%nat.
Definition is_lower (c : ascii) : bool :=
  (97 <=? code c)%nat && (code c <=? 122)%nat.
(** [\s] and the characters removed by [trim], within ASCII: U+00A0
    and the other white space of Unicode are not in the model. *)
Definition is_space (c : ascii) : bool :=
  ((9 <=? code c)%nat && (code c <=? 13)%nat) || (code c =? 32)%nat.
Definition is_line_terminator (c : ascii) : bool :=
  (code c =? 10)%nat || (code c =? 13)%nat.

Definition upper_char (c : ascii) : ascii :=
  if is_lower c then ascii_of_nat (code c - 32) else c.

Definition eqc (a b : ascii) : bool := Ascii.eqb a b.

(** [String.prototype.toUpperCase], on ASCII text. *)
Definition toUpperCase (s : string) : string :=
  text (map upper_char (chars s)).

Fixpoint drop_space (l : list ascii) : list ascii :=
  match l with
  | c :: l' => if is_space c then drop_space l' else l
  | [] => []
  end.

(** [String.prototype.trim], on ASCII text. *)
Definition trim (s : string) : string :=
  text (rev (drop_space (rev (drop_space (chars s))))).

Fixpoint starts_with (p l : list ascii) : bool :=
  match p, l with
  | [], _ => true
  | a :: p', b :: l' => eqc a b && starts_with p' l'
  | _ :: _, [] => false
  end.

Fixpoint contains_chars (l p : list ascii) : bool :=
  starts_with p l ||
  match l with
  | [] => false
  | _ :: l' => contains_chars l' p
  end.

(** [s.includes(p)] *)
Definition includes (s p : string) : bool :=
  contains_chars (chars s) (chars p).

(** [s.replace(/[...]/g, "")] for a character class. *)
Definition remove_chars (p : ascii -> bool) (s : string) : string :=
  text (List.filter (fun c => negb (p c)) (chars s)).

(** [Array.prototype.join] *)
Fixpoint join (sep : string) (l : list string) : string :=
  match l with
  | [] => ""
  | [x] => x
  | x :: l' => x +:+ sep +:+ join sep l'
  end.

Definition nonempty (s : string) : bool :=
  match s with EmptyString => false | _ => true end.

(** *** Numbers *)

Definition number := float.

(** Truthiness of a number: everything but [0], [-0] and [NaN]. *)
Definition truthy_num (x : number) : bool :=
  negb (PrimFloat.is_zero x) && negb (PrimFloat.is_nan x).

(** Truthiness of an optional number ([undefined] is falsy). *)
Definition truthy (x : option number) : bool :=
  match x with Some v => truthy_num v | None => false end.

(** The binary64 value nearest to [num / den]. *)
Definition of_ratio (num : Z) (den : positive) : number :=
  match num with
  | Zpos n =>
      SF2Prim (SFdiv prec emax (S754_finite false n 0) (S754_finite false den 0))
  | _ => 0%float
  end.

Definition digit_val (c : ascii) : Z := Z.of_nat (code c - 48).

(** Reads a run of decimal digits: its value, its length, the rest. *)
Fixpoint take_digits (l : list ascii) (acc : Z) (n : nat)
  : Z * nat * list ascii :=
  match l with
  | c :: l' =>
      if is_digit c then take_digits l' (10 * acc + digit_val c)%Z (S n)
      else (acc, n, l)
  | [] => (acc, n, [])
  end.

(** [parseFloat] on the strings the scraper passes to it: optional
    white space, an unsigned run of digits and an optional fraction
    (the source strips [$] and [,] first, so neither a sign nor an
    exponent nor [Infinity] can occur).  The longest such prefix is
    converted; [NaN] when it has no digit. *)
Definition parseFloat (s : string) : number :=
  let l := drop_space (chars s) in
  let '(ip, ni, r) := take_digits l 0%Z 0%nat in
  let '(fp, nf, _) :=
    match r with
    | "."%char :: r' => take_digits r' ip 0%nat
    | _ => (ip, 0%nat, r)
    end in
  if ((ni + nf)%nat =? 0)%nat then nan
  else of_ratio fp (Z.to_pos (10 ^ Z.of_nat nf)).

(** [Math.round]: the nearest integer, a tie going up; the sign of a
    zero result is that of the argument. *)
Definition Math_round (x : number) : number :=
  match Prim2SF x with
  | S754_finite s m e =>
      if (0 <=? e)%Z then x
      else
        let v := if s then Zneg m else Zpos m in
        let n := ((2 * v + 2 ^ (- e)) / 2 ^ (- e + 1))%Z in
        SF2Prim (binary_normalize prec emax n 0 s)
  | _ => x
  end.

(** The texts on which this model of strings is exact: ASCII only.
    Outside ASCII, JavaScript has further white space (U+00A0) and
    further cased letters, and counts UTF-16 units. *)
Definition is_ascii (c : ascii) : bool := (code c <? 128)%nat.
Definition ascii_text (s : string) : bool := forallb is_ascii (chars s).

End JS.

(** ** Regular expressions

    The backtracking matcher of JavaScript, for the constructs the
    sources use: literals, character classes, sequence, alternation
    (left alternative first), a greedy optional group, greedy
    repetition of a character class, and one capture group.  The [/i]
    flag compares literals up to ASCII case; every class used under
    [/i] in the sources is free of letters. *)

Module Regex.
Import JS.

Inductive regex : Type :=
| Eps
| Chr (c : ascii)
| Cls (p : ascii -> bool)
| Seq (r1 r2 : regex)
| Alt (r1 r2 : regex)
| Opt (r : regex)
| Star (p : ascii -> bool)
| Cap (r : regex).

Definition Plus (p : ascii -> bool) : regex := Seq (Cls p) (Star p).

(** A literal word. *)
Fixpoint lit_chars (l : list ascii) : regex :=
  match l with
  | [] => Eps
  | [c] => Chr c
  | c :: l' => Seq (Chr c) (lit_chars l')
  end.
Definition Lit (s : string) : regex := lit_chars (chars s).

Fixpoint seqs (l : list regex) : regex :=
  match l with
  | [] => Eps
  | [r] => r
  | r :: l' => Seq r (seqs l')
  end.

Fixpoint alts (l : list regex) : regex :=
  match l with
  | [] => Cls (fun _ => false)
  | [r] => r
  | r :: l' => Alt r (alts l')
  end.

Definition chr_match (ci : bool) (c x : ascii) : bool :=
  if ci then eqc (upper_char c) (upper_char x) else eqc c x.

Section Matcher.
Context {R : Type}.
(** [ci]: the [/i] flag. *)
Variable ci : bool.

(** Greedy [p*]: consume while possible, give back on failure. *)
Fixpoint star (p : ascii -> bool) (k : list ascii -> option R)
  (s : list ascii) : option R :=
  match s with
  | x :: s' =>
      if p x then
        match star p k s' with
        | Some v => Some v
        | None => k s
        end
      else k s
  | [] => k s
  end.

(** [m r s cap k]: match [r] at the head of [s]; the continuation
    receives the rest of the input and the capture so far. *)
Fixpoint m (r : regex) (s : list ascii) (cap : option (list ascii))
  (k : list ascii -> option (list ascii) -> option R) : option R :=
  match r with
  | Eps => k s cap
  | Chr c =>
      match s with
      | x :: s' => if chr_match ci c x then k s' cap else None
      | [] => None
      end
  | Cls p =>
      match s with
      | x :: s' => if p x then k s' cap else None
      | [] => None
      end
  | Seq r1 r2 => m r1 s cap (fun s' cap' => m r2 s' cap' k)
  | Alt r1 r2 =>
      match m r1 s cap k with
      | Some v => Some v
      | None => m r2 s cap k
      end
  | Opt r1 =>
      match m r1 s cap k with
      | Some v => Some v
      | None => k s cap
      end
  | Star p => star p (fun s' => k s' cap) s
  | Cap r1 =>
      m r1 s cap
        (fun s' _ => k s' (Some (firstn (length s - length s') s)))
  end.
End Matcher.

(** The result of [exec]: the matched text and capture group 1. *)
Record match_result : Type := MatchResult {
  matched : string;
  group1 : option string
}.

(** A match anchored at the head of [s]. *)
Definition match_here (ci : bool) (r : regex) (s : list ascii)
  : option (match_result * list ascii) :=
  m ci r s None
    (fun s' cap =>
       Some (MatchResult (text (firstn (length s - length s') s))
                         (text <$> cap), s')).

(** Leftmost match: [RegExp.prototype.exec] without the [g] flag. *)
Fixpoint exec_chars (ci : bool) (r : regex) (s : list ascii)
  : option match_result :=
  match match_here ci r s with
  | Some (res, _) => Some res
  | None =>
      match s with
      | [] => None
      | _ :: s' => exec_chars ci r s'
      end
  end.

(** [str.match(re)] for a regular expression without the [g] flag. *)
Definition exec (ci : bool) (r : regex) (s : string) : option match_result :=
  exec_chars ci r (chars s).

(** [re.test(str)] *)
Definition test (ci : bool) (r : regex) (s : string) : bool :=
  bool_decide (is_Some (exec ci r s)).

(** All successive matches, for the [g] flag.  [skip] counts the
    characters of the previous match still to be passed over; an
    empty match advances by one character. *)
Fixpoint match_all_chars (ci : bool) (r : regex) (skip : nat)
  (s : list ascii) : list string :=
  match skip with
  | S n =>
      match s with
      | [] => []
      | _ :: s' => match_all_chars ci r n s'
      end
  | O =>
      match match_here ci r s with
      | Some (res, rest) =>
          matched res ::
          match s with
          | [] => []
          | _ :: s' =>
              match_all_chars ci r (length s - length rest - 1) s'
          end
      | None =>
          match s with
          | [] => []
          | _ :: s' => match_all_chars ci r 0 s'
          end
      end
  end.

(** [str.match(re) || []] for a regular expression with the [g] flag. *)
Definition match_all (ci : bool) (r : regex) (s : string) : list string :=
  match_all_chars ci r 0 (chars s).

(** Character classes of the sources, on ASCII text: [\s] is the
    ASCII white space, and [.] takes one byte, which is one character
    there. *)
Definition digit : ascii -> bool := is_digit.
Definition space : ascii -> bool := is_space.
Definition dot (c : ascii) : bool := negb (is_line_terminator c).
Definition one_of (s : string) (c : ascii) : bool :=
  existsb (eqc c) (chars s).
Definition either (p q : ascii -> bool) (c : ascii) : bool := p c || q c.

(** What the matcher computes, as a relation: [Matches ci r s s'] when
    [r] can match a prefix of [s] and leave [s']. *)
Inductive Matches (ci : bool) : regex -> list ascii -> list ascii -> Prop :=
| M_Eps s : Matches ci Eps s s
| M_Chr c x s : chr_match ci c x = true -> Matches ci (Chr c) (x :: s) s
| M_Cls p x s : p x = true -> Matches ci (Cls p) (x :: s) s
| M_Seq r1 r2 s s1 s2 :
    Matches ci r1 s s1 -> Matches ci r2 s1 s2 -> Matches ci (Seq r1 r2) s s2
| M_AltL r1 r2 s s' : Matches ci r1 s s' -> Matches ci (Alt r1 r2) s s'
| M_AltR r1 r2 s s' : Matches ci r2 s s' -> Matches ci (Alt r1 r2) s s'
| M_OptSome r s s' : Matches ci r s s' -> Matches ci (Opt r) s s'
| M_OptNone r s : Matches ci (Opt r) s s
| M_StarNil p s : Matches ci (Star p) s s
| M_StarCons p x s s' :
    p x = true -> Matches ci (Star p) s s' -> Matches ci (Star p) (x :: s) s'
| M_Cap r s s' : Matches ci r s s' -> Matches ci (Cap r) s s'.

(** Whether every match of [r] goes through its capture group. *)
Fixpoint sets_cap (r : regex) : bool :=
  match r with
  | Cap _ => true
  | Seq r1 r2 => sets_cap r1 || sets_cap r2
  | Alt r1 r2 => sets_cap r1 && sets_cap r2
  | _ => false
  end.

End Regex.

(** ** JSON values, as [JSON.parse] yields them *)

Module Json.
Import JS.

Inductive json : Type :=
| JNull
| JBool (b : bool)
| JNum (x : number)
| JStr (s : string)
| JArr (items : list json)
| JObj (fields : list (string * json)).

(** Built-ins of the platform that the sources call but do not define. *)
Class Platform : Type := {
  (** [JSON.parse]; [None] when it throws. *)
  JSON_parse : string -> option json;
  (** [Number.prototype.toString] *)
  NumberToString : number -> string;
  (** Whether [new RegExp(src, "i")] accepts the pattern text. *)
  RegExp_compiles : string -> bool;
  (** The message of the [SyntaxError] that [new RegExp(src, "i")]
      throws when it rejects the pattern text. *)
  RegExp_message : string -> string
}.

Definition truthy_json (v : json) : bool :=
  match v with
  | JNull => false
  | JBool b => b
  | JNum x => truthy_num x
  | JStr s => nonempty s
  | JArr _ | JObj _ => true
  end.

Fixpoint assoc (key : string) (fields : list (string * json)) : option json :=
  match fields with
  | [] => None
  | (k, v) :: rest => if String.eqb k key then Some v else assoc key rest
  end.

(** [v.key] for the property names the sources read (none of them is
    found on a prototype); [None] is [undefined]. *)
Definition prop (key : string) (v : json) : option json :=
  match v with
  | JObj fields => assoc key fields
  | _ => None
  end.

(** [v[0]] *)
Definition index0 (v : json) : option json :=
  match v with
  | JArr (x :: _) => Some x
  | JObj fields => assoc "0" fields
  | JStr (String c _) => Some (JStr (String c EmptyString))
  | _ => None
  end.

(** Optional chaining [a?.f]: [undefined] when [a] is [null] or
    [undefined]. *)
Definition chain (a : option json) (f : json -> option json) : option json :=
  match a with
  | None | Some JNull => None
  | Some v => f v
  end.

Definition truthy_opt (a : option json) : bool :=
  match a with Some v => truthy_json v | None => false end.

(** [a || b] with a defined right operand. *)
Definition or_else (a : option json) (b : json) : json :=
  match a with
  | Some v => if truthy_json v then v else b
  | None => b
  end.

(** [a || b] with a possibly undefined right operand. *)
Definition or_opt (a b : option json) : option json :=
  if truthy_opt a then a else b.

Section WithPlatform.
Context `{Platform}.

(** [String(v)], as template literals apply it. *)
Fixpoint ToString (v : json) : string :=
  match v with
  | JNull => "null"
  | JBool true => "true"
  | JBool false => "false"
  | JNum x => NumberToString x
  | JStr s => s
  | JArr items =>
      join ","
        (map (fun x => match x with JNull => "" | _ => ToString x end) items)
  | JObj _ => "[object Object]"
  end.
End WithPlatform.

End Json.

(** ** Browser automation: actions, programs, environments *)

Module Page.
Import JS Json.

(** Playwright locators, as the sources build them. *)
Inductive Locator : Type :=
| Css (sel : string)
| HasText (l : Locator) (re : string)
| First (l : Locator)
| Nth (l : Locator) (i : nat)
| Sub (l : Locator) (sel : string).

Inductive SelectArg : Type :=
| ByValue (v : json)
| ByLabel (label : string).

(** A backend response seen by one of the two response handlers. *)
Inductive Delivery : Type :=
| ViaListener (url body : string)   (* [page.on("response", ...)] *)
| ViaWaiter (body : string).        (* [page.waitForResponse(...).then] *)

Inductive Action : Type :=
| IsConnected (b : nat)
| Launch
| BrowserClose (b : nat)
| NewContext (b : nat)
| NewPage (c : nat)
| Route (pattern : string)
| Goto (url : string) (timeout : N)
| WaitForTimeout (ms : N)
| IsVisible (l : Locator) (timeout : option N)
| Click (l : Locator)
| WaitFor (l : Locator) (timeout : N)
| ScrollIntoViewIfNeeded (l : Locator)
| DispatchEvent (l : Locator) (ev : string)
| SelectOption (l : Locator) (v : SelectArg)
| Count (l : Locator)
| AllTextContents (l : Locator)
| TextContent (sel : string)
| KeyboardPress (key : string)
| KeyboardType (txt : string) (delay : N)
| Evaluate (script : string)
| Screenshot (path : string)
| AwaitResponse (timeout : N)
| Deliveries
| PageClose (p : nat)
| ContextClose (c : nat).

(** What an action answers when it succeeds. *)
Definition resp (a : Action) : Type :=
  match a with
  | IsConnected _ | IsVisible _ _ => bool
  | Launch | NewContext _ | NewPage _ | Count _ => nat
  | AllTextContents _ => list string
  | TextContent _ => option string
  | Deliveries => list Delivery
  | _ => unit
  end.

Inductive Result (X : Type) : Type :=
| Ok (x : X)
| Err (msg : string).
Arguments Ok {X} x.
Arguments Err {X} msg.

(** Programs: finite trees of actions; [Throw] is a rejected promise
    or a thrown exception, carrying its message. *)
Inductive Prog (A : Type) : Type :=
| Ret (a : A)
| Throw (msg : string)
| Op (a : Action) (k : Result (resp a) -> Prog A).
Arguments Ret {A} a.
Arguments Throw {A} msg.
Arguments Op {A} a k.

Fixpoint bind {A B : Type} (m : Prog A) (f : A -> Prog B) : Prog B :=
  match m with
  | Ret a => f a
  | Throw e => Throw e
  | Op a k => Op a (fun r => bind (k r) f)
  end.

#[global] Instance prog_ret : MRet Prog := @Ret.
#[global] Instance prog_bind : MBind Prog := fun A B f m => bind m f.

(** [try { m } catch (e) { h e }] *)
Fixpoint tryCatch {A : Type} (m : Prog A) (h : string -> Prog A) : Prog A :=
  match m with
  | Ret a => Ret a
  | Throw e => h e
  | Op a k => Op a (fun r => tryCatch (k r) h)
  end.

(** [await op] *)
Definition call (a : Action) : Prog (resp a) :=
  Op a (fun r => match r with Ok x => Ret x | Err e => Throw e end).

(** [await op.catch(() => d)] *)
Definition attempt (a : Action) (d : resp a) : Prog (resp a) :=
  Op a (fun r => match r with Ok x => Ret x | Err _ => Ret d end).

(** [try { m } catch {}] *)
Definition swallow (m : Prog unit) : Prog unit :=
  tryCatch m (fun _ => Ret tt).

Definition when (b : bool) (m : Prog unit) : Prog unit :=
  if b then m else Ret tt.

(** *** Environments and runs *)

Inductive Outcome (A : Type) : Type :=
| Normal (a : A)
| Thrown (msg : string).
Arguments Normal {A} a.
Arguments Thrown {A} msg.

(** One observed step: the action and the environment's answer. *)
Definition Obs : Type := { a : Action & Result (resp a) }.
Definition obs (a : Action) (r : Result (resp a)) : Obs := existT a r.
Definition action_of (o : Obs) : Action := projT1 o.

Class Env (W : Type) : Type :=
  respond : forall a : Action, W -> Result (resp a) * W.

Fixpoint run {W : Type} `{Env W} {A : Type} (p : Prog A) (w : W)
  : Outcome A * list Obs * W :=
  match p with
  | Ret a => (Normal a, [], w)
  | Throw e => (Thrown e, [], w)
  | Op a k =>
      let '(r, w1) := respond a w in
      let '(o, t, w2) := run (k r) w1 in
      (o, obs a r :: t, w2)
  end.

Definition outcome {W : Type} `{Env W} {A : Type} (p : Prog A) (w : W)
  : Outcome A := (run p w).1.1.
Definition trace {W : Type} `{Env W} {A : Type} (p : Prog A) (w : W)
  : list Obs := (run p w).1.2.

(** *** Weakest preconditions over every environment *)

Fixpoint wp {A : Type} (p : Prog A) (Q : list Obs -> Outcome A -> Prop)
  : Prop :=
  match p with
  | Ret a => Q [] (Normal a)
  | Throw e => Q [] (Thrown e)
  | Op a k => forall r, wp (k r) (fun t o => Q (obs a r :: t) o)
  end.

End Page.

(** ** The registration-mode scraper ([src/utils/racv-scraper.ts]) *)

Module Scraper.
Import JS Json Regex Page.

Inductive Gender : Type := male | female.

Record RacvQuoteInput : Type := {
  rego : string;
  address : string;
  driver_age : Z;
  driver_gender : Gender;
  licence_age : Z;
  claims_last_5_years : Z;
  is_racv_member : option bool;
  under_finance : option bool;
  purpose : option string
}.

Record RacvQuoteResult : Type := {
  success : bool;
  vehicle_description : option string;
  annual_premium : option number;
  monthly_premium : option number;
  excess_amount : option number;
  raw_amounts : option (list string);
  screenshot_path : option string;
  error : option string;
  step_reached : option string
}.

(** The fields hold whatever JSON value the backend sent. *)
Record VehicleInfo : Type := {
  year : json;
  make : json;
  model : json;
  bodyType : json;
  variant : json;
  description : string
}.

Definition RACV_URL : string := "https://my.racv.com.au/s/motor-insurance?p=CAR".

(** *** The browser resource *)

(** [getBrowser], with the module variable [browser] passed in and
    returned. *)
Definition getBrowser (browser : option nat) : Prog (option nat * nat) :=
  let launch : Prog (option nat * nat) :=
    b ← call Launch; mret (Some b, b) in
  match browser with
  | None => launch
  | Some b =>
      connected ← call (IsConnected b);
      if connected : bool then mret (Some b, b) else launch
  end.

Definition closeBrowser (browser : option nat) : Prog (option nat) :=
  match browser with
  | Some b => call (BrowserClose b);; mret None
  | None => mret None
  end.

(** *** Small helpers of the source *)

Definition isVisible (l : Locator) (timeout : option N) : Prog bool :=
  attempt (IsVisible l timeout) false.

(** [(await page.textContent(sel)) || ""] *)
Definition textContent (sel : string) : Prog string :=
  t ← call (TextContent sel); mret (default "" t).

Definition lwcType (selector value : string) : Prog unit :=
  call (Click (Css selector));;
  call (WaitForTimeout 200);;
  call (KeyboardPress "Meta+a");;
  call (KeyboardPress "Backspace");;
  call (WaitForTimeout 100);;
  call (KeyboardType value 50);;
  call (WaitForTimeout 200);;
  call (KeyboardPress "Tab");;
  call (WaitForTimeout 300).

Definition lwcRadioClick (selector : string) : Prog unit :=
  v ← isVisible (Css selector) (Some 2000%N);
  when v
    (call (Click (Css selector));;
     call (WaitForTimeout 300);;
     call (DispatchEvent (Css selector) "change");;
     call (WaitForTimeout 200)).

Section WithPlatform.
Context `{Platform}.

(** *** [extractVehicleFromAuraResponse] *)

Definition extractVehicleFromAuraResponse (responseBody : string)
  : option VehicleInfo :=
  data ← JSON_parse responseBody;
  let action := chain (chain (Some data) (prop "actions")) index0 in
  match chain action (prop "state") with
  | Some (JStr "SUCCESS") =>
      let returnStr :=
        chain (chain (chain action (prop "returnValue"))
                 (prop "returnValue")) (prop "returnValue") in
      match returnStr with
      | Some (JStr str) =>
          if nonempty str then
            parsed ← JSON_parse str;
            let vehicle :=
              chain (chain (chain (Some parsed) (prop "vehicles")) index0)
                (prop "vehicle") in
            match vehicle with
            | Some v =>
                if truthy_json v then
                  match or_else (prop "makeName" v) (JStr "") with
                  | JStr makeName =>
                      Some {|
                        year := or_else (prop "yearCreate" v) (JStr "");
                        make := or_else (or_opt (prop "makeName" v)
                                           (prop "make" v)) (JStr "");
                        model := or_else (or_opt (prop "familyName" v)
                                            (prop "model" v)) (JStr "");
                        bodyType := or_else (or_opt (prop "bodyStyleName" v)
                                               (prop "bodyStyle" v)) (JStr "");
                        variant := or_else (prop "variantName" v) (JStr "");
                        description :=
                          trim (ToString (or_else (prop "yearCreate" v) (JStr ""))
                                +:+ " " +:+ toUpperCase makeName
                                +:+ " " +:+ ToString (or_else (prop "familyName" v) (JStr ""))
                                +:+ " " +:+ ToString (or_else (prop "variantName" v) (JStr "")))
                      |}
                  | _ => None      (* [toUpperCase] is not a function *)
                  end
                else None
            | None => None
            end
          else None
      | _ => None
      end
  | _ => None
  end.

(** The guard both handlers apply before storing a record. *)
Definition wellFormed (v : VehicleInfo) : bool :=
  truthy_json (year v) && truthy_json (make v).

Definition capture (captured : option VehicleInfo) (body : string)
  : option VehicleInfo :=
  match extractVehicleFromAuraResponse body with
  | Some v => if wellFormed v then Some v else captured
  | None => captured
  end.

Definition isAuraCall (url : string) : bool :=
  includes url "/aura?" && includes url "ApexAction.execute".

(** The effect of one handled response on [captured.vehicle]. *)
Definition deliver (captured : option VehicleInfo) (d : Delivery)
  : option VehicleInfo :=
  match d with
  | ViaListener url body =>
      if isAuraCall url then
        if includes body "vehicles" || includes body "yearCreate"
        then capture captured body else captured
      else captured
  | ViaWaiter body => capture captured body
  end.

(** Reading [captured.vehicle]: the responses handled since the
    last read are applied in the order their handlers ran. *)
Definition readCaptured (captured : option VehicleInfo)
  : Prog (option VehicleInfo) :=
  ds ← attempt Deliveries [];
  mret (fold_left deliver ds captured).

(** *** Regular expressions of the flow *)

Definition upper_digit_space : ascii -> bool :=
  either is_upper (either digit space).

(** [/(\d{4}\s+[A-Z][A-Z0-9\s]+(?:\([^)]+\))?)/] *)
Definition carRe : regex :=
  Cap (seqs [Cls digit; Cls digit; Cls digit; Cls digit; Plus space;
             Cls is_upper; Plus upper_digit_space;
             Opt (seqs [Chr "("; Plus (fun c => negb (eqc c ")")); Chr ")"])]).

(** [/\d{4}\s+[A-Z]{2,}/] *)
Definition headingRe : regex :=
  seqs [Cls digit; Cls digit; Cls digit; Cls digit; Plus space;
        Cls is_upper; Cls is_upper; Star is_upper].

(** [/couldn.t find a vehicle|could not find a vehicle/i] *)
Definition notFoundRe : regex :=
  Alt (seqs [Lit "couldn"; Cls dot; Lit "t find a vehicle"])
      (Lit "could not find a vehicle").

(** [/system error|technical problem/i] *)
Definition systemErrorRe : regex :=
  Alt (Lit "system error") (Lit "technical problem").

(** [/address/i] *)
Definition addressRe : regex := Lit "address".

(** [[\d,]+(?:\.\d{2})?] *)
Definition amountBody : regex :=
  Seq (Plus (either digit (one_of ",")))
      (Opt (seqs [Chr "."; Cls digit; Cls digit])).

(** [/\$[\d,]+(?:\.\d{2})?/g] *)
Definition amountRe : regex := Seq (Chr "$") amountBody.

Inductive PremiumType : Type := annual | monthly.

Definition labelSep : ascii -> bool := either (one_of ":") space.

(** The four labelled patterns, all with the [/i] flag. *)
Definition premPatterns : list (regex * PremiumType) :=
  [ (seqs [Chr "$"; Cap amountBody; Star space;
           alts [seqs [Lit "per"; Star space; Lit "year"];
                 seqs [Chr "/"; Star space; Lit "year"];
                 Lit "annually"; Lit "p.a."; Lit "/yr"; Lit "/Yearly"]],
     annual);
    (seqs [alts [Lit "annual"; Lit "yearly"]; Star space;
           alts [Lit "premium"; Lit "price"; Lit "cost"];
           Star labelSep; Chr "$"; Cap amountBody],
     annual);
    (seqs [Chr "$"; Cap amountBody; Star space;
           alts [seqs [Lit "per"; Star space; Lit "month"];
                 seqs [Chr "/"; Star space; Lit "month"];
                 Lit "/Monthly"; Lit "monthly"; Lit "p.m."; Lit "/mo"]],
     monthly);
    (seqs [Lit "monthly"; Star space;
           alts [Lit "premium"; Lit "price"; Lit "cost"];
           Star labelSep; Chr "$"; Cap amountBody],
     monthly) ].

(** *** Step 4: premium extraction (pure part) *)

Record Premiums : Type := {
  annualPremium : option number;
  monthlyPremium : option number;
  excessAmount : option number
}.

(** One turn of [for (const { pattern, type } of premPatterns)];
    [None] is the [TypeError] of [m[1].replace] on an undefined
    group. *)
Definition applyPattern (resultText : string) (acc : Premiums)
  (p : regex * PremiumType) : option Premiums :=
  match exec true p.1 resultText with
  | None => Some acc
  | Some mr =>
      g ← group1 mr;
      let amount := parseFloat (remove_chars (one_of ",") g) in
      Some match p.2 with
           | monthly =>
               {| annualPremium := annualPremium acc;
                  monthlyPremium := Some amount;
                  excessAmount := excessAmount acc |}
           | annual =>
               {| annualPremium := Some amount;
                  monthlyPremium := monthlyPremium acc;
                  excessAmount := excessAmount acc |}
           end
  end.

Fixpoint applyPatterns (resultText : string) (acc : Premiums)
  (ps : list (regex * PremiumType)) : option Premiums :=
  match ps with
  | [] => Some acc
  | p :: ps' =>
      acc' ← applyPattern resultText acc p;
      applyPatterns resultText acc' ps'
  end.

Definition noPremiums : Premiums :=
  {| annualPremium := None; monthlyPremium := None; excessAmount := None |}.

Definition numericAmounts (allAmounts : list string) : list number :=
  List.filter (fun n => negb (PrimFloat.is_nan n))
    (map (fun a => parseFloat (remove_chars (one_of "$,") a)) allAmounts).

Definition annualCandidate (n : number) : bool :=
  ((300 <=? n) && (n <=? 8000))%float.
Definition monthlyCandidate (n : number) : bool :=
  ((25 <=? n) && (n <? 300))%float.
Definition excessTiers : list number := [650; 800; 1000; 1500]%float.
Definition excessCandidate (n : number) : bool :=
  existsb (fun t => (t =? n)%float) excessTiers.

(** [if (cands.length > 0) x = cands[0]] *)
Definition firstOr (cands : list number) (x : option number) : option number :=
  match cands with
  | c :: _ => Some c
  | [] => x
  end.

(** The fallback over all dollar amounts of the page. *)
Definition fallback (allAmounts : list string) (acc : Premiums) : Premiums :=
  if negb (truthy (annualPremium acc)) && negb (truthy (monthlyPremium acc))
  then
    let nums := numericAmounts allAmounts in
    {| annualPremium :=
         firstOr (List.filter annualCandidate nums) (annualPremium acc);
       monthlyPremium :=
         firstOr (List.filter monthlyCandidate nums) (monthlyPremium acc);
       excessAmount :=
         firstOr (List.filter excessCandidate nums) (excessAmount acc) |}
  else acc.

Definition allAmountsOf (resultText : string) : list string :=
  match_all false amountRe resultText.

(** Pattern matching followed by the fallback. *)
Definition extractPremiums (resultText : string) : option Premiums :=
  acc ← applyPatterns resultText noPremiums premPatterns;
  Some (fallback (allAmountsOf resultText) acc).


(** *** Step 1: vehicle resolution *)

Definition addressField : Locator := Css "input[name='addressSearch']".
Definition regoField : Locator := Css "input[name='rego']".
Definition findBtn : Locator := HasText (Css "button") "/Find/i".
Definition visibleSelects : Locator := Css "select:visible".

Inductive WaitResult : Type :=
| Found (vehicleDesc : string)
| NotFoundMsg
| NoResult.

(** [for (let wait = 0; wait < 25; wait++)], with [n] turns left. *)
Fixpoint waitForResult (n : nat) (captured : option VehicleInfo)
  : Prog (WaitResult * option VehicleInfo) :=
  match n with
  | O => mret (NoResult, captured)
  | S n' =>
      call (WaitForTimeout 1000);;
      visible ← isVisible addressField None;
      if visible : bool then
        bodyText ← textContent "body";
        match exec false carRe bodyText with
        | Some carMatch =>
            match group1 carMatch with
            | Some g => mret (Found (trim g), captured)
            | None =>
                Throw "Cannot read properties of undefined (reading 'trim')"
            end
        | None =>
            captured' ← readCaptured captured;
            mret (Found match captured' with
                        | Some v => description v
                        | None => "Vehicle found"
                        end, captured')
        end
      else
        headings ← call (AllTextContents (Css "h1, h2, h3, h4, h5"));
        match List.find (fun h => test false headingRe (trim h)) headings with
        | Some h => mret (Found (trim h), captured)
        | None =>
            bodyText ← textContent "body";
            if test true notFoundRe bodyText
            then mret (NotFoundMsg, captured)
            else waitForResult n' captured
        end
  end.

(** [rec.toUpperCase()] on a field of the captured record, [expr]
    being the expression for the field in the source ([cv.make]);
    on a value that is not a string the call throws a [TypeError]. *)
Definition upperOf (expr : string) (field : json) : Result string :=
  match field with
  | JStr s => Ok (toUpperCase s)
  | _ => Err (expr +:+ ".toUpperCase is not a function")
  end.

(** The predicate of [options.find] for make and model. *)
Definition matchesField (FIELD o : string) : bool :=
  includes (toUpperCase o) FIELD || includes FIELD (trim (toUpperCase o)).

(** The predicate of [options.find] for the body type. *)
Definition matchesBody (BODY o : string) : bool :=
  let upper := trim (toUpperCase o) in
  includes upper BODY || includes BODY upper.

(** [const opt = options.find(pred); if (opt && opt.trim()) ...]:
    the label to select, if any.  The callback reads the record's
    field at the first option, not before. *)
Definition pickOption (expr : string) (pred : string -> string -> bool)
  (field : json) (options : list string) : Result (option string) :=
  match options with
  | [] => Ok None
  | _ :: _ =>
      match upperOf expr field with
      | Err e => Err e
      | Ok FIELD =>
          Ok match List.find (pred FIELD) options with
             | Some o => if nonempty o && nonempty (trim o)
                         then Some (trim o) else None
             | None => None
             end
      end
  end.

(** [for (let i = 0; i < count; i++)] over the visible selects,
    with [n] turns left from index [i]. *)
Fixpoint fillSelect (expr : string) (pred : string -> string -> bool)
  (field : json) (n i : nat) : Prog unit :=
  match n with
  | O => mret tt
  | S n' =>
      let sel := Nth visibleSelects i in
      options ← call (AllTextContents (Sub sel "option"));
      match pickOption expr pred field options with
      | Err e => Throw e
      | Ok (Some label) =>
          call (SelectOption sel (ByLabel label));;
          call (WaitForTimeout 2000)
      | Ok None => fillSelect expr pred field n' (S i)
      end
  end.

Definition fillField (expr : string) (pred : string -> string -> bool)
  (field : json) : Prog unit :=
  count ← call (Count visibleSelects);
  fillSelect expr pred field count 0.

(** The manual search driven by the captured record [cv]; the
    result is [Some d] when the attempt loop is left with
    [vehicleDesc = d], and [None] when the attempt has failed. *)
Definition yearSelect : Locator :=
  First (HasText (Css "select") "/2011|2012|2010/").
Definition yearSelectByName : Locator :=
  Css "select[name*='year' i], select[name*='Year']".
(** [await yearSelectByName.count() > 0 ? yearSelectByName.first()
     : yearSelect] *)
Definition yearElement (count : nat) : Locator :=
  if (0 <? count)%nat then First yearSelectByName else yearSelect.

Definition manualSearch (cv : VehicleInfo) (attemptNo : nat)
  : Prog (option string) :=
  n ← call (Count yearSelectByName);
  let yearEl := yearElement n in
  v ← isVisible yearEl (Some 2000%N);
  when v
    (swallow (call (SelectOption yearEl (ByValue (year cv)));;
              call (WaitForTimeout 1500)));;
  fillField "cv.make" matchesField (make cv);;
  call (WaitForTimeout 1000);;
  fillField "cv.model" matchesField (model cv);;
  call (WaitForTimeout 1000);;
  fillField "cv.bodyType" matchesBody (bodyType cv);;
  call (Screenshot "/tmp/racv-manual-search.png");;
  let searchBtn := HasText (Css "button:visible") "/search|find/i" in
  v ← isVisible (First searchBtn) (Some 3000%N);
  when v
    (call (Click (First searchBtn));;
     call (WaitForTimeout 10000));;
  v ← isVisible addressField (Some 10000%N);
  if v : bool then mret (Some (description cv))
  else
    variantHeadings ← call (AllTextContents (Css "h2, h3, h4"));
    match List.find (fun h => test false headingRe (trim h)) variantHeadings with
    | Some h => mret (Some (trim h))
    | None =>
        call (Screenshot ("/tmp/racv-manual-" +:+ pretty attemptNo +:+ ".png"));;
        mret None
    end.

Definition regoLink : Locator :=
  HasText (Css "a, button") "/search by registration/i".

(** The start of one turn of
    [for (let attempt = 1; attempt <= 3; attempt++)], up to
    [await responsePromise]. *)
Definition enterRego (input : RacvQuoteInput) (attemptNo : nat) : Prog unit :=
  when (1 <? attemptNo)%nat
    (v ← isVisible regoLink (Some 2000%N);
     if v : bool then
       call (Click regoLink);;
       call (WaitForTimeout 3000)
     else
       call (Goto RACV_URL 30000);;
       call (WaitForTimeout 10000));;
  call (WaitFor regoField 10000);;
  call (Click regoField);;
  call (WaitForTimeout 300);;
  call (KeyboardPress "Meta+a");;
  call (KeyboardPress "Backspace");;
  call (KeyboardType (rego input) 80);;
  call (WaitForTimeout 500);;
  call (ScrollIntoViewIfNeeded findBtn);;
  call (Click findBtn);;
  attempt (AwaitResponse 20000) tt.

(** The rest of the turn once the wait loop has ended with [res];
    [Some d] leaves the attempt loop with [vehicleDesc = d]. *)
Definition afterWait (res : WaitResult) (attemptNo : nat)
  (captured : option VehicleInfo)
  : Prog (option string * option VehicleInfo) :=
  match res with
  | Found vehicleDesc => mret (Some vehicleDesc, captured)
  | _ =>
      call (WaitForTimeout 2000);;
      captured ← readCaptured captured;
      match res, captured with
      | NotFoundMsg, Some cv =>
          r ← manualSearch cv attemptNo;
          mret (r, captured)
      | _, _ => mret (None, captured)
      end
  end.

(** One turn of the attempt loop. *)
Definition resolveAttempt (input : RacvQuoteInput) (attemptNo : nat)
  (captured : option VehicleInfo)
  : Prog (option string * option VehicleInfo) :=
  enterRego input attemptNo;;
  '(res, captured) ← waitForResult 25 captured;
  afterWait res attemptNo captured.

(** The attempt loop, with [n] turns left from attempt [attemptNo];
    the result is the final [vehicleDesc]. *)
Fixpoint resolveVehicle (input : RacvQuoteInput) (n attemptNo : nat)
  (captured : option VehicleInfo) : Prog string :=
  match n with
  | O => mret ""
  | S n' =>
      '(r, captured) ← resolveAttempt input attemptNo captured;
      match r with
      | Some vehicleDesc => mret vehicleDesc
      | None => resolveVehicle input n' (S attemptNo) captured
      end
  end.


(** *** Steps 2 and 3: the form *)

(** [input.address.split(" ")[0]] *)
Fixpoint firstWord (s : string) : string :=
  match s with
  | EmptyString => EmptyString
  | String c s' => if eqc c " " then EmptyString else String c (firstWord s')
  end.

Definition continueBtn : Locator := HasText (Css "button") "/Continue/i".

Definition notFoundResult (input : RacvQuoteInput) : RacvQuoteResult :=
  {| success := false;
     vehicle_description := None;
     annual_premium := None;
     monthly_premium := None;
     excess_amount := None;
     raw_amounts := None;
     screenshot_path := Some "/tmp/racv-not-found.png";
     error := Some ("Could not find a vehicle with registration " +:+ rego input
                    +:+ " after multiple attempts. RACV's lookup service may be temporarily unavailable.");
     step_reached := Some "rego_lookup" |}.

Definition addressErrorResult (vehicleDesc : string) : RacvQuoteResult :=
  {| success := false;
     vehicle_description := Some vehicleDesc;
     annual_premium := None;
     monthly_premium := None;
     excess_amount := None;
     raw_amounts := None;
     screenshot_path := None;
     error := Some "Could not validate the address. Please provide a valid Victorian street address.";
     step_reached := Some "your_car" |}.

(** STEP 2 up to the address check; [true] when an address error
    is shown. *)
Definition fillYourCar (input : RacvQuoteInput) : Prog bool :=
  call (Click addressField);;
  call (WaitForTimeout 200);;
  call (KeyboardPress "Meta+a");;
  call (KeyboardPress "Backspace");;
  call (KeyboardType (address input) 60);;
  call (WaitForTimeout 3000);;
  (if RegExp_compiles (firstWord (address input)) then mret tt
   else Throw (RegExp_message (firstWord (address input))));;
  let suggestion :=
    HasText (Css "[role='option'], [role='listbox'] li, .slds-listbox__option, ul li")
            ("/" +:+ firstWord (address input) +:+ "/i") in
  v ← isVisible (First suggestion) (Some 3000%N);
  when v
    (call (Click (First suggestion));;
     call (WaitForTimeout 1000));;
  lwcRadioClick "input[name='UnderFinance'][value='No']";;
  let purposeSelect := Css "select[name='Purpose']" in
  v ← isVisible purposeSelect (Some 2000%N);
  when v
    (call (SelectOption purposeSelect
             (ByValue (JStr match purpose input with
                            | Some p => if nonempty p then p else "Private"
                            | None => "Private"
                            end)));;
     call (WaitForTimeout 300));;
  lwcRadioClick "input[name='vehicleRegisterInBusinessName'][value='No']";;
  call (Evaluate "window.scrollTo(0, document.body.scrollHeight)");;
  call (WaitForTimeout 1000);;
  call (ScrollIntoViewIfNeeded continueBtn);;
  call (Click continueBtn);;
  call (WaitForTimeout 6000);;
  errTexts ← call (AllTextContents (Css "[class*='error']:visible"));
  mret (existsb (test true addressRe) errTexts).

(** STEP 3 up to the click that asks for the quote. *)
Definition fillAboutYou (input : RacvQuoteInput) : Prog unit :=
  (if default false (is_racv_member input)
   then lwcRadioClick "input[name='isMember0'][value='Yes']"
   else lwcRadioClick "input[name='isMember0'][value='No']");;
  let genderValue :=
    match driver_gender input with male => "Male" | female => "Female" end in
  lwcRadioClick ("input[name='driverSex0'][value='" +:+ genderValue +:+ "']");;
  v ← isVisible (Css "input[name='age0']") (Some 2000%N);
  when v (lwcType "input[name='age0']" (pretty (driver_age input)));;
  v ← isVisible (Css "input[name='driverAge0']") (Some 2000%N);
  when v (lwcType "input[name='driverAge0']" (pretty (licence_age input)));;
  (if (claims_last_5_years input =? 0)%Z
   then lwcRadioClick "input[name='hasClaims0'][value='No']"
   else
     lwcRadioClick "input[name='hasClaims0'][value='Yes']";;
     call (WaitForTimeout 500);;
     let claimsCountSelect := Css "select[name*='claim' i]" in
     v ← isVisible claimsCountSelect (Some 2000%N);
     when v
       (call (SelectOption claimsCountSelect
                (ByValue (JStr (pretty (claims_last_5_years input)))));;
        call (WaitForTimeout 300)));;
  call (Screenshot "/tmp/racv-step3-filled.png");;
  call (Evaluate "window.scrollTo(0, document.body.scrollHeight)");;
  call (WaitForTimeout 1000);;
  call (ScrollIntoViewIfNeeded continueBtn);;
  call (Click continueBtn).

(** *** The wait for the quote, with the system-error recovery *)

Definition quoteText : Locator := First (Css "text=/\$\d/").
Definition backBtn : Locator := HasText (Css "button, a") "/back to form/i".

(** Click BACK TO FORM and re-submit; [true] on [continue]. *)
Definition recover : Prog bool :=
  v ← isVisible backBtn (Some 3000%N);
  if v : bool then
    call (Click backBtn);;
    call (WaitForTimeout 5000);;
    v ← isVisible continueBtn (Some 5000%N);
    if v : bool then
      call (ScrollIntoViewIfNeeded continueBtn);;
      call (Click continueBtn);;
      mret true
    else mret false
  else mret false.

(** [for (let quoteAttempt = 0; quoteAttempt < 2; quoteAttempt++)],
    with [n] turns left. *)
Fixpoint waitForQuote (n : nat) : Prog unit :=
  match n with
  | O => mret tt
  | S n' =>
      quoteLoaded ← tryCatch (call (WaitFor quoteText 60000);; mret true)
                             (fun _ => mret false);
      if quoteLoaded : bool then mret tt
      else
        call (WaitForTimeout 2000);;
        bodyCheck ← textContent "body";
        (if test true systemErrorRe bodyCheck
         then recover;; mret tt
         else mret tt);;
        waitForQuote n'
  end.

(** *** Step 4: the quote page *)

Definition quoteScreenshot : string := "/tmp/racv-quote-result.png".

Definition successResult (vehicleDesc : string) (p : Premiums)
  (allAmounts : list string) : RacvQuoteResult :=
  {| success := true;
     vehicle_description := Some vehicleDesc;
     annual_premium := annualPremium p;
     monthly_premium := monthlyPremium p;
     excess_amount := excessAmount p;
     raw_amounts := Some allAmounts;
     screenshot_path := Some quoteScreenshot;
     error := None;
     step_reached := None |}.

Definition failureResult (vehicleDesc err step : string)
  (allAmounts : list string) : RacvQuoteResult :=
  {| success := false;
     vehicle_description := Some vehicleDesc;
     annual_premium := None;
     monthly_premium := None;
     excess_amount := None;
     raw_amounts := Some allAmounts;
     screenshot_path := Some quoteScreenshot;
     error := Some err;
     step_reached := Some step |}.

(** From [const resultText = ...] to the last [return] of the
    [try] block. *)
Definition extractQuote (vehicleDesc : string) : Prog RacvQuoteResult :=
  resultText ← textContent "body";
  call (AllTextContents (Css "h1:visible, h2:visible, h3:visible"));;
  let allAmounts := allAmountsOf resultText in
  match extractPremiums resultText with
  | None => Throw "Cannot read properties of undefined (reading 'replace')"
  | Some p =>
      if truthy (annualPremium p) || truthy (monthlyPremium p) then
        mret (successResult vehicleDesc p allAmounts)
      else
        currentErrors ←
          call (AllTextContents
                  (Css "[class*='error']:visible, [class*='Error']:visible"));
        if (0 <? length currentErrors)%nat then
          mret (failureResult vehicleDesc
                  ("Form validation errors: " +:+
                   join ", " (List.filter (fun e => nonempty (trim e)) currentErrors))
                  "about_you" allAmounts)
        else
          mret (failureResult vehicleDesc
                  "Reached the end of the form but could not extract a premium. The page may require additional steps."
                  "quote_result" allAmounts)
  end.

(** *** The whole flow *)

(** The start of the [try] block once the page exists. *)
Definition openSite : Prog unit :=
  call (Route "/\.(doubleclick\.net|googleads|adsrvr\.org|facebook\.net)\//");;
  call (Goto RACV_URL 30000);;
  call (WaitForTimeout 10000).

(** The [try] block after the attempt loop. *)
Definition afterResolve (input : RacvQuoteInput) (vehicleDesc : string)
  : Prog RacvQuoteResult :=
  if negb (nonempty vehicleDesc) then
    call (Screenshot "/tmp/racv-not-found.png");;
    mret (notFoundResult input)
  else
    addressError ← fillYourCar input;
    if addressError : bool then mret (addressErrorResult vehicleDesc)
    else
      call (Screenshot "/tmp/racv-step2-done.png");;
      fillAboutYou input;;
      waitForQuote 2;;
      call (WaitForTimeout 3000);;
      call (Screenshot quoteScreenshot);;
      extractQuote vehicleDesc.

(** The body of the [try] block once the page exists. *)
Definition flow (input : RacvQuoteInput) : Prog RacvQuoteResult :=
  openSite;;
  vehicleDesc ← resolveVehicle input 3 1 None;
  afterResolve input vehicleDesc.

Definition errorResult (msg : string) : RacvQuoteResult :=
  {| success := false;
     vehicle_description := None;
     annual_premium := None;
     monthly_premium := None;
     excess_amount := None;
     raw_amounts := None;
     screenshot_path := Some "/tmp/racv-error.png";
     error := Some ("Scraper error: " +:+ msg);
     step_reached := None |}.

(** The variables [browser] (module level), [context] and [page]
    after the first three statements of the [try] block, and the
    fault that interrupted them, if any. *)
Record Session : Type := {
  browser : option nat;
  context : option nat;
  page : option nat;
  fault : option string
}.

(** [try { m }], with the fault made a value. *)
Definition protect {A : Type} (m : Prog A) : Prog (Result A) :=
  tryCatch (a ← m; mret (Ok a)) (fun e => mret (Err e)).

(** [getBrowser()], [b.newContext(...)], [context.newPage()]. *)
Definition acquire (browser0 : option nat) : Prog Session :=
  r ← protect (getBrowser browser0);
  match r with
  | Err e =>
      mret {| browser := browser0; context := None; page := None;
              fault := Some e |}
  | Ok (browser1, b) =>
      r ← protect (call (NewContext b));
      match r with
      | Err e =>
          mret {| browser := browser1; context := None; page := None;
                  fault := Some e |}
      | Ok c =>
          r ← protect (call (NewPage c));
          match r with
          | Err e =>
              mret {| browser := browser1; context := Some c; page := None;
                      fault := Some e |}
          | Ok pg =>
              mret {| browser := browser1; context := Some c;
                      page := Some pg; fault := None |}
          end
      end
  end.

(** The [catch (error)] block. *)
Definition catchBlock (s : Session) (msg : string) : Prog RacvQuoteResult :=
  match page s with
  | Some _ => attempt (Screenshot "/tmp/racv-error.png") tt
  | None => mret tt
  end;;
  mret (errorResult msg).

(** The [finally] block. *)
Definition finallyBlock (s : Session) : Prog unit :=
  match page s with
  | Some pg => attempt (PageClose pg) tt
  | None => mret tt
  end;;
  match context s with
  | Some c => attempt (ContextClose c) tt
  | None => mret tt
  end.

(** [scrapeRacvQuote], from the value [browser0] of the module
    variable to its value after the call and the result. *)
Definition scrapeRacvQuote (input : RacvQuoteInput) (browser0 : option nat)
  : Prog (option nat * RacvQuoteResult) :=
  s ← acquire browser0;
  result ← tryCatch
             match fault s with
             | Some e => Throw e
             | None => flow input
             end
             (catchBlock s);
  finallyBlock s;;
  mret (browser s, result).

End WithPlatform.

End Scraper.

(** ** The manual-mode quote tool ([src/tools/get-motor-quote.ts]) *)

Module MotorQuote.
Import JS Page.

Inductive Parking : Type := garage | carport | street | driveway.

Record QuoteInput : Type := {
  vehicle_make : string;
  vehicle_model : string;
  vehicle_year : Z;
  postcode : string;
  driver_age : Z;
  claims_last_5_years : Z;
  parking_type : Parking
}.

Record Range : Type := { min : number; max : number }.

Record ExcessOption : Type := {
  amount : number;
  label : string;
  annual_premium : number;
  monthly_premium : number
}.

Record VehicleSummary : Type := {
  make : string;
  model : string;
  year : Z;
  category : string;
  estimated_value : number
}.

Record QuoteResult : Type := {
  quote_id : string;
  premium_range_annual : Range;
  premium_range_monthly : Range;
  excess_options : list ExcessOption;
  coverage_summary : list string;
  member_discount_available : bool;
  member_discount_pct : number;
  valid_until : string;
  vehicle : VehicleSummary;
  risk_zone : string;
  disclaimers : list string
}.

Inductive Source : Type := racv_website | mock.

(** The result type of the manual-mode scraper. *)
Record RacvScraperResult : Type := {
  success : bool;
  source : Source;
  scraped_annual_premium : option number;
  scraped_monthly_premium : option number;
  excess_standard : option number;
  screenshot_path : option string;
  error : option string;
  raw_text : option string
}.

(** [process.env.RACV_LIVE_QUOTES === "true"] *)
Definition USE_LIVE_SCRAPER (RACV_LIVE_QUOTES : option string) : bool :=
  match RACV_LIVE_QUOTES with
  | Some v => String.eqb v "true"
  | None => false
  end.

Definition spread : number := 0.05%float.
Definition discounts : list number := [0; 0.03; 0.07; 0.12]%float.

Definition spreadRange (x : number) : Range :=
  {| min := Math_round (x * (1 - spread));
     max := Math_round (x * (1 + spread)) |}%float.

(** [scraped.monthly_premium || Math.round((realAnnual / 12) * 1.05)] *)
Definition realMonthly (scraped : RacvScraperResult) (realAnnual : number)
  : number :=
  match scraped_monthly_premium scraped with
  | Some mp =>
      if truthy_num mp then mp else Math_round (realAnnual / 12 * 1.05)%float
  | None => Math_round (realAnnual / 12 * 1.05)%float
  end.

(** The callback of [quote.excess_options.map((opt, i) => ...)];
    an index past the table reads [undefined], which makes [NaN]. *)
Definition reprice (realAnnual : number) (i : nat) (opt : ExcessOption)
  : ExcessOption :=
  let discounted :=
    Math_round (realAnnual * (1 - nth i discounts nan))%float in
  {| amount := amount opt;
     label := label opt;
     annual_premium := discounted;
     monthly_premium := Math_round (discounted / 12 * 1.05)%float |}.

(** The quote after the override with real data. *)
Definition override (quote : QuoteResult) (scraped : RacvScraperResult)
  (realAnnual : number) : QuoteResult :=
  {| quote_id := quote_id quote;
     premium_range_annual := spreadRange realAnnual;
     premium_range_monthly := spreadRange (realMonthly scraped realAnnual);
     excess_options := imap (reprice realAnnual) (excess_options quote);
     coverage_summary := coverage_summary quote;
     member_discount_available := member_discount_available quote;
     member_discount_pct := member_discount_pct quote;
     valid_until := valid_until quote;
     vehicle := vehicle quote;
     risk_zone := risk_zone quote;
     disclaimers := disclaimers quote |}.

Section Handler.
(** The mock pricing engine; its data tables, the clock and the
    random quote id are outside the handler. *)
Variable calculateQuote : QuoteInput -> QuoteResult.
(** What awaiting the manual-mode [scrapeRacvQuote] gives. *)
Variable scrapeRacvQuote : QuoteInput -> Outcome RacvScraperResult.

(** The handler up to [sourceNote]: the quote placed in the
    structured content, and [liveSource]. *)
Definition getMotorQuote (RACV_LIVE_QUOTES : option string)
  (quoteInput : QuoteInput) : QuoteResult * bool :=
  let quote := calculateQuote quoteInput in
  if USE_LIVE_SCRAPER RACV_LIVE_QUOTES then
    match scrapeRacvQuote quoteInput with
    | Normal scraped =>
        match success scraped, scraped_annual_premium scraped with
        | true, Some realAnnual =>
            if truthy_num realAnnual
            then (override quote scraped realAnnual, true)
            else (quote, false)
        | _, _ => (quote, false)
        end
    | Thrown _ => (quote, false)
    end
  else (quote, false).

Definition sourceNote (liveSource : bool) : string :=
  if liveSource then "(Based on RACV website pricing)"
  else "(Indicative estimate)".
End Handler.

End MotorQuote.

(** ** The coverage tool ([src/tools/get-coverage.ts]) *)

Module Coverage.
Import JS.

Record CoverageInfo : Type := { title : string; details : list string }.

(** [const coverageData: Record<string, ...>] *)
Definition coverageData : gmap string CoverageInfo :=
  list_to_map [
    ("standard_inclusions",
     {| title := "Standard Coverage Inclusions";
        details := [
         "Accident damage — cover for damage to your car caused by a collision or accident, whether you're at fault or not";
         "Fire and theft — protection if your car is stolen or damaged by fire";
         "Storm, flood and hail damage — cover for weather-related damage including storms, floods and hail";
         "Windscreen and window glass — repair or replacement of damaged windscreens and windows with no excess for repairs";
         "Malicious damage and vandalism — cover if your car is intentionally damaged by someone else";
         "Personal items — up to $1,000 cover for personal belongings stolen from or damaged in your car";
         "Emergency accommodation and transport — up to $1,500 for accommodation and transport if your car is undriveable more than 100km from home";
         "New car replacement — if your car is less than 2 years old and is written off or stolen, we'll replace it with a new one of the same make and model";
         "Lifetime repair guarantee — repairs carried out by RACV approved repairers are guaranteed for the life of your ownership";
         "Towing — reasonable costs to tow your car to the nearest repairer or safe location after an insured incident";
         "Third party property damage — cover for damage you cause to other people's property with your car, up to $20 million";
         "24/7 claims support — lodge and manage your claim anytime via phone or online" ] |});
    ("optional_extras",
     {| title := "Optional Extras (available at additional cost)";
        details := [
         "Hire car after an incident — a hire car for up to 30 days while your car is being repaired or if it's stolen";
         "Hire car after not-at-fault incident — a hire car when the incident wasn't your fault, no additional cost";
         "Roadside assistance — RACV's roadside assistance bundle included with your policy";
         "Agreed value — lock in the payout amount for your car at the start of the policy, rather than market value at claim time";
         "Reduced excess for named drivers — lower your excess by nominating experienced drivers";
         "Trailer and caravan cover — extend your cover to include damage to a trailer or caravan while attached to your car";
         "Tools of trade — increased cover (up to $5,000) for tools and equipment carried in your vehicle for work" ] |});
    ("exclusions",
     {| title := "Key Exclusions";
        details := [
         "Mechanical or electrical failure or breakdown (not caused by an insured incident)";
         "Wear and tear, rust, corrosion, or gradual deterioration";
         "Damage from using the car for ride-share, hire, or racing/speed testing";
         "Intentional damage caused by you or someone acting with your consent";
         "Driving under the influence of alcohol or drugs";
         "Driving without a valid licence for the class of vehicle";
         "Pre-existing damage not disclosed at the time of purchase";
         "Damage caused while the car is being used for an unlawful purpose";
         "Tyre damage from road punctures, cuts, or bursts (unless part of a larger insured incident)";
         "Diminution in value — any reduction in your car's market value after repair";
         "Refer to the full PDS at racv.com.au/pds for all exclusions and conditions" ] |});
    ("excess_options",
     {| title := "Excess Options";
        details := [
         "Standard excess ($650) — the default excess amount applicable to most claims";
         "Voluntary excess ($800) — choose a slightly higher excess to reduce your premium by approximately 3%";
         "Higher voluntary excess ($1,000) — reduce your premium by approximately 7% with a $1,000 excess";
         "Maximum voluntary excess ($1,500) — the highest savings on your premium, approximately 12% reduction";
         "Age excess — an additional excess of $400-$900 applies for drivers under 25 years of age";
         "Inexperienced driver excess — an additional $400 excess applies if the driver has held their licence for less than 2 years";
         "Note: excesses are cumulative — e.g. a young inexperienced driver may pay standard + age + inexperienced driver excess" ] |});
    ("claims_process",
     {| title := "How to Make a Claim";
        details := [
         "1. Report the incident — call RACV on 13 19 03 (24/7) or lodge online at racv.com.au/claims";
         "2. Provide details — you'll need your policy number, details of the incident, photos if possible, and a police report number (if applicable)";
         "3. Assessment — RACV will assess your claim and may arrange an assessor to inspect the damage";
         "4. Repair — choose an RACV approved repairer for lifetime repair guarantee, or nominate your own repairer";
         "5. Excess payment — pay your applicable excess directly to the repairer when collecting your vehicle";
         "6. Settlement — if your car is a total loss, RACV will pay the agreed or market value minus your excess";
         "Average claim processing time: 1-3 business days for straightforward claims";
         "Urgent assistance: RACV can arrange towing and emergency support immediately after an incident" ] |}) ].

(** The [z.enum] of the input schema. *)
Inductive CoverageArea : Type :=
| standard_inclusions
| optional_extras
| exclusions
| excess_options
| claims_process.

Definition area_name (a : CoverageArea) : string :=
  match a with
  | standard_inclusions => "standard_inclusions"
  | optional_extras => "optional_extras"
  | exclusions => "exclusions"
  | excess_options => "excess_options"
  | claims_process => "claims_process"
  end.

Record CoverageDetails : Type := {
  area : string;
  data_title : string;
  data_details : list string
}.

(** The value the handler returns: the text of [content[0]] and the
    [data] of [structuredContent], when present. *)
Record ToolResult : Type := {
  text : string;
  structured : option CoverageDetails
}.

Definition newline : string := String (ascii_of_nat 10) EmptyString.

Definition notFoundText : string :=
  "Coverage area not found. Available areas: standard_inclusions, optional_extras, exclusions, excess_options, claims_process".

(** The lines joined into the text of a found area. *)
Definition coverageLines (info : CoverageInfo) : list string :=
  ["RACV Comprehensive Motor Insurance — " +:+ title info; ""]
  ++ map (fun d => "• " +:+ d) (details info)
  ++ [""; "For full details, refer to the Product Disclosure Statement (PDS) at racv.com.au/pds";
      "This information is general in nature and does not constitute personal financial advice."].

(** The handler of [get_coverage_details] on a validated input. *)
Definition getCoverageDetails (coverage_area : CoverageArea) : ToolResult :=
  match coverageData !! area_name coverage_area with
  | None => {| text := notFoundText; structured := None |}
  | Some info =>
      {| text := join newline (coverageLines info);
         structured :=
           Some {| area := area_name coverage_area;
                   data_title := title info;
                   data_details := details info |} |}
  end.

End Coverage.

(** ** Environments used to run the programs *)

Module Worlds.
Import JS Json Page.

(** A page that answers every query the same way at every step. *)
Record StaticPage : Type := {
  body : option string;
  visible : Locator -> bool;
  texts : Locator -> list string;
  counts : Locator -> nat;
  delivered : list Delivery;
  failing : Action -> option string
}.

Definition static_answer (w : StaticPage) (a : Action) : resp a :=
  match a return resp a with
  | IsConnected _ => true
  | Launch => 0%nat
  | NewContext _ => 1%nat
  | NewPage _ => 2%nat
  | IsVisible l _ => visible w l
  | Count l => counts w l
  | AllTextContents l => texts w l
  | TextContent _ => body w
  | Deliveries => delivered w
  | BrowserClose _ | Route _ | Goto _ _ | WaitForTimeout _ | Click _
  | WaitFor _ _ | ScrollIntoViewIfNeeded _ | DispatchEvent _ _
  | SelectOption _ _ | KeyboardPress _ | KeyboardType _ _ | Evaluate _
  | Screenshot _ | AwaitResponse _ | PageClose _ | ContextClose _ => tt
  end.

#[global] Instance static_env : Env StaticPage :=
  fun a w =>
    (match failing w a with
     | Some e => Err e
     | None => Ok (static_answer w a)
     end, w).

(** The browser engine as the resource sees it: the instances that
    are running, the next fresh instance, and whether the next
    launch fails. *)
Record Engine : Type := {
  next : nat;
  live : gset nat;
  launchFails : bool
}.

Definition engine_answer (a : Action) : resp a :=
  match a return resp a with
  | IsConnected _ | IsVisible _ _ => false
  | Launch | NewContext _ | NewPage _ | Count _ => 0%nat
  | AllTextContents _ => []
  | TextContent _ => None
  | Deliveries => []
  | BrowserClose _ | Route _ | Goto _ _ | WaitForTimeout _ | Click _
  | WaitFor _ _ | ScrollIntoViewIfNeeded _ | DispatchEvent _ _
  | SelectOption _ _ | KeyboardPress _ | KeyboardType _ _ | Evaluate _
  | Screenshot _ | AwaitResponse _ | PageClose _ | ContextClose _ => tt
  end.

#[global] Instance engine_env : Env Engine :=
  fun a w =>
    match a return Result (resp a) * Engine with
    | Launch =>
        if launchFails w then (Err "browserType.launch: failed", w)
        else (Ok (next w),
              {| next := S (next w); live := {[next w]} ∪ live w;
                 launchFails := launchFails w |})
    | IsConnected b => (Ok (bool_decide (b ∈ live w)), w)
    | BrowserClose b =>
        (Ok tt, {| next := next w; live := live w ∖ {[b]};
                   launchFails := launchFails w |})
    | a' => (Ok (engine_answer a'), w)
    end.

(** The service: the module variable [browser] and the engine. *)
Definition Service : Type := option nat * Engine.

(** One step of the service when calls do not overlap: a call of
    [getBrowser] or of [closeBrowser] run to its end before the next
    call starts, or an event of the engine.  Calls that overlap are
    in [Overlap] below. *)
Inductive step : Service -> Service -> Prop :=
| step_getBrowser h w h' b t w' :
    run (Scraper.getBrowser h) w = (Normal (h', b), t, w') ->
    step (h, w) (h', w')
| step_getBrowser_fault h w e t w' :
    run (Scraper.getBrowser h) w = (Thrown e, t, w') ->
    step (h, w) (h, w')
| step_closeBrowser h w h' t w' :
    run (Scraper.closeBrowser h) w = (Normal h', t, w') ->
    step (h, w) (h', w')
| step_crash h w b :
    step (h, w) (h, {| next := next w; live := live w ∖ {[b]};
                        launchFails := launchFails w |})
| step_launch_mode h w f :
    step (h, w) (h, {| next := next w; live := live w; launchFails := f |}).

(** *** Concrete inputs and pages *)

(** A platform whose [JSON.parse] knows two texts: [auraBody], which
    stands for a lookup response, and [auraInner], which stands for
    the document that response wraps as a string. *)
Definition auraBody : string := "{actions:[{state:SUCCESS,returnValue:...}]}".
Definition auraInner : string := "{vehicles:[{vehicle:{...}}]}".

Definition auraInnerJson : json :=
  JObj [("vehicles",
         JArr [JObj [("vehicle",
                      JObj [("yearCreate", JStr "2011");
                            ("makeName", JStr "Toyota");
                            ("familyName", JStr "Corolla");
                            ("bodyStyleName", JStr "Sedan");
                            ("variantName", JStr "Ascent")])]])].

Definition auraBodyJson : json :=
  JObj [("actions",
         JArr [JObj [("state", JStr "SUCCESS");
                     ("returnValue",
                      JObj [("returnValue",
                             JObj [("returnValue", JStr auraInner)])])]])].

#[global] Instance samplePlatform : Platform := {|
  JSON_parse s :=
    if String.eqb s auraBody then Some auraBodyJson
    else if String.eqb s auraInner then Some auraInnerJson
    else None;
  NumberToString _ := "0";
  RegExp_compiles _ := true;
  RegExp_message src :=
    "Invalid regular expression: /" +:+ src +:+ "/i: Unterminated group"
|}.

Definition sampleInput : Scraper.RacvQuoteInput := {|
  Scraper.rego := "ABC123";
  Scraper.address := "80 Bourke Street Melbourne";
  Scraper.driver_age := 35;
  Scraper.driver_gender := Scraper.male;
  Scraper.licence_age := 18;
  Scraper.claims_last_5_years := 0;
  Scraper.is_racv_member := Some false;
  Scraper.under_finance := None;
  Scraper.purpose := None
|}.

(** A page on which nothing is visible and nothing fails. *)
Definition emptyPage : StaticPage := {|
  body := None;
  visible _ := false;
  texts _ := [];
  counts _ := 0%nat;
  delivered := [];
  failing _ := None
|}.

(** Nothing is visible and nothing fails but the snapshot taken when
    the lookup has failed. *)
Definition noSnapshotPage : StaticPage := {|
  body := None;
  visible _ := false;
  texts _ := [];
  counts _ := 0%nat;
  delivered := [];
  failing a := match a with
               | Screenshot "/tmp/racv-not-found.png" =>
                   Some "page.screenshot: Protocol error"
               | _ => None
               end
|}.

(** The engine cannot be launched. *)
Definition noBrowser : StaticPage := {|
  body := None;
  visible _ := false;
  texts _ := [];
  counts _ := 0%nat;
  delivered := [];
  failing a := match a with
               | Launch => Some "browserType.launch: executable not found"
               | _ => None
               end
|}.

(** The lookup succeeds and the form goes through, but the last page
    shows no dollar amount and no error. *)
Definition blankQuotePage : StaticPage := {|
  body := Some "Your car: 2011 TOYOTA COROLLA";
  visible _ := true;
  texts _ := [];
  counts _ := 0%nat;
  delivered := [];
  failing _ := None
|}.

(** The lookup succeeds, then every wait for the quote times out on a
    page that shows the system-error message, with BACK TO FORM and
    Continue both visible. *)
Definition systemErrorPage : StaticPage := {|
  body := Some "Your car: 2011 TOYOTA COROLLA. A system error has occurred.";
  visible _ := true;
  texts _ := [];
  counts _ := 0%nat;
  delivered := [];
  failing a := match a with
               | WaitFor _ 60000 => Some "Timeout 60000ms exceeded"
               | _ => None
               end
|}.

(** The record [extractVehicleFromAuraResponse] builds from
    [auraBody]. *)
Definition sampleVehicle : Scraper.VehicleInfo := {|
  Scraper.year := JStr "2011";
  Scraper.make := JStr "Toyota";
  Scraper.model := JStr "Corolla";
  Scraper.bodyType := JStr "Sedan";
  Scraper.variant := JStr "Ascent";
  Scraper.description := "2011 TOYOTA Corolla Ascent"
|}.

(** The form after a failed lookup: the not-found message, one
    visible select per step with the same options, and the backend
    response already handled. *)
Definition manualPage : StaticPage := {|
  body := Some "Sorry, we couldn't find a vehicle with that registration";
  visible _ := true;
  texts l := match l with
             | Sub (Nth _ _) _ =>
                 ["Select an option"; "  TOYOTA  "; "COROLLA"; "SEDAN"]
             | _ => []
             end;
  counts _ := 1%nat;
  delivered := [ViaWaiter auraBody];
  failing _ := None
|}.

(** The same form, with a blank first option in every select. *)
Definition blankOptionPage : StaticPage := {|
  body := Some "Sorry, we couldn't find a vehicle with that registration";
  visible _ := true;
  texts l := match l with
             | Sub (Nth _ _) _ => [""; "TOYOTA"; "COROLLA"; "SEDAN"]
             | _ => []
             end;
  counts _ := 1%nat;
  delivered := [ViaWaiter auraBody];
  failing _ := None
|}.

(** The selections of a trace. *)
Definition selections (t : list Obs) : list SelectArg :=
  omap (fun o => match action_of o with
                 | SelectOption _ v => Some v
                 | _ => None
                 end) t.

(** A manual-mode request, a mock quote and a scraped result. *)
Definition sampleQuoteInput : MotorQuote.QuoteInput := {|
  MotorQuote.vehicle_make := "Toyota";
  MotorQuote.vehicle_model := "Corolla";
  MotorQuote.vehicle_year := 2022;
  MotorQuote.postcode := "3000";
  MotorQuote.driver_age := 22;
  MotorQuote.claims_last_5_years := 0;
  MotorQuote.parking_type := MotorQuote.street
|}.

Definition sampleQuote : MotorQuote.QuoteResult := {|
  MotorQuote.quote_id := "RACV-1A2B3C4D";
  MotorQuote.premium_range_annual :=
    {| MotorQuote.min := 1800%float; MotorQuote.max := 2200%float |};
  MotorQuote.premium_range_monthly :=
    {| MotorQuote.min := 158%float; MotorQuote.max := 193%float |};
  MotorQuote.excess_options :=
    [ {| MotorQuote.amount := 650%float; MotorQuote.label := "Standard";
         MotorQuote.annual_premium := 2000%float;
         MotorQuote.monthly_premium := 175%float |} ];
  MotorQuote.coverage_summary := ["Accident damage"];
  MotorQuote.member_discount_available := true;
  MotorQuote.member_discount_pct := 10%float;
  MotorQuote.valid_until := "2026-12-02";
  MotorQuote.vehicle :=
    {| MotorQuote.make := "Toyota"; MotorQuote.model := "Corolla";
       MotorQuote.year := 2022; MotorQuote.category := "economy";
       MotorQuote.estimated_value := 21000%float |};
  MotorQuote.risk_zone := "high";
  MotorQuote.disclaimers := ["This is an indicative quote only."]
|}.

Definition sampleScraped : MotorQuote.RacvScraperResult := {|
  MotorQuote.success := true;
  MotorQuote.source := MotorQuote.racv_website;
  MotorQuote.scraped_annual_premium := Some 1000%float;
  MotorQuote.scraped_monthly_premium := None;
  MotorQuote.excess_standard := None;
  MotorQuote.screenshot_path := Some "/tmp/racv-result.png";
  MotorQuote.error := None;
  MotorQuote.raw_text := None
|}.

Definition initial : Service :=
  (None, {| next := 0; live := ∅; launchFails := false |}).

End Worlds.

(** ** Calls of the browser resource that overlap

    [getBrowser] tests [browser] and, when it has to launch, is
    suspended at [await chromium.launch(...)]; it assigns [browser]
    when it goes on.  [closeBrowser] tests [browser], is suspended
    at [await browser.close()] and resets [browser] when it goes on.
    While a call is suspended other calls may start. *)

Module Overlap.
Import JS Page Worlds.

(** A call suspended at its [await]. *)
Inductive Suspended : Type :=
| AtLaunch                (* [getBrowser] at [await chromium.launch] *)
| AtClose (b : nat).      (* [closeBrowser] at [await b.close()] *)

Record Process : Type := {
  browser : option nat;           (* the module variable *)
  engine : Engine;
  suspended : list Suspended
}.

Definition initial : Process :=
  {| browser := Worlds.initial.1; engine := Worlds.initial.2;
     suspended := [] |}.

Inductive Event : Type :=
| CallGetBrowser          (* a call starts and runs to its [await] *)
| CallCloseBrowser
| Resume (i : nat)        (* the suspended call number [i] goes on *)
| Crash (b : nat)         (* the engine instance [b] dies *)
| LaunchMode (fails : bool).

Definition suspend (c : Suspended) (p : Process) : Process :=
  {| browser := browser p; engine := engine p;
     suspended := suspended p ++ [c] |}.

(** A suspended call goes on with the answer of the engine: the
    assignment after the [await], or a rejection that leaves
    [browser] as it is. *)
Definition resume (c : Suspended) (rest : list Suspended) (p : Process)
  : Process :=
  match c with
  | AtLaunch =>
      match respond Launch (engine p) with
      | (Ok b, e) => {| browser := Some b; engine := e; suspended := rest |}
      | (Err _, e) =>
          {| browser := browser p; engine := e; suspended := rest |}
      end
  | AtClose b =>
      match respond (BrowserClose b) (engine p) with
      | (Ok _, e) => {| browser := None; engine := e; suspended := rest |}
      | (Err _, e) =>
          {| browser := browser p; engine := e; suspended := rest |}
      end
  end.

Definition fire (ev : Event) (p : Process) : Process :=
  match ev with
  | CallGetBrowser =>
      (* [if (!browser || !browser.isConnected())] *)
      match browser p with
      | Some b =>
          match (respond (IsConnected b) (engine p)).1 with
          | Ok true => p                  (* [return browser] *)
          | Ok false => suspend AtLaunch p
          | Err _ => p
          end
      | None => suspend AtLaunch p
      end
  | CallCloseBrowser =>
      (* [if (browser)] *)
      match browser p with
      | Some b => suspend (AtClose b) p
      | None => p
      end
  | Resume i =>
      match suspended p !! i with
      | Some c => resume c (delete i (suspended p)) p
      | None => p
      end
  | Crash b =>
      {| browser := browser p;
         engine := {| next := next (engine p);
                      live := live (engine p) ∖ {[b]};
                      launchFails := launchFails (engine p) |};
         suspended := suspended p |}
  | LaunchMode f =>
      {| browser := browser p;
         engine := {| next := next (engine p); live := live (engine p);
                      launchFails := f |};
         suspended := suspended p |}
  end.

Definition fires (evs : list Event) (p : Process) : Process :=
  fold_left (fun q ev => fire ev q) evs p.

(** A call starts. *)
Definition starts (ev : Event) : bool :=
  match ev with
  | CallGetBrowser | CallCloseBrowser => true
  | _ => false
  end.

(** The processes reached when calls may overlap, and when every
    call starts only while no other call is suspended. *)
Inductive reachable : Process -> Prop :=
| reachable_initial : reachable initial
| reachable_fire p ev : reachable p -> reachable (fire ev p).

Inductive serially : Process -> Prop :=
| serially_initial : serially initial
| serially_fire p ev :
    serially p -> (starts ev = true -> suspended p = []) ->
    serially (fire ev p).

(** Every running instance is the one the module variable holds. *)
Definition held_only (p : Process) : Prop :=
  forall b, b ∈ live (engine p) -> browser p = Some b.

End Overlap.

(** ** Predicates on traces *)

Module Traces.
Import JS Json Regex Page.

(** The actions on the browser resource and on the session. *)
Definition session_action (a : Action) : bool :=
  match a with
  | IsConnected _ | Launch | BrowserClose _ | NewContext _ | NewPage _
  | PageClose _ | ContextClose _ => true
  | _ => false
  end.

(** The click on [findBtn] that starts a lookup. *)
Definition is_find_click (a : Action) : bool :=
  match a with
  | Click (HasText (Css sel) re) => String.eqb sel "button" && String.eqb re "/Find/i"
  | _ => false
  end.

(** The click on [backBtn] that starts a recovery cycle. *)
Definition is_back_click (a : Action) : bool :=
  match a with
  | Click (HasText (Css sel) re) =>
      String.eqb sel "button, a" && String.eqb re "/back to form/i"
  | _ => false
  end.

(** The click on [continueBtn] that submits a stage. *)
Definition is_continue_click (a : Action) : bool :=
  match a with
  | Click (HasText (Css sel) re) =>
      String.eqb sel "button" && String.eqb re "/Continue/i"
  | _ => false
  end.

Definition count_actions (P : Action -> bool) (t : list Obs) : nat :=
  length (List.filter (fun o => P (action_of o)) t).

(** Actions of the flow other than the lookup click. *)
Definition quiet (a : Action) : bool :=
  negb (session_action a) && negb (is_find_click a).

(** Every action of every run of [p] satisfies [P]. *)
Definition always {A : Type} (P : Action -> Prop) (p : Prog A) : Prop :=
  wp p (fun t _ => Forall (fun o => P (action_of o)) t).

(** Every value [p] returns satisfies [R]. *)
Definition returns {A : Type} (R : A -> Prop) (p : Prog A) : Prop :=
  wp p (fun _ o => match o with Normal a => R a | Thrown _ => True end).

(** [p] never throws, and every value it returns satisfies [R]. *)
Definition total {A : Type} (R : A -> Prop) (p : Prog A) : Prop :=
  wp p (fun _ o => exists a, o = Normal a /\ R a).

(** The flow never touches the session and clicks Find only in
    [enterRego]. *)
Definition Quiet (a : Action) : Prop := quiet a = true.

Definition NoSession (a : Action) : Prop := session_action a = false.
Definition NoFind (a : Action) : Prop := is_find_click a = false.

(** No run of [p] clicks Find more than [n] times. *)
Definition clicksAtMost {A : Type} (n : nat) (p : Prog A) : Prop :=
  wp p (fun t _ => count_actions is_find_click t <= n).

(** The page an observed step has opened, if it is a successful
    [newPage]. *)
Definition opened_page (o : Obs) : option nat :=
  match o with
  | existT a r =>
      match a as a' return Result (resp a') -> option nat with
      | NewPage _ => fun r' => match r' with Ok pg => Some pg | Err _ => None end
      | _ => fun _ => None
      end r
  end.

(** The context an observed step has opened, if it is a successful
    [newContext]. *)
Definition opened_context (o : Obs) : option nat :=
  match o with
  | existT a r =>
      match a as a' return Result (resp a') -> option nat with
      | NewContext _ => fun r' => match r' with Ok c => Some c | Err _ => None end
      | _ => fun _ => None
      end r
  end.

Definition closes_page (pg : nat) (o : Obs) : Prop := action_of o = PageClose pg.
Definition closes_context (c : nat) (o : Obs) : Prop :=
  action_of o = ContextClose c.

(** Whatever [o] has opened is closed in [rest]. *)
Definition released_in (rest : list Obs) (o : Obs) : Prop :=
  (forall pg, opened_page o = Some pg -> Exists (closes_page pg) rest) /\
  (forall c, opened_context o = Some c -> Exists (closes_context c) rest).

(** Every page and context opened in [t] is closed later in [t]. *)
Fixpoint released (t : list Obs) : Prop :=
  match t with
  | [] => True
  | o :: t' => released_in t' o /\ released t'
  end.

(** The handles of the session [s] are closed in [t]. *)
Definition closes_session (page context : option nat) (t : list Obs) : Prop :=
  (forall pg, page = Some pg -> Exists (closes_page pg) t) /\
  (forall c, context = Some c -> Exists (closes_context c) t).

(** [o] opens nothing but what the session [s] holds. *)
Definition held_by (page context : option nat) (o : Obs) : Prop :=
  (forall pg, opened_page o = Some pg -> page = Some pg) /\
  (forall c, opened_context o = Some c -> context = Some c).

(** *** Invariants of results *)

Definition premium_set (r : Scraper.RacvQuoteResult) : Prop :=
  truthy (Scraper.annual_premium r) = true \/
  truthy (Scraper.monthly_premium r) = true.

(** A string field that is set and not empty. *)
Definition filled (x : option string) : Prop :=
  exists s, x = Some s /\ nonempty s = true.

(** The invariant of the data model, as the specification states it. *)
Definition stated_invariant (r : Scraper.RacvQuoteResult) : Prop :=
  (Scraper.success r = true ->
   is_Some (Scraper.annual_premium r) \/ is_Some (Scraper.monthly_premium r)) /\
  (Scraper.success r = false ->
   filled (Scraper.step_reached r) /\ filled (Scraper.error r)).

(** The invariant on the returns of the [try] block. *)
Definition handled_invariant (r : Scraper.RacvQuoteResult) : Prop :=
  (Scraper.success r = true -> premium_set r) /\
  (Scraper.success r = false ->
   filled (Scraper.step_reached r) /\ filled (Scraper.error r)).

(** The invariant on every return: the [catch] block sets no
    [step_reached]. *)
Definition result_invariant (r : Scraper.RacvQuoteResult) : Prop :=
  (Scraper.success r = true -> premium_set r) /\
  (Scraper.success r = false ->
   filled (Scraper.error r) /\
   (filled (Scraper.step_reached r) \/
    (Scraper.step_reached r = None /\
     exists msg, r = Scraper.errorResult msg))).

(** *** Dollar amounts in a text *)

Definition amount_char : ascii -> bool := either digit (one_of ",").

(** The text holds a [$] followed by a digit or a comma. *)
Definition HasAmount (s : list ascii) : Prop :=
  exists pre c rest,
    s = (pre ++ "$"%char :: c :: rest)%list /\ amount_char c = true.

(** A result of the extraction stage: a success, or a failure tagged
    with one of the two steps that stage reports. *)
Definition extraction_result (r : Scraper.RacvQuoteResult) : Prop :=
  Scraper.success r = true \/
  Scraper.step_reached r = Some "about_you" \/
  Scraper.step_reached r = Some "quote_result".

(** [raw_amounts] as the specification states it. *)
Definition stated_raw_amounts (r : Scraper.RacvQuoteResult) : Prop :=
  extraction_result r ->
  exists a l, Scraper.raw_amounts r = Some (a :: l).

(** [raw_amounts] as the code has it: set, and not empty on success. *)
Definition raw_amounts_invariant (r : Scraper.RacvQuoteResult) : Prop :=
  extraction_result r ->
  exists l, Scraper.raw_amounts r = Some l /\
            (Scraper.success r = true -> l <> []).

(** *** The browser resource *)

(** Every running instance is the one the module variable holds. *)
Definition held_only (s : Worlds.Service) : Prop :=
  forall b, b ∈ Worlds.live s.2 -> s.1 = Some b.

(** The services reachable from the start of the process. *)
Inductive reachable : Worlds.Service -> Prop :=
| reachable_initial : reachable Worlds.initial
| reachable_step s s' : reachable s -> Worlds.step s s' -> reachable s'.

(** *** Matching an option against the captured record *)

(** [a] contains [b], letter case aside. *)
Definition ci_includes (a b : string) : bool :=
  includes (toUpperCase a) (toUpperCase b).

(** For make and model: the option's text contains the record's
    text, or the record's text contains the trimmed option's text. *)
Definition field_match (rec o : string) : bool :=
  ci_includes o rec || ci_includes rec (trim o).

(** For the body type: the same with the option's text trimmed on
    both sides. *)
Definition body_match (rec o : string) : bool :=
  ci_includes (trim o) rec || ci_includes rec (trim o).

(** The label chosen among the options of one select, stated apart
    from the code: the first option that matches decides; it is
    chosen by its trimmed text, and nothing is chosen when that is
    empty. *)
Definition first_match (matches : string -> string -> bool) (rec : string)
  (options : list string) : option string :=
  match List.find (matches rec) options with
  | Some o => if nonempty (trim o) then Some (trim o) else None
  | None => None
  end.

(** What an action of the manual search may be, for the captured
    record [cv]: a selection by label takes the non-empty trimmed
    text of an option that matches the make or the model of [cv] as
    [field_match] has it, or the body type as [body_match] has it; a
    selection by value takes the year of [cv]. *)
Definition driven_by (cv : Scraper.VehicleInfo) (a : Action) : Prop :=
  match a with
  | SelectOption _ (ByLabel label) =>
      exists rec o,
        label = trim o /\ nonempty label = true /\
        (((Scraper.make cv = JStr rec \/ Scraper.model cv = JStr rec) /\
          field_match rec o = true) \/
         (Scraper.bodyType cv = JStr rec /\ body_match rec o = true))
  | SelectOption _ (ByValue v) => v = Scraper.year cv
  | _ => True
  end.

(** The selections of a trace, with the select each is made on. *)
Definition selects (t : list Obs) : list (Locator * SelectArg) :=
  omap (fun o => match action_of o with
                 | SelectOption l v => Some (l, v)
                 | _ => None
                 end) t.

(** The visible selects are tried in order from index [i], [n] of
    them: the first whose options give a label gets it selected. *)
Fixpoint scan (pick : list string -> option string)
  (options : nat -> list string) (n i : nat) : list (Locator * SelectArg) :=
  match n with
  | O => []
  | S n' =>
      match pick (options i) with
      | Some label => [(Nth Scraper.visibleSelects i, ByLabel label)]
      | None => scan pick options n' (S i)
      end
  end.

(** The selections of the manual search on a page that answers every
    query the same way each time, for a record with the year [year
    cv] and the make, model and body type [mk], [md], [bd]. *)
Definition expected_selects (page : Worlds.StaticPage)
  (cv : Scraper.VehicleInfo) (mk md bd : string)
  : list (Locator * SelectArg) :=
  let yearEl :=
    Scraper.yearElement (Worlds.counts page Scraper.yearSelectByName) in
  let options i :=
    Worlds.texts page (Sub (Nth Scraper.visibleSelects i) "option") in
  let n := Worlds.counts page Scraper.visibleSelects in
  (if Worlds.visible page yearEl
   then [(yearEl, ByValue (Scraper.year cv))] else [])
  ++ scan (first_match field_match mk) options n 0
  ++ scan (first_match field_match md) options n 0
  ++ scan (first_match body_match bd) options n 0.

(** The observation is what the page [page] answers. *)
Definition agrees (page : Worlds.StaticPage) (o : Obs) : Prop :=
  match o with
  | existT a r =>
      match r with
      | Ok x => x = Worlds.static_answer page a
      | Err _ => False
      end
  end.

(** Every text of every list the page shows is ASCII. *)
Definition ascii_texts (page : Worlds.StaticPage) : Prop :=
  forall l, forallb ascii_text (Worlds.texts page l) = true.

(** The texts an observation has read are ASCII. *)
Definition ascii_read (o : Obs) : Prop :=
  match o with
  | existT a r =>
      match a as a' return Result (resp a') -> Prop with
      | AllTextContents _ =>
          fun r' => match r' with
                    | Ok l => forallb ascii_text l = true
                    | Err _ => True
                    end
      | _ => fun _ => True
      end r
  end.

(** The make, the model and the body type of the record are ASCII
    where they are strings. *)
Definition ascii_fields (cv : Scraper.VehicleInfo) : Prop :=
  forall rec,
    Scraper.make cv = JStr rec \/ Scraper.model cv = JStr rec \/
    Scraper.bodyType cv = JStr rec ->
    ascii_text rec = true.

(** An action that selects nothing. *)
Definition NoSelect (a : Action) : Prop :=
  match a with
  | SelectOption _ _ => False
  | _ => True
  end.

(** *** The lookup attempts *)

(** The form's link back to the registration search, or a load of
    the start page. *)
Definition is_navigation (a : Action) : bool :=
  match a with
  | Goto url _ => String.eqb url Scraper.RACV_URL
  | Click (HasText (Css sel) re) =>
      String.eqb sel "a, button" && String.eqb re "/search by registration/i"
  | _ => false
  end.

Definition succeeded (o : Obs) : bool :=
  match o with
  | existT _ (Ok _) => true
  | existT _ (Err _) => false
  end.

(** Every lookup of [t] follows a navigation that has succeeded,
    with no other lookup in between; [ready] tells whether such a
    navigation precedes [t]. *)
Fixpoint fresh_lookups (ready : bool) (t : list Obs) : bool :=
  match t with
  | [] => true
  | o :: t' =>
      if is_find_click (action_of o) then ready && fresh_lookups false t'
      else if is_navigation (action_of o) && succeeded o
           then fresh_lookups true t'
           else fresh_lookups ready t'
  end.

Fixpoint ready_after (ready : bool) (t : list Obs) : bool :=
  match t with
  | [] => ready
  | o :: t' =>
      if is_find_click (action_of o) then ready_after false t'
      else if is_navigation (action_of o) && succeeded o
           then ready_after true t'
           else ready_after ready t'
  end.

(** Actions that are neither a lookup nor a navigation. *)
Definition neutral (a : Action) : bool :=
  negb (is_find_click a) && negb (is_navigation a).
Definition Neutral (a : Action) : Prop := neutral a = true.

Definition is_heading_list (l : Locator) : bool :=
  match l with
  | Css sel => String.eqb sel "h1, h2, h3, h4, h5" || String.eqb sel "h2, h3, h4"
  | _ => false
  end.

(** The observation confirms no vehicle: it is not the address field
    seen, and when it is a list of headings they are ASCII and none
    looks like a car. *)
Definition confirms_nothing (o : Obs) : bool :=
  match o with
  | existT a r =>
      match a as a' return Result (resp a') -> bool with
      | IsVisible (Css sel) _ =>
          fun r' =>
            negb (String.eqb sel "input[name='addressSearch']")
            || match r' with
               | Ok true => false
               | _ => true
               end
      | AllTextContents l =>
          fun r' =>
            negb (is_heading_list l)
            || match r' with
               | Ok hs =>
                   forallb (fun h => ascii_text h
                                     && negb (test false Scraper.headingRe
                                                (trim h))) hs
               | Err _ => true
               end
      | _ => fun _ => true
      end r
  end.

Definition NoCar (o : Obs) : Prop := confirms_nothing o = true.

(** No observation of the trace confirms a vehicle. *)
Definition unconfirmed (t : list Obs) : Prop := forallb confirms_nothing t = true.

(** The snapshot of the failed lookup, taken. *)
Definition notFoundSnapshot : Obs :=
  obs (Screenshot "/tmp/racv-not-found.png") (Ok tt).

Definition takes_snapshot (a : Action) : bool :=
  match a with
  | Screenshot path => String.eqb path "/tmp/racv-not-found.png"
  | _ => false
  end.
Definition NoSnapshot (a : Action) : Prop := takes_snapshot a = false.

(** In every run of [p] whose observations all satisfy [G], the trace
    and the outcome satisfy [Q]. *)
Definition given {A : Type} (G : Obs -> Prop)
  (Q : list Obs -> Outcome A -> Prop) (p : Prog A) : Prop :=
  wp p (fun t o => Forall G t -> Q t o).

(** The result of a wait loop or of a manual search that has
    confirmed no vehicle. *)
Definition nothing_found (o : Outcome (Scraper.WaitResult * option Scraper.VehicleInfo)) : Prop :=
  match o with
  | Normal (Scraper.Found _, _) => False
  | _ => True
  end.

Definition no_description {A : Type} (get : A -> option string)
  (o : Outcome A) : Prop :=
  match o with
  | Normal a => get a = None
  | Thrown _ => True
  end.

(** The captured record is absent or well-formed. *)
Definition captured_ok `{Platform} (c : option Scraper.VehicleInfo) : Prop :=
  forall v, c = Some v -> Scraper.wellFormed v = true.

End Traces.

(* ===================================================================== *)
(** * Part I, continued: the rest of the quoting code

    Further sources followed here:
    - [src/tools/start-full-quote.ts]: the hand-off link;
    - [src/tools/get-motor-quote.ts] (registration mode): the tool
      handler around the registration-mode scraper;
    - [src/utils/racv-scraper.ts] (manual mode): [selectByLabel],
      [scrapeRacvQuote] and its extraction step;
    - [src/utils/quote-calculator.ts]: the mock pricing engine.       *)
(* ===================================================================== *)

(** ** Conduct of a run: what the scraper does and how much *)

Module Conduct.
Import JS Json Regex Page Scraper Traces.

(** What [scrapeRacvQuote] may do on behalf of [input]: it leaves the
    shared browser open, loads the quote site only, types the four
    texts of the request only, presses three keys only and writes its
    snapshots under one prefix. *)
Definition permitted (input : RacvQuoteInput) (a : Action) : Prop :=
  match a with
  | BrowserClose _ => False
  | Goto url _ => url = RACV_URL
  | KeyboardType txt _ =>
      In txt [rego input; address input; pretty (driver_age input);
              pretty (licence_age input)]
  | KeyboardPress key => In key ["Meta+a"; "Backspace"; "Tab"]
  | Screenshot path => starts_with (chars "/tmp/racv-") (chars path) = true
  | _ => True
  end.

(** Actions that read the page or let time pass. *)
Definition observes (a : Action) : bool :=
  match a with
  | WaitForTimeout _ | IsVisible _ _ | TextContent _ | AllTextContents _
  | Deliveries | Count _ => true
  | _ => false
  end.

Definition Observes (a : Action) : Prop := observes a = true.

(** *** Costs *)

(** The cost of a trace, for a cost per action. *)
Definition tally (cost : Action -> N) (t : list Obs) : N :=
  foldr (fun o acc => (cost (action_of o) + acc)%N) 0%N t.

(** No run of [p] costs more than [n]. *)
Definition spends {A : Type} (cost : Action -> N) (n : N) (p : Prog A) : Prop :=
  wp p (fun t _ => (tally cost t <= n)%N).

Definition indicator (P : Action -> bool) (a : Action) : N :=
  if P a then 1%N else 0%N.

(** The milliseconds of an explicit sleep. *)
Definition sleep (a : Action) : N :=
  match a with
  | WaitForTimeout ms => ms
  | _ => 0%N
  end.

Definition is_launch (a : Action) : bool :=
  match a with Launch => true | _ => false end.
Definition is_new_context (a : Action) : bool :=
  match a with NewContext _ => true | _ => false end.
Definition is_new_page (a : Action) : bool :=
  match a with NewPage _ => true | _ => false end.
Definition is_goto (a : Action) : bool :=
  match a with Goto _ _ => true | _ => false end.
Definition is_typing (a : Action) : bool :=
  match a with KeyboardType _ _ => true | _ => false end.

(** *** Snapshots *)

(** The run has written the snapshot [path]. *)
Definition shot (path : string) (t : list Obs) : Prop :=
  In (obs (Screenshot path) (Ok tt)) t.

(** The snapshot a result names was written in the run. *)
Definition documented (t : list Obs) (r : RacvQuoteResult) : Prop :=
  forall path, screenshot_path r = Some path -> shot path t.

(** A result of the [try] block: a success or a tagged failure. *)
Definition handled (r : RacvQuoteResult) : Prop :=
  success r = true \/ is_Some (step_reached r).

(** The snapshot of every handled result of [p] is in the run. *)
Definition documents (p : Prog RacvQuoteResult) : Prop :=
  wp p (fun t o => forall r, o = Normal r -> handled r -> documented t r).

(** *** The shape of a result *)

(** The steps at which the vehicle is known. *)
Definition past_lookup (step : option string) : Prop :=
  step = Some "your_car" \/ step = Some "about_you" \/
  step = Some "quote_result".

Definition result_shape (r : RacvQuoteResult) : Prop :=
  (success r = true ->
   filled (vehicle_description r) /\
   screenshot_path r = Some quoteScreenshot /\
   is_Some (raw_amounts r) /\
   error r = None /\ step_reached r = None) /\
  (success r = false ->
   annual_premium r = None /\ monthly_premium r = None /\
   excess_amount r = None /\
   (past_lookup (step_reached r) /\ filled (vehicle_description r) \/
    (step_reached r = Some "rego_lookup" \/ step_reached r = None) /\
    vehicle_description r = None)).

(** *** The captured record *)

Definition body_of (d : Delivery) : string :=
  match d with
  | ViaListener _ body => body
  | ViaWaiter body => body
  end.

(** The listener handles the backend calls only. *)
Definition heard (d : Delivery) : bool :=
  match d with
  | ViaListener url _ => isAuraCall url
  | ViaWaiter _ => true
  end.

End Conduct.

(** ** Further sample data *)

Module Samples.
Import JS Json Page.

(** A platform whose regular expressions reject an unbalanced
    opening parenthesis. *)
Definition strictPlatform : Platform := {|
  JSON_parse := @JSON_parse Worlds.samplePlatform;
  NumberToString := @NumberToString Worlds.samplePlatform;
  RegExp_compiles s := negb (includes s "(") || includes s ")";
  RegExp_message src :=
    "Invalid regular expression: /" +:+ src +:+ "/i: Unterminated group"
|}.

(** A request whose address starts with an opening parenthesis. *)
Definition bracketInput : Scraper.RacvQuoteInput := {|
  Scraper.rego := "ABC123";
  Scraper.address := "(Rear 80 Bourke Street Melbourne";
  Scraper.driver_age := 35;
  Scraper.driver_gender := Scraper.female;
  Scraper.licence_age := 18;
  Scraper.claims_last_5_years := 1;
  Scraper.is_racv_member := None;
  Scraper.under_finance := None;
  Scraper.purpose := None
|}.

(** A quote page with labelled and unlabelled amounts. *)
Definition quotePageText : string :=
  "Your car: 2011 TOYOTA COROLLA. Excess $800. Pay $1,234.56 today or $110.20 each month.".

End Samples.

(** ** More of the JavaScript library *)

Module JSLib.
Import JS.

Definition lower_char (c : ascii) : ascii :=
  if is_upper c then ascii_of_nat (code c + 32) else c.

(** [String.prototype.toLowerCase], on ASCII text. *)
Definition toLowerCase (s : string) : string :=
  text (map lower_char (chars s)).

(** [s.slice(0, n)], on ASCII text, where a character is one
    UTF-16 unit and one byte. *)
Definition slice0 (n : nat) (s : string) : string :=
  text (firstn n (chars s)).

(** [s.startsWith(p)] *)
Definition startsWith (s p : string) : bool :=
  starts_with (chars p) (chars s).

(** The binary64 value nearest to an integer. *)
Definition of_int (z : Z) : number :=
  SF2Prim (binary_normalize prec emax z 0 false).

(** [parseInt(s, 10)]: white space, an optional sign, then the longest
    run of decimal digits; [NaN] when there is none. *)
Definition parseInt (s : string) : number :=
  let l := drop_space (chars s) in
  let '(neg, l) :=
    match l with
    | "-"%char :: l' => (true, l')
    | "+"%char :: l' => (false, l')
    | _ => (false, l)
    end in
  let '(v, n, _) := take_digits l 0%Z 0%nat in
  if (n =? 0)%nat then nan
  else if neg then (if (v =? 0)%Z then (-0)%float else of_int (- v))
  else of_int v.

(** *** [URLSearchParams.prototype.toString]

    The application/x-www-form-urlencoded serialisation, byte by
    byte: letters, digits and [*-._] stay, a space becomes [+], every
    other byte becomes [%] and two upper-case hexadecimal digits.
    The bytes are those of the text; a JavaScript string that is not
    well-formed Unicode (a lone surrogate, which the serialiser
    replaces by U+FFFD) has no bytes and is outside the model. *)

Definition unreserved (c : ascii) : bool :=
  is_digit c || is_upper c || is_lower c ||
  existsb (eqc c) (chars "*-._").

Definition hex_digit (n : nat) : ascii :=
  nth n (chars "0123456789ABCDEF") "0"%char.

Definition encode_byte (c : ascii) : list ascii :=
  if unreserved c then [c]
  else if eqc c " " then ["+"%char]
  else ["%"%char; hex_digit (code c / 16); hex_digit (code c mod 16)].

Definition urlencode (s : string) : string :=
  text (flat_map encode_byte (chars s)).

Definition URLSearchParams_toString (params : list (string * string)) : string :=
  join "&" (map (fun kv => urlencode kv.1 +:+ "=" +:+ urlencode kv.2) params).

(** The number of occurrences of a character. *)
Definition count_char (c : ascii) (s : string) : nat :=
  length (List.filter (eqc c) (chars s)).

(** The characters that structure a URL. *)
Definition structural (c : ascii) : bool :=
  existsb (eqc c) (chars "&=?# ").

(** The parser's reading of a serialised value: [+] is a space and
    [%] with two hexadecimal digits is a byte. *)
Definition hex_value (c : ascii) : nat :=
  if is_digit c then code c - 48
  else if is_upper c then code c - 55
  else code c - 87.

Fixpoint decode_bytes (l : list ascii) : list ascii :=
  match l with
  | "%"%char :: x :: y :: rest =>
      ascii_of_nat (16 * hex_value x + hex_value y) :: decode_bytes rest
  | "+"%char :: rest => " "%char :: decode_bytes rest
  | c :: rest => c :: decode_bytes rest
  | [] => []
  end.

Definition urldecode (s : string) : string := text (decode_bytes (chars s)).

End JSLib.

(** ** The hand-off tool ([src/tools/start-full-quote.ts]) *)

Module FullQuote.
Import JS JSLib.

Definition baseUrl : string :=
  "https://www.racv.com.au/car-insurance/get-a-quote.html".

Definition utmParams (quote_id : string) : list (string * string) :=
  [ ("utm_source", "ai_platform");
    ("utm_medium", "mcp_app");
    ("utm_campaign", "racv_insurance_app");
    ("utm_content", "get_full_quote");
    ("ref", quote_id) ].

Definition redirectUrl (quote_id : string) : string :=
  baseUrl +:+ "?" +:+ URLSearchParams_toString (utmParams quote_id).

(** The link up to the reference. *)
Definition linkPrefix : string :=
  "https://www.racv.com.au/car-insurance/get-a-quote.html?utm_source=ai_platform&utm_medium=mcp_app&utm_campaign=racv_insurance_app&utm_content=get_full_quote&ref=".

Record Redirect : Type := {
  redirect_url : string;
  quote_id : string;
  parameters_prefilled : list string;
  session_validity : string
}.

Record ToolResult : Type := {
  text : string;
  structured : Redirect
}.

Definition textLines (quote_id : string) : list string :=
  [ "Ready to get your full RACV insurance quote!";
    "";
    "Click the link below to continue on racv.com.au where you can:";
    "• Get a final, bindable premium based on your full details";
    "• Apply your RACV member discount";
    "• Choose your cover options and extras";
    "• Purchase your policy online";
    "";
    "🔗 Complete your quote: " +:+ redirectUrl quote_id;
    "";
    "Reference: " +:+ quote_id;
    "This link is valid for 24 hours.";
    "";
    "Note: The indicative quote provided in this conversation is not a binding offer.";
    "Your final premium may differ based on the full information provided during the application." ].

(** The handler of [start_full_quote]; [validity] is the ISO text of
    the clock's time 24 hours from now. *)
Definition startFullQuote (validity : string) (quote_id : string) : ToolResult :=
  {| text := join Coverage.newline (textLines quote_id);
     structured :=
       {| redirect_url := redirectUrl quote_id;
          quote_id := quote_id;
          parameters_prefilled :=
            ["vehicle_make"; "vehicle_model"; "vehicle_year"; "postcode";
             "driver_age"];
          session_validity := validity |} |}.

End FullQuote.

(** ** The registration-mode quote tool ([src/tools/get-motor-quote.ts]) *)

Module RegoTool.
Import JS Json Page Scraper.

(** The validated parameters of the tool. *)
Record Params : Type := {
  p_rego : string;
  p_address : string;
  p_driver_age : Z;
  p_driver_gender : Gender;
  p_licence_age : Z;
  p_claims_last_5_years : Z;
  p_is_racv_member : bool
}.

(** The object handed to [scrapeRacvQuote]. *)
Definition toInput (params : Params) : RacvQuoteInput :=
  {| rego := p_rego params;
     address := p_address params;
     driver_age := p_driver_age params;
     driver_gender := p_driver_gender params;
     licence_age := p_licence_age params;
     claims_last_5_years := p_claims_last_5_years params;
     is_racv_member := Some (p_is_racv_member params);
     under_finance := None;
     purpose := None |}.

(** A value interpolated into a template literal. *)
Definition shown (x : option string) : string := default "undefined" x.

(** [x || d] on an optional string. *)
Definition or_text (x : option string) (d : string) : string :=
  match x with
  | Some s => if nonempty s then s else d
  | None => d
  end.

Section Handler.
(** [Number.prototype.toLocaleString], which depends on the locale. *)
Variable toLocaleString : number -> string.
Context `{Platform}.

(** [if (x) lines.push(...)] for a premium or the excess. *)
Definition amountLine (before after : string) (x : option number) : list string :=
  match x with
  | Some v => if truthy_num v then [before +:+ toLocaleString v +:+ after] else []
  | None => []
  end.

(** [if (result.raw_amounts && result.raw_amounts.length > 0) ...] *)
Definition amountsLines (label : string) (raw : option (list string)) : list string :=
  match raw with
  | Some (a :: l) => [""; label +:+ join ", " (a :: l)]
  | _ => []
  end.

Definition successLines (result : RacvQuoteResult) : list string :=
  [ "RACV Comprehensive Motor Insurance Quote";
    "";
    "Vehicle: " +:+ shown (vehicle_description result);
    "" ]
  ++ amountLine "Annual Premium: $" "" (annual_premium result)
  ++ amountLine "Monthly Premium: $" "/month" (monthly_premium result)
  ++ amountLine "Standard Excess: $" "" (excess_amount result)
  ++ [ "";
       "Source: Live quote from RACV website (my.racv.com.au)";
       "Note: This is a real indicative quote. Final pricing may vary when completing the full application on the RACV website." ]
  ++ amountsLines "All amounts found on quote page: " (raw_amounts result).

Definition errorLines (result : RacvQuoteResult) : list string :=
  [ "RACV Quote - Unable to Complete";
    "";
    "Vehicle: " +:+ or_text (vehicle_description result) "Not found";
    "Step reached: " +:+ or_text (step_reached result) "unknown";
    "Error: " +:+ shown (error result) ]
  ++ amountsLines "Amounts found on page: " (raw_amounts result)
  ++ match screenshot_path result with
     | Some path =>
         if nonempty path then [""; "Screenshot saved to: " +:+ path] else []
     | None => []
     end.

Definition resultLines (result : RacvQuoteResult) : list string :=
  if success result then successLines result else errorLines result.

Definition failedText (msg : string) : string :=
  "Failed to get RACV quote: " +:+ msg +:+ Coverage.newline +:+ Coverage.newline
  +:+ "This tool requires Playwright and a browser to be available on the server. Make sure the server is running locally with Playwright installed.".

(** The handler of [get_motor_quote]: the text of its answer, with
    the module variable [browser] of the scraper passed in and
    returned.  [imported] is what [await import(...)] gives. *)
Definition getMotorQuote (imported : Result unit) (params : Params)
  (browser0 : option nat) : Prog (option nat * string) :=
  tryCatch
    (match imported with
     | Err e => Throw e
     | Ok _ =>
         '(browser1, result) ← scrapeRacvQuote (toInput params) browser0;
         mret (browser1, join Coverage.newline (resultLines result))
     end)
    (fun e => mret (browser0, failedText e)).

End Handler.

End RegoTool.

(** ** The manual-mode scraper ([src/utils/racv-scraper.ts], manual mode):
       premium extraction *)

Module ManualExtract.
Import JS JSLib Regex Page.

Definition amountGroup : regex := Cap Scraper.amountBody.

(** The three patterns of an annual premium, all with the [/i] flag. *)
Definition premiumPatterns : list regex :=
  [ seqs [Chr "$"; amountGroup; Star space;
          alts [seqs [Lit "per"; Star space; Lit "year"];
                seqs [Chr "/"; Star space; Lit "year"];
                Lit "annually"; Lit "p.a."; Lit "pa"; Lit "/yr"]];
    seqs [alts [Lit "annual"; Lit "yearly"]; Star space;
          alts [Lit "premium"; Lit "price"; Lit "cost"];
          Star Scraper.labelSep; Chr "$"; amountGroup];
    seqs [alts [Lit "estimated"; Lit "indicative"; Lit "your"]; Star space;
          alts [Lit "premium"; Lit "price"; Lit "quote"];
          Star Scraper.labelSep; Chr "$"; amountGroup] ].

(** The two patterns of a monthly premium. *)
Definition monthlyPatterns : list regex :=
  [ seqs [Chr "$"; amountGroup; Star space;
          alts [seqs [Lit "per"; Star space; Lit "month"];
                seqs [Chr "/"; Star space; Lit "month"];
                Lit "monthly"; Lit "p.m."; Lit "pm"; Lit "/mo"]];
    seqs [Lit "monthly"; Star space;
          alts [Lit "premium"; Lit "price"; Lit "cost"];
          Star Scraper.labelSep; Chr "$"; amountGroup] ].

(** [for (const pattern of ps) { const match = ...; if (match) { x =
    parseFloat(match[1].replace(/,/g, "")); break; } }]; [Err] is the
    [TypeError] of [match[1].replace] on an undefined group. *)
Fixpoint firstMatch (content : string) (ps : list regex)
  : Result (option number) :=
  match ps with
  | [] => Ok None
  | p :: ps' =>
      match exec true p content with
      | Some mr =>
          match group1 mr with
          | Some g => Ok (Some (parseFloat (remove_chars (one_of ",") g)))
          | None => Err "TypeError: Cannot read properties of undefined (reading 'replace')"
          end
      | None => firstMatch content ps'
      end
  end.

(** [n > 200 && n < 10000] *)
Definition reasonable (n : number) : bool :=
  ((200 <? n) && (n <? 10000))%float.

(** [(a, b) => b - a] *)
Definition descending (a b : number) : number := (b - a)%float.

(** [Array.prototype.sort] with a comparator.  The order of the
    result is fixed by the comparator up to the order of elements it
    holds equal; this is the stable insertion sort. *)
Fixpoint insertBy (cmp : number -> number -> number) (x : number)
  (sorted : list number) : list number :=
  match sorted with
  | [] => [x]
  | y :: rest =>
      if (0 <? cmp x y)%float then y :: insertBy cmp x rest
      else x :: y :: rest
  end.

Definition sortBy (cmp : number -> number -> number) (l : list number)
  : list number :=
  foldr (insertBy cmp) [] l.

(** The amounts of the page in the reasonable range, largest first. *)
Definition numericAmounts (content : string) : list number :=
  sortBy descending
    (List.filter reasonable
       (map (fun a => parseFloat (remove_chars (one_of "$,") a))
            (match_all false Scraper.amountRe content))).

Definition resultPath : string := "/tmp/racv-result.png".

Definition found (annualPremium monthlyPremium : option number)
  : MotorQuote.RacvScraperResult :=
  {| MotorQuote.success := true;
     MotorQuote.source := MotorQuote.racv_website;
     MotorQuote.scraped_annual_premium := annualPremium;
     MotorQuote.scraped_monthly_premium := monthlyPremium;
     MotorQuote.excess_standard := None;
     MotorQuote.screenshot_path := Some resultPath;
     MotorQuote.error := None;
     MotorQuote.raw_text := None |}.

Definition notFound (pageContent : option string) : MotorQuote.RacvScraperResult :=
  {| MotorQuote.success := false;
     MotorQuote.source := MotorQuote.racv_website;
     MotorQuote.scraped_annual_premium := None;
     MotorQuote.scraped_monthly_premium := None;
     MotorQuote.excess_standard := None;
     MotorQuote.screenshot_path := Some resultPath;
     MotorQuote.error := Some "Could not extract premium from page. The form may require additional fields or encountered an error. Screenshots saved for debugging.";
     MotorQuote.raw_text := slice0 1000 <$> pageContent |}.

(** The premiums after the two loops; a [null] page text matches
    nothing. *)
Definition labelled (pageContent : option string)
  : Result (option number * option number) :=
  match pageContent with
  | None => Ok (None, None)
  | Some content =>
      match firstMatch content premiumPatterns with
      | Err e => Err e
      | Ok annualPremium =>
          match firstMatch content monthlyPatterns with
          | Err e => Err e
          | Ok monthlyPremium => Ok (annualPremium, monthlyPremium)
          end
      end
  end.

(** [if (!annualPremium && !monthlyPremium) { ... }] *)
Definition inferAnnual (pageContent : option string)
  (annualPremium monthlyPremium : option number) : option number :=
  if negb (truthy annualPremium) && negb (truthy monthlyPremium) then
    match pageContent with
    | Some content =>
        match numericAmounts content with
        | n :: _ => Some n
        | [] => annualPremium
        end
    | None => annualPremium
    end
  else annualPremium.

(** Step 4, from the page text to the value returned. *)
Definition extract (pageContent : option string)
  : Result MotorQuote.RacvScraperResult :=
  match labelled pageContent with
  | Err e => Err e
  | Ok (annualPremium, monthlyPremium) =>
      let annualPremium := inferAnnual pageContent annualPremium monthlyPremium in
      Ok (if truthy annualPremium || truthy monthlyPremium
          then found annualPremium monthlyPremium
          else notFound pageContent)
  end.

End ManualExtract.

(** ** The mock pricing engine ([src/utils/quote-calculator.ts])

    The three data files are not part of the sources; they are
    parameters of the engine, read at the types at which the code uses
    them.  An object is given by its entries in the order of
    [Object.keys]; no key occurs twice.  The clock, the random
    identifier and [Math.pow], which the language leaves to the
    implementation, are parameters too. *)

Module Calculator.
Import JS JSLib.

Record VehicleEntry : Type := {
  category : string;
  base_value : number
}.

Record ZoneConfig : Type := {
  postcodes : option (list string);
  ranges : option (list (number * number))
}.

Record Bracket : Type := {
  lower : number;
  upper : number;
  multiplier : number
}.

Record ExcessRule : Type := {
  amount : number;
  label : string;
  discount_pct : number
}.

Record PricingRules : Type := {
  base_rates : list (string * MotorQuote.Range);
  age_multipliers : list Bracket;
  claims_multipliers : list (string * number);
  postcode_risk_multipliers : list (string * number);
  parking_multipliers : list (string * number);
  vehicle_age_adjustments : list Bracket;
  range_spread_pct : number;
  excess_options : list ExcessRule;
  coverage_highlights : list string;
  member_discount_pct : number
}.

(** [obj[key]] on an object given by its entries: its own
    properties.  A key that names a property of [Object.prototype],
    such as [constructor], is outside the model. *)
Fixpoint entry {V : Type} (key : string) (obj : list (string * V)) : option V :=
  match obj with
  | [] => None
  | (k, v) :: rest => if String.eqb k key then Some v else entry key rest
  end.

(** [Object.keys(obj)] *)
Definition keys {V : Type} (obj : list (string * V)) : list string :=
  map fst obj.

(** [s.replace(/[-\s]/g, "")] *)
Definition separator (c : ascii) : bool := eqc c "-" || is_space c.
Definition squeeze (s : string) : string := remove_chars separator s.

(** The names of the makes and of the models of a table are ASCII. *)
Definition ascii_keys (vehicles : list (string * list (string * VehicleEntry)))
  : bool :=
  forallb (fun km => ascii_text km.1 && forallb (fun me => ascii_text me.1) km.2)
          vehicles.

Definition parking_name (p : MotorQuote.Parking) : string :=
  match p with
  | MotorQuote.garage => "garage"
  | MotorQuote.carport => "carport"
  | MotorQuote.street => "street"
  | MotorQuote.driveway => "driveway"
  end.

Section Engine.
Variable vehicles : list (string * list (string * VehicleEntry)).
Variable risk_zones : list (string * ZoneConfig).
Variable pricingRules : PricingRules.
(** [new Date().getFullYear()] *)
Variable currentYear : Z.
Variable Math_pow : number -> number -> number.
(** [randomUUID()] *)
Variable uuid : string.
(** The date 30 days from now, as [toISOString().split("T")[0]]. *)
Variable validUntil : string.

(** [null] also when the key found is the empty string, which
    [!makeNorm] and [!modelNorm] take for a miss. *)
Definition getVehicleInfo (make model : string) : option VehicleEntry :=
  makeNorm ← List.find
    (fun m => String.eqb (toLowerCase m) (toLowerCase make)) (keys vehicles);
  if negb (nonempty makeNorm) then None
  else
    models ← entry makeNorm vehicles;
    modelNorm ← List.find
      (fun md => String.eqb (squeeze (toLowerCase md))
                            (squeeze (toLowerCase model))) (keys models);
    if negb (nonempty modelNorm) then None
    else entry modelNorm models.

(** [pc >= min && pc <= max] for one range. *)
Definition within (pc : number) (range : number * number) : bool :=
  ((range.1 <=? pc) && (pc <=? range.2))%float.

(** One turn of the loop over the zones: whether it returns. *)
Definition zoneMatches (postcode : string) (config : ZoneConfig) : bool :=
  match postcodes config with
  | Some listed => existsb (String.eqb postcode) listed
  | None => false
  end
  || existsb (within (parseInt postcode)) (default [] (ranges config)).

Definition getPostcodeRiskZone (postcode : string) : string :=
  match List.find (fun zc => zoneMatches postcode zc.2) risk_zones with
  | Some (zone, _) => zone
  | None => "medium"
  end.

(** The loop shared by the two bracket tables. *)
Definition bracketMultiplier (x : number) (brackets : list Bracket) : number :=
  match List.find (fun b => ((lower b <=? x) && (x <=? upper b))%float)
                  brackets with
  | Some b => multiplier b
  | None => 1%float
  end.

Definition getAgeMultiplier (age : Z) : number :=
  bracketMultiplier (of_int age) (age_multipliers pricingRules).

Definition getVehicleAgeMultiplier (vehicleYear : Z) : number :=
  bracketMultiplier (of_int (currentYear - vehicleYear))
    (vehicle_age_adjustments pricingRules).

Definition depreciate (baseValue : number) (vehicleYear : Z) : number :=
  let age := (currentYear - vehicleYear)%Z in
  if (age <=? 0)%Z then baseValue
  else Math_round (baseValue * Math_pow (1 - 0.12) (of_int age))%float.

(** [table[key] ?? 1.0] *)
Definition factor (key : string) (table : list (string * number)) : number :=
  default 1%float (entry key table).

Definition excessOption (annualPremium : number) (opt : ExcessRule)
  : MotorQuote.ExcessOption :=
  let discountedAnnual :=
    Math_round (annualPremium * (1 - discount_pct opt / 100))%float in
  {| MotorQuote.amount := amount opt;
     MotorQuote.label := label opt;
     MotorQuote.annual_premium := discountedAnnual;
     MotorQuote.monthly_premium :=
       Math_round (discountedAnnual / 12 * 1.05)%float |}.

Definition disclaimers : list string :=
  [ "This is an indicative quote only and is not a binding offer of insurance.";
    "Final premium will be determined upon completion of a full application on racv.com.au.";
    "RACV Comprehensive Car Insurance is issued by Insurance Manufacturers of Australia Pty Ltd (IMA) ABN 93 004 208 084, AFS Licence No. 227678.";
    "Please refer to the Product Disclosure Statement (PDS) for full terms, conditions and exclusions at racv.com.au/pds.";
    "This information is general in nature and does not constitute personal financial advice." ].

(** [calculateQuote]; [None] is the [TypeError] of reading [min] of an
    undefined base rate. *)
Definition calculateQuote (input : MotorQuote.QuoteInput)
  : option MotorQuote.QuoteResult :=
  let vehicleInfo :=
    getVehicleInfo (MotorQuote.vehicle_make input)
                   (MotorQuote.vehicle_model input) in
  let category :=
    match vehicleInfo with Some e => category e | None => "midrange" end in
  let baseValue :=
    match vehicleInfo with Some e => base_value e | None => 35000%float end in
  let estimatedValue := depreciate baseValue (MotorQuote.vehicle_year input) in
  baseRate ← entry category (base_rates pricingRules);
  let basePremium :=
    ((MotorQuote.min baseRate + MotorQuote.max baseRate) / 2)%float in
  let ageMultiplier := getAgeMultiplier (MotorQuote.driver_age input) in
  let claimsMultiplier :=
    factor (pretty (MotorQuote.claims_last_5_years input))
           (claims_multipliers pricingRules) in
  let riskZone := getPostcodeRiskZone (MotorQuote.postcode input) in
  let postcodeMultiplier :=
    factor riskZone (postcode_risk_multipliers pricingRules) in
  let parkingMultiplier :=
    factor (parking_name (MotorQuote.parking_type input))
           (parking_multipliers pricingRules) in
  let vehicleAgeMultiplier :=
    getVehicleAgeMultiplier (MotorQuote.vehicle_year input) in
  let annualPremium :=
    Math_round (basePremium * ageMultiplier * claimsMultiplier
                * postcodeMultiplier * parkingMultiplier
                * vehicleAgeMultiplier)%float in
  let spread := (range_spread_pct pricingRules / 100)%float in
  let annualMin := Math_round (annualPremium * (1 - spread))%float in
  let annualMax := Math_round (annualPremium * (1 + spread))%float in
  let monthlyMin := Math_round (annualMin / 12 * 1.05)%float in
  let monthlyMax := Math_round (annualMax / 12 * 1.05)%float in
  Some
    {| MotorQuote.quote_id := "RACV-" +:+ toUpperCase (slice0 8 uuid);
       MotorQuote.premium_range_annual :=
         {| MotorQuote.min := annualMin; MotorQuote.max := annualMax |};
       MotorQuote.premium_range_monthly :=
         {| MotorQuote.min := monthlyMin; MotorQuote.max := monthlyMax |};
       MotorQuote.excess_options :=
         map (excessOption annualPremium) (excess_options pricingRules);
       MotorQuote.coverage_summary := coverage_highlights pricingRules;
       MotorQuote.member_discount_available := true;
       MotorQuote.member_discount_pct := member_discount_pct pricingRules;
       MotorQuote.valid_until := validUntil;
       MotorQuote.vehicle :=
         {| MotorQuote.make := MotorQuote.vehicle_make input;
            MotorQuote.model := MotorQuote.vehicle_model input;
            MotorQuote.year := MotorQuote.vehicle_year input;
            MotorQuote.category := category;
            MotorQuote.estimated_value := estimatedValue |};
       MotorQuote.risk_zone := riskZone;
       MotorQuote.disclaimers := disclaimers |}.

End Engine.

End Calculator.

(** Texts for the extraction examples. *)
Module Texts.

(** The period marker comes first, a labelled amount follows. *)
Definition twoAnnual : string := "$500 per year. Annual premium: $900".

(** No label, three amounts. *)
Definition unlabelled : string :=
  "Excess $800. Pay $1,234.56 now, or $110.20 later. Fee $15,000".

End Texts.


(** ** The manual-mode scraper ([src/utils/racv-scraper.ts], manual mode)

    The scraper that finds the car by year, make and model.  It
    drives the page through native selects and inputs, so it has its
    own locators and actions.  [console.log] is left out; the
    Playwright calls made only to log something are kept. *)

Module ManualMode.
Import JS JSLib.
Import Page (Result, Ok, Err, Outcome, Normal, Thrown).

Inductive Locator : Type :=
| Css (sel : string)                         (* [page.locator(sel)] *)
| ByText (txt : string)                      (* [page.getByText(txt)] *)
| ByLabel (re : string)                      (* [page.getByLabel(/re/i)] *)
| ByPlaceholder (re : string)                (* [page.getByPlaceholder(/re/i)] *)
| ByRole (role : string) (name : option string)
| HasText (l : Locator) (re : string)        (* [l.filter({ hasText: /re/i })] *)
| Or (a b : Locator)                         (* [a.or(b)] *)
| First (l : Locator)
| Last (l : Locator)
| Nth (l : Locator) (i : nat)
| Sub (l : Locator) (sel : string).          (* [l.locator(sel)] *)

Inductive Action : Type :=
| IsConnected (b : nat)
| Launch
| NewPage (b : nat)
| Route (pattern : string)
| Goto (url : string) (timeout : N)
| WaitForTimeout (ms : N)
| WaitFor (l : Locator) (timeout : N)
| Click (l : Locator)
| IsVisible (l : Locator) (timeout : N)
| SelectOption (l : Locator) (value : string)
| Fill (l : Locator) (value : string)
| Count (l : Locator)
| TextContent (l : Locator)
| GetAttribute (l : Locator) (name : string)
| AllTextContents (l : Locator)
| PageTextContent (sel : string)
| Screenshot (path : string)
| PageClose (p : nat).

Definition resp (a : Action) : Type :=
  match a with
  | IsConnected _ | IsVisible _ _ => bool
  | Launch | NewPage _ | Count _ => nat
  | TextContent _ | GetAttribute _ _ | PageTextContent _ => option string
  | AllTextContents _ => list string
  | _ => unit
  end.

Inductive Prog (A : Type) : Type :=
| Ret (a : A)
| Throw (msg : string)
| Op (a : Action) (k : Result (resp a) -> Prog A).
Arguments Ret {A} a.
Arguments Throw {A} msg.
Arguments Op {A} a k.

Fixpoint bind {A B : Type} (m : Prog A) (f : A -> Prog B) : Prog B :=
  match m with
  | Ret a => f a
  | Throw e => Throw e
  | Op a k => Op a (fun r => bind (k r) f)
  end.

#[global] Instance manual_ret : MRet Prog := @Ret.
#[global] Instance manual_bind : MBind Prog := fun A B f m => bind m f.

Fixpoint tryCatch {A : Type} (m : Prog A) (h : string -> Prog A) : Prog A :=
  match m with
  | Ret a => Ret a
  | Throw e => h e
  | Op a k => Op a (fun r => tryCatch (k r) h)
  end.

Definition call (a : Action) : Prog (resp a) :=
  Op a (fun r => match r with Ok x => Ret x | Err e => Throw e end).

Definition attempt (a : Action) (d : resp a) : Prog (resp a) :=
  Op a (fun r => match r with Ok x => Ret x | Err _ => Ret d end).

Definition when (b : bool) (m : Prog unit) : Prog unit :=
  if b then m else Ret tt.

Definition Obs : Type := { a : Action & Result (resp a) }.
Definition obs (a : Action) (r : Result (resp a)) : Obs := existT a r.
Definition action_of (o : Obs) : Action := projT1 o.

Class Env (W : Type) : Type :=
  respond : forall a : Action, W -> Result (resp a) * W.

Fixpoint run {W : Type} `{Env W} {A : Type} (p : Prog A) (w : W)
  : Outcome A * list Obs * W :=
  match p with
  | Ret a => (Normal a, [], w)
  | Throw e => (Thrown e, [], w)
  | Op a k =>
      let '(r, w1) := respond a w in
      let '(o, t, w2) := run (k r) w1 in
      (o, obs a r :: t, w2)
  end.

Definition outcome {W : Type} `{Env W} {A : Type} (p : Prog A) (w : W)
  : Outcome A := (run p w).1.1.
Definition trace {W : Type} `{Env W} {A : Type} (p : Prog A) (w : W)
  : list Obs := (run p w).1.2.

Fixpoint wp {A : Type} (p : Prog A) (Q : list Obs -> Outcome A -> Prop)
  : Prop :=
  match p with
  | Ret a => Q [] (Normal a)
  | Throw e => Q [] (Thrown e)
  | Op a k => forall r, wp (k r) (fun t o => Q (obs a r :: t) o)
  end.

(** *** The source *)

Definition RACV_URL : string := "https://my.racv.com.au/s/motor-insurance?p=CAR".

Definition getBrowser (browser : option nat) : Prog (option nat * nat) :=
  let launch : Prog (option nat * nat) :=
    b ← call Launch; mret (Some b, b) in
  match browser with
  | None => launch
  | Some b =>
      connected ← call (IsConnected b);
      if connected : bool then mret (Some b, b) else launch
  end.

(** [await l.isVisible({ timeout }).catch(() => false)] *)
Definition isVisible (l : Locator) (timeout : N) : Prog bool :=
  attempt (IsVisible l timeout) false.

(** [await l.all()]: Playwright counts the elements and returns
    [l.nth(i)] for each index. *)
Definition all (l : Locator) : Prog (list Locator) :=
  n ← call (Count l); mret (map (Nth l) (seq 0 n)).

(** [text && text.trim().toLowerCase().includes(searchText.toLowerCase())] *)
Definition labelMatches (searchText : string) (text : option string) : bool :=
  match text with
  | Some t =>
      nonempty t && includes (toLowerCase (trim t)) (toLowerCase searchText)
  | None => false
  end.

(** The loop of [selectByLabel]. *)
Fixpoint selectLoop (selectLocator : Locator) (searchText : string)
  (options : list Locator) : Prog bool :=
  match options with
  | [] => mret false
  | opt :: rest =>
      text ← call (TextContent opt);
      if labelMatches searchText text then
        value ← call (GetAttribute opt "value");
        match value with
        | Some v =>
            if nonempty v then
              call (SelectOption selectLocator v);; mret true
            else selectLoop selectLocator searchText rest
        | None => selectLoop selectLocator searchText rest
        end
      else selectLoop selectLocator searchText rest
  end.

Definition selectByLabel (selectLocator : Locator) (searchText : string)
  : Prog bool :=
  options ← all (Sub selectLocator "option");
  selectLoop selectLocator searchText options.

(** [val && val.trim() && text &&
     !text.trim().toLowerCase().includes("body type")]: the value to
    select, if the option passes. *)
Definition bodyOption (val text : option string) : option string :=
  match val, text with
  | Some v, Some t =>
      if nonempty v && nonempty (trim v) && nonempty t
         && negb (includes (toLowerCase (trim t)) "body type")
      then Some v else None
  | _, _ => None
  end.

(** The loop over the options of the body type select. *)
Fixpoint bodyLoop (bodySelect : Locator) (opts : list Locator) : Prog unit :=
  match opts with
  | [] => mret tt
  | opt :: rest =>
      val ← call (GetAttribute opt "value");
      text ← call (TextContent opt);
      match bodyOption val text with
      | Some v => call (SelectOption bodySelect v)
      | None => bodyLoop bodySelect rest
      end
  end.

Definition variantWords : list string :=
  ["FUEL"; "HYBRID"; "TURBO"; "PETROL"; "DIESEL"; "CC"].

(** [text && (text.includes("FUEL") || ... || text.includes("CC"))] *)
Definition looksLikeCar (text : option string) : bool :=
  match text with
  | Some t => nonempty t && existsb (includes t) variantWords
  | None => false
  end.

(** The loop over the first rows of the variant list. *)
Fixpoint variantLoop (variantRows : Locator) (indices : list nat) : Prog unit :=
  match indices with
  | [] => mret tt
  | i :: rest =>
      let row := Nth variantRows i in
      text ← attempt (TextContent row) (Some "");
      if looksLikeCar text then
        call (Click row);; call (WaitForTimeout 5000)
      else variantLoop variantRows rest
  end.

(** [for (const term of parkingTerms)
       { if (await selectByLabel(page, parkingSelect, term)) break; }] *)
Fixpoint selectAny (selectLocator : Locator) (terms : list string) : Prog unit :=
  match terms with
  | [] => mret tt
  | term :: rest =>
      found ← selectByLabel selectLocator term;
      if found : bool then mret tt else selectAny selectLocator rest
  end.

(** [parkingMap[input.parking_type]] *)
Definition parkingTerms (p : MotorQuote.Parking) : list string :=
  match p with
  | MotorQuote.garage => ["garage"; "locked garage"]
  | MotorQuote.carport => ["carport"]
  | MotorQuote.driveway => ["driveway"; "own property"]
  | MotorQuote.street => ["street"; "on street"; "kerbside"]
  end.

Definition adPattern : string :=
  "\.(doubleclick\.net|googleads\.g\.doubleclick|adsrvr\.org|facebook\.net)\/".

Definition openSite : Prog unit :=
  call (Route adPattern);;
  call (Goto RACV_URL 20000);;
  call (WaitForTimeout 8000).

(** Step 1: the link to the manual search. *)
Definition findManually : Prog unit :=
  let manualLink := ByText "Find your car manually" in
  call (WaitFor manualLink 10000);;
  call (Click manualLink);;
  call (WaitForTimeout 3000).

Definition selectYear (input : MotorQuote.QuoteInput) : Prog unit :=
  let yearSelect := Css "select[name='year']" in
  v ← isVisible yearSelect 5000;
  if v : bool then
    call (SelectOption yearSelect (pretty (MotorQuote.vehicle_year input)));;
    call (WaitForTimeout 2000)
  else
    let yearAlt := First (ByLabel "year") in
    call (SelectOption yearAlt (pretty (MotorQuote.vehicle_year input)));;
    call (WaitForTimeout 2000).

Definition selectMake (input : MotorQuote.QuoteInput) : Prog unit :=
  let makeSelect := Css "select[name='make']" in
  v ← isVisible makeSelect 5000;
  when v
    (found ← selectByLabel makeSelect (MotorQuote.vehicle_make input);
     when (negb found)
       (call (Screenshot "/tmp/racv-make-options.png");;
        call (AllTextContents (Sub makeSelect "option"));; mret tt);;
     call (WaitForTimeout 2000)).

Definition selectModel (input : MotorQuote.QuoteInput) : Prog unit :=
  let modelSelect := Css "select[name='model']" in
  v ← isVisible modelSelect 5000;
  when v
    (found ← selectByLabel modelSelect (MotorQuote.vehicle_model input);
     when (negb found)
       (call (AllTextContents (Sub modelSelect "option"));; mret tt);;
     call (WaitForTimeout 2000)).

Definition selectBody : Prog unit :=
  let bodySelect :=
    Or (Css "select[name='bodyType']") (HasText (Css "select") "body type") in
  v ← isVisible bodySelect 5000;
  when v
    (opts ← all (Sub bodySelect "option");
     bodyLoop bodySelect opts;;
     call (WaitForTimeout 1500)).

Definition selectVariant : Prog unit :=
  let variantRows :=
    Or (Css "table tr, [role='row'], [role='option'], .car-details-row, [data-row-key-value]")
       (HasText (Css "div") "FUEL INJECTION|HYBRID|TURBO|PETROL|DIESEL") in
  variantCount ← call (Count variantRows);
  if (0 <? variantCount)%nat then
    variantLoop variantRows (seq 0 (Nat.min variantCount 10))
  else
    let radioItems := Css "input[type='radio']" in
    n ← call (Count radioItems);
    when (0 <? n)%nat
      (call (Click (First radioItems));; call (WaitForTimeout 3000)).

(** Step 2: the cascading selects, the variant and the Next button. *)
Definition fillVehicle (input : MotorQuote.QuoteInput) : Prog unit :=
  selectYear input;;
  selectMake input;;
  selectModel input;;
  selectBody;;
  call (Screenshot "/tmp/racv-step2-filled.png");;
  call (WaitForTimeout 4000);;
  selectVariant;;
  call (Screenshot "/tmp/racv-step2b-variant.png");;
  let nextBtn := ByRole "button" (Some "next|continue") in
  v ← isVisible nextBtn 5000;
  when v (call (Click nextBtn);; call (WaitForTimeout 4000));;
  call (Screenshot "/tmp/racv-step3.png").

Definition fillPostcode (input : MotorQuote.QuoteInput) : Prog unit :=
  let postcodeInput :=
    Or (Or (Css "input[name*='postcode' i]") (ByPlaceholder "postcode"))
       (ByLabel "postcode") in
  v ← isVisible postcodeInput 3000;
  when v
    (call (Fill postcodeInput (MotorQuote.postcode input));;
     call (WaitForTimeout 1500);;
     let suggestion := First (ByRole "option" None) in
     s ← isVisible suggestion 2000;
     when s (call (Click suggestion));;
     call (WaitForTimeout 500)).

Definition fillBirth (birthYear : Z) : Prog unit :=
  let dobInput :=
    Or (Or (Css "input[name*='dob' i]") (Css "input[name*='dateOfBirth' i]"))
       (ByPlaceholder "date of birth|dd\/mm\/yyyy") in
  v ← isVisible dobInput 3000;
  if v : bool then
    call (Fill dobInput ("01/01/" +:+ pretty birthYear));;
    call (WaitForTimeout 500)
  else
    let dayInput := Or (Css "input[name*='day' i]") (ByPlaceholder "dd") in
    let monthInput := Or (Css "input[name*='month' i]") (ByPlaceholder "mm") in
    let yearDobInput :=
      Or (Last (Css "input[name*='year' i]")) (ByPlaceholder "yyyy") in
    d ← isVisible dayInput 2000;
    when d
      (call (Fill dayInput "01");;
       call (Fill monthInput "01");;
       call (Fill yearDobInput (pretty birthYear));;
       call (WaitForTimeout 500)).

Definition selectParking (input : MotorQuote.QuoteInput) : Prog unit :=
  let parkingSelect :=
    Or (Css "select[name*='parking' i]") (ByLabel "park") in
  v ← isVisible parkingSelect 2000;
  when v (selectAny parkingSelect (parkingTerms (MotorQuote.parking_type input))).

Definition selectClaims (input : MotorQuote.QuoteInput) : Prog unit :=
  let claimsSelect := Or (Css "select[name*='claim' i]") (ByLabel "claim") in
  v ← isVisible claimsSelect 2000;
  when v
    (selectByLabel claimsSelect
       (pretty (MotorQuote.claims_last_5_years input));; mret tt).

(** Step 3: the About You section and the button that asks for the
    quote; [currentYear] is [new Date().getFullYear()]. *)
Definition fillAboutYou (currentYear : Z) (input : MotorQuote.QuoteInput)
  : Prog unit :=
  let birthYear := (currentYear - MotorQuote.driver_age input)%Z in
  fillPostcode input;;
  fillBirth birthYear;;
  selectParking input;;
  selectClaims input;;
  call (Screenshot "/tmp/racv-step3-filled.png");;
  let nextBtn2 :=
    ByRole "button" (Some "next|continue|get.*(quote|estimate)|calculate") in
  v ← isVisible nextBtn2 5000;
  when v (call (Click nextBtn2);; call (WaitForTimeout 6000));;
  call (Screenshot "/tmp/racv-step4.png").

(** Step 4: the result snapshot, the page text and the extraction. *)
Definition readQuote : Prog MotorQuote.RacvScraperResult :=
  call (WaitForTimeout 5000);;
  call (Screenshot ManualExtract.resultPath);;
  pageContent ← call (PageTextContent "body");
  match ManualExtract.extract pageContent with
  | Ok r => mret r
  | Err e => Throw e
  end.

(** The [try] block after [page] is assigned. *)
Definition flow (currentYear : Z) (input : MotorQuote.QuoteInput)
  : Prog MotorQuote.RacvScraperResult :=
  openSite;;
  findManually;;
  fillVehicle input;;
  fillAboutYou currentYear input;;
  readQuote.

Definition errorPath : string := "/tmp/racv-error.png".

Definition errorResult (msg : string) : MotorQuote.RacvScraperResult :=
  {| MotorQuote.success := false;
     MotorQuote.source := MotorQuote.mock;
     MotorQuote.scraped_annual_premium := None;
     MotorQuote.scraped_monthly_premium := None;
     MotorQuote.excess_standard := None;
     MotorQuote.screenshot_path := Some errorPath;
     MotorQuote.error := Some ("Scraper error: " +:+ msg);
     MotorQuote.raw_text := None |}.

(** The variables [browser] (module level) and [page] after the first
    two statements of the [try] block, and the fault that interrupted
    them, if any. *)
Record Session : Type := {
  browser : option nat;
  page : option nat;
  fault : option string
}.

Definition protect {A : Type} (m : Prog A) : Prog (Result A) :=
  tryCatch (a ← m; mret (Ok a)) (fun e => mret (Err e)).

(** [getBrowser()] and [b.newPage(...)]. *)
Definition acquire (browser0 : option nat) : Prog Session :=
  r ← protect (getBrowser browser0);
  match r with
  | Err e => mret {| browser := browser0; page := None; fault := Some e |}
  | Ok (browser1, b) =>
      r ← protect (call (NewPage b));
      match r with
      | Err e => mret {| browser := browser1; page := None; fault := Some e |}
      | Ok pg => mret {| browser := browser1; page := Some pg; fault := None |}
      end
  end.

(** The [catch (error)] block. *)
Definition catchBlock (s : Session) (msg : string)
  : Prog MotorQuote.RacvScraperResult :=
  match page s with
  | Some _ => attempt (Screenshot errorPath) tt
  | None => mret tt
  end;;
  mret (errorResult msg).

(** The [finally] block. *)
Definition finallyBlock (s : Session) : Prog unit :=
  match page s with
  | Some pg => attempt (PageClose pg) tt
  | None => mret tt
  end.

(** [scrapeRacvQuote], from the value [browser0] of the module
    variable to its value after the call and the result. *)
Definition scrapeRacvQuote (currentYear : Z) (input : MotorQuote.QuoteInput)
  (browser0 : option nat) : Prog (option nat * MotorQuote.RacvScraperResult) :=
  s ← acquire browser0;
  result ← tryCatch
             match fault s with
             | Some e => Throw e
             | None => flow currentYear input
             end
             (catchBlock s);
  finallyBlock s;;
  mret (browser s, result).

(** *** Properties of runs *)

Definition always {A : Type} (P : Action -> Prop) (p : Prog A) : Prop :=
  wp p (fun t _ => Forall (fun o => P (action_of o)) t).

Definition tally (cost : Action -> N) (t : list Obs) : N :=
  foldr (fun o n => (cost (action_of o) + n)%N) 0%N t.

Definition sleep (a : Action) : N :=
  match a with WaitForTimeout ms => ms | _ => 0%N end.

Definition once (P : Action -> bool) (a : Action) : N :=
  if P a then 1%N else 0%N.

Definition is_goto (a : Action) : bool :=
  match a with Goto _ _ => true | _ => false end.
Definition is_launch (a : Action) : bool :=
  match a with Launch => true | _ => false end.
Definition is_new_page (a : Action) : bool :=
  match a with NewPage _ => true | _ => false end.

Definition snapshots : list string :=
  [ "/tmp/racv-make-options.png"; "/tmp/racv-step2-filled.png";
    "/tmp/racv-step2b-variant.png"; "/tmp/racv-step3.png";
    "/tmp/racv-step3-filled.png"; "/tmp/racv-step4.png";
    ManualExtract.resultPath; errorPath ].

(** What the flow may do on the page for a request. *)
Definition permitted (currentYear : Z) (input : MotorQuote.QuoteInput)
  (a : Action) : Prop :=
  match a with
  | Goto url _ => url = RACV_URL
  | Fill _ value =>
      In value
        [ MotorQuote.postcode input;
          "01/01/" +:+ pretty (currentYear - MotorQuote.driver_age input)%Z;
          "01";
          pretty (currentYear - MotorQuote.driver_age input)%Z ]
  | Screenshot path => In path snapshots
  | _ => True
  end.

(** No run of [p] spends more than [n]. *)
Definition spends {A : Type} (cost : Action -> N) (n : N) (p : Prog A) : Prop :=
  wp p (fun t _ => (tally cost t <= n)%N).

(** Every run of [p] that returns a value in [R] has spent [n] or
    more. *)
Definition takes {A : Type} (cost : Action -> N) (n : N) (R : A -> Prop)
  (p : Prog A) : Prop :=
  wp p (fun t o => forall a, o = Normal a -> R a -> (n <= tally cost t)%N).

(** [p] never throws, and every value it returns satisfies [R]. *)
Definition total {A : Type} (R : A -> Prop) (p : Prog A) : Prop :=
  wp p (fun _ o => exists a, o = Normal a /\ R a).

(** The actions that only read the page or choose an option. *)
Definition probing (a : Action) : bool :=
  match a with
  | Count _ | TextContent _ | GetAttribute _ _ | SelectOption _ _ => true
  | _ => false
  end.

Definition Probing (a : Action) : Prop := probing a = true.

Definition is_select (a : Action) : bool :=
  match a with SelectOption _ _ => true | _ => false end.

(** The actions on the browser and on the page as a resource. *)
Definition session_action (a : Action) : bool :=
  match a with
  | IsConnected _ | Launch | NewPage _ | PageClose _ => true
  | _ => false
  end.

(** What the [try] block does once the site is loaded. *)
Definition onpage (currentYear : Z) (input : MotorQuote.QuoteInput)
  (a : Action) : Prop :=
  permitted currentYear input a /\ session_action a = false /\
  is_goto a = false.

(** The pages a run has opened and the pages it has closed, in
    order. *)
Definition opened_page (o : Obs) : option nat :=
  match o with
  | existT a r =>
      match a as a' return Result (resp a') -> option nat with
      | NewPage _ => fun r' => match r' with Ok pg => Some pg | Err _ => None end
      | _ => fun _ => None
      end r
  end.

Definition closed_page (o : Obs) : option nat :=
  match action_of o with PageClose pg => Some pg | _ => None end.

Definition opened (t : list Obs) : list nat := omap opened_page t.
Definition closed (t : list Obs) : list nat := omap closed_page t.

(** The page text a step has read, if it is a successful
    [page.textContent("body")]. *)
Definition read_body (o : Obs) : option (option string) :=
  match o with
  | existT a r =>
      match a as a' return Result (resp a') -> option (option string) with
      | PageTextContent "body" =>
          fun r' => match r' with Ok pc => Some pc | Err _ => None end
      | _ => fun _ => None
      end r
  end.

(** The result [r] was extracted from the text of the page read in
    the run [t], after the result snapshot was written. *)
Definition from_page (t : list Obs) (r : MotorQuote.RacvScraperResult)
  : Prop :=
  exists pageContent,
    In (obs (Screenshot ManualExtract.resultPath) (Ok tt)) t /\
    In (obs (PageTextContent "body") (Ok pageContent)) t /\
    ManualExtract.extract pageContent = Ok r.

(** The texts of options an observation has read are ASCII. *)
Definition ascii_read (o : Obs) : Prop :=
  match o with
  | existT a r =>
      match a as a' return Result (resp a') -> Prop with
      | TextContent _ =>
          fun r' => match r' with
                    | Ok (Some t) => ascii_text t = true
                    | _ => True
                    end
      | _ => fun _ => True
      end r
  end.

(** The run [t] ends with the choice of an option: its text was
    read and matches, its value was read and is not empty, and the
    value was selected; nothing was selected before. *)
Definition Chosen (selectLocator : Locator) (searchText : string)
  (t : list Obs) : Prop :=
  exists (pre : list Obs) opt (text : option string) v,
    t = (pre ++ [ obs (TextContent opt) (Ok text);
                  obs (GetAttribute opt "value") (Ok (Some v));
                  obs (SelectOption selectLocator v) (Ok tt) ])%list /\
    labelMatches searchText text = true /\
    nonempty v = true /\
    Forall (fun o => is_select (action_of o) = false) pre.

(** What a run of [selectByLabel] looks like, by its outcome. *)
Definition selected (selectLocator : Locator) (searchText : string)
  (t : list Obs) (o : Outcome bool) : Prop :=
  match o with
  | Normal true => Chosen selectLocator searchText t
  | Normal false => Forall (fun o => is_select (action_of o) = false) t
  | Thrown _ => (tally (once is_select) t <= 1)%N
  end.

(** The three parts of a run of [scrapeRacvQuote]: what is known of
    the session [s] and the trace after [acquire], after the [try]
    and [catch] blocks with result [r], and after [finally]. *)
Definition Acquired (currentYear : Z) (input : MotorQuote.QuoteInput)
  (s : Session) (t : list Obs) : Prop :=
  Forall (fun o => permitted currentYear input (action_of o)) t /\
  closed t = [] /\
  opened t = option_list (page s) /\
  tally sleep t = 0%N /\
  tally (once is_goto) t = 0%N /\
  (tally (once is_launch) t <= 1)%N /\
  (tally (once is_new_page) t <= 1)%N.

Definition Attempted (currentYear : Z) (input : MotorQuote.QuoteInput)
  (t : list Obs) (r : MotorQuote.RacvScraperResult) : Prop :=
  Forall (fun o => permitted currentYear input (action_of o) /\
                   session_action (action_of o) = false) t /\
  (tally sleep t <= 45000)%N /\
  (tally (once is_goto) t <= 1)%N /\
  ((exists msg, r = errorResult msg) \/
   (from_page t r /\ (22000 <= tally sleep t)%N)).

Definition Finished (s : Session) (t : list Obs) : Prop :=
  match page s with
  | Some pg => exists res, t = [obs (PageClose pg) res]
  | None => t = []
  end.

(** What awaiting [scrapeRacvQuote(input)] gives the tool handler in
    the environment [w]. *)
Definition scrapeIn {W : Type} `{Env W} (currentYear : Z)
  (browser0 : option nat) (w : W) (input : MotorQuote.QuoteInput)
  : Outcome MotorQuote.RacvScraperResult :=
  match outcome (scrapeRacvQuote currentYear input browser0) w with
  | Normal (_, r) => Normal r
  | Thrown e => Thrown e
  end.

End ManualMode.

(** Two sites for the manual-mode scraper: one where every control is
    visible and the quote page shows two premiums, one where nothing
    is visible and the page has no text. *)
Module ManualWorlds.
Import JS Page ManualMode.

Inductive Site : Type := rich | bare.

Definition quoteText : string :=
  "Your quote. Annual premium: $1,200.00 or $110.50 monthly".

Definition answer (a : Action) (w : Site) : Result (resp a) :=
  match a as a' return Result (resp a') with
  | IsConnected _ => Ok true
  | Launch => Ok 0
  | NewPage _ => Ok 1
  | IsVisible _ _ => Ok match w with rich => true | bare => false end
  | Count _ => Ok match w with rich => 2 | bare => 0 end
  | TextContent _ => Ok (Some " Toyota Corolla 1.8 FUEL INJECTION ")
  | GetAttribute _ _ => Ok (Some "v1")
  | AllTextContents _ => Ok []
  | PageTextContent _ =>
      Ok match w with rich => Some quoteText | bare => None end
  | _ => Ok tt
  end.

#[global] Instance siteEnv : ManualMode.Env Site :=
  fun a w => (answer a w, w).

End ManualWorlds.
(* ===================================================================== *)
(** * Part II: properties                                                 *)
(* ===================================================================== *)

Import JS Json Regex Page Scraper Traces.
Local Open Scope list_scope.

(** ** Weakest preconditions *)

Lemma wp_mono {A : Type} (p : Prog A) (Q Q' : list Obs -> Outcome A -> Prop) :
  (forall t o, Q t o -> Q' t o) -> wp p Q -> wp p Q'.
Proof.
  revert Q Q'.
  induction p as [a|e|a k IH]; simpl; intros Q Q' HQ Hp;
    [apply HQ, Hp | apply HQ, Hp |].
  intros r. eapply IH; [|apply Hp]. intros t o. apply HQ.
Qed.

Lemma wp_any {A : Type} (p : Prog A) (Q : list Obs -> Outcome A -> Prop) :
  (forall t o, Q t o) -> wp p Q.
Proof.
  revert Q.
  induction p as [a|e|a k IH]; simpl; intros Q HQ; [apply HQ | apply HQ |].
  intros r. apply IH. intros t o. apply HQ.
Qed.

Lemma wp_bind {A B : Type} (m : Prog A) (f : A -> Prog B)
  (Q : list Obs -> Outcome B -> Prop) :
  wp m (fun t o =>
          match o with
          | Normal a => wp (f a) (fun t' o' => Q (t ++ t') o')
          | Thrown e => Q t (Thrown e)
          end) ->
  wp (m ≫= f) Q.
Proof.
  unfold mbind, prog_bind. revert Q.
  induction m as [a|e|a k IH]; simpl; intros Q Hm; [exact Hm | exact Hm |].
  intros r. apply IH. eapply wp_mono; [|apply Hm].
  intros t [x|e]; simpl; auto.
Qed.

Lemma wp_tryCatch {A : Type} (m : Prog A) (h : string -> Prog A)
  (Q : list Obs -> Outcome A -> Prop) :
  wp m (fun t o =>
          match o with
          | Normal a => Q t (Normal a)
          | Thrown e => wp (h e) (fun t' o' => Q (t ++ t') o')
          end) ->
  wp (tryCatch m h) Q.
Proof.
  revert Q.
  induction m as [a|e|a k IH]; simpl; intros Q Hm; [exact Hm | exact Hm |].
  intros r. apply IH. eapply wp_mono; [|apply Hm].
  intros t [x|e]; simpl; auto.
Qed.

(** Soundness: what [wp] proves holds of the run in every environment. *)
Lemma wp_sound {A : Type} (p : Prog A) (Q : list Obs -> Outcome A -> Prop) :
  wp p Q -> forall (W : Type) (E : Env W) (w : W), Q (trace p w) (outcome p w).
Proof.
  unfold trace, outcome. revert Q.
  induction p as [a|e|a k IH]; simpl; intros Q Hp W E w; [exact Hp | exact Hp |].
  destruct (respond a w) as [r w1].
  specialize (IH r _ (Hp r) W E w1).
  destruct (run (k r) w1) as [[o t] w2]. exact IH.
Qed.

(** The run of a sequence is the run of its parts. *)
Lemma run_bind {W : Type} {E : Env W} {A B : Type} (m : Prog A)
  (f : A -> Prog B) (w : W) :
  run (m ≫= f) w =
  match run m w with
  | (Normal a, t, w1) =>
      let '(o, t', w2) := run (f a) w1 in (o, t ++ t', w2)
  | (Thrown e, t, w1) => (Thrown e, t, w1)
  end.
Proof.
  unfold mbind, prog_bind. revert w.
  induction m as [a|e|a k IH]; simpl; intros w.
  - destruct (run (f a) w) as [[o t] w2]. reflexivity.
  - reflexivity.
  - destruct (respond a w) as [r w1]. rewrite IH.
    destruct (run (k r) w1) as [[[x|e] t] w2]; [|reflexivity].
    destruct (run (f x) w2) as [[o t'] w3]. reflexivity.
Qed.

Lemma run_tryCatch {W : Type} {E : Env W} {A : Type} (m : Prog A)
  (h : string -> Prog A) (w : W) :
  run (tryCatch m h) w =
  match run m w with
  | (Normal a, t, w1) => (Normal a, t, w1)
  | (Thrown e, t, w1) =>
      let '(o, t', w2) := run (h e) w1 in (o, t ++ t', w2)
  end.
Proof.
  revert w. induction m as [a|e|a k IH]; simpl; intros w.
  - reflexivity.
  - destruct (run (h e) w) as [[o t] w2]. reflexivity.
  - destruct (respond a w) as [r w1]. rewrite IH.
    destruct (run (k r) w1) as [[[x|e] t] w2]; [reflexivity|].
    destruct (run (h e) w2) as [[o t'] w3]. reflexivity.
Qed.

Lemma run_call {W : Type} {E : Env W} (a : Action) (w : W) :
  run (call a) w =
  match respond a w with
  | (Ok x, w1) => (Normal x, [obs a (Ok x)], w1)
  | (Err e, w1) => (Thrown e, [obs a (Err e)], w1)
  end.
Proof.
  unfold call. simpl. destruct (respond a w) as [[x|e] w1]; reflexivity.
Qed.

Lemma run_attempt {W : Type} {E : Env W} (a : Action) (d : resp a) (w : W) :
  run (attempt a d) w =
  match respond a w with
  | (Ok x, w1) => (Normal x, [obs a (Ok x)], w1)
  | (Err e, w1) => (Normal d, [obs a (Err e)], w1)
  end.
Proof.
  unfold attempt. simpl. destruct (respond a w) as [[x|e] w1]; reflexivity.
Qed.

Lemma run_ret {W : Type} {E : Env W} {A : Type} (a : A) (w : W) :
  run (mret a) w = (Normal a, [], w).
Proof. reflexivity. Qed.

(** ** Rules for [always], [returns] and [total] *)

Lemma always_mono {A : Type} (P P' : Action -> Prop) (p : Prog A) :
  (forall a, P a -> P' a) -> always P p -> always P' p.
Proof.
  intros HP. apply wp_mono. intros t o Ht. simpl in Ht.
  induction Ht; constructor; auto.
Qed.

Lemma always_ret {A : Type} (P : Action -> Prop) (a : A) : always P (mret a).
Proof. constructor. Qed.

Lemma always_throw {A : Type} (P : Action -> Prop) (e : string) :
  always P (@Throw A e).
Proof. constructor. Qed.

Lemma always_call (P : Action -> Prop) (a : Action) : P a -> always P (call a).
Proof.
  intros Ha [x|e]; simpl; repeat constructor; exact Ha.
Qed.

Lemma always_attempt (P : Action -> Prop) (a : Action) (d : resp a) :
  P a -> always P (attempt a d).
Proof.
  intros Ha [x|e]; simpl; repeat constructor; exact Ha.
Qed.

Lemma always_bind {A B : Type} (P : Action -> Prop) (m : Prog A)
  (f : A -> Prog B) :
  always P m -> (forall a, always P (f a)) -> always P (m ≫= f).
Proof.
  intros Hm Hf. apply wp_bind. eapply wp_mono; [|apply Hm].
  intros t [a|e] Ht; simpl; [|exact Ht].
  eapply wp_mono; [|apply (Hf a)].
  intros t' o' Ht'. apply Forall_app; auto.
Qed.

Lemma always_tryCatch {A : Type} (P : Action -> Prop) (m : Prog A)
  (h : string -> Prog A) :
  always P m -> (forall e, always P (h e)) -> always P (tryCatch m h).
Proof.
  intros Hm Hh. apply wp_tryCatch. eapply wp_mono; [|apply Hm].
  intros t [a|e] Ht; simpl; [exact Ht|].
  eapply wp_mono; [|apply (Hh e)].
  intros t' o' Ht'. apply Forall_app; auto.
Qed.

Lemma returns_ret {A : Type} (R : A -> Prop) (a : A) : R a -> returns R (mret a).
Proof. intros Ha. exact Ha. Qed.

Lemma returns_throw {A : Type} (R : A -> Prop) (e : string) :
  returns R (@Throw A e).
Proof. exact I. Qed.

Lemma returns_bind {A B : Type} (R : B -> Prop) (m : Prog A) (f : A -> Prog B) :
  (forall a, returns R (f a)) -> returns R (m ≫= f).
Proof.
  intros Hf. apply wp_bind. apply wp_any.
  intros t [a|e]; [|exact I].
  eapply wp_mono; [|apply (Hf a)]. auto.
Qed.

Lemma returns_mono {A : Type} (R R' : A -> Prop) (p : Prog A) :
  (forall a, R a -> R' a) -> returns R p -> returns R' p.
Proof.
  intros HR. apply wp_mono. intros t [a|e]; auto.
Qed.

Lemma total_ret {A : Type} (R : A -> Prop) (a : A) : R a -> total R (mret a).
Proof. intros Ha. exists a. auto. Qed.

Lemma total_attempt (R : forall a, resp a -> Prop) (a : Action) (d : resp a) :
  (forall x, R a x) -> total (R a) (attempt a d).
Proof. intros HR [x|e]; simpl; eauto. Qed.

Lemma total_bind {A B : Type} (R1 : A -> Prop) (R2 : B -> Prop) (m : Prog A)
  (f : A -> Prog B) :
  total R1 m -> (forall a, R1 a -> total R2 (f a)) -> total R2 (m ≫= f).
Proof.
  intros Hm Hf. apply wp_bind. eapply wp_mono; [|apply Hm].
  intros t o (a & -> & Ha). eapply wp_mono; [|apply (Hf a Ha)]. auto.
Qed.

Lemma total_tryCatch {A : Type} (R : A -> Prop) (m : Prog A)
  (h : string -> Prog A) :
  returns R m -> (forall e, total R (h e)) -> total R (tryCatch m h).
Proof.
  intros Hm Hh. apply wp_tryCatch. eapply wp_mono; [|apply Hm].
  intros t [a|e] Ha; simpl; [eauto|].
  eapply wp_mono; [|apply (Hh e)]. auto.
Qed.

Lemma total_mono {A : Type} (R R' : A -> Prop) (p : Prog A) :
  (forall a, R a -> R' a) -> total R p -> total R' p.
Proof.
  intros HR. apply wp_mono. intros t o (a & -> & Ha). eauto.
Qed.

(** One structural step of a proof of [always P p]. *)
Ltac always_step :=
  lazymatch goal with
  | |- always _ (mret _) => apply always_ret
  | |- always _ (Ret _) => apply always_ret
  | |- always _ (Throw _) => apply always_throw
  | |- always _ (call _) =>
      apply always_call; first [reflexivity | exact I | idtac]
  | |- always _ (attempt _ _) =>
      apply always_attempt; first [reflexivity | exact I | idtac]
  | |- always _ (isVisible _ _) =>
      apply always_attempt; first [reflexivity | exact I | idtac]
  | |- always _ (mbind _ _) => apply always_bind; [|intros ?]
  | |- always _ (tryCatch _ _) => apply always_tryCatch; [|intros ?]
  | |- always _ (swallow _) => apply always_tryCatch; [|intros ?]
  | |- always _ (when ?b _) => destruct b; unfold when
  | |- always _ (if ?b then _ else _) => destruct b
  | |- always _ (match ?x with _ => _ end) => destruct x
  end.


Create HintDb quiet.

Ltac quiet := repeat first [ solve [auto with quiet] | always_step ].

Lemma quiet_textContent (sel : string) : always Quiet (textContent sel).
Proof. unfold textContent. quiet. Qed.
#[local] Hint Resolve quiet_textContent : quiet.

Lemma quiet_lwcType (selector value : string) :
  always Quiet (lwcType selector value).
Proof. unfold lwcType. quiet. Qed.
#[local] Hint Resolve quiet_lwcType : quiet.

Lemma quiet_lwcRadioClick (selector : string) :
  always Quiet (lwcRadioClick selector).
Proof. unfold lwcRadioClick. quiet. Qed.
#[local] Hint Resolve quiet_lwcRadioClick : quiet.

Section QuietFlow.
Context `{Platform}.

Lemma quiet_readCaptured (c : option VehicleInfo) :
  always Quiet (readCaptured c).
Proof. unfold readCaptured. quiet. Qed.
Hint Resolve quiet_readCaptured : quiet.

Lemma quiet_waitForResult (n : nat) (c : option VehicleInfo) :
  always Quiet (waitForResult n c).
Proof.
  induction n as [|n IH]; cbn [waitForResult]; quiet.
Qed.
Hint Resolve quiet_waitForResult : quiet.

Lemma quiet_fillSelect (expr : string) pred (field : json) (n i : nat) :
  always Quiet (fillSelect expr pred field n i).
Proof.
  revert i. induction n as [|n IH]; intros i; cbn [fillSelect]; quiet.
Qed.
Hint Resolve quiet_fillSelect : quiet.

Lemma quiet_manualSearch (cv : VehicleInfo) (n : nat) :
  always Quiet (manualSearch cv n).
Proof. unfold manualSearch, fillField. quiet. Qed.
Hint Resolve quiet_manualSearch : quiet.

Lemma quiet_afterWait (res : WaitResult) (n : nat) (c : option VehicleInfo) :
  always Quiet (afterWait res n c).
Proof. unfold afterWait. quiet. Qed.

Lemma quiet_fillYourCar (input : RacvQuoteInput) :
  always Quiet (fillYourCar input).
Proof. unfold fillYourCar. quiet. Qed.

Lemma quiet_fillAboutYou (input : RacvQuoteInput) :
  always Quiet (fillAboutYou input).
Proof. unfold fillAboutYou. quiet. Qed.

Lemma quiet_recover : always Quiet recover.
Proof. unfold recover. quiet. Qed.
Hint Resolve quiet_recover : quiet.

Lemma quiet_waitForQuote (n : nat) : always Quiet (waitForQuote n).
Proof.
  induction n as [|n IH]; cbn [waitForQuote]; quiet.
Qed.

Lemma quiet_extractQuote (vehicleDesc : string) :
  always Quiet (extractQuote vehicleDesc).
Proof. unfold extractQuote. quiet. Qed.

Lemma quiet_afterResolve (input : RacvQuoteInput) (vehicleDesc : string) :
  always Quiet (afterResolve input vehicleDesc).
Proof.
  pose proof quiet_fillYourCar. pose proof quiet_fillAboutYou.
  pose proof quiet_waitForQuote. pose proof quiet_extractQuote.
  unfold afterResolve. quiet.
Qed.

End QuietFlow.

(** ** Counting lookups *)


Lemma quiet_nosession {A : Type} (p : Prog A) :
  always Quiet p -> always NoSession p.
Proof.
  apply always_mono. unfold Quiet, NoSession, quiet. intros a Ha.
  destruct (session_action a); [discriminate|reflexivity].
Qed.

Lemma quiet_nofind {A : Type} (p : Prog A) :
  always Quiet p -> always NoFind p.
Proof.
  apply always_mono. unfold Quiet, NoFind, quiet. intros a Ha.
  destruct (session_action a), (is_find_click a); try discriminate; reflexivity.
Qed.


Lemma count_actions_app (P : Action -> bool) (t t' : list Obs) :
  count_actions P (t ++ t') = count_actions P t + count_actions P t'.
Proof.
  unfold count_actions. rewrite List.filter_app, length_app. reflexivity.
Qed.

Lemma count_actions_none (P : Action -> bool) (t : list Obs) :
  Forall (fun o => P (action_of o) = false) t -> count_actions P t = 0.
Proof.
  unfold count_actions. induction 1 as [|o t Ho _ IH]; simpl; [reflexivity|].
  rewrite Ho. exact IH.
Qed.

Lemma clicks_nofind {A : Type} (p : Prog A) :
  always NoFind p -> clicksAtMost 0 p.
Proof.
  apply wp_mono. intros t o Ht. rewrite count_actions_none; [lia|exact Ht].
Qed.

Lemma clicks_bind {A B : Type} (a b : nat) (m : Prog A) (f : A -> Prog B) :
  clicksAtMost a m -> (forall x, clicksAtMost b (f x)) ->
  clicksAtMost (a + b) (m ≫= f).
Proof.
  intros Hm Hf. apply wp_bind. eapply wp_mono; [|apply Hm].
  intros t [x|e] Ht; simpl in *; [|lia].
  eapply wp_mono; [|apply (Hf x)].
  intros t' o' Ht'. simpl in Ht'. rewrite count_actions_app. lia.
Qed.

Lemma clicks_tryCatch {A : Type} (a b : nat) (m : Prog A)
  (h : string -> Prog A) :
  clicksAtMost a m -> (forall e, clicksAtMost b (h e)) ->
  clicksAtMost (a + b) (tryCatch m h).
Proof.
  intros Hm Hh. apply wp_tryCatch. eapply wp_mono; [|apply Hm].
  intros t [x|e] Ht; simpl in *; [lia|].
  eapply wp_mono; [|apply (Hh e)].
  intros t' o' Ht'. simpl in Ht'. rewrite count_actions_app. lia.
Qed.

Section Lookups.
Context `{Platform}.

Lemma clicks_enterRego (input : RacvQuoteInput) (n : nat) :
  clicksAtMost 1 (enterRego input n).
Proof.
  unfold enterRego.
  repeat lazymatch goal with
  | |- clicksAtMost 1 (mbind _ (call (Click findBtn))) => fail
  | |- clicksAtMost 1 (mbind _ _) =>
      apply (clicks_bind 0 1); [apply clicks_nofind, quiet_nofind; quiet|intros ?]
  end.
  apply (clicks_bind 1 0); [|intros ?; apply clicks_nofind, quiet_nofind; quiet].
  intros [ok|err]; simpl; unfold count_actions; simpl; lia.
Qed.

Lemma clicks_resolveAttempt (input : RacvQuoteInput) (n : nat)
  (c : option VehicleInfo) :
  clicksAtMost 1 (resolveAttempt input n c).
Proof.
  unfold resolveAttempt.
  apply (clicks_bind 1 0); [apply clicks_enterRego|intros _].
  apply clicks_nofind, quiet_nofind.
  apply always_bind; [apply quiet_waitForResult|].
  intros [res c']. apply quiet_afterWait.
Qed.

Lemma clicks_resolveVehicle (input : RacvQuoteInput) (n k : nat)
  (c : option VehicleInfo) :
  clicksAtMost n (resolveVehicle input n k c).
Proof.
  revert k c. induction n as [|n IH]; intros k c; cbn [resolveVehicle].
  - apply clicks_nofind, always_ret.
  - apply (clicks_bind 1 n); [apply clicks_resolveAttempt|].
    intros [[d|] c']; [|apply IH].
    eapply wp_mono; [|apply (clicks_nofind (mret d)), always_ret].
    simpl. intros; lia.
Qed.

Lemma clicks_flow (input : RacvQuoteInput) : clicksAtMost 3 (flow input).
Proof.
  unfold flow.
  apply (clicks_bind 0 3);
    [apply clicks_nofind, quiet_nofind; unfold openSite; quiet|intros _].
  apply (clicks_bind 3 0); [apply clicks_resolveVehicle|intros d].
  apply clicks_nofind, quiet_nofind, quiet_afterResolve.
Qed.

Lemma nofind_acquire (b0 : option nat) : always NoFind (acquire b0).
Proof.
  unfold acquire, protect, getBrowser.
  repeat first [ always_step | destruct b0 ].
Qed.

Lemma nofind_catchBlock (s : Session) (e : string) :
  always NoFind (catchBlock s e).
Proof. unfold catchBlock. repeat always_step. Qed.

Lemma nofind_finallyBlock (s : Session) : always NoFind (finallyBlock s).
Proof. unfold finallyBlock. repeat always_step. Qed.

Lemma clicks_scrapeRacvQuote (input : RacvQuoteInput) (b0 : option nat) :
  clicksAtMost 3 (scrapeRacvQuote input b0).
Proof.
  unfold scrapeRacvQuote.
  apply (clicks_bind 0 3); [apply clicks_nofind, nofind_acquire|intros s].
  apply (clicks_bind 3 0).
  - apply (clicks_tryCatch 3 0).
    + destruct (fault s) as [e0|]; [|apply clicks_flow].
      eapply wp_mono; [|apply (clicks_nofind (Throw e0)), always_throw].
      simpl; intros; lia.
    + intros e. apply clicks_nofind, nofind_catchBlock.
  - intros r. apply clicks_nofind.
    apply always_bind; [apply nofind_finallyBlock|intros _; apply always_ret].
Qed.

End Lookups.

(** ** Release of the session *)

Lemma nosession_opens_nothing (o : Obs) :
  NoSession (action_of o) -> opened_page o = None /\ opened_context o = None.
Proof.
  destruct o as [a r]. unfold NoSession. simpl.
  destruct a; simpl; try discriminate; auto.
Qed.

Lemma released_none (t : list Obs) :
  Forall (fun o => NoSession (action_of o)) t -> released t.
Proof.
  induction 1 as [|o t Ho _ IH]; simpl; [exact I|].
  split; [|exact IH].
  destruct (nosession_opens_nothing o Ho) as [Hp Hc].
  split; intros x Hx; congruence.
Qed.

Lemma released_app (page context : option nat) (t rest : list Obs) :
  Forall (held_by page context) t ->
  closes_session page context rest ->
  released rest ->
  released (t ++ rest).
Proof.
  intros Ht [Hpg Hctx] Hrest.
  induction Ht as [|o t [Hp Hc] _ IH]; simpl; [exact Hrest|].
  split; [|exact IH].
  split; intros x Hx; apply Exists_app; right; auto.
Qed.

Lemma wp_conj {A : Type} (p : Prog A) (Q1 Q2 : list Obs -> Outcome A -> Prop) :
  wp p Q1 -> wp p Q2 -> wp p (fun t o => Q1 t o /\ Q2 t o).
Proof.
  revert Q1 Q2.
  induction p as [a|e|a k IH]; simpl; intros Q1 Q2 H1 H2; [auto | auto |].
  intros r. apply (IH r _ _ (H1 r) (H2 r)).
Qed.

Lemma acquire_holds (b0 : option nat) :
  wp (acquire b0)
     (fun t o => exists s, o = Normal s /\ Forall (held_by (page s) (context s)) t).
Proof.
  assert (Hdone : forall (s : Session) (t : list Obs),
            Forall (held_by (page s) (context s)) t ->
            exists s', Normal s = Normal s' /\
                       Forall (held_by (page s') (context s')) t)
    by eauto.
  unfold acquire, protect, getBrowser.
  destruct b0 as [b|]; cbn.
  - intros [[|]|e]; cbn;
      repeat (let r := fresh "r" in intros [r|r]; cbn);
      apply Hdone; cbn;
      repeat (apply Forall_cons_2;
              [split; intros x Hx; simpl in Hx; congruence|]);
      apply Forall_nil_2.
  - repeat (let r := fresh "r" in intros [r|r]; cbn);
      apply Hdone; cbn;
      repeat (apply Forall_cons_2;
              [split; intros x Hx; simpl in Hx; congruence|]);
      apply Forall_nil_2.
Qed.

Lemma finallyBlock_closes (s : Session) :
  wp (finallyBlock s)
     (fun t _ => closes_session (page s) (context s) t /\ released t).
Proof.
  unfold finallyBlock.
  destruct (page s) as [pg|], (context s) as [c|]; cbn;
    repeat (let r := fresh "r" in intros [r|r]; cbn);
    (split; [split; intros x Hx; try discriminate; injection Hx as <-|]);
    try (repeat (first [apply Exists_cons_hd; reflexivity | apply Exists_cons_tl]));
    repeat split; intros x Hx; discriminate.
Qed.

Section Release.
Context `{Platform}.

Lemma nosession_flow (input : RacvQuoteInput) : always NoSession (flow input).
Proof.
  assert (Hattempt : forall n c, always NoSession (resolveAttempt input n c)).
  { intros n c. unfold resolveAttempt.
    apply always_bind; [unfold enterRego; repeat always_step|intros _].
    apply quiet_nosession.
    apply always_bind; [apply quiet_waitForResult|].
    intros [res c']. apply quiet_afterWait. }
  assert (Hloop : forall n k c, always NoSession (resolveVehicle input n k c)).
  { induction n as [|n IH]; intros k c; cbn [resolveVehicle];
      [apply always_ret|].
    apply always_bind; [apply Hattempt|].
    intros [[d|] c']; [apply always_ret|apply IH]. }
  unfold flow.
  apply always_bind; [unfold openSite; repeat always_step|intros _].
  apply always_bind; [apply Hloop|intros d].
  apply quiet_nosession, quiet_afterResolve.
Qed.

Lemma nosession_catchBlock (s : Session) (e : string) :
  always NoSession (catchBlock s e).
Proof. unfold catchBlock. repeat always_step. Qed.

Lemma total_catchBlock (s : Session) (e : string) :
  total (fun r => r = errorResult e) (catchBlock s e).
Proof.
  unfold catchBlock.
  destruct (page s); cbn; [intros [[]|err]; cbn|]; eauto.
Qed.

Lemma released_scrapeRacvQuote (input : RacvQuoteInput) (b0 : option nat) :
  wp (scrapeRacvQuote input b0) (fun t _ => released t).
Proof.
  unfold scrapeRacvQuote.
  apply wp_bind. eapply wp_mono; [|apply acquire_holds].
  intros tA o (s & -> & HA).
  set (body := match fault s with Some e => Throw e | None => flow input end).
  assert (Hmid : wp (tryCatch body (catchBlock s))
                    (fun t o => Forall (fun o => NoSession (action_of o)) t /\
                                exists r, o = Normal r /\ True)).
  { apply wp_conj.
    - apply always_tryCatch; [|intros e; apply nosession_catchBlock].
      subst body. destruct (fault s); [apply always_throw|apply nosession_flow].
    - apply total_tryCatch; [apply wp_any; intros t [r|e]; exact I|].
      intros e. eapply total_mono; [|apply total_catchBlock]. auto. }
  apply wp_bind. eapply wp_mono; [|apply Hmid].
  intros tM o' (HM & r & -> & _).
  apply wp_bind. eapply wp_mono; [|apply finallyBlock_closes].
  assert (Hopen : Forall (held_by None None) tM).
  { eapply Forall_impl; [exact HM|]. intros o Ho.
    destruct (nosession_opens_nothing o Ho) as [Hop Hoc].
    split; intros x Hx; congruence. }
  assert (Hnone : closes_session None None ([] : list Obs)).
  { split; intros x Hx; discriminate. }
  intros tF [[]|e] [[Hp Hc] HF]; simpl; rewrite ?app_nil_r.
  - apply (released_app (page s) (context s)); [exact HA| |].
    + split; intros x Hx; apply Exists_app; right; auto.
    + apply (released_app None None); [exact Hopen| |exact HF].
      split; intros x Hx; discriminate.
  - apply (released_app (page s) (context s)); [exact HA| |].
    + split; intros x Hx; apply Exists_app; right; auto.
    + apply (released_app None None); [exact Hopen| |exact HF].
      split; intros x Hx; discriminate.
Qed.

End Release.

(** ** Invariants of the result *)

Section Results.
Context `{Platform}.

Lemma handled_extractQuote (vehicleDesc : string) :
  returns handled_invariant (extractQuote vehicleDesc).
Proof.
  unfold extractQuote.
  apply returns_bind; intros resultText.
  apply returns_bind; intros _.
  destruct (extractPremiums resultText) as [p|]; [|apply returns_throw].
  destruct (truthy (annualPremium p) || truthy (monthlyPremium p)) eqn:Hp.
  - apply returns_ret. split; [|discriminate].
    intros _. unfold premium_set. simpl.
    apply orb_true_iff in Hp. exact Hp.
  - apply returns_bind; intros currentErrors.
    destruct (0 <? length currentErrors)%nat;
      apply returns_ret; (split; [discriminate|]); intros _;
      split; eexists; split; reflexivity.
Qed.

Lemma handled_afterResolve (input : RacvQuoteInput) (vehicleDesc : string) :
  returns handled_invariant (afterResolve input vehicleDesc).
Proof.
  unfold afterResolve. destruct (negb (nonempty vehicleDesc)).
  - apply returns_bind; intros _. apply returns_ret.
    split; [discriminate|]. intros _. split; eexists; split; reflexivity.
  - apply returns_bind; intros [|].
    + apply returns_ret. split; [discriminate|]. intros _.
      split; eexists; split; reflexivity.
    + repeat (apply returns_bind; intros _).
      apply handled_extractQuote.
Qed.

Lemma handled_flow (input : RacvQuoteInput) :
  returns handled_invariant (flow input).
Proof.
  unfold flow. apply returns_bind; intros _.
  apply returns_bind; intros d. apply handled_afterResolve.
Qed.

Lemma total_acquire (b0 : option nat) : total (fun _ => True) (acquire b0).
Proof.
  eapply wp_mono; [|apply acquire_holds].
  intros t o (s & -> & _). eauto.
Qed.

Lemma total_finallyBlock (s : Session) : total (fun _ => True) (finallyBlock s).
Proof.
  unfold finallyBlock.
  destruct (page s), (context s); cbn;
    repeat (let r := fresh "r" in intros [[]|r]; cbn); eauto.
Qed.

Lemma total_scrapeRacvQuote (input : RacvQuoteInput) (b0 : option nat) :
  total (fun br => result_invariant br.2) (scrapeRacvQuote input b0).
Proof.
  unfold scrapeRacvQuote.
  eapply total_bind; [apply total_acquire|intros s _].
  eapply total_bind with (R1 := result_invariant).
  - apply total_tryCatch.
    + destruct (fault s); [apply returns_throw|].
      eapply returns_mono; [|apply handled_flow].
      intros r [Hs Hf]. split; [exact Hs|].
      intros Hr. destruct (Hf Hr) as [Hstep Herr]. auto.
    + intros e. eapply total_mono; [|apply total_catchBlock].
      intros r ->. split; [discriminate|]. intros _. split.
      * eexists; split; reflexivity.
      * right. split; [reflexivity|]. eauto.
  - intros r Hr.
    eapply total_bind; [apply total_finallyBlock|intros _ _].
    apply total_ret. exact Hr.
Qed.

End Results.

(** ** The matcher is sound for [Matches] *)

Lemma star_sound {R : Type} (ci : bool) (p : ascii -> bool)
  (k : list ascii -> option R) (s : list ascii) (v : R) :
  star p k s = Some v ->
  exists s', Matches ci (Star p) s s' /\ k s' = Some v.
Proof.
  induction s as [|x s IH]; simpl; intros Hs.
  - exists []. split; [constructor|exact Hs].
  - destruct (p x) eqn:Hp.
    + destruct (star p k s) as [v'|] eqn:Hstar.
      * injection Hs as ->. destruct (IH eq_refl) as (s' & Hm & Hk).
        exists s'. split; [constructor; assumption|exact Hk].
      * exists (x :: s). split; [constructor|exact Hs].
    + exists (x :: s). split; [constructor|exact Hs].
Qed.

Lemma m_sound {R : Type} (ci : bool) (r : regex) :
  forall (s : list ascii) (cap : option (list ascii))
         (k : list ascii -> option (list ascii) -> option R) (v : R),
    m ci r s cap k = Some v ->
    exists s' cap', Matches ci r s s' /\ k s' cap' = Some v.
Proof.
  induction r as [|c|p|r1 IH1 r2 IH2|r1 IH1 r2 IH2|r1 IH1|p|r1 IH1];
    simpl; intros s cap k v Hm.
  - exists s, cap. split; [constructor|exact Hm].
  - destruct s as [|x s]; [discriminate|].
    destruct (chr_match ci c x) eqn:Hc; [|discriminate].
    exists s, cap. split; [constructor; exact Hc|exact Hm].
  - destruct s as [|x s]; [discriminate|].
    destruct (p x) eqn:Hp; [|discriminate].
    exists s, cap. split; [constructor; exact Hp|exact Hm].
  - destruct (IH1 _ _ _ _ Hm) as (s1 & cap1 & Hm1 & Hk1).
    destruct (IH2 _ _ _ _ Hk1) as (s2 & cap2 & Hm2 & Hk2).
    exists s2, cap2. split; [econstructor; eassumption|exact Hk2].
  - destruct (m ci r1 s cap k) as [v'|] eqn:H1.
    + injection Hm as ->. destruct (IH1 _ _ _ _ H1) as (s' & cap' & Hm1 & Hk).
      exists s', cap'. split; [apply M_AltL; exact Hm1|exact Hk].
    + destruct (IH2 _ _ _ _ Hm) as (s' & cap' & Hm2 & Hk).
      exists s', cap'. split; [apply M_AltR; exact Hm2|exact Hk].
  - destruct (m ci r1 s cap k) as [v'|] eqn:H1.
    + injection Hm as ->. destruct (IH1 _ _ _ _ H1) as (s' & cap' & Hm1 & Hk).
      exists s', cap'. split; [apply M_OptSome; exact Hm1|exact Hk].
    + exists s, cap. split; [apply M_OptNone|exact Hm].
  - destruct (star_sound ci p _ s v Hm) as (s' & Hs & Hk).
    exists s', cap. split; [exact Hs|exact Hk].
  - destruct (IH1 _ _ _ _ Hm) as (s' & cap' & Hm1 & Hk).
    eexists s', _. split; [constructor; exact Hm1|exact Hk].
Qed.

Lemma Matches_suffix (ci : bool) (r : regex) (s s' : list ascii) :
  Matches ci r s s' -> s' `suffix_of` s.
Proof.
  induction 1; try reflexivity;
    try (apply suffix_cons_r; reflexivity); try assumption.
  - etrans; eassumption.
  - apply suffix_cons_r. assumption.
Qed.

Lemma exec_chars_sound (ci : bool) (r : regex) (s : list ascii)
  (res : match_result) :
  exec_chars ci r s = Some res ->
  exists s0 s', s0 `suffix_of` s /\ Matches ci r s0 s'.
Proof.
  induction s as [|x s IH]; simpl; unfold match_here.
  - destruct (m ci r [] None _) as [[res' rest]|] eqn:Hm; [|discriminate].
    intros _. destruct (m_sound ci r _ _ _ _ Hm) as (s' & cap' & HM & _).
    exists [], s'. split; [reflexivity|exact HM].
  - destruct (m ci r (x :: s) None _) as [[res' rest]|] eqn:Hm.
    + intros _. destruct (m_sound ci r _ _ _ _ Hm) as (s' & cap' & HM & _).
      exists (x :: s), s'. split; [reflexivity|exact HM].
    + intros Hs. destruct (IH Hs) as (s0 & s' & Hsuf & HM).
      exists s0, s'. split; [apply suffix_cons_r; exact Hsuf|exact HM].
Qed.

(** With a mandatory group, the continuation gets a capture. *)
Lemma m_captures {R : Type} (ci : bool) (r : regex) :
  forall (s : list ascii) (cap : option (list ascii))
         (k : list ascii -> option (list ascii) -> option R) (v : R),
    m ci r s cap k = Some v ->
    sets_cap r = true \/ is_Some cap ->
    exists s' c, k s' (Some c) = Some v.
Proof.
  induction r as [|c|p|r1 IH1 r2 IH2|r1 IH1 r2 IH2|r1 IH1|p|r1 IH1];
    simpl; intros s cap k v Hm [Hc|[c0 ->]]; try discriminate.
  - eauto.
  - destruct s as [|x s]; [discriminate|].
    destruct (chr_match ci c x); [eauto|discriminate].
  - destruct s as [|x s]; [discriminate|].
    destruct (p x); [eauto|discriminate].
  - apply orb_true_iff in Hc as [Hc|Hc].
    + destruct (IH1 _ _ _ _ Hm (or_introl Hc)) as (s1 & c1 & Hk).
      eapply IH2; [exact Hk|right; eauto].
    + destruct (m_sound ci r1 _ _ _ _ Hm) as (s1 & cap1 & _ & Hk).
      eapply IH2; [exact Hk|left; exact Hc].
  - destruct (IH1 _ _ _ _ Hm (or_intror (ex_intro _ c0 eq_refl)))
      as (s1 & c1 & Hk).
    eapply IH2; [exact Hk|right; eauto].
  - apply andb_true_iff in Hc as [Hc1 Hc2].
    destruct (m ci r1 s cap k) as [v'|] eqn:H1.
    + injection Hm as ->. eapply IH1; [exact H1|left; exact Hc1].
    + eapply IH2; [exact Hm|left; exact Hc2].
  - destruct (m ci r1 s (Some c0) k) as [v'|] eqn:H1.
    + injection Hm as ->. eapply IH1; [exact H1|right; eauto].
    + eapply IH2; [exact Hm|right; eauto].
  - destruct (m ci r1 s (Some c0) k) as [v'|] eqn:H1.
    + injection Hm as ->. eapply IH1; [exact H1|right; eauto].
    + eauto.
  - destruct (star_sound ci p _ s v Hm) as (s' & _ & Hk). eauto.
  - destruct (m_sound ci r1 _ _ _ _ Hm) as (s' & cap' & _ & Hk). eauto.
  - destruct (m_sound ci r1 _ _ _ _ Hm) as (s' & cap' & _ & Hk). eauto.
Qed.

Lemma exec_group1 (ci : bool) (r : regex) (s : string) (mr : match_result) :
  sets_cap r = true -> exec ci r s = Some mr -> is_Some (group1 mr).
Proof.
  unfold exec. intros Hr.
  induction (chars s) as [|x l IH]; simpl; unfold match_here.
  - destruct (m ci r [] None _) as [[res rest]|] eqn:Hm; [|discriminate].
    intros [= <-].
    destruct (m_captures ci r _ _ _ _ Hm (or_introl Hr)) as (s' & c & Hk).
    injection Hk as <- _. simpl. eauto.
  - destruct (m ci r (x :: l) None _) as [[res rest]|] eqn:Hm; [|exact IH].
    intros [= <-].
    destruct (m_captures ci r _ _ _ _ Hm (or_introl Hr)) as (s' & c & Hk).
    injection Hk as <- _. simpl. eauto.
Qed.

(** The loop over the labelled patterns never reads an undefined
    group: premium extraction always yields a value. *)
Lemma extractPremiums_total (resultText : string) :
  is_Some (extractPremiums resultText).
Proof.
  assert (Hloop : forall ps acc,
            Forall (fun pt => sets_cap pt.1 = true) ps ->
            is_Some (applyPatterns resultText acc ps)).
  { induction ps as [|pt ps IH]; simpl; intros acc Hps; [eauto|].
    apply Forall_cons_1 in Hps as [Hpt Hps].
    unfold applyPattern.
    destruct (exec true pt.1 resultText) as [mr|] eqn:Hexec; simpl;
      [|apply IH, Hps].
    destruct (exec_group1 _ _ _ _ Hpt Hexec) as [g ->]. simpl.
    apply IH, Hps. }
  unfold extractPremiums.
  destruct (Hloop premPatterns noPremiums) as [acc ->]; [|simpl; eauto].
  repeat constructor.
Qed.

(** ** Dollar amounts *)

Lemma HasAmount_suffix (s0 s : list ascii) :
  s0 `suffix_of` s -> HasAmount s0 -> HasAmount s.
Proof.
  intros [k ->] (pre & c & rest & -> & Hc).
  exists (k ++ pre), c, rest. rewrite <- app_assoc. auto.
Qed.

Lemma chr_match_dollar (ci : bool) (x : ascii) :
  chr_match ci "$" x = true -> x = "$"%char.
Proof.
  destruct ci, x as [[] [] [] [] [] [] [] []]; vm_compute;
    first [discriminate | reflexivity].
Qed.

Lemma amountBody_head (ci : bool) (s s' : list ascii) :
  Matches ci amountBody s s' ->
  exists c rest, s = c :: rest /\ amount_char c = true.
Proof.
  unfold amountBody, Plus. intros HM.
  inversion HM as [| | |r1 r2 s0 s1 s2 H1 H2| | | | | | |]; subst.
  inversion H1 as [| | |r1 r2 s0 s3 s4 H3 H4| | | | | | |]; subst.
  inversion H3; subst. eauto.
Qed.

(** Where [$] and the amount body match, the text has an amount. *)
Lemma dollar_amount (ci : bool) (r : regex) (s s' : list ascii) :
  Matches ci (Seq (Chr "$") r) s s' ->
  (forall s1 s2, Matches ci r s1 s2 ->
                 exists s3, Matches ci amountBody s1 s3) ->
  HasAmount s.
Proof.
  intros HM Hr.
  inversion HM as [| | |r1 r2 s0 s1 s2 H1 H2| | | | | | |]; subst.
  inversion H1 as [|c x s0 Hx| | | | | | | | |]; subst.
  apply chr_match_dollar in Hx as ->.
  destruct (Hr _ _ H2) as (s3 & H3).
  destruct (amountBody_head _ _ _ H3) as (c & rest & -> & Hc).
  exists [], c, rest. auto.
Qed.

Lemma Matches_Seq_inv (ci : bool) (r1 r2 : regex) (s s' : list ascii) :
  Matches ci (Seq r1 r2) s s' ->
  exists s1, Matches ci r1 s s1 /\ Matches ci r2 s1 s'.
Proof. inversion 1; subst; eauto. Qed.

Lemma Matches_Cap_inv (ci : bool) (r : regex) (s s' : list ascii) :
  Matches ci (Cap r) s s' -> Matches ci r s s'.
Proof. inversion 1; subst; assumption. Qed.

(** Each labelled pattern needs an amount in the text. *)
Lemma premPattern_amount (pt : regex * PremiumType) (s s' : list ascii) :
  In pt premPatterns -> Matches true pt.1 s s' -> HasAmount s.
Proof.
  intros Hin HM.
  assert (Hlead : forall r, Matches true (Seq (Chr "$") (Seq (Cap amountBody) r)) s s' ->
                            HasAmount s).
  { intros r Hr. eapply dollar_amount; [exact Hr|].
    intros s1 s2 H12. apply Matches_Seq_inv in H12 as (s3 & H13 & _).
    apply Matches_Cap_inv in H13. eauto. }
  assert (Htail : forall r1 r2 r3 r4,
             Matches true (Seq r1 (Seq r2 (Seq r3 (Seq r4
                        (Seq (Chr "$") (Cap amountBody)))))) s s' ->
             HasAmount s).
  { intros r1 r2 r3 r4 Hr.
    apply Matches_Seq_inv in Hr as (s1 & H1 & Hr).
    apply Matches_Seq_inv in Hr as (s2 & H2 & Hr).
    apply Matches_Seq_inv in Hr as (s3 & H3 & Hr).
    apply Matches_Seq_inv in Hr as (s4 & H4 & Hr).
    apply (HasAmount_suffix s4).
    - apply Matches_suffix in H1, H2, H3, H4.
      etrans; [exact H4|]. etrans; [exact H3|]. etrans; [exact H2|exact H1].
    - eapply dollar_amount; [exact Hr|].
      intros a b Hab. apply Matches_Cap_inv in Hab. eauto. }
  simpl in Hin.
  destruct Hin as [<-|[<-|[<-|[<-|[]]]]]; simpl in HM.
  - eapply Hlead, HM.
  - eapply Htail, HM.
  - eapply Hlead, HM.
  - eapply Htail, HM.
Qed.

Lemma star_total {R : Type} (p : ascii -> bool)
  (k : list ascii -> option R) (s : list ascii) :
  (forall s', is_Some (k s')) -> is_Some (star p k s).
Proof.
  intros Hk. induction s as [|x s IH]; simpl; [apply Hk|].
  destruct (p x); [|apply Hk].
  destruct (star p k s); [eauto|apply Hk].
Qed.

Lemma match_here_amount (c : ascii) (rest : list ascii) :
  amount_char c = true ->
  is_Some (match_here false amountRe ("$"%char :: c :: rest)).
Proof.
  intros Hc. unfold match_here, amountRe, amountBody, Plus.
  cbn [m seqs]. change (chr_match false "$" "$") with true. cbn iota.
  fold amount_char. rewrite Hc.
  apply star_total. intros s1.
  match goal with |- is_Some (match ?x with _ => _ end) => destruct x end;
    eauto.
Qed.

Lemma match_all_amount (s : list ascii) :
  HasAmount s -> match_all_chars false amountRe 0 s <> [].
Proof.
  intros (pre & c & rest & -> & Hc).
  induction pre as [|x pre IH]; cbn [app match_all_chars].
  - destruct (match_here_amount c rest Hc) as [[res rest'] ->]. discriminate.
  - destruct (match_here false amountRe (x :: pre ++ _)) as [[res rest']|];
      [discriminate|exact IH].
Qed.

(** ** A premium implies an amount on the page *)

Lemma applyPatterns_changed (resultText : string)
  (ps : list (regex * PremiumType)) (acc0 acc : Premiums) :
  applyPatterns resultText acc0 ps = Some acc ->
  (annualPremium acc = annualPremium acc0 /\
   monthlyPremium acc = monthlyPremium acc0) \/
  (exists pt mr, In pt ps /\ exec true pt.1 resultText = Some mr).
Proof.
  revert acc0. induction ps as [|pt ps IH]; simpl; intros acc0 Hacc.
  - injection Hacc as <-. auto.
  - unfold applyPattern in Hacc.
    destruct (exec true pt.1 resultText) as [mr|] eqn:Hexec.
    + right. exists pt, mr. auto.
    + simpl in Hacc. destruct (IH _ Hacc) as [Hsame|(pt' & mr & Hin & Hex)];
        [left; exact Hsame|].
      right. exists pt', mr. auto.
Qed.

Lemma exec_premPattern_amount (resultText : string) (pt : regex * PremiumType)
  (mr : match_result) :
  In pt premPatterns -> exec true pt.1 resultText = Some mr ->
  allAmountsOf resultText <> [].
Proof.
  intros Hin Hexec. unfold allAmountsOf, match_all.
  apply match_all_amount.
  destruct (exec_chars_sound _ _ _ _ Hexec) as (s0 & s' & Hsuf & HM).
  apply (HasAmount_suffix s0); [exact Hsuf|].
  eapply premPattern_amount; eassumption.
Qed.

Lemma firstOr_truthy (cands : list number) (x : option number) :
  truthy x = false -> truthy (firstOr cands x) = true -> cands <> [].
Proof.
  intros Hx Hf. destruct cands; [|discriminate].
  simpl in Hf. congruence.
Qed.

Lemma premium_needs_amount (resultText : string) (p : Premiums) :
  extractPremiums resultText = Some p ->
  truthy (annualPremium p) || truthy (monthlyPremium p) = true ->
  allAmountsOf resultText <> [].
Proof.
  unfold extractPremiums. intros Hp Htruthy.
  destruct (applyPatterns resultText noPremiums premPatterns) as [acc|] eqn:Hacc;
    [|discriminate].
  simpl in Hp. injection Hp as <-.
  assert (Hnums : forall P, List.filter P (numericAmounts (allAmountsOf resultText)) <> [] ->
                            allAmountsOf resultText <> []).
  { intros P HP Hnil. rewrite Hnil in HP. apply HP. reflexivity. }
  unfold fallback in Htruthy.
  destruct (truthy (annualPremium acc)) eqn:Ha; simpl in Htruthy.
  - destruct (applyPatterns_changed _ _ _ _ Hacc) as [[Hsame _]|(pt & mr & Hin & Hex)].
    + rewrite Hsame in Ha. discriminate.
    + eapply exec_premPattern_amount; eassumption.
  - destruct (truthy (monthlyPremium acc)) eqn:Hm; simpl in Htruthy.
    + destruct (applyPatterns_changed _ _ _ _ Hacc) as [[_ Hsame]|(pt & mr & Hin & Hex)].
      * rewrite Hsame in Hm. discriminate.
      * eapply exec_premPattern_amount; eassumption.
    + apply orb_true_iff in Htruthy as [Ht|Ht].
      * eapply Hnums, firstOr_truthy; [exact Ha|exact Ht].
      * eapply Hnums, firstOr_truthy; [exact Hm|exact Ht].
Qed.

(** ** Claims on the registration-mode scraper *)

Section ScraperClaims.
Context `{Platform}.

(** C1, amended.  Whatever the environment does, [scrapeRacvQuote]
    returns a result and does not throw.  A result with
    [success = true] has a non-zero annual or monthly premium.  A
    result with [success = false] has a non-empty [error]; its
    [step_reached] is set and non-empty on every return of the [try]
    block, and is absent on the return of the [catch] block. *)
Theorem C1_result_invariant {W : Type} {E : Env W} (input : RacvQuoteInput)
  (b0 : option nat) (w : W) :
  exists b r,
    outcome (scrapeRacvQuote input b0) w = Normal (b, r) /\
    result_invariant r.
Proof.
  destruct (wp_sound _ _ (total_scrapeRacvQuote input b0) W E w)
    as ([b r] & Hout & Hinv).
  exists b, r. split; [exact Hout|exact Hinv].
Qed.

(** C6, amended.  Every result the extraction stage returns is a
    success or a failure tagged [about_you] or [quote_result], and
    carries [raw_amounts], which may be the empty list on a failure
    and is not empty on a success.  For the whole call: a result that
    is a success or carries one of these two tags has [raw_amounts]
    set, not empty on success. *)
Theorem C6_raw_amounts_set {W : Type} {E : Env W} (input : RacvQuoteInput)
  (b0 : option nat) (vehicleDesc : string) (w : W) :
  match outcome (extractQuote vehicleDesc) w with
  | Normal r => extraction_result r /\ raw_amounts_invariant r
  | Thrown _ => True
  end /\
  exists b r,
    outcome (scrapeRacvQuote input b0) w = Normal (b, r) /\
    raw_amounts_invariant r.
Proof.
  assert (Hext : forall d,
            returns (fun r => extraction_result r /\ raw_amounts_invariant r)
                    (extractQuote d)).
  { intros d. unfold extractQuote.
    apply returns_bind; intros resultText.
    apply returns_bind; intros _.
    destruct (extractPremiums resultText) as [p|] eqn:Hp; [|apply returns_throw].
    destruct (truthy (annualPremium p) || truthy (monthlyPremium p)) eqn:Ht.
    - apply returns_ret. split; [left; reflexivity|].
      intros _. eexists. split; [reflexivity|]. intros _.
      eapply premium_needs_amount; eassumption.
    - apply returns_bind; intros currentErrors.
      destruct (0 <? length currentErrors)%nat; apply returns_ret.
      + split; [right; left; reflexivity|].
        intros _. eexists. split; [reflexivity|]. discriminate.
      + split; [right; right; reflexivity|].
        intros _. eexists. split; [reflexivity|]. discriminate. }
  assert (Hskip : forall r : RacvQuoteResult,
            success r = false ->
            (forall st, step_reached r = Some st ->
                        st <> "about_you" /\ st <> "quote_result") ->
            raw_amounts_invariant r).
  { intros r Hs Hst [Hx|[Hx|Hx]]; [congruence| |];
      destruct (Hst _ Hx) as [H1 H2]; congruence. }
  assert (Hflow : returns raw_amounts_invariant (flow input)).
  { unfold flow. apply returns_bind; intros _.
    apply returns_bind; intros d. unfold afterResolve.
    destruct (negb (nonempty d)).
    - apply returns_bind; intros _. apply returns_ret.
      apply Hskip; [reflexivity|]. simpl. intros st [= <-]. split; discriminate.
    - apply returns_bind; intros [|].
      + apply returns_ret.
        apply Hskip; [reflexivity|]. simpl. intros st [= <-]. split; discriminate.
      + repeat (apply returns_bind; intros _).
        eapply returns_mono; [|apply Hext]. intros r [_ Hr]. exact Hr. }
  split.
  - pose proof (wp_sound _ _ (Hext vehicleDesc) W E w) as Hr.
    destruct (outcome (extractQuote vehicleDesc) w); exact Hr.
  - assert (Htotal : total (fun br => raw_amounts_invariant br.2)
                           (scrapeRacvQuote input b0)).
    { unfold scrapeRacvQuote.
      eapply total_bind; [apply total_acquire|intros s _].
      eapply total_bind with (R1 := raw_amounts_invariant).
      - apply total_tryCatch.
        + destruct (fault s); [apply returns_throw|exact Hflow].
        + intros e. eapply total_mono; [|apply total_catchBlock].
          intros r ->. apply Hskip; [reflexivity|]. simpl. discriminate.
      - intros r Hr.
        eapply total_bind; [apply total_finallyBlock|intros _ _].
        apply total_ret. exact Hr. }
    destruct (wp_sound _ _ Htotal W E w) as ([b r] & Hout & Hinv).
    exists b, r. split; [exact Hout|exact Hinv].
Qed.

(** C7.  In every run of [scrapeRacvQuote], whatever fails and on
    whichever path the call ends, each page and each context that a
    [newPage] or [newContext] of the run has opened is closed by a
    later action of the same run. *)
Theorem C7_session_released {W : Type} {E : Env W} (input : RacvQuoteInput)
  (b0 : option nat) (w : W) :
  released (trace (scrapeRacvQuote input b0) w).
Proof.
  exact (wp_sound _ _ (released_scrapeRacvQuote input b0) W E w).
Qed.

End ScraperClaims.

(** C1 as stated fails when the browser cannot be launched: the
    [catch] block returns a failure without [step_reached]. *)
Lemma C1_catch_sets_no_step :
  exists b r,
    outcome (scrapeRacvQuote Worlds.sampleInput None) Worlds.noBrowser
      = Normal (b, r) /\
    success r = false /\
    step_reached r = None /\
    ~ stated_invariant r.
Proof.
  eexists _, _. split; [vm_compute; reflexivity|].
  split; [reflexivity|]. split; [reflexivity|].
  intros [_ Hfail]. destruct (Hfail eq_refl) as [(s & Hs & _) _].
  discriminate.
Qed.

(** C6 as stated fails on a final page without any dollar amount: the
    call reaches the quote page, returns the [quote_result] failure,
    and [raw_amounts] is the empty list. *)
Lemma C6_raw_amounts_empty :
  exists b r,
    outcome (scrapeRacvQuote Worlds.sampleInput None) Worlds.blankQuotePage
      = Normal (b, r) /\
    In (Screenshot quoteScreenshot)
       (map action_of
          (trace (scrapeRacvQuote Worlds.sampleInput None) Worlds.blankQuotePage)) /\
    step_reached r = Some "quote_result" /\
    raw_amounts r = Some [] /\
    ~ stated_raw_amounts r.
Proof.
  eexists _, _. split; [vm_compute; reflexivity|].
  split; [vm_compute; tauto|].
  split; [reflexivity|]. split; [reflexivity|].
  intros Hst. destruct Hst as (a & l & Hal); [|discriminate].
  right; right; reflexivity.
Qed.

(** ** The lookup attempts *)

Lemma wp_impl {A : Type} (p : Prog A) (H : Prop)
  (Q : list Obs -> Outcome A -> Prop) :
  (H -> wp p Q) -> wp p (fun t o => H -> Q t o).
Proof.
  revert Q. induction p as [a|e|a k IH]; simpl; intros Q Hp; [exact Hp..|].
  intros r. apply IH. intros HH. apply (Hp HH).
Qed.

Lemma given_wp {A : Type} (G : Obs -> Prop) (p : Prog A)
  (Q : list Obs -> Outcome A -> Prop) :
  wp p Q -> given G Q p.
Proof. apply wp_mono. auto. Qed.

Lemma given_mono {A : Type} (G : Obs -> Prop) (p : Prog A)
  (Q Q' : list Obs -> Outcome A -> Prop) :
  (forall t o, Forall G t -> Q t o -> Q' t o) -> given G Q p -> given G Q' p.
Proof. intros HQ. apply wp_mono. auto. Qed.

Lemma given_conj {A : Type} (G : Obs -> Prop) (p : Prog A)
  (Q1 Q2 : list Obs -> Outcome A -> Prop) :
  given G Q1 p -> given G Q2 p -> given G (fun t o => Q1 t o /\ Q2 t o) p.
Proof.
  intros H1 H2. eapply wp_mono; [|apply (wp_conj _ _ _ H1 H2)].
  intros t o [HQ1 HQ2] HG. auto.
Qed.

Lemma given_bind {A B : Type} (G : Obs -> Prop) (m : Prog A)
  (f : A -> Prog B) (Q : list Obs -> Outcome B -> Prop) :
  given G (fun t o =>
             match o with
             | Normal a => given G (fun t' o' => Q (t ++ t') o') (f a)
             | Thrown e => Q t (Thrown e)
             end) m ->
  given G Q (m ≫= f).
Proof.
  intros Hm. apply wp_bind. eapply wp_mono; [|apply Hm].
  intros t [a|e] Ht; simpl in *.
  - eapply wp_mono; [|apply (wp_impl _ (Forall G t)), Ht].
    intros t' o' HQ HG. apply Forall_app in HG as [HG HG']. auto.
  - exact Ht.
Qed.

Lemma given_tryCatch {A : Type} (G : Obs -> Prop) (m : Prog A)
  (h : string -> Prog A) (Q : list Obs -> Outcome A -> Prop) :
  given G (fun t o =>
             match o with
             | Normal a => Q t (Normal a)
             | Thrown e => given G (fun t' o' => Q (t ++ t') o') (h e)
             end) m ->
  given G Q (tryCatch m h).
Proof.
  intros Hm. apply wp_tryCatch. eapply wp_mono; [|apply Hm].
  intros t [a|e] Ht; simpl in *; [exact Ht|].
  eapply wp_mono; [|apply (wp_impl _ (Forall G t)), Ht].
  intros t' o' HQ HG. apply Forall_app in HG as [HG HG']. auto.
Qed.

Lemma unconfirmed_Forall (t : list Obs) : unconfirmed t <-> Forall NoCar t.
Proof.
  unfold unconfirmed, NoCar. induction t as [|o t IH]; simpl.
  - split; [constructor|reflexivity].
  - rewrite andb_true_iff, IH. split.
    + intros [Ho Ht]. constructor; assumption.
    + intros Hot. inversion Hot; subst. auto.
Qed.

(** *** Lookups and navigations *)

Lemma fresh_lookups_app (ready : bool) (t t' : list Obs) :
  fresh_lookups ready (t ++ t')
  = fresh_lookups ready t && fresh_lookups (ready_after ready t) t'.
Proof.
  revert ready. induction t as [|o t IH]; intros ready; simpl; [reflexivity|].
  destruct (is_find_click (action_of o)).
  - rewrite IH, andb_assoc. reflexivity.
  - destruct (is_navigation (action_of o) && succeeded o); apply IH.
Qed.

Lemma ready_after_app (ready : bool) (t t' : list Obs) :
  ready_after ready (t ++ t') = ready_after (ready_after ready t) t'.
Proof.
  revert ready. induction t as [|o t IH]; intros ready; simpl; [reflexivity|].
  destruct (is_find_click (action_of o)); [apply IH|].
  destruct (is_navigation (action_of o) && succeeded o); apply IH.
Qed.

Lemma neutral_trace (ready : bool) (t : list Obs) :
  Forall (fun o => Neutral (action_of o)) t ->
  fresh_lookups ready t = true /\ ready_after ready t = ready /\
  count_actions is_find_click t = 0.
Proof.
  unfold Neutral, neutral.
  induction 1 as [|o t Ho _ IH]; simpl; [auto|].
  apply andb_true_iff in Ho as [Hf Hn].
  apply negb_true_iff in Hf, Hn.
  unfold count_actions in *. simpl. rewrite Hf, Hn. exact IH.
Qed.

Create HintDb neutral.

Ltac neutral := repeat first [ solve [auto with neutral] | always_step ].

Lemma neutral_textContent (sel : string) : always Neutral (textContent sel).
Proof. unfold textContent. neutral. Qed.
#[local] Hint Resolve neutral_textContent : neutral.

Create HintDb nosnap.

Ltac nosnap := repeat first [ solve [auto with nosnap] | always_step ].

Lemma nosnap_textContent (sel : string) : always NoSnapshot (textContent sel).
Proof. unfold textContent. nosnap. Qed.
#[local] Hint Resolve nosnap_textContent : nosnap.

Lemma nosnap_notin (t : list Obs) :
  Forall (fun o => NoSnapshot (action_of o)) t -> ~ In notFoundSnapshot t.
Proof.
  induction 1 as [|o t Ho _ IH]; simpl; [tauto|].
  intros [->|Hin]; [discriminate Ho|auto].
Qed.

(** What the parts of the call outside the lookup leave in the trace:
    no lookup and no snapshot of a failed lookup. *)
Lemma outside_lookup {A : Type} (p : Prog A) :
  always NoFind p -> always NoSnapshot p ->
  wp p (fun t _ => count_actions is_find_click t = 0 /\
                   ~ In notFoundSnapshot t).
Proof.
  intros Hfind Hsnap.
  eapply wp_mono; [|apply (wp_conj _ _ _ Hfind Hsnap)].
  intros t o [Hf Hs]. split; [apply count_actions_none, Hf|apply nosnap_notin, Hs].
Qed.

Section LookupClaims.
Context `{Platform}.

Lemma neutral_readCaptured (c : option VehicleInfo) :
  always Neutral (readCaptured c).
Proof. unfold readCaptured. neutral. Qed.
Hint Resolve neutral_readCaptured : neutral.

Lemma neutral_waitForResult (n : nat) (c : option VehicleInfo) :
  always Neutral (waitForResult n c).
Proof. induction n as [|n IH]; cbn [waitForResult]; neutral. Qed.
Hint Resolve neutral_waitForResult : neutral.

Lemma neutral_fillSelect (expr : string) pred (field : json) (n i : nat) :
  always Neutral (fillSelect expr pred field n i).
Proof.
  revert i. induction n as [|n IH]; intros i; cbn [fillSelect]; neutral.
Qed.
Hint Resolve neutral_fillSelect : neutral.

Lemma neutral_manualSearch (cv : VehicleInfo) (n : nat) :
  always Neutral (manualSearch cv n).
Proof. unfold manualSearch, fillField. neutral. Qed.
Hint Resolve neutral_manualSearch : neutral.

Lemma neutral_afterWait (res : WaitResult) (n : nat) (c : option VehicleInfo) :
  always Neutral (afterWait res n c).
Proof. unfold afterWait. neutral. Qed.

Lemma neutral_attemptRest (n : nat) (c : option VehicleInfo) :
  always Neutral ('(res, c') ← waitForResult 25 c; afterWait res n c').
Proof.
  apply always_bind; [apply neutral_waitForResult|].
  intros [res c']. apply neutral_afterWait.
Qed.

Lemma neutral_afterResolve (input : RacvQuoteInput) (vehicleDesc : string) :
  always (fun a => is_find_click a = false) (afterResolve input vehicleDesc).
Proof. apply quiet_nofind, quiet_afterResolve. Qed.

(** One turn starts the lookup once when it gets that far, and only
    after a navigation that has succeeded: the one of [openSite] in
    the first turn, the link back to the registration search or a
    load of the start page in a later one. *)
Lemma enterRego_lookup (input : RacvQuoteInput) (n : nat) (ready : bool) :
  (n <= 1 -> ready = true) ->
  wp (enterRego input n)
     (fun t o =>
        fresh_lookups ready t = true /\
        match o with
        | Normal _ => count_actions is_find_click t = 1
        | Thrown _ => True
        end).
Proof.
  intros Hready. unfold enterRego, isVisible.
  destruct (1 <? n)%nat eqn:Hn; simpl.
  - intros [[|]|e0]; simpl;
      repeat (let r := fresh "r" in intros [r|r]; simpl; auto).
  - apply Nat.ltb_ge in Hn. rewrite (Hready Hn).
    repeat (let r := fresh "r" in intros [r|r]; simpl; auto).
Qed.

Lemma given_call (G : Obs -> Prop) (a : Action)
  (Q : list Obs -> Outcome (resp a) -> Prop) :
  (forall x, G (obs a (Ok x)) -> Q [obs a (Ok x)] (Normal x)) ->
  (forall e, G (obs a (Err e)) -> Q [obs a (Err e)] (Thrown e)) ->
  given G Q (call a).
Proof.
  intros Hok Herr [x|e] HG; simpl in *; inversion HG; subst; auto.
Qed.

Lemma given_attempt (G : Obs -> Prop) (a : Action) (d : resp a)
  (Q : list Obs -> Outcome (resp a) -> Prop) :
  (forall x, G (obs a (Ok x)) -> Q [obs a (Ok x)] (Normal x)) ->
  (forall e, G (obs a (Err e)) -> Q [obs a (Err e)] (Normal d)) ->
  given G Q (attempt a d).
Proof.
  intros Hok Herr [x|e] HG; simpl in *; inversion HG; subst; auto.
Qed.

(** A property of the outcome alone holds of a sequence when it holds
    of its second part whatever the first has returned. *)
Lemma given_skip {A B : Type} (G : Obs -> Prop) (m : Prog A)
  (f : A -> Prog B) (Q : Outcome B -> Prop) :
  (forall a, given G (fun _ o => Q o) (f a)) ->
  (forall e, Q (Thrown e)) ->
  given G (fun _ o => Q o) (m ≫= f).
Proof.
  intros Hf He. apply given_bind, given_wp, wp_any.
  intros t [a|e]; [apply Hf|apply He].
Qed.

Lemma no_heading (hs : list string) :
  forallb (fun h => ascii_text h && negb (test false headingRe (trim h))) hs
  = true ->
  List.find (fun h => test false headingRe (trim h)) hs = None.
Proof.
  intros Hhs. destruct (List.find _ hs) as [h|] eqn:Hfind; [|reflexivity].
  apply List.find_some in Hfind as [Hin Hh].
  rewrite forallb_forall in Hhs. specialize (Hhs h Hin).
  rewrite Hh, andb_false_r in Hhs. discriminate.
Qed.

Lemma unconfirmed_waitForResult (n : nat) (c : option VehicleInfo) :
  given NoCar (fun _ o => nothing_found o) (waitForResult n c).
Proof.
  induction n as [|n IH]; cbn [waitForResult]; [intros _; exact I|].
  apply given_skip; [intros _|intros; exact I].
  apply given_bind, given_attempt.
  - intros [|] Hv; [discriminate Hv|].
    apply given_bind, given_call; [|intros; exact I].
    intros hs Hhs. rewrite (no_heading hs Hhs).
    apply given_skip; [|intros; exact I].
    intros bodyText. destruct (test true notFoundRe bodyText);
      [intros _; exact I|].
    eapply given_mono; [|apply IH]. auto.
  - intros e _.
    apply given_bind, given_call; [|intros; exact I].
    intros hs Hhs. rewrite (no_heading hs Hhs).
    apply given_skip; [|intros; exact I].
    intros bodyText. destruct (test true notFoundRe bodyText);
      [intros _; exact I|].
    eapply given_mono; [|apply IH]. auto.
Qed.

Lemma unconfirmed_manualSearch (cv : VehicleInfo) (n : nat) :
  given NoCar (fun _ o => no_description id o) (manualSearch cv n).
Proof.
  unfold manualSearch.
  repeat lazymatch goal with
  | |- given _ _ (mbind _ (isVisible addressField _)) => fail
  | |- given _ _ (mbind _ _) =>
      apply given_skip; [intros ?|intros; exact I]
  end.
  assert (Hrest : given NoCar (fun _ o => no_description id o)
            (variantHeadings ← call (AllTextContents (Css "h2, h3, h4"));
             match List.find (fun h => test false headingRe (trim h))
                     variantHeadings with
             | Some h => mret (Some (trim h))
             | None =>
                 call (Screenshot ("/tmp/racv-manual-" +:+ pretty n +:+ ".png"));;
                 mret None
             end)).
  { apply given_bind, given_call; [|intros; exact I].
    intros hs Hhs. rewrite (no_heading hs Hhs).
    apply given_skip; [|intros; exact I].
    intros _ _. reflexivity. }
  apply given_bind, given_attempt.
  - intros [|] Hv; [discriminate Hv|].
    eapply given_mono; [|apply Hrest]. auto.
  - intros e _. eapply given_mono; [|apply Hrest]. auto.
Qed.

Lemma unconfirmed_afterWait (res : WaitResult) (n : nat)
  (c : option VehicleInfo) :
  nothing_found (Normal (res, c)) ->
  given NoCar (fun _ o => no_description fst o) (afterWait res n c).
Proof.
  intros Hres. unfold afterWait.
  destruct res as [d| |]; [destruct Hres| |].
  - apply given_skip; [intros _|intros; exact I].
    apply given_skip; [|intros; exact I].
    intros [cv|]; [|intros _; reflexivity].
    apply given_bind. eapply given_mono; [|apply unconfirmed_manualSearch].
    intros t [r|e] _ Hr; [|exact I]. simpl in Hr. subst r.
    intros _. reflexivity.
  - apply given_skip; [intros _|intros; exact I].
    apply given_skip; [|intros; exact I].
    intros c' _. destruct c'; reflexivity.
Qed.

(** The turn after the lookup has started: it clicks Find no more,
    and confirms a vehicle only through what it observes. *)
Lemma unconfirmed_attemptRest (n : nat) (c : option VehicleInfo) :
  given NoCar
    (fun t o => count_actions is_find_click t = 0 /\ no_description fst o)
    ('(res, c') ← waitForResult 25 c; afterWait res n c').
Proof.
  apply given_conj.
  - apply given_wp. eapply wp_mono; [|apply neutral_attemptRest].
    intros t o Ht. apply (neutral_trace true t Ht).
  - apply given_bind.
    eapply given_mono; [|apply unconfirmed_waitForResult].
    intros t [[res c']|e] _ Hres; [|exact I].
    eapply given_mono; [|apply unconfirmed_afterWait, Hres]. auto.
Qed.

Lemma unconfirmed_resolveAttempt (input : RacvQuoteInput) (n : nat)
  (c : option VehicleInfo) :
  given NoCar
    (fun t o =>
       match o with
       | Normal (r, _) => r = None /\ count_actions is_find_click t = 1
       | Thrown _ => True
       end)
    (resolveAttempt input n c).
Proof.
  unfold resolveAttempt. apply given_bind, given_wp.
  eapply wp_mono; [|apply (enterRego_lookup input n true)]; [|reflexivity].
  intros t [[]|e] [_ Hcount]; [|exact I].
  eapply given_mono; [|apply unconfirmed_attemptRest].
  intros t' [[r c']|e] _ [Hcount' Hr]; [|exact I].
  simpl in Hr. rewrite count_actions_app, Hcount, Hcount'. auto.
Qed.

Lemma unconfirmed_resolveVehicle (input : RacvQuoteInput) (n k : nat)
  (c : option VehicleInfo) :
  given NoCar
    (fun t o =>
       match o with
       | Normal d => d = "" /\ count_actions is_find_click t = n
       | Thrown _ => True
       end)
    (resolveVehicle input n k c).
Proof.
  revert k c. induction n as [|n IH]; intros k c; cbn [resolveVehicle].
  - intros _. split; reflexivity.
  - apply given_bind.
    eapply given_mono; [|apply unconfirmed_resolveAttempt].
    intros t [[r c']|e] _ Hr; [|exact I]. destruct Hr as [-> Hcount].
    eapply given_mono; [|apply IH].
    intros t' [d|e] _ Hd; [|exact I]. destruct Hd as [-> Hcount'].
    rewrite count_actions_app, Hcount, Hcount'. auto.
Qed.


(** Every lookup of the attempt loop follows a navigation. *)
Lemma fresh_resolveAttempt (input : RacvQuoteInput) (n : nat)
  (c : option VehicleInfo) (ready : bool) :
  (n <= 1 -> ready = true) ->
  wp (resolveAttempt input n c) (fun t _ => fresh_lookups ready t = true).
Proof.
  intros Hready. unfold resolveAttempt. apply wp_bind.
  eapply wp_mono; [|apply (enterRego_lookup input n ready Hready)].
  intros t [[]|e] [Hfresh _]; [|exact Hfresh].
  eapply wp_mono; [|apply neutral_attemptRest].
  intros t' o' Ht'. rewrite fresh_lookups_app, Hfresh.
  apply (neutral_trace _ t' Ht').
Qed.

Lemma fresh_resolveVehicle (input : RacvQuoteInput) (n k : nat)
  (c : option VehicleInfo) (ready : bool) :
  1 <= k -> (k <= 1 -> ready = true) ->
  wp (resolveVehicle input n k c) (fun t _ => fresh_lookups ready t = true).
Proof.
  revert k c ready. induction n as [|n IH]; intros k c ready Hk Hready;
    cbn [resolveVehicle]; [reflexivity|].
  apply wp_bind.
  eapply wp_mono; [|apply (fresh_resolveAttempt input k c ready Hready)].
  intros t [[[d|] c']|e] Hfresh; [| |exact Hfresh].
  - simpl. rewrite app_nil_r. exact Hfresh.
  - eapply wp_mono; [|apply (IH (S k) c' (ready_after ready t))];
      [|lia..].
    intros t' o' Ht'. rewrite fresh_lookups_app, Hfresh. exact Ht'.
Qed.

Lemma nofind_fresh (ready : bool) (t : list Obs) :
  Forall (fun o => NoFind (action_of o)) t -> fresh_lookups ready t = true.
Proof.
  unfold NoFind. intros Ht. revert ready.
  induction Ht as [|o t Ho _ IH]; intros ready; simpl; [reflexivity|].
  rewrite Ho. destruct (is_navigation (action_of o) && succeeded o); apply IH.
Qed.

Lemma fresh_flow (input : RacvQuoteInput) :
  wp (flow input) (fun t _ => forall ready, fresh_lookups ready t = true).
Proof.
  unfold flow, openSite. simpl.
  intros [[]|e]; simpl; [|reflexivity].
  intros [[]|e]; simpl; [|reflexivity].
  intros [[]|e]; simpl; [|reflexivity].
  change (wp (d ← resolveVehicle input 3 1 None; afterResolve input d)
            (fun t _ => forall ready : bool,
               fresh_lookups ready
                 (obs (Route "/\.(doubleclick\.net|googleads|adsrvr\.org|facebook\.net)\//") (Ok tt)
                  :: obs (Goto RACV_URL 30000) (Ok tt)
                  :: obs (WaitForTimeout 10000) (Ok tt) :: t) = true)).
  apply wp_bind.
  eapply wp_mono; [|apply (fresh_resolveVehicle input 3 1 None true)];
    [|lia|reflexivity].
  intros t [d|e] Hfresh; [|intros ready; exact Hfresh].
  eapply wp_mono; [|apply neutral_afterResolve].
  intros t' o' Ht' ready. simpl.
  change (fresh_lookups true (t ++ t') = true).
  rewrite fresh_lookups_app, Hfresh. apply nofind_fresh, Ht'.
Qed.

Lemma fresh_scrapeRacvQuote (input : RacvQuoteInput) (b0 : option nat) :
  wp (scrapeRacvQuote input b0) (fun t _ => fresh_lookups false t = true).
Proof.
  unfold scrapeRacvQuote. apply wp_bind.
  eapply wp_mono; [|apply nofind_acquire].
  intros t0 [s|e] Ht0; [|apply nofind_fresh, Ht0].
  apply wp_bind, wp_tryCatch.
  assert (Hend : forall (t : list Obs) (r : RacvQuoteResult),
            (forall ready, fresh_lookups ready t = true) ->
            wp (finallyBlock s;; mret (browser s, r))
               (fun t' _ => fresh_lookups false (t0 ++ t ++ t') = true)).
  { intros t r Ht.
    eapply wp_mono;
      [|apply (always_bind NoFind (finallyBlock s)
                 (fun _ => mret (browser s, r)));
        [apply nofind_finallyBlock|intros _; apply always_ret]].
    intros t' o' Ht'. rewrite !fresh_lookups_app, Ht, (nofind_fresh _ t0 Ht0).
    apply nofind_fresh, Ht'. }
  assert (Hcatch : forall (t : list Obs) (e : string),
            (forall ready, fresh_lookups ready t = true) ->
            wp (catchBlock s e)
               (fun t' o' =>
                  match o' with
                  | Normal r =>
                      wp (finallyBlock s;; mret (browser s, r))
                         (fun t'' _ =>
                            fresh_lookups false (t0 ++ (t ++ t') ++ t'') = true)
                  | Thrown _ => fresh_lookups false (t0 ++ t ++ t') = true
                  end)).
  { intros t e Ht.
    eapply wp_mono; [|apply nofind_catchBlock].
    intros t' o' Ht'.
    assert (Hboth : forall ready, fresh_lookups ready (t ++ t') = true).
    { intros ready. rewrite fresh_lookups_app, Ht. apply nofind_fresh, Ht'. }
    destruct o' as [r|e']; [apply Hend, Hboth|].
    rewrite fresh_lookups_app, (nofind_fresh _ t0 Ht0). apply Hboth. }
  destruct (fault s) as [e0|].
  - simpl. apply (Hcatch [] e0). reflexivity.
  - eapply wp_mono; [|apply fresh_flow].
    intros t [r|e] Ht; [apply Hend, Ht|apply Hcatch, Ht].
Qed.


Lemma nosnap_readCaptured (c : option VehicleInfo) :
  always NoSnapshot (readCaptured c).
Proof. unfold readCaptured. nosnap. Qed.
Hint Resolve nosnap_readCaptured : nosnap.

Lemma nosnap_waitForResult (n : nat) (c : option VehicleInfo) :
  always NoSnapshot (waitForResult n c).
Proof. induction n as [|n IH]; cbn [waitForResult]; nosnap. Qed.
Hint Resolve nosnap_waitForResult : nosnap.

Lemma nosnap_fillSelect (expr : string) pred (field : json) (n i : nat) :
  always NoSnapshot (fillSelect expr pred field n i).
Proof.
  revert i. induction n as [|n IH]; intros i; cbn [fillSelect]; nosnap.
Qed.
Hint Resolve nosnap_fillSelect : nosnap.

Lemma nosnap_manualSearch (cv : VehicleInfo) (n : nat) :
  always NoSnapshot (manualSearch cv n).
Proof. unfold manualSearch, fillField. nosnap. Qed.
Hint Resolve nosnap_manualSearch : nosnap.

Lemma nosnap_resolveAttempt (input : RacvQuoteInput) (n : nat)
  (c : option VehicleInfo) :
  always NoSnapshot (resolveAttempt input n c).
Proof. unfold resolveAttempt, enterRego, afterWait. nosnap. Qed.

Lemma nosnap_resolveVehicle (input : RacvQuoteInput) (n k : nat)
  (c : option VehicleInfo) :
  always NoSnapshot (resolveVehicle input n k c).
Proof.
  revert k c. induction n as [|n IH]; intros k c; cbn [resolveVehicle];
    [apply always_ret|].
  apply always_bind; [apply nosnap_resolveAttempt|].
  intros [[d|] c']; [apply always_ret|apply IH].
Qed.

Lemma nosnap_acquire (b0 : option nat) : always NoSnapshot (acquire b0).
Proof.
  unfold acquire, protect, getBrowser.
  repeat first [ always_step | destruct b0 ].
Qed.

Lemma nosnap_catchBlock (s : Session) (e : string) :
  always NoSnapshot (catchBlock s e).
Proof. unfold catchBlock. repeat always_step. Qed.

Lemma nosnap_finallyBlock (s : Session) : always NoSnapshot (finallyBlock s).
Proof. unfold finallyBlock. repeat always_step. Qed.

(** The [try] block when no vehicle is confirmed: it returns the
    not-found result after three lookups and the snapshot, or it
    throws without that snapshot taken. *)
Lemma unconfirmed_flow (input : RacvQuoteInput) :
  given NoCar
    (fun t o =>
       match o with
       | Normal r =>
           r = notFoundResult input /\
           count_actions is_find_click t = 3 /\ In notFoundSnapshot t
       | Thrown _ => ~ In notFoundSnapshot t
       end)
    (flow input).
Proof.
  unfold flow. apply given_bind, given_wp.
  eapply wp_mono;
    [|apply (outside_lookup openSite); unfold openSite;
      [apply quiet_nofind; quiet|nosnap]].
  intros t0 [[]|e] [Hcount0 Hsnap0]; [|exact Hsnap0].
  apply given_bind.
  eapply given_mono;
    [|apply given_conj;
      [apply unconfirmed_resolveVehicle
      |apply given_wp, (nosnap_resolveVehicle input 3 1 None)]].
  intros t1 [d|e] _ [Hd Hsnap1]; apply nosnap_notin in Hsnap1.
  - destruct Hd as [-> Hcount1]. apply given_wp. unfold afterResolve. simpl.
    intros [[]|e]; simpl.
    + split; [reflexivity|]. split.
      * rewrite !count_actions_app, Hcount0, Hcount1. reflexivity.
      * apply in_or_app. right. apply in_or_app. right. left. reflexivity.
    + intros Hin. apply in_app_or in Hin as [Hin|Hin]; [auto|].
      apply in_app_or in Hin as [Hin|[Hin|[]]]; [auto|].
      apply (f_equal succeeded) in Hin. discriminate Hin.
  - intros Hin. apply in_app_or in Hin as [Hin|Hin]; auto.
Qed.

(** The whole call when no vehicle is confirmed. *)
Lemma unconfirmed_scrapeRacvQuote (input : RacvQuoteInput) (b0 : option nat) :
  given NoCar
    (fun t o =>
       exists b r,
         o = Normal (b, r) /\
         ((~ In notFoundSnapshot t /\ exists msg, r = errorResult msg) \/
          (In notFoundSnapshot t /\ r = notFoundResult input /\
           count_actions is_find_click t = 3)))
    (scrapeRacvQuote input b0).
Proof.
  unfold scrapeRacvQuote.
  match goal with |- given _ ?Q0 _ => set (Q := Q0) end.
  apply given_bind, given_wp.
  eapply wp_mono;
    [|apply (wp_conj _ _ _ (total_acquire b0)
               (outside_lookup _ (nofind_acquire b0) (nosnap_acquire b0)))].
  intros t0 o [(s & -> & _) [Hcount0 Hsnap0]].
  assert (Hend : forall r : RacvQuoteResult,
            wp (finallyBlock s;; mret (browser s, r))
               (fun t o => o = Normal (browser s, r) /\
                           count_actions is_find_click t = 0 /\
                           ~ In notFoundSnapshot t)).
  { intros r.
    eapply wp_mono;
      [|apply (wp_conj _ _ _
                 (total_bind (fun _ => True) (fun br => br = (browser s, r))
                    _ _ (total_finallyBlock s)
                    (fun _ _ => total_ret _ _ eq_refl))
                 (outside_lookup _
                    (always_bind NoFind _ _ (nofind_finallyBlock s)
                       (fun _ => always_ret _ (browser s, r)))
                    (always_bind NoSnapshot _ _ (nosnap_finallyBlock s)
                       (fun _ => always_ret _ (browser s, r)))))].
    intros t o [(br & -> & ->) Ht]. auto. }
  assert (Hcatch : forall (t1 : list Obs) (e : string),
            ~ In notFoundSnapshot t1 ->
            given NoCar
              (fun t' o' =>
                 match o' with
                 | Normal r =>
                     given NoCar
                       (fun t'' o'' => Q (t0 ++ (t1 ++ t') ++ t'') o'')
                       (finallyBlock s;; mret (browser s, r))
                 | Thrown e' => Q (t0 ++ t1 ++ t') (Thrown e')
                 end)
              (catchBlock s e)).
  { intros t1 e Hsnap1. apply given_wp.
    eapply wp_mono;
      [|apply (wp_conj _ _ _ (total_catchBlock s e)
                 (outside_lookup _ (nofind_catchBlock s e)
                    (nosnap_catchBlock s e)))].
    intros t2 o [(r & -> & ->) [_ Hsnap2]].
    apply given_wp. eapply wp_mono; [|apply Hend].
    intros t3 o (-> & _ & Hsnap3).
    eexists _, _. split; [reflexivity|]. left. split; [|eauto].
    intros Hin. repeat (apply in_app_or in Hin as [Hin|Hin]; auto). }
  apply given_bind, given_tryCatch.
  destruct (fault s) as [e0|].
  - intros _. apply (Hcatch [] e0). simpl. tauto.
  - eapply given_mono; [|apply unconfirmed_flow].
    intros t1 [r|e] _ Hflow; [|apply Hcatch, Hflow].
    destruct Hflow as (-> & Hcount1 & Hsnap1).
    apply given_wp. eapply wp_mono; [|apply Hend].
    intros t3 o (-> & Hcount3 & _).
    eexists _, _. split; [reflexivity|]. right.
    split; [apply in_or_app; right; apply in_or_app; left; exact Hsnap1|].
    split; [reflexivity|].
    rewrite !count_actions_app, Hcount0, Hcount1, Hcount3. reflexivity.
Qed.



End LookupClaims.

Lemma snapshot_taken (t : list Obs) :
  existsb (fun o => takes_snapshot (action_of o) && succeeded o) t = true ->
  In notFoundSnapshot t.
Proof.
  intros Ht. apply existsb_exists in Ht as ([a r] & Hin & Ho).
  apply andb_true_iff in Ho as [Ha Hr].
  destruct a; try discriminate Ha. simpl in Ha.
  apply String.eqb_eq in Ha. subst.
  destruct r as [[]|e]; [exact Hin|discriminate Hr].
Qed.



(** C2: the code at the failing input.  On a page where each wait for
    the quote times out under the system-error message, with BACK TO
    FORM and Continue visible, the wait loop performs two recovery
    cycles: after the second timeout it clicks BACK TO FORM and
    re-submits once more. *)
Theorem C2_second_recovery_cycle :
  map action_of (trace (waitForQuote 2) Worlds.systemErrorPage)
    = [ WaitFor quoteText 60000; WaitForTimeout 2000; TextContent "body";
        IsVisible backBtn (Some 3000%N); Click backBtn; WaitForTimeout 5000;
        IsVisible continueBtn (Some 5000%N);
        ScrollIntoViewIfNeeded continueBtn; Click continueBtn;
        WaitFor quoteText 60000; WaitForTimeout 2000; TextContent "body";
        IsVisible backBtn (Some 3000%N); Click backBtn; WaitForTimeout 5000;
        IsVisible continueBtn (Some 5000%N);
        ScrollIntoViewIfNeeded continueBtn; Click continueBtn ] /\
  count_actions is_back_click
    (trace (scrapeRacvQuote Worlds.sampleInput None) Worlds.systemErrorPage) = 2 /\
  count_actions is_continue_click
    (trace (waitForQuote 2) Worlds.systemErrorPage) = 2.
Proof. repeat split; vm_compute; reflexivity. Qed.

(** C3: the code at the failing input.  On a text where the
    period-marker rule finds 500 and the label rule finds 900, the
    annual premium is 900: the later pattern overwrites the earlier. *)
Theorem C3_later_pattern_overwrites :
  let resultText := "$500 per year. Annual premium: $900" in
  (exists p1 p2 rest,
     premPatterns = (p1, annual) :: (p2, annual) :: rest /\
     group1 <$> exec true p1 resultText = Some (Some "500") /\
     group1 <$> exec true p2 resultText = Some (Some "900")) /\
  (annualPremium <$> extractPremiums resultText) = Some (Some 900%float).
Proof.
  split; [|vm_compute; reflexivity].
  eexists _, _, _. split; [reflexivity|]. split; vm_compute; reflexivity.
Qed.

(** ** The browser resource *)

Lemma step_held_only (s s' : Worlds.Service) :
  Worlds.step s s' -> held_only s -> held_only s'.
Proof.
  intros Hstep Hinv. unfold held_only in *.
  destruct Hstep as [h w h' b t w' Hrun|h w e t w' Hrun|h w h' t w' Hrun
                    |h w b|h w f]; simpl in *.
  - destruct h as [b0|]; unfold getBrowser in Hrun; cbn in Hrun.
    + destruct (bool_decide (b0 ∈ Worlds.live w)) eqn:Hlive; cbn in Hrun.
      * injection Hrun as <- <- <- <-. exact Hinv.
      * destruct (Worlds.launchFails w); cbn in Hrun; [discriminate|].
        injection Hrun as <- <- <- <-. simpl. intros b1 Hb1.
        apply elem_of_union in Hb1 as [Hb1|Hb1]; [set_solver|].
        apply bool_decide_eq_false in Hlive.
        pose proof (Hinv _ Hb1) as Heq. injection Heq as ->. contradiction.
    + destruct (Worlds.launchFails w); cbn in Hrun; [discriminate|].
      injection Hrun as <- <- <- <-. simpl. intros b1 Hb1.
      apply elem_of_union in Hb1 as [Hb1|Hb1]; [set_solver|].
      pose proof (Hinv _ Hb1). discriminate.
  - destruct h as [b0|]; unfold getBrowser in Hrun; cbn in Hrun.
    + destruct (bool_decide (b0 ∈ Worlds.live w)); cbn in Hrun; [discriminate|].
      destruct (Worlds.launchFails w); cbn in Hrun; [|discriminate].
      injection Hrun as <- <- <-. exact Hinv.
    + destruct (Worlds.launchFails w); cbn in Hrun; [|discriminate].
      injection Hrun as <- <- <-. exact Hinv.
  - destruct h as [b0|]; unfold closeBrowser in Hrun; cbn in Hrun.
    + injection Hrun as <- <- <-. simpl. intros b1 Hb1.
      apply elem_of_difference in Hb1 as [Hb1 Hne].
      pose proof (Hinv _ Hb1) as Heq. injection Heq as ->. set_solver.
    + injection Hrun as <- <- <-. exact Hinv.
  - intros b1 Hb1. apply elem_of_difference in Hb1 as [Hb1 _]. auto.
  - exact Hinv.
Qed.

Lemma reachable_held_only (s : Worlds.Service) : reachable s -> held_only s.
Proof.
  induction 1 as [|s s' _ IH Hstep].
  - intros b Hb. simpl in Hb. set_solver.
  - eapply step_held_only; eassumption.
Qed.

Lemma held_only_size (s : Worlds.Service) :
  held_only s -> size (Worlds.live s.2) <= 1.
Proof.
  intros Hinv. destruct s as [[b|] w]; simpl in *.
  - assert (Hsub : Worlds.live w ⊆ {[b]}).
    { intros x Hx. pose proof (Hinv x Hx) as Heq. injection Heq as ->.
      set_solver. }
    apply subseteq_size in Hsub. rewrite size_singleton in Hsub. exact Hsub.
  - assert (Hempty : Worlds.live w = ∅).
    { apply leibniz_equiv. intros x. split; [|set_solver].
      intros Hx. pose proof (Hinv x Hx). discriminate. }
    rewrite Hempty, size_empty. lia.
Qed.

(** *** Calls that may overlap *)

(** What holds between the calls and while one call is suspended,
    when no call starts before the one before it has ended: at most
    one call is suspended; every running instance is the held one; a
    launch is awaited only while no instance runs, and a close only
    of the held instance. *)
Lemma serially_invariant (p : Overlap.Process) :
  Overlap.serially p ->
  Overlap.held_only p /\
  (Overlap.suspended p = [] \/
   (Overlap.suspended p = [Overlap.AtLaunch] /\
    Worlds.live (Overlap.engine p) = ∅) \/
   (exists b, Overlap.suspended p = [Overlap.AtClose b] /\
              Overlap.browser p = Some b)).
Proof.
  induction 1 as [|p ev _ [Hheld Hsusp] Hstart].
  - split; [|left; reflexivity]. intros b Hb. cbn in Hb. set_solver.
  - destruct p as [h e s]. unfold Overlap.held_only in *. cbn in *.
    destruct ev as [| |i|b|f]; cbn.
    + specialize (Hstart eq_refl). subst s.
      destruct h as [b|]; cbn.
      * destruct (bool_decide (b ∈ Worlds.live e)) eqn:Hlive; cbn.
        { split; [exact Hheld|left; reflexivity]. }
        split; [exact Hheld|]. right; left. split; [reflexivity|].
        apply bool_decide_eq_false in Hlive.
        apply leibniz_equiv. intros x. split; [|set_solver].
        intros Hx. pose proof (Hheld x Hx) as Heq. injection Heq as ->.
        contradiction.
      * split; [exact Hheld|]. right; left. split; [reflexivity|].
        apply leibniz_equiv. intros x. split; [|set_solver].
        intros Hx. pose proof (Hheld x Hx). discriminate.
    + specialize (Hstart eq_refl). subst s.
      destruct h as [b|]; cbn; [|split; [exact Hheld|left; reflexivity]].
      split; [exact Hheld|]. right; right. exists b. auto.
    + destruct Hsusp as [->|[[-> Hlive]|(b & -> & ->)]].
      * rewrite lookup_nil. cbn. split; [exact Hheld|left; reflexivity].
      * destruct i as [|i]; cbn;
          [|split; [exact Hheld|right; left; auto]].
        destruct (Worlds.launchFails e); cbn.
        { split; [exact Hheld|left; reflexivity]. }
        split; [|left; reflexivity].
        intros x Hx. apply elem_of_union in Hx as [Hx|Hx].
        { apply elem_of_singleton in Hx. subst x. reflexivity. }
        rewrite Hlive in Hx. apply elem_of_empty in Hx. contradiction.
      * destruct i as [|i]; cbn;
          [|split; [exact Hheld|right; right; eauto]].
        split; [|left; reflexivity].
        intros x Hx. apply elem_of_difference in Hx as [Hx Hne].
        pose proof (Hheld x Hx) as Heq. injection Heq as ->. set_solver.
    + split.
      * intros x Hx. apply elem_of_difference in Hx as [Hx _]. auto.
      * destruct Hsusp as [->|[[-> Hlive]|(b0 & -> & ->)]];
          [left; reflexivity| |right; right; eauto].
        right; left. split; [reflexivity|].
        apply leibniz_equiv. intros x. rewrite Hlive. split; [|set_solver].
        intros Hx. apply elem_of_difference in Hx as [Hx _]. exact Hx.
    + split; [exact Hheld|exact Hsusp].
Qed.

Lemma overlap_held_only_size (p : Overlap.Process) :
  Overlap.held_only p -> size (Worlds.live (Overlap.engine p)) <= 1.
Proof.
  intros Hheld.
  apply (held_only_size (Overlap.browser p, Overlap.engine p)), Hheld.
Qed.

(** A call that starts while no call is suspended and goes on before
    anything else happens is the call run in one piece. *)
Lemma serial_getBrowser (p : Overlap.Process) :
  Overlap.suspended p = [] ->
  let q := Overlap.fires [Overlap.CallGetBrowser; Overlap.Resume 0] p in
  Overlap.suspended q = [] /\
  match run (getBrowser (Overlap.browser p)) (Overlap.engine p) with
  | (Normal (h, _), _, e) => Overlap.browser q = h /\ Overlap.engine q = e
  | (Thrown _, _, e) =>
      Overlap.browser q = Overlap.browser p /\ Overlap.engine q = e
  end.
Proof.
  destruct p as [h e s]. cbn. intros ->.
  destruct h as [b|]; cbn.
  - destruct (bool_decide (b ∈ Worlds.live e)); cbn; [auto|].
    destruct (Worlds.launchFails e); cbn; auto.
  - destruct (Worlds.launchFails e); cbn; auto.
Qed.

Lemma serial_closeBrowser (p : Overlap.Process) :
  Overlap.suspended p = [] ->
  let q := Overlap.fires [Overlap.CallCloseBrowser; Overlap.Resume 0] p in
  Overlap.suspended q = [] /\
  match run (closeBrowser (Overlap.browser p)) (Overlap.engine p) with
  | (Normal h, _, e) => Overlap.browser q = h /\ Overlap.engine q = e
  | (Thrown _, _, e) =>
      Overlap.browser q = Overlap.browser p /\ Overlap.engine q = e
  end.
Proof.
  destruct p as [h e s]. cbn. intros ->.
  destruct h as [b|]; cbn; auto.
Qed.

(** C8, as the code has it.  In every environment [getBrowser]
    returns the held instance without launching when it exists and
    reports connected, and it launches once and stores the new
    instance when none is held or the held one reports disconnected;
    [closeBrowser] closes the held instance and resets the variable,
    and does nothing when none is held.  When no call of the two
    starts before the one before it has ended, then over every
    sequence of calls, crashes and failing launches from the start of
    the process every running instance is the held one, between the
    calls and while a call waits for the engine: at most one engine
    instance is alive.  A call that starts alone and goes on at once
    is the call run in one piece. *)
Theorem C8_single_engine_serial :
  (forall (W : Type) (E : Env W) (w : W) (b : nat),
     run (getBrowser (Some b)) w =
     match respond (IsConnected b) w with
     | (Ok true, w1) => (Normal (Some b, b), [obs (IsConnected b) (Ok true)], w1)
     | (Ok false, w1) =>
         match respond Launch w1 with
         | (Ok b', w2) =>
             (Normal (Some b', b'),
              [obs (IsConnected b) (Ok false); obs Launch (Ok b')], w2)
         | (Err e, w2) =>
             (Thrown e, [obs (IsConnected b) (Ok false); obs Launch (Err e)], w2)
         end
     | (Err e, w1) => (Thrown e, [obs (IsConnected b) (Err e)], w1)
     end) /\
  (forall (W : Type) (E : Env W) (w : W),
     run (getBrowser None) w =
     match respond Launch w with
     | (Ok b', w1) => (Normal (Some b', b'), [obs Launch (Ok b')], w1)
     | (Err e, w1) => (Thrown e, [obs Launch (Err e)], w1)
     end) /\
  (forall (W : Type) (E : Env W) (w : W) (b : nat),
     run (closeBrowser (Some b)) w =
     match respond (BrowserClose b) w with
     | (Ok u, w1) => (Normal None, [obs (BrowserClose b) (Ok u)], w1)
     | (Err e, w1) => (Thrown e, [obs (BrowserClose b) (Err e)], w1)
     end) /\
  (forall (W : Type) (E : Env W) (w : W),
     run (closeBrowser None) w = (Normal None, [], w)) /\
  (forall s : Worlds.Service,
     reachable s -> held_only s /\ size (Worlds.live s.2) <= 1) /\
  (forall p : Overlap.Process,
     Overlap.serially p ->
     Overlap.held_only p /\ size (Worlds.live (Overlap.engine p)) <= 1 /\
     length (Overlap.suspended p) <= 1) /\
  (forall p : Overlap.Process,
     Overlap.suspended p = [] ->
     (let q := Overlap.fires [Overlap.CallGetBrowser; Overlap.Resume 0] p in
      Overlap.suspended q = [] /\
      match run (getBrowser (Overlap.browser p)) (Overlap.engine p) with
      | (Normal (h, _), _, e) => Overlap.browser q = h /\ Overlap.engine q = e
      | (Thrown _, _, e) =>
          Overlap.browser q = Overlap.browser p /\ Overlap.engine q = e
      end) /\
     (let q := Overlap.fires [Overlap.CallCloseBrowser; Overlap.Resume 0] p in
      Overlap.suspended q = [] /\
      match run (closeBrowser (Overlap.browser p)) (Overlap.engine p) with
      | (Normal h, _, e) => Overlap.browser q = h /\ Overlap.engine q = e
      | (Thrown _, _, e) =>
          Overlap.browser q = Overlap.browser p /\ Overlap.engine q = e
      end)).
Proof.
  split; [|split; [|split; [|split; [|split; [|split]]]]].
  - intros W E w b. unfold getBrowser. simpl.
    destruct (respond (IsConnected b) w) as [[[|]|e] w1]; simpl; try reflexivity.
    destruct (respond Launch w1) as [[b'|e] w2]; reflexivity.
  - intros W E w. unfold getBrowser. simpl.
    destruct (respond Launch w) as [[b'|e] w1]; reflexivity.
  - intros W E w b. unfold closeBrowser. simpl.
    destruct (respond (BrowserClose b) w) as [[u|e] w1]; reflexivity.
  - reflexivity.
  - intros s Hs. split; [|apply held_only_size]; apply reachable_held_only, Hs.
  - intros p Hp. destruct (serially_invariant p Hp) as [Hheld Hsusp].
    split; [exact Hheld|]. split; [apply overlap_held_only_size, Hheld|].
    destruct Hsusp as [->|[[-> _]|(b & -> & _)]]; simpl; lia.
  - intros p Hp. split; [apply serial_getBrowser|apply serial_closeBrowser];
      exact Hp.
Qed.

(** C8 at its failing input: two calls of [getBrowser] that overlap.
    Both find no instance held and both launch; the second launch
    overwrites the variable, so two instances run and only one is
    held.  A [closeBrowser] after that closes the held one and leaves
    the other running with no handle to it. *)
Lemma C8_overlapping_calls :
  let p := Overlap.fires [Overlap.CallGetBrowser; Overlap.CallGetBrowser;
                          Overlap.Resume 0; Overlap.Resume 0]
             Overlap.initial in
  let q := Overlap.fires [Overlap.CallCloseBrowser; Overlap.Resume 0] p in
  Overlap.reachable p /\
  Overlap.suspended p = [] /\
  Overlap.browser p = Some 1 /\
  Worlds.live (Overlap.engine p) = {[0; 1]} /\
  size (Worlds.live (Overlap.engine p)) = 2 /\
  ~ Overlap.held_only p /\
  Overlap.browser q = None /\
  Worlds.live (Overlap.engine q) = {[0]}.
Proof.
  assert (Hlive : ({[1]} ∪ ({[0]} ∪ ∅) : gset nat) = {[0; 1]}).
  { apply leibniz_equiv. intros x. set_solver. }
  cbv zeta. unfold Overlap.fires. cbn [fold_left].
  split; [|split; [|split; [|split; [|split; [|split; [|split]]]]]].
  - repeat apply Overlap.reachable_fire. apply Overlap.reachable_initial.
  - reflexivity.
  - reflexivity.
  - exact Hlive.
  - cbn. rewrite Hlive, size_union, !size_singleton; [reflexivity|].
    intros x Hx0 Hx1. apply elem_of_singleton in Hx0, Hx1. congruence.
  - intros Hheld. specialize (Hheld 0). cbn in Hheld.
    rewrite Hlive in Hheld. discriminate Hheld.
    apply elem_of_union_l, elem_of_singleton. reflexivity.
  - reflexivity.
  - cbn. rewrite Hlive. apply leibniz_equiv. intros x.
    rewrite elem_of_difference, elem_of_union, !elem_of_singleton. lia.
Qed.

(** C8 after a first [getBrowser] that has run alone: one instance is
    alive and it is the held one. *)
Lemma C8_single_engine_serial_witness :
  let p := Overlap.fires [Overlap.CallGetBrowser; Overlap.Resume 0]
             Overlap.initial in
  Overlap.browser p = Some 0 /\
  Overlap.held_only p /\ size (Worlds.live (Overlap.engine p)) <= 1 /\
  length (Overlap.suspended p) <= 1.
Proof.
  split; [reflexivity|].
  refine (proj1 (proj2 (proj2 (proj2 (proj2 (proj2 C8_single_engine_serial)))))
            _ _).
  apply (Overlap.serially_fire _ (Overlap.Resume 0)); [|discriminate].
  apply (Overlap.serially_fire _ Overlap.CallGetBrowser);
    [apply Overlap.serially_initial|reflexivity].
Defined.

(** ** The manual-mode quote tool *)

Section MotorQuoteClaims.
Import MotorQuote.
Variable pricing : QuoteInput -> QuoteResult.
Variable scrape : QuoteInput -> Outcome RacvScraperResult.

(** C9.  The quote in the structured content is the mock quote
    unchanged when the live scraper is disabled, when the scrape
    throws, when it returns [success = false], and when it returns no
    non-zero [annual_premium].  Otherwise, with scraped annual premium
    [a], the annual range is [round (a * 0.95)] to [round (a * 1.05)],
    and when the scrape gave no non-zero monthly premium the monthly
    range is the same spread around [round ((a / 12) * 1.05)]. *)
Theorem C9_live_override (RACV_LIVE_QUOTES : option string)
  (input : QuoteInput) :
  let quote := (getMotorQuote pricing scrape RACV_LIVE_QUOTES input).1 in
  (RACV_LIVE_QUOTES <> Some "true" \/
   (exists e, scrape input = Thrown e) \/
   (exists r, scrape input = Normal r /\
              (success r = false \/ truthy (scraped_annual_premium r) = false)) ->
   quote = pricing input) /\
  (forall r a,
     RACV_LIVE_QUOTES = Some "true" ->
     scrape input = Normal r ->
     success r = true ->
     scraped_annual_premium r = Some a ->
     truthy_num a = true ->
     premium_range_annual quote
       = {| min := Math_round (a * 0.95); max := Math_round (a * 1.05) |} /\
     (truthy (scraped_monthly_premium r) = false ->
      premium_range_monthly quote =
        {| min := Math_round (Math_round (a / 12 * 1.05) * 0.95);
           max := Math_round (Math_round (a / 12 * 1.05) * 1.05) |}))%float.
Proof.
  unfold getMotorQuote. split.
  - intros [Henv|[[e He]|(r & Hr & Hfail)]].
    + destruct RACV_LIVE_QUOTES as [v|]; simpl; [|reflexivity].
      destruct (String.eqb_spec v "true") as [->|]; [contradiction|reflexivity].
    + rewrite He. destruct (USE_LIVE_SCRAPER _); reflexivity.
    + rewrite Hr. destruct (USE_LIVE_SCRAPER _); [|reflexivity].
      destruct Hfail as [->|Hfalsy]; [reflexivity|].
      destruct (success r); [|reflexivity].
      destruct (scraped_annual_premium r) as [a|]; [|reflexivity].
      simpl in Hfalsy. rewrite Hfalsy. reflexivity.
  - intros r a -> -> -> -> ->. simpl. split; [reflexivity|].
    intros Hmonthly. unfold realMonthly, spreadRange.
    destruct (scraped_monthly_premium r) as [mp|]; [|reflexivity].
    simpl in Hmonthly. rewrite Hmonthly. reflexivity.
Qed.

End MotorQuoteClaims.

(** C9 on a scrape that returns 1000 a year and no monthly premium,
    and with the scraper disabled. *)
Lemma C9_live_override_witness :
  (MotorQuote.getMotorQuote (fun _ => Worlds.sampleQuote)
     (fun _ => Normal Worlds.sampleScraped) None Worlds.sampleQuoteInput).1
    = Worlds.sampleQuote /\
  MotorQuote.premium_range_annual
    (MotorQuote.getMotorQuote (fun _ => Worlds.sampleQuote)
       (fun _ => Normal Worlds.sampleScraped) (Some "true")
       Worlds.sampleQuoteInput).1
    = {| MotorQuote.min := 950%float; MotorQuote.max := 1050%float |} /\
  MotorQuote.premium_range_monthly
    (MotorQuote.getMotorQuote (fun _ => Worlds.sampleQuote)
       (fun _ => Normal Worlds.sampleScraped) (Some "true")
       Worlds.sampleQuoteInput).1
    = {| MotorQuote.min := 84%float; MotorQuote.max := 92%float |}.
Proof.
  split.
  - apply (proj1 (C9_live_override (fun _ => Worlds.sampleQuote)
                    (fun _ => Normal Worlds.sampleScraped) None
                    Worlds.sampleQuoteInput)).
    left. discriminate.
  - destruct (proj2 (C9_live_override (fun _ => Worlds.sampleQuote)
                       (fun _ => Normal Worlds.sampleScraped) (Some "true")
                       Worlds.sampleQuoteInput)
                Worlds.sampleScraped 1000%float
                eq_refl eq_refl eq_refl eq_refl eq_refl) as [Ha Hm].
    split; [exact Ha|]. exact (Hm eq_refl).
Defined.

(** ** The coverage tool *)

(** C10.  For each of the five areas of the input enumeration the
    table has an entry with a non-empty details list; the handler
    returns the area's name, title and details in the structured
    content and a text that contains the title and every detail; the
    not-found answer is never returned. *)
Theorem C10_coverage_found (a : Coverage.CoverageArea) :
  exists info,
    Coverage.coverageData !! Coverage.area_name a = Some info /\
    Coverage.details info <> [] /\
    Coverage.structured (Coverage.getCoverageDetails a)
      = Some {| Coverage.area := Coverage.area_name a;
                Coverage.data_title := Coverage.title info;
                Coverage.data_details := Coverage.details info |} /\
    Coverage.text (Coverage.getCoverageDetails a)
      = join Coverage.newline (Coverage.coverageLines info) /\
    includes (Coverage.text (Coverage.getCoverageDetails a))
             (Coverage.title info) = true /\
    forallb (includes (Coverage.text (Coverage.getCoverageDetails a)))
            (Coverage.details info) = true /\
    includes (Coverage.text (Coverage.getCoverageDetails a))
             "Coverage area not found" = false.
Proof.
  destruct a; eexists;
    (split; [vm_compute; reflexivity|]);
    (split; [discriminate|]);
    (split; [vm_compute; reflexivity|]);
    (split; [vm_compute; reflexivity|]);
    (split; [vm_compute; reflexivity|]);
    split; vm_compute; reflexivity.
Qed.

(** ** Matching options against the captured record *)

Lemma is_space_upper (c : ascii) : is_space (upper_char c) = is_space c.
Proof. destruct c as [[] [] [] [] [] [] [] []]; vm_compute; reflexivity. Qed.

Lemma chars_text (l : list ascii) : chars (text l) = l.
Proof. apply list_ascii_of_string_of_list_ascii. Qed.

Lemma drop_space_upper (l : list ascii) :
  drop_space (map upper_char l) = map upper_char (drop_space l).
Proof.
  induction l as [|c l IH]; simpl; [reflexivity|].
  rewrite is_space_upper. destruct (is_space c); [exact IH|reflexivity].
Qed.

Lemma toUpperCase_trim (s : string) : toUpperCase (trim s) = trim (toUpperCase s).
Proof.
  unfold toUpperCase, trim. rewrite !chars_text. f_equal.
  rewrite drop_space_upper, <- map_rev, drop_space_upper, <- map_rev.
  reflexivity.
Qed.

Lemma matchesField_spec (rec o : string) :
  matchesField (toUpperCase rec) o
  = ci_includes o rec || ci_includes rec (trim o).
Proof.
  unfold matchesField, ci_includes. rewrite toUpperCase_trim. reflexivity.
Qed.

Lemma matchesBody_spec (rec o : string) :
  matchesBody (toUpperCase rec) o
  = ci_includes (trim o) rec || ci_includes rec (trim o).
Proof.
  unfold matchesBody, ci_includes. rewrite toUpperCase_trim. reflexivity.
Qed.

Lemma find_ext {A : Type} (f g : A -> bool) (l : list A) :
  (forall a, f a = g a) -> List.find f l = List.find g l.
Proof.
  intros Hfg. induction l as [|a l IH]; simpl; [reflexivity|].
  rewrite Hfg, IH. reflexivity.
Qed.

Lemma nonempty_trim (o : string) :
  nonempty o && nonempty (trim o) = nonempty (trim o).
Proof. destruct o; reflexivity. Qed.

(** The label [pickOption] gives is the one of the first option that
    matches. *)
Lemma pickOption_first_match (expr : string) (pred matches : string -> string -> bool)
  (rec : string) (options : list string) :
  (forall o, pred (toUpperCase rec) o = matches rec o) ->
  pickOption expr pred (JStr rec) options = Ok (first_match matches rec options).
Proof.
  intros Hpred. unfold pickOption, first_match.
  destruct options as [|o0 options]; [reflexivity|].
  cbn [upperOf]. rewrite (find_ext _ _ _ Hpred).
  destruct (List.find (matches rec) (o0 :: options)) as [o|]; [|reflexivity].
  rewrite nonempty_trim. reflexivity.
Qed.

Lemma pickOption_spec (expr : string) (pred : string -> string -> bool)
  (field : json) (options : list string) (label : string) :
  pickOption expr pred field options = Ok (Some label) ->
  exists rec o,
    field = JStr rec /\
    List.find (pred (toUpperCase rec)) options = Some o /\
    label = trim o /\ nonempty label = true.
Proof.
  unfold pickOption. destruct options as [|o0 options]; [discriminate|].
  destruct field as [| | |rec| |]; simpl; try discriminate.
  set (found := if pred (toUpperCase rec) o0 then Some o0
                else List.find (pred (toUpperCase rec)) options).
  destruct found as [o|] eqn:Hfound; [|discriminate].
  destruct (nonempty o && nonempty (trim o)) eqn:Hne; [|discriminate].
  intros [= <-]. exists rec, o. apply andb_true_iff in Hne as [_ Hne].
  auto.
Qed.

(** *** Runs on a page that answers every query the same way *)

Lemma static_agrees {A : Type} (p : Prog A) (page : Worlds.StaticPage) :
  (forall a, Worlds.failing page a = None) ->
  Forall (agrees page) (trace p page).
Proof.
  intros Hfail. unfold trace.
  induction p as [a|e|a k IH]; simpl; [constructor..|].
  unfold respond, Worlds.static_env. rewrite Hfail.
  specialize (IH (Ok (Worlds.static_answer page a))).
  destruct (run (k (Ok (Worlds.static_answer page a))) page) as [[o t] w].
  simpl in *. constructor; [reflexivity|exact IH].
Qed.

Lemma agrees_call (page : Worlds.StaticPage) (a : Action)
  (Q : list Obs -> Outcome (resp a) -> Prop) :
  Q [obs a (Ok (Worlds.static_answer page a))]
    (Normal (Worlds.static_answer page a)) ->
  given (agrees page) Q (call a).
Proof.
  intros HQ. apply given_call.
  - intros x Hx. simpl in Hx. subst x. exact HQ.
  - intros e [].
Qed.

Lemma agrees_attempt (page : Worlds.StaticPage) (a : Action) (d : resp a)
  (Q : list Obs -> Outcome (resp a) -> Prop) :
  Q [obs a (Ok (Worlds.static_answer page a))]
    (Normal (Worlds.static_answer page a)) ->
  given (agrees page) Q (attempt a d).
Proof.
  intros HQ. apply given_attempt.
  - intros x Hx. simpl in Hx. subst x. exact HQ.
  - intros e [].
Qed.

Lemma selects_app (t t' : list Obs) : selects (t ++ t') = selects t ++ selects t'.
Proof. apply omap_app. Qed.

Lemma selects_none (t : list Obs) :
  Forall (fun o => NoSelect (action_of o)) t -> selects t = [].
Proof.
  induction 1 as [|[a r] t Ho _ IH]; [reflexivity|].
  destruct a; simpl in Ho; solve [exact IH | destruct Ho].
Qed.

(** A step that returns [a] and selects [l], then a rest that selects [l']. *)
Lemma selects_bind {A B : Type} (page : Worlds.StaticPage) (m : Prog A)
  (f : A -> Prog B) (a : A) (l l' : list (Locator * SelectArg))
  (R : Outcome B -> Prop) :
  given (agrees page) (fun t o => o = Normal a /\ selects t = l) m ->
  given (agrees page) (fun t o => R o /\ selects t = l') (f a) ->
  given (agrees page) (fun t o => R o /\ selects t = l ++ l') (m ≫= f).
Proof.
  intros Hm Hf. apply given_bind. eapply given_mono; [|apply Hm].
  intros t o _ [-> Hl]. eapply given_mono; [|apply Hf].
  intros t' o' _ [Ho' Hl']. rewrite selects_app, Hl, Hl'. auto.
Qed.

Lemma selects_step {B : Type} (page : Worlds.StaticPage) (a : Action)
  (f : resp a -> Prog B) (l' : list (Locator * SelectArg))
  (R : Outcome B -> Prop) :
  NoSelect a ->
  given (agrees page) (fun t o => R o /\ selects t = l')
    (f (Worlds.static_answer page a)) ->
  given (agrees page) (fun t o => R o /\ selects t = l') (call a ≫= f).
Proof.
  intros Ha Hf.
  apply (selects_bind page _ _ (Worlds.static_answer page a) [] l' R);
    [|exact Hf].
  apply agrees_call. split; [reflexivity|].
  apply selects_none. repeat constructor. exact Ha.
Qed.

Lemma selects_fillSelect (page : Worlds.StaticPage) (expr : string)
  (pred : string -> string -> bool) (field : json)
  (pick : list string -> option string) (n i : nat) :
  (forall options, pickOption expr pred field options = Ok (pick options)) ->
  given (agrees page)
    (fun t o =>
       o = Normal tt /\
       selects t
       = scan pick
           (fun i => Worlds.texts page (Sub (Nth visibleSelects i) "option"))
           n i)
    (fillSelect expr pred field n i).
Proof.
  intros Hpick. revert i.
  induction n as [|n IH]; intros i; cbn [fillSelect scan];
    [intros _; split; reflexivity|].
  apply given_bind, agrees_call. cbn [Worlds.static_answer].
  rewrite Hpick.
  destruct (pick (Worlds.texts page (Sub (Nth visibleSelects i) "option")))
    as [label|].
  - apply given_bind, agrees_call, agrees_call. split; reflexivity.
  - eapply given_mono; [|apply IH]. intros t o _ Ht. exact Ht.
Qed.

Lemma selects_fillField (page : Worlds.StaticPage) (expr : string)
  (pred : string -> string -> bool) (field : json)
  (pick : list string -> option string) :
  (forall options, pickOption expr pred field options = Ok (pick options)) ->
  given (agrees page)
    (fun t o =>
       o = Normal tt /\
       selects t
       = scan pick
           (fun i => Worlds.texts page (Sub (Nth visibleSelects i) "option"))
           (Worlds.counts page visibleSelects) 0)
    (fillField expr pred field).
Proof.
  intros Hpick. unfold fillField.
  apply given_bind, agrees_call. cbn [Worlds.static_answer].
  eapply given_mono; [|apply (selects_fillSelect page), Hpick].
  intros t o _ Ht. exact Ht.
Qed.

Section ManualSearch.
Context `{Platform}.

Lemma driven_fillSelect (cv : VehicleInfo) (expr : string)
  (pred matches : string -> string -> bool) (field : json) (n i : nat) :
  (forall rec o, pred (toUpperCase rec) o = matches rec o) ->
  ((field = make cv \/ field = model cv) /\ matches = field_match) \/
  (field = bodyType cv /\ matches = body_match) ->
  always (driven_by cv) (fillSelect expr pred field n i).
Proof.
  intros Hpred Hfield. revert i.
  induction n as [|n IH]; intros i; cbn [fillSelect]; [apply always_ret|].
  apply always_bind; [apply always_call; exact I|intros options].
  destruct (pickOption expr pred field options) as [[label|]|e] eqn:Hpick;
    [|apply IH|apply always_throw].
  destruct (pickOption_spec _ _ _ _ _ Hpick) as (rec & o & -> & Hfind & -> & Hne).
  apply List.find_some in Hfind as [_ Hmatch]. rewrite Hpred in Hmatch.
  apply always_bind; [|intros _; apply always_call; exact I].
  apply always_call. simpl. exists rec, o.
  split; [reflexivity|]. split; [exact Hne|].
  destruct Hfield as [[Hf ->]|[Hf ->]]; [left|right]; split; auto.
  destruct Hf as [<-|<-]; auto.
Qed.

Lemma driven_manualSearch (cv : VehicleInfo) (n : nat) :
  always (driven_by cv) (manualSearch cv n).
Proof.
  unfold manualSearch, fillField.
  repeat first
    [ apply (driven_fillSelect cv _ _ field_match);
      [exact matchesField_spec|left; split; [tauto|reflexivity]]
    | apply (driven_fillSelect cv _ _ body_match);
      [exact matchesBody_spec|right; split; reflexivity]
    | always_step ].
Qed.

(** The selections of the manual search on a page that answers every
    query the same way. *)
Lemma selects_manualSearch (page : Worlds.StaticPage) (cv : VehicleInfo)
  (mk md bd : string) (n : nat) :
  make cv = JStr mk -> model cv = JStr md -> bodyType cv = JStr bd ->
  given (agrees page)
    (fun t _ => True /\ selects t = expected_selects page cv mk md bd)
    (manualSearch cv n).
Proof.
  intros Hmk Hmd Hbd. unfold manualSearch, expected_selects.
  rewrite Hmk, Hmd, Hbd.
  apply selects_step; [exact I|]. cbn [Worlds.static_answer].
  set (yearEl := yearElement (Worlds.counts page yearSelectByName)).
  apply (selects_bind page _ _ (Worlds.visible page yearEl) []);
    [apply agrees_attempt; split; reflexivity|].
  apply (selects_bind page _ _ tt).
  { destruct (Worlds.visible page yearEl); [|intros _; split; reflexivity].
    apply given_tryCatch, given_bind, agrees_call, agrees_call.
    split; reflexivity. }
  apply (selects_bind page _ _ tt);
    [apply selects_fillField; intros options;
     apply pickOption_first_match, matchesField_spec|].
  apply selects_step; [exact I|].
  apply (selects_bind page _ _ tt);
    [apply selects_fillField; intros options;
     apply pickOption_first_match, matchesField_spec|].
  apply selects_step; [exact I|].
  rewrite <- (app_nil_r (scan (first_match body_match bd) _ _ _)).
  apply (selects_bind page _ _ tt);
    [apply selects_fillField; intros options;
     apply pickOption_first_match, matchesBody_spec|].
  apply given_wp.
  match goal with
  | |- wp ?p _ =>
      assert (Hrest : always NoSelect p) by (repeat always_step)
  end.
  eapply wp_mono; [|apply Hrest].
  intros t o Ht. split; [exact I|apply selects_none, Ht].
Qed.

Lemma capture_ok (c : option VehicleInfo) (body : string) :
  captured_ok c -> captured_ok (capture c body).
Proof.
  intros Hc. unfold capture.
  destruct (extractVehicleFromAuraResponse body) as [v|]; [|exact Hc].
  destruct (wellFormed v) eqn:Hv; [|exact Hc].
  intros v' [= <-]. exact Hv.
Qed.

Lemma deliver_ok (c : option VehicleInfo) (d : Delivery) :
  captured_ok c -> captured_ok (deliver c d).
Proof.
  intros Hc. destruct d as [url body|body]; simpl; [|apply capture_ok, Hc].
  destruct (isAuraCall url); [|exact Hc].
  destruct (includes body "vehicles" || includes body "yearCreate");
    [apply capture_ok, Hc|exact Hc].
Qed.

Lemma deliveries_ok (ds : list Delivery) (c : option VehicleInfo) :
  captured_ok c -> captured_ok (fold_left deliver ds c).
Proof.
  revert c. induction ds as [|d ds IH]; simpl; intros c Hc; [exact Hc|].
  apply IH, deliver_ok, Hc.
Qed.


End ManualSearch.


Lemma manualPage_ascii : ascii_texts Worlds.manualPage.
Proof.
  intros l. destruct l as [sel|l re|l|l i|l sel]; try reflexivity.
  destruct l; reflexivity.
Defined.


(** The same data evaluated: the captured record, the selections of
    the attempt, and two picks. *)
Example manual_fallback_evaluated :
  fold_left deliver [ViaWaiter Worlds.auraBody] None = Some Worlds.sampleVehicle /\
  outcome (afterWait NotFoundMsg 1 None) Worlds.manualPage
    = Normal (Some "2011 TOYOTA Corolla Ascent", Some Worlds.sampleVehicle) /\
  Worlds.selections (trace (afterWait NotFoundMsg 1 None) Worlds.manualPage)
    = [ByValue (JStr "2011"); ByLabel "TOYOTA"; ByLabel "COROLLA";
       ByLabel "SEDAN"] /\
  pickOption "cv.make" matchesField (JStr "Toyota")
    ["Select make"; "  TOYOTA  "; "Toyota Motor"] = Ok (Some "TOYOTA") /\
  pickOption "cv.make" matchesField (JStr "Toyota") [""; "TOYOTA"] = Ok None /\
  pickOption "cv.make" matchesField (JNum 2011%float) ["TOYOTA"]
    = Err "cv.make.toUpperCase is not a function".
Proof. repeat split; vm_compute; reflexivity. Qed.
(* ===================================================================== *)
(** * Part III: further properties of the code                            *)
(* ===================================================================== *)

Import Conduct.

(** ** What the scraper does with the page *)

Ltac conduct :=
  unfold textContent, lwcType, lwcRadioClick, readCaptured, fillField, isVisible;
  repeat first [ assumption | always_step | solve [simpl; tauto] ].

Section Permitted.
Context `{Platform}.
Variable input : RacvQuoteInput.

Lemma permitted_waitForResult (n : nat) (c : option VehicleInfo) :
  always (permitted input) (waitForResult n c).
Proof.
  revert c. induction n as [|n IH]; intros c; cbn [waitForResult]; conduct.
  apply IH.
Qed.

Lemma permitted_fillSelect (expr : string) pred (field : json) (n i : nat) :
  always (permitted input) (fillSelect expr pred field n i).
Proof.
  revert i. induction n as [|n IH]; intros i; cbn [fillSelect]; conduct.
  apply IH.
Qed.

Lemma permitted_manualSearch (cv : VehicleInfo) (n : nat) :
  always (permitted input) (manualSearch cv n).
Proof.
  pose proof permitted_fillSelect as Hfill.
  unfold manualSearch. conduct; apply Hfill.
Qed.

Lemma permitted_resolveVehicle (n k : nat) (c : option VehicleInfo) :
  always (permitted input) (resolveVehicle input n k c).
Proof.
  revert k c. induction n as [|n IH]; intros k c; cbn [resolveVehicle];
    [apply always_ret|].
  apply always_bind; [|intros [[d|] c']; [apply always_ret|apply IH]].
  unfold resolveAttempt, enterRego.
  apply always_bind; [conduct|intros _].
  apply always_bind; [apply permitted_waitForResult|intros [res c']].
  unfold afterWait. pose proof permitted_manualSearch as Hman.
  conduct; apply Hman.
Qed.

Lemma permitted_waitForQuote (n : nat) :
  always (permitted input) (waitForQuote n).
Proof.
  induction n as [|n IH]; cbn [waitForQuote]; unfold recover; conduct.
Qed.

Lemma permitted_flow : always (permitted input) (flow input).
Proof.
  unfold flow, openSite.
  apply always_bind; [conduct|intros _].
  apply always_bind; [apply permitted_resolveVehicle|intros d].
  unfold afterResolve.
  destruct (negb (nonempty d)); [conduct|].
  apply always_bind; [unfold fillYourCar; conduct|intros addressError].
  destruct addressError; [apply always_ret|].
  apply always_bind; [conduct|intros _].
  apply always_bind; [unfold fillAboutYou; conduct|intros _].
  apply always_bind; [apply permitted_waitForQuote|intros _].
  unfold extractQuote. conduct.
Qed.

Lemma permitted_scrapeRacvQuote (b0 : option nat) :
  always (permitted input) (scrapeRacvQuote input b0).
Proof.
  unfold scrapeRacvQuote.
  apply always_bind;
    [unfold acquire, protect, getBrowser; destruct b0; conduct|intros s].
  apply always_bind.
  - apply always_tryCatch; [|intros e; unfold catchBlock; conduct].
    destruct (fault s); [apply always_throw|apply permitted_flow].
  - intros r. unfold finallyBlock. conduct.
Qed.

End Permitted.

(** ** Costs of a run *)

Lemma tally_app (cost : Action -> N) (t t' : list Obs) :
  tally cost (t ++ t') = (tally cost t + tally cost t')%N.
Proof.
  induction t as [|o t IH]; simpl; [reflexivity|]. rewrite IH. lia.
Qed.

Lemma tally_indicator (P : Action -> bool) (t : list Obs) :
  tally (indicator P) t = N.of_nat (count_actions P t).
Proof.
  unfold count_actions, indicator.
  induction t as [|o t IH]; simpl; [reflexivity|].
  rewrite IH. destruct (P (action_of o)); simpl; lia.
Qed.

Lemma spends_le {A : Type} (cost : Action -> N) (n n' : N) (p : Prog A) :
  spends cost n p -> (n <= n')%N -> spends cost n' p.
Proof.
  intros Hp Hn. eapply wp_mono; [|exact Hp]. simpl. intros; lia.
Qed.

Lemma spends_ret {A : Type} (cost : Action -> N) (n : N) (a : A) :
  spends cost n (mret a).
Proof. unfold spends. simpl. lia. Qed.

Lemma spends_throw {A : Type} (cost : Action -> N) (n : N) (e : string) :
  spends cost n (@Throw A e).
Proof. unfold spends. simpl. lia. Qed.

Lemma spends_call (cost : Action -> N) (a : Action) (n : N) :
  cost a = n -> spends cost n (call a).
Proof. intros <- [x|e]; simpl; lia. Qed.

Lemma spends_attempt (cost : Action -> N) (a : Action) (d : resp a) (n : N) :
  cost a = n -> spends cost n (attempt a d).
Proof. intros <- [x|e]; simpl; lia. Qed.

Lemma spends_bind {A B : Type} (cost : Action -> N) (a b : N) (m : Prog A)
  (f : A -> Prog B) :
  spends cost a m -> (forall x, spends cost b (f x)) ->
  spends cost (a + b) (m ≫= f).
Proof.
  intros Hm Hf. apply wp_bind. eapply wp_mono; [|apply Hm].
  intros t [x|e] Ht; simpl in *; [|lia].
  eapply wp_mono; [|apply (Hf x)].
  intros t' o' Ht'. simpl in Ht'. rewrite tally_app. lia.
Qed.

Lemma spends_tryCatch {A : Type} (cost : Action -> N) (a b : N) (m : Prog A)
  (h : string -> Prog A) :
  spends cost a m -> (forall e, spends cost b (h e)) ->
  spends cost (a + b) (tryCatch m h).
Proof.
  intros Hm Hh. apply wp_tryCatch. eapply wp_mono; [|apply Hm].
  intros t [x|e] Ht; simpl in *; [lia|].
  eapply wp_mono; [|apply (Hh e)].
  intros t' o' Ht'. simpl in Ht'. rewrite tally_app. lia.
Qed.

Lemma spends_when (cost : Action -> N) (n : N) (b : bool) (m : Prog unit) :
  spends cost n m -> spends cost n (when b m).
Proof. intros Hm. destruct b; [exact Hm|apply spends_ret]. Qed.

Lemma spends_if {A : Type} (cost : Action -> N) (a b : N) (x : bool)
  (p q : Prog A) :
  spends cost a p -> spends cost b q ->
  spends cost (N.max a b) (if x then p else q).
Proof.
  intros Hp Hq. destruct x; [apply (spends_le _ a)|apply (spends_le _ b)];
    auto; lia.
Qed.

Lemma spends_option {A T : Type} (cost : Action -> N) (a b : N)
  (x : option T) (f : T -> Prog A) (g : Prog A) :
  (forall v, spends cost a (f v)) -> spends cost b g ->
  spends cost (N.max a b) (match x with Some v => f v | None => g end).
Proof.
  intros Hf Hg. destruct x; [apply (spends_le _ a)|apply (spends_le _ b)];
    auto; lia.
Qed.

Lemma spends_result {A T : Type} (cost : Action -> N) (a b : N)
  (x : Result T) (f : T -> Prog A) (g : string -> Prog A) :
  (forall v, spends cost a (f v)) -> (forall e, spends cost b (g e)) ->
  spends cost (N.max a b) (match x with Ok v => f v | Err e => g e end).
Proof.
  intros Hf Hg. destruct x; [apply (spends_le _ a)|apply (spends_le _ b)];
    auto; lia.
Qed.

Lemma spends_waitResult {A : Type} (cost : Action -> N) (a b c : N)
  (x : WaitResult) (f : string -> Prog A) (g h : Prog A) :
  (forall d, spends cost a (f d)) -> spends cost b g -> spends cost c h ->
  spends cost (N.max a (N.max b c))
    (match x with Found d => f d | NotFoundMsg => g | NoResult => h end).
Proof.
  intros Hf Hg Hh.
  destruct x; [apply (spends_le _ a)|apply (spends_le _ b)|apply (spends_le _ c)];
    auto; lia.
Qed.

(** A program whose actions are all free costs nothing. *)
Lemma spends_free {A : Type} (cost : Action -> N) (p : Prog A) :
  always (fun a => cost a = 0%N) p -> spends cost 0 p.
Proof.
  apply wp_mono. intros t o Ht. simpl in Ht.
  induction Ht as [|x t Hx _ IH]; simpl; [lia|]. rewrite Hx. lia.
Qed.

Create HintDb spend.

(** The cost of one action, evaluated. *)
Ltac spend_cost :=
  lazymatch goal with
  | |- ?l = _ => let v := eval cbv in l in exact (@eq_refl N v)
  end.

(** Derives a bound for the program of the goal [spends cost ?n p]. *)
Ltac spend :=
  unfold textContent, lwcType, lwcRadioClick, readCaptured, fillField,
    isVisible, swallow, protect;
  repeat first
    [ solve [eauto 1 with spend nocore]
    | progress cbv beta
    | lazymatch goal with
      | |- forall _, _ => intros ?
      | |- spends _ _ (mret _) =>
          first [exact (spends_ret _ 0%N _) | apply spends_ret]
      | |- spends _ _ (Ret _) =>
          first [exact (spends_ret _ 0%N _) | apply spends_ret]
      | |- spends _ _ (Throw _) =>
          first [exact (spends_throw _ 0%N _) | apply spends_throw]
      | |- spends _ _ (call _) => apply spends_call; spend_cost
      | |- spends _ _ (attempt _ _) => apply spends_attempt; spend_cost
      | |- spends _ _ (mbind _ _) => eapply spends_bind
      | |- spends _ _ (tryCatch _ _) => eapply spends_tryCatch
      | |- spends _ _ (when false _) =>
          first [exact (spends_ret _ 0%N tt) | exact (spends_ret _ _ tt)]
      | |- spends _ _ (when _ _) => apply spends_when
      | |- spends _ _ (match _ with Some _ => _ | None => _ end) =>
          first [eapply spends_option | eapply spends_if]
      | |- spends _ _ (match _ with Ok _ => _ | Err _ => _ end) =>
          first [eapply spends_result | eapply spends_if]
      | |- spends _ _ (if _ then _ else _) =>
          first [eapply spends_if | eapply spends_option | eapply spends_result]
      | |- spends _ _ (match _ with Found _ => _ | NotFoundMsg => _
                                    | NoResult => _ end) =>
          eapply spends_waitResult
      | |- spends _ _ (match ?x with _ => _ end) => destruct x
      end ].

(** Proves [spends cost n p] for a given [n] from the derived bound. *)
Ltac spend_within :=
  eapply spends_le; [spend|]; cbn; try lia.

Section Budgets.
Context `{Platform}.
Variable input : RacvQuoteInput.

(** *** Sleeps *)

Lemma sleep_waitForResult (n : nat) (c : option VehicleInfo) :
  spends sleep (N.of_nat n * 1000) (waitForResult n c).
Proof.
  revert c. induction n as [|n IH]; intros c; cbn [waitForResult];
    [apply spends_ret|].
  eapply spends_le; [spend; apply IH|]. cbn. lia.
Qed.

Lemma sleep_fillSelect (expr : string) pred (field : json) (n i : nat) :
  spends sleep 2000 (fillSelect expr pred field n i).
Proof.
  revert i. induction n as [|n IH]; intros i; cbn [fillSelect];
    [apply spends_ret|].
  eapply spends_le; [spend; apply IH|]. cbn. lia.
Qed.
Hint Resolve sleep_waitForResult sleep_fillSelect : spend.

Lemma sleep_manualSearch (cv : VehicleInfo) (n : nat) :
  spends sleep 19500 (manualSearch cv n).
Proof. unfold manualSearch. spend_within. Qed.
Hint Resolve sleep_manualSearch : spend.

Lemma sleep_resolveAttempt (n : nat) (c : option VehicleInfo) :
  spends sleep (if (1 <? n)%nat then 57300 else 47300)
    (resolveAttempt input n c).
Proof.
  unfold resolveAttempt, enterRego, afterWait.
  destruct (1 <? n)%nat; spend_within.
Qed.

Lemma sleep_resolveVehicle (n k : nat) (c : option VehicleInfo) :
  spends sleep (N.of_nat n * 57300) (resolveVehicle input n k c).
Proof.
  revert k c. induction n as [|n IH]; intros k c; cbn [resolveVehicle];
    [apply spends_ret|].
  eapply spends_le.
  - eapply spends_bind; [apply sleep_resolveAttempt|].
    intros [[d|] c']; [apply (spends_ret _ (N.of_nat n * 57300)%N)|apply IH].
  - destruct (1 <? k)%nat; lia.
Qed.

Lemma sleep_waitForQuote (n : nat) :
  spends sleep (N.of_nat n * 7000) (waitForQuote n).
Proof.
  induction n as [|n IH]; cbn [waitForQuote]; [apply spends_ret|].
  unfold recover. spend_within.
Qed.
Hint Resolve sleep_waitForQuote : spend.

Lemma sleep_afterResolve (d : string) :
  spends sleep 34400 (afterResolve input d).
Proof.
  unfold afterResolve, fillYourCar, fillAboutYou, extractQuote.
  spend_within.
Qed.

Lemma sleep_flow : spends sleep 206300 (flow input).
Proof.
  unfold flow, openSite. cbn [resolveVehicle].
  eapply spends_le.
  - eapply spends_bind; [spend|intros _].
    eapply spends_bind; [|intros d; apply sleep_afterResolve].
    eapply spends_bind; [apply (sleep_resolveAttempt 1)|].
    intros [[d|] c']; [apply (spends_ret _ (2 * 57300)%N)|].
    apply (sleep_resolveVehicle 2).
  - cbn. lia.
Qed.

Lemma sleep_scrapeRacvQuote (b0 : option nat) :
  spends sleep 206300 (scrapeRacvQuote input b0).
Proof.
  pose proof sleep_flow as Hflow.
  unfold scrapeRacvQuote, acquire, getBrowser, catchBlock, finallyBlock.
  destruct b0; spend_within.
Qed.

(** *** Counts *)

Section Frugal.
Variable cost : Action -> N.
Hypothesis cost_observes : forall a, observes a = true -> cost a = 0%N.
Hypothesis cost_select : forall l v, cost (SelectOption l v) = 0%N.

Lemma free_waitForResult (n : nat) (c : option VehicleInfo) :
  spends cost 0 (waitForResult n c).
Proof.
  apply spends_free. revert c.
  induction n as [|n IH]; intros c; cbn [waitForResult];
    unfold textContent, readCaptured, isVisible;
    repeat first [apply IH | always_step | apply cost_observes; reflexivity].
Qed.

Lemma free_fillSelect (expr : string) pred (field : json) (n i : nat) :
  spends cost 0 (fillSelect expr pred field n i).
Proof.
  apply spends_free. revert i.
  induction n as [|n IH]; intros i; cbn [fillSelect];
    repeat first [apply IH | always_step | apply cost_select
                 | apply cost_observes; reflexivity].
Qed.

End Frugal.

Ltac frugal :=
  first [ intros a; destruct a; try discriminate; reflexivity
        | intros; reflexivity ].

(** Navigations. *)
Lemma goto_resolveAttempt (k : nat) (c : option VehicleInfo) :
  spends (indicator is_goto) (if (1 <? k)%nat then 1 else 0)
    (resolveAttempt input k c).
Proof.
  pose proof (free_waitForResult (indicator is_goto) ltac:(frugal)) as Hwait.
  pose proof (free_fillSelect (indicator is_goto) ltac:(frugal) ltac:(frugal))
    as Hfill.
  unfold resolveAttempt, enterRego, afterWait, manualSearch.
  destruct (1 <? k)%nat; spend_within.
Qed.

Lemma goto_resolveVehicle (n k : nat) (c : option VehicleInfo) :
  spends (indicator is_goto) (N.of_nat (if (1 <? k)%nat then n else n - 1))
    (resolveVehicle input n k c).
Proof.
  revert k c. induction n as [|n IH]; intros k c; cbn [resolveVehicle];
    [apply spends_ret|].
  eapply spends_le.
  - eapply spends_bind; [apply goto_resolveAttempt|].
    intros [[d|] c']; [apply (spends_ret _ (N.of_nat n))|].
    eapply spends_le; [apply (IH (S k))|].
    set (rest := if (1 <? S k)%nat then n else (n - 1)%nat).
    assert (rest <= n)%nat by (subst rest; destruct (1 <? S k)%nat; lia).
    lia.
  - destruct (1 <? k)%nat; lia.
Qed.

Lemma goto_flow : spends (indicator is_goto) 3 (flow input).
Proof.
  pose proof (goto_resolveVehicle 3 1) as Hresolve.
  unfold flow, openSite, afterResolve, fillYourCar, fillAboutYou, extractQuote.
  assert (Hquote : forall n, spends (indicator is_goto) 0 (waitForQuote n)).
  { induction n as [|n IH]; cbn [waitForQuote]; [apply spends_ret|].
    unfold recover. spend_within. }
  spend_within.
Qed.

(** Recovery cycles and submissions. *)
Lemma back_waitForQuote (n : nat) :
  spends (indicator is_back_click) (N.of_nat n) (waitForQuote n).
Proof.
  induction n as [|n IH]; cbn [waitForQuote]; [apply spends_ret|].
  unfold recover. spend_within.
Qed.

Lemma continue_waitForQuote (n : nat) :
  spends (indicator is_continue_click) (N.of_nat n) (waitForQuote n).
Proof.
  induction n as [|n IH]; cbn [waitForQuote]; [apply spends_ret|].
  unfold recover. spend_within.
Qed.

Ltac no_cost_in_lookup :=
  let n := fresh "n" in
  let IH := fresh "IH" in
  intros n; induction n as [|n IH]; intros k c; cbn [resolveVehicle];
  [apply spends_ret|];
  unfold resolveAttempt, enterRego, afterWait, manualSearch; spend_within.

Lemma back_flow : spends (indicator is_back_click) 2 (flow input).
Proof.
  pose proof (free_waitForResult (indicator is_back_click) ltac:(frugal))
    as Hwait.
  pose proof (free_fillSelect (indicator is_back_click) ltac:(frugal)
                ltac:(frugal)) as Hfill.
  pose proof (back_waitForQuote 2) as Hquote.
  assert (Hresolve : forall n k c,
            spends (indicator is_back_click) 0 (resolveVehicle input n k c))
    by no_cost_in_lookup.
  unfold flow, openSite, afterResolve, fillYourCar, fillAboutYou, extractQuote.
  spend_within.
Qed.

Lemma continue_flow : spends (indicator is_continue_click) 4 (flow input).
Proof.
  pose proof (free_waitForResult (indicator is_continue_click) ltac:(frugal))
    as Hwait.
  pose proof (free_fillSelect (indicator is_continue_click) ltac:(frugal)
                ltac:(frugal)) as Hfill.
  pose proof (continue_waitForQuote 2) as Hquote.
  assert (Hresolve : forall n k c,
            spends (indicator is_continue_click) 0 (resolveVehicle input n k c))
    by no_cost_in_lookup.
  unfold flow, openSite, afterResolve, fillYourCar, fillAboutYou, extractQuote.
  spend_within.
Qed.

(** From the flow to the whole call. *)
Ltac whole_call b0 :=
  unfold scrapeRacvQuote, acquire, getBrowser, catchBlock, finallyBlock;
  destruct b0; spend_within.

Lemma goto_scrapeRacvQuote (b0 : option nat) :
  spends (indicator is_goto) 3 (scrapeRacvQuote input b0).
Proof. pose proof goto_flow. whole_call b0. Qed.

Lemma back_scrapeRacvQuote (b0 : option nat) :
  spends (indicator is_back_click) 2 (scrapeRacvQuote input b0).
Proof. pose proof back_flow. whole_call b0. Qed.

Lemma continue_scrapeRacvQuote (b0 : option nat) :
  spends (indicator is_continue_click) 4 (scrapeRacvQuote input b0).
Proof. pose proof continue_flow. whole_call b0. Qed.

(** The flow leaves the session alone. *)
Lemma session_free_flow (P : Action -> bool) :
  (forall a, session_action a = false -> P a = false) ->
  spends (indicator P) 0 (flow input).
Proof.
  intros HP. apply spends_free.
  eapply always_mono; [|apply nosession_flow].
  intros a Ha. unfold indicator. rewrite (HP a Ha). reflexivity.
Qed.

Lemma launch_scrapeRacvQuote (b0 : option nat) :
  spends (indicator is_launch) 1 (scrapeRacvQuote input b0).
Proof.
  pose proof (session_free_flow is_launch ltac:(frugal)). whole_call b0.
Qed.

Lemma context_scrapeRacvQuote (b0 : option nat) :
  spends (indicator is_new_context) 1 (scrapeRacvQuote input b0).
Proof.
  pose proof (session_free_flow is_new_context ltac:(frugal)). whole_call b0.
Qed.

Lemma page_scrapeRacvQuote (b0 : option nat) :
  spends (indicator is_new_page) 1 (scrapeRacvQuote input b0).
Proof.
  pose proof (session_free_flow is_new_page ltac:(frugal)). whole_call b0.
Qed.

End Budgets.

(** ** The shape of a result *)

Section Shapes.
Context `{Platform}.
Variable input : RacvQuoteInput.

Lemma returns_bind_with {A B : Type} (R1 : A -> Prop) (R : B -> Prop)
  (m : Prog A) (f : A -> Prog B) :
  returns R1 m -> (forall a, R1 a -> returns R (f a)) -> returns R (m ≫= f).
Proof.
  intros Hm Hf. apply wp_bind. eapply wp_mono; [|apply Hm].
  intros t [a|e] Ha; [|exact I].
  eapply wp_mono; [|apply (Hf a Ha)]. auto.
Qed.

Lemma shape_extractQuote (d : string) :
  nonempty d = true -> returns result_shape (extractQuote d).
Proof.
  intros Hd. unfold extractQuote.
  assert (Hfilled : filled (Some d)) by (exists d; auto).
  apply returns_bind; intros resultText.
  apply returns_bind; intros _.
  destruct (extractPremiums resultText) as [p|]; [|apply returns_throw].
  destruct (truthy (annualPremium p) || truthy (monthlyPremium p)).
  - apply returns_ret. split; [|discriminate]. intros _. simpl.
    repeat split; eauto.
  - apply returns_bind; intros currentErrors.
    destruct (0 <? length currentErrors)%nat; apply returns_ret;
      (split; [discriminate|]); intros _; simpl;
      repeat split; left; (split; [|exact Hfilled]); unfold past_lookup; auto.
Qed.

Lemma shape_flow : returns result_shape (flow input).
Proof.
  unfold flow. apply returns_bind; intros _.
  apply returns_bind; intros d. unfold afterResolve.
  destruct (nonempty d) eqn:Hd; cbn [negb].
  - assert (Hfilled : filled (Some d)) by (exists d; auto).
    apply returns_bind; intros [|].
    + apply returns_ret. split; [discriminate|]. intros _. simpl.
      repeat split. left. split; [|exact Hfilled]. unfold past_lookup. auto.
    + repeat (apply returns_bind; intros _).
      apply shape_extractQuote, Hd.
  - apply returns_bind; intros _. apply returns_ret.
    split; [discriminate|]. intros _. simpl. repeat split. right. auto.
Qed.

Lemma shape_scrapeRacvQuote (b0 : option nat) :
  total (fun br => result_shape br.2) (scrapeRacvQuote input b0).
Proof.
  unfold scrapeRacvQuote.
  eapply total_bind; [apply total_acquire|intros s _].
  eapply total_bind with (R1 := result_shape).
  - apply total_tryCatch.
    + destruct (fault s); [apply returns_throw|apply shape_flow].
    + intros e. eapply total_mono; [|apply total_catchBlock].
      intros r ->. split; [discriminate|]. intros _. simpl.
      repeat split. right. auto.
  - intros r Hr.
    eapply total_bind; [apply total_finallyBlock|intros _ _].
    apply total_ret. exact Hr.
Qed.

(** *** Snapshots *)

Lemma documented_app_l (t t' : list Obs) (r : RacvQuoteResult) :
  documented t' r -> documented (t ++ t') r.
Proof.
  intros Hr path Hpath. apply in_or_app. right. exact (Hr path Hpath).
Qed.

Lemma documented_app_r (t t' : list Obs) (r : RacvQuoteResult) :
  documented t r -> documented (t ++ t') r.
Proof.
  intros Hr path Hpath. apply in_or_app. left. exact (Hr path Hpath).
Qed.

Lemma documents_bind {A : Type} (m : Prog A) (f : A -> Prog RacvQuoteResult) :
  (forall a, documents (f a)) -> documents (m ≫= f).
Proof.
  intros Hf. apply wp_bind. apply wp_any. intros t [a|e].
  - eapply wp_mono; [|apply (Hf a)].
    intros t' o' Ho r Hr Hh. apply documented_app_l. exact (Ho r Hr Hh).
  - intros r Hr. discriminate.
Qed.

(** A snapshot followed by a program whose results name it. *)
Lemma documents_shot (path : string) (p : Prog RacvQuoteResult) :
  returns (fun r => forall path', screenshot_path r = Some path' -> path' = path) p ->
  documents (call (Screenshot path);; p).
Proof.
  intros Hp. apply wp_bind. intros [[]|e]; simpl.
  - eapply wp_mono; [|apply Hp].
    intros t [r|e] Hr r' Hr' _ path' Hpath; [|discriminate].
    injection Hr' as <-. rewrite (Hr path' Hpath). left. reflexivity.
  - intros r Hr. discriminate.
Qed.

Lemma documents_flow : documents (flow input).
Proof.
  unfold flow. apply documents_bind; intros _.
  apply documents_bind; intros d. unfold afterResolve.
  destruct (negb (nonempty d)).
  - apply documents_shot. apply returns_ret. simpl. congruence.
  - apply documents_bind; intros [|].
    + intros r [= <-] _ path Hpath. discriminate.
    + apply documents_bind; intros _.
      apply documents_bind; intros _.
      apply documents_bind; intros _.
      apply documents_bind; intros _.
      apply documents_shot. unfold extractQuote.
      apply returns_bind; intros resultText.
      apply returns_bind; intros _.
      destruct (extractPremiums resultText) as [p|]; [|apply returns_throw].
      destruct (truthy (annualPremium p) || truthy (monthlyPremium p));
        [apply returns_ret; simpl; congruence|].
      apply returns_bind; intros currentErrors.
      destruct (0 <? length currentErrors)%nat;
        apply returns_ret; simpl; congruence.
Qed.

Lemma documents_scrapeRacvQuote (b0 : option nat) :
  wp (scrapeRacvQuote input b0)
     (fun t o => exists b r, o = Normal (b, r) /\
                             (handled r -> documented t r)).
Proof.
  unfold scrapeRacvQuote.
  apply wp_bind. eapply wp_mono; [|apply total_acquire].
  intros tA o (s & -> & _).
  apply wp_bind.
  assert (Hmid : wp (tryCatch match fault s with
                              | Some e => Throw e
                              | None => flow input
                              end (catchBlock s))
                    (fun t o => exists r, o = Normal r /\
                                          (handled r -> documented t r))).
  { apply wp_tryCatch.
    assert (Hbody : documents match fault s with
                              | Some e => Throw e
                              | None => flow input
                              end).
    { destruct (fault s); [|apply documents_flow].
      intros r Hr. discriminate. }
    eapply wp_mono; [|apply Hbody].
    intros t [r|e] Hdoc; [eauto|].
    eapply wp_mono; [|apply total_catchBlock].
    intros t' o' (r & -> & ->). eexists. split; [reflexivity|].
    intros [Hs|[st Hst]]; discriminate. }
  eapply wp_mono; [|apply Hmid].
  intros tM o (r & -> & Hdoc).
  apply wp_bind. eapply wp_mono; [|apply total_finallyBlock].
  intros tF o ([] & -> & _). simpl.
  exists (browser s), r. split; [reflexivity|].
  intros Hh. apply documented_app_l, documented_app_r, Hdoc, Hh.
Qed.

(** *** An address that is no regular expression *)

Lemma fillYourCar_rejects :
  RegExp_compiles (firstWord (address input)) = false ->
  returns (fun _ => False) (fillYourCar input).
Proof.
  intros Hre. unfold fillYourCar. rewrite Hre.
  do 6 (apply returns_bind; intros _).
  exact I.
Qed.

Lemma rejects_flow :
  RegExp_compiles (firstWord (address input)) = false ->
  returns (fun r => success r = false) (flow input).
Proof.
  intros Hre. unfold flow. apply returns_bind; intros _.
  apply returns_bind; intros d. unfold afterResolve.
  destruct (negb (nonempty d)).
  - apply returns_bind; intros _. apply returns_ret. reflexivity.
  - eapply returns_bind_with; [apply fillYourCar_rejects, Hre|].
    intros a [].
Qed.

Lemma rejects_scrapeRacvQuote (b0 : option nat) :
  RegExp_compiles (firstWord (address input)) = false ->
  total (fun br => success br.2 = false) (scrapeRacvQuote input b0).
Proof.
  intros Hre. unfold scrapeRacvQuote.
  eapply total_bind; [apply total_acquire|intros s _].
  eapply total_bind with (R1 := fun r => success r = false).
  - apply total_tryCatch.
    + destruct (fault s); [apply returns_throw|apply rejects_flow, Hre].
    + intros e. eapply total_mono; [|apply total_catchBlock].
      intros r ->. reflexivity.
  - intros r Hr.
    eapply total_bind; [apply total_finallyBlock|intros _ _].
    apply total_ret. exact Hr.
Qed.

End Shapes.

(** ** The captured record *)

Section Captured.
Context `{Platform}.

Lemma capture_origin (c : option VehicleInfo) (body : string) (v : VehicleInfo) :
  capture c body = Some v ->
  c = Some v \/
  (extractVehicleFromAuraResponse body = Some v /\ wellFormed v = true).
Proof.
  unfold capture.
  destruct (extractVehicleFromAuraResponse body) as [v'|]; [|auto].
  destruct (wellFormed v') eqn:Hv; [|auto].
  intros [= <-]. auto.
Qed.

Lemma deliver_origin (c : option VehicleInfo) (d : Delivery) (v : VehicleInfo) :
  deliver c d = Some v ->
  c = Some v \/
  (heard d = true /\
   extractVehicleFromAuraResponse (body_of d) = Some v /\
   wellFormed v = true).
Proof.
  destruct d as [url body|body]; simpl.
  - destruct (isAuraCall url); [|auto].
    destruct (includes body "vehicles" || includes body "yearCreate"); [|auto].
    intros Hc. destruct (capture_origin _ _ _ Hc); auto.
  - intros Hc. destruct (capture_origin _ _ _ Hc); auto.
Qed.

Lemma deliver_keeps (c : option VehicleInfo) (d : Delivery) :
  is_Some c -> is_Some (deliver c d).
Proof.
  intros Hc. destruct d as [url body|body]; simpl; unfold capture;
    repeat match goal with
           | |- is_Some (if ?b then _ else _) => destruct b
           | |- is_Some (match ?x with _ => _ end) => destruct x
           end; eauto.
Qed.

Lemma deliveries_origin (ds : list Delivery) (c : option VehicleInfo)
  (v : VehicleInfo) :
  fold_left deliver ds c = Some v ->
  c = Some v \/
  exists d, In d ds /\ heard d = true /\
            extractVehicleFromAuraResponse (body_of d) = Some v /\
            wellFormed v = true.
Proof.
  revert c. induction ds as [|d ds IH]; simpl; intros c Hv; [auto|].
  destruct (IH _ Hv) as [Hd|(d' & Hin & Hd')].
  - destruct (deliver_origin _ _ _ Hd) as [Hc|Hd']; [auto|].
    right. exists d. auto.
  - right. exists d'. auto.
Qed.

Lemma deliveries_keep (ds : list Delivery) (c : option VehicleInfo) :
  is_Some c -> is_Some (fold_left deliver ds c).
Proof.
  revert c. induction ds as [|d ds IH]; simpl; intros c Hc; [exact Hc|].
  apply IH, deliver_keeps, Hc.
Qed.

Lemma success_only {A : Type} (st : option json) (K : option A) (v : A) :
  match st with
  | Some (JStr "SUCCESS") => K
  | _ => None
  end = Some v ->
  st = Some (JStr "SUCCESS").
Proof.
  destruct st as [[| | |s| |]|]; try discriminate.
  repeat (match goal with
          | |- context [match ?x with _ => _ end] => is_var x; destruct x
          end; try discriminate).
  reflexivity.
Qed.

(** A response yields a record only when its first action succeeded. *)
Lemma extract_success (body : string) (v : VehicleInfo) :
  extractVehicleFromAuraResponse body = Some v ->
  exists data,
    JSON_parse body = Some data /\
    chain (chain (chain (Some data) (prop "actions")) index0) (prop "state")
      = Some (JStr "SUCCESS").
Proof.
  unfold extractVehicleFromAuraResponse.
  destruct (JSON_parse body) as [data|]; simpl; [|discriminate].
  intros Hv. exists data. split; [reflexivity|].
  exact (success_only _ _ _ Hv).
Qed.

End Captured.

(** ** Strings *)

Lemma starts_with_app (p l : list ascii) : starts_with p (p ++ l) = true.
Proof.
  induction p as [|c p IH]; simpl; [reflexivity|].
  unfold eqc. rewrite Ascii.eqb_refl. exact IH.
Qed.

Lemma contains_chars_app (pre p post : list ascii) :
  contains_chars (pre ++ p ++ post) p = true.
Proof.
  induction pre as [|c pre IH]; simpl.
  - destruct (p ++ post) eqn:Hp; simpl;
      rewrite <- Hp, starts_with_app; reflexivity.
  - rewrite IH. apply orb_true_r.
Qed.

Lemma includes_empty (s : string) : includes s "" = true.
Proof. unfold includes. destruct (chars s); reflexivity. Qed.

(** ** Premium extraction *)

Lemma applyPatterns_excess (resultText : string)
  (ps : list (regex * PremiumType)) (acc0 acc : Premiums) :
  applyPatterns resultText acc0 ps = Some acc ->
  excessAmount acc = excessAmount acc0.
Proof.
  revert acc0. induction ps as [|pt ps IH]; simpl; intros acc0 Hacc.
  - injection Hacc as <-. reflexivity.
  - unfold applyPattern in Hacc.
    destruct (exec true pt.1 resultText) as [mr|]; simpl in Hacc.
    + destruct (group1 mr) as [g|]; simpl in Hacc; [|discriminate].
      rewrite (IH _ Hacc). destruct pt.2; reflexivity.
    + exact (IH _ Hacc).
Qed.

Lemma applyPatterns_silent (resultText : string)
  (ps : list (regex * PremiumType)) (acc0 : Premiums) :
  (forall pt, In pt ps -> exec true pt.1 resultText = None) ->
  applyPatterns resultText acc0 ps = Some acc0.
Proof.
  induction ps as [|pt ps IH]; simpl; intros Hps; [reflexivity|].
  unfold applyPattern. rewrite (Hps pt) by auto. simpl. apply IH. auto.
Qed.

Lemma firstOr_candidate (P : number -> bool) (nums : list number)
  (x : option number) (a : number) :
  firstOr (List.filter P nums) x = Some a ->
  x = Some a \/ (P a = true /\ In a nums).
Proof.
  destruct (List.filter P nums) as [|c cands] eqn:Hf; simpl; [auto|].
  intros [= <-]. right.
  assert (Hin : In c (List.filter P nums)) by (rewrite Hf; left; reflexivity).
  apply List.filter_In in Hin. tauto.
Qed.

(** ** The amounts of the page *)

Lemma match_here_sound (ci : bool) (r : regex) (s rest : list ascii)
  (res : match_result) :
  match_here ci r s = Some (res, rest) ->
  Matches ci r s rest /\
  matched res = text (firstn (length s - length rest) s).
Proof.
  unfold match_here. intros Hm.
  destruct (m_sound ci r _ _ _ _ Hm) as (s' & cap' & HM & Hk).
  injection Hk as <- <-. auto.
Qed.

Lemma match_all_chars_sound (ci : bool) (r : regex) (s : list ascii) :
  forall (skip : nat) (a : string),
    In a (match_all_chars ci r skip s) ->
    exists s0 rest,
      s0 `suffix_of` s /\ Matches ci r s0 rest /\
      a = text (firstn (length s0 - length rest) s0).
Proof.
  assert (Hnil : forall (skip : nat) (a : string),
            In a (match_all_chars ci r skip []) ->
            exists s0 rest,
              s0 `suffix_of` [] /\ Matches ci r s0 rest /\
              a = text (firstn (length s0 - length rest) s0)).
  { intros [|n] a; simpl; [|tauto].
    destruct (match_here ci r []) as [[res rest]|] eqn:Hm; simpl; [|tauto].
    intros [<-|[]]. destruct (match_here_sound _ _ _ _ _ Hm) as [HM Hres].
    exists [], rest. auto. }
  induction s as [|x s IH]; [exact Hnil|].
  intros skip a. destruct skip as [|n]; cbn [match_all_chars].
  - destruct (match_here ci r (x :: s)) as [[res rest]|] eqn:Hm.
    + intros [<-|Hin].
      * destruct (match_here_sound _ _ _ _ _ Hm) as [HM Hres].
        exists (x :: s), rest. auto.
      * destruct (IH _ _ Hin) as (s0 & rest' & Hsuf & HM & Ha).
        exists s0, rest'. split; [apply suffix_cons_r; exact Hsuf|auto].
    + intros Hin. destruct (IH _ _ Hin) as (s0 & rest' & Hsuf & HM & Ha).
      exists s0, rest'. split; [apply suffix_cons_r; exact Hsuf|auto].
  - intros Hin. destruct (IH _ _ Hin) as (s0 & rest' & Hsuf & HM & Ha).
    exists s0, rest'. split; [apply suffix_cons_r; exact Hsuf|auto].
Qed.

(** What [amountRe] matches starts with [$] and a digit or comma. *)
Lemma amountRe_shape (s rest : list ascii) :
  Matches false amountRe s rest ->
  exists c s2, s = "$"%char :: c :: s2 /\ amount_char c = true /\
               rest `suffix_of` s2.
Proof.
  unfold amountRe. intros HM.
  apply Matches_Seq_inv in HM as (s1 & H1 & H2).
  inversion H1 as [|c x s0 Hx| | | | | | | | |]; subst.
  apply chr_match_dollar in Hx as ->.
  unfold amountBody, Plus in H2.
  apply Matches_Seq_inv in H2 as (s3 & H3 & H4).
  apply Matches_Seq_inv in H3 as (s4 & H5 & H6).
  inversion H5 as [| |p x s0 Hx| | | | | | | |]; subst.
  exists x, s4. split; [reflexivity|]. split; [exact Hx|].
  apply Matches_suffix in H4, H6. etrans; eassumption.
Qed.

Lemma allAmountsOf_shape (resultText a : string) :
  In a (allAmountsOf resultText) ->
  includes resultText a = true /\
  exists c rest, chars a = "$"%char :: c :: rest /\ amount_char c = true.
Proof.
  unfold allAmountsOf, match_all. intros Hin.
  destruct (match_all_chars_sound _ _ _ _ _ Hin)
    as (s0 & rest & [pre Hpre] & HM & ->).
  rewrite chars_text. split.
  - unfold includes. rewrite chars_text, Hpre.
    rewrite <- (firstn_skipn (length s0 - length rest) s0) at 1.
    apply contains_chars_app.
  - destruct (amountRe_shape _ _ HM) as (c & s2 & -> & Hc & Hsuf).
    apply suffix_length in Hsuf. simpl.
    destruct (length s2 - length rest) eqn:Hlen.
    + replace (S (S (length s2)) - length rest) with 2 by lia.
      simpl. eauto.
    + replace (S (S (length s2)) - length rest) with (S (S (S n))) by lia.
      simpl. eauto.
Qed.

(** ** An empty field of the record *)

Lemma pickOption_empty (expr : string) (pred : string -> string -> bool)
  (o : string) (options : list string) :
  (forall x, pred "" x = true) ->
  pickOption expr pred (JStr "") (o :: options)
  = Ok (if nonempty (trim o) then Some (trim o) else None).
Proof.
  intros Hpred. unfold pickOption. simpl.
  change (toUpperCase "") with "". rewrite Hpred, nonempty_trim.
  reflexivity.
Qed.

Lemma matchesField_empty (o : string) : matchesField "" o = true.
Proof. unfold matchesField. rewrite includes_empty. reflexivity. Qed.

Lemma matchesBody_empty (o : string) : matchesBody "" o = true.
Proof. unfold matchesBody. rewrite includes_empty. reflexivity. Qed.

(** ** The browser resource, continued *)

Lemma held_only_live (h : option nat) (w : Worlds.Engine) :
  held_only (h, w) ->
  match h with
  | Some b => b ∈ Worlds.live w -> Worlds.live w = {[b]}
  | None => Worlds.live w = ∅
  end.
Proof.
  intros Hinv. destruct h as [b|].
  - intros Hb. apply leibniz_equiv. intros x. split.
    + intros Hx. pose proof (Hinv x Hx) as Heq. simpl in Heq.
      injection Heq as ->. set_solver.
    + intros Hx. apply elem_of_singleton in Hx as ->. exact Hb.
  - apply leibniz_equiv. intros x. split; [|set_solver].
    intros Hx. pose proof (Hinv x Hx). discriminate.
Qed.

Lemma held_only_stale (b : nat) (w : Worlds.Engine) :
  held_only (Some b, w) -> b ∉ Worlds.live w -> Worlds.live w = ∅.
Proof.
  intros Hinv Hb. apply leibniz_equiv. intros x. split; [|set_solver].
  intros Hx. pose proof (Hinv x Hx) as Heq. simpl in Heq.
  injection Heq as ->. contradiction.
Qed.

(** ** Properties of the registration-mode scraper *)

Section ScraperProperties.
Context `{Platform}.

(** X1.  In every run of [scrapeRacvQuote], whatever the environment
    answers: the shared browser is never closed; every navigation loads
    the quote site's start URL; the only texts typed are the request's
    registration, address, driver age and licence age; the only keys
    pressed are Meta+a, Backspace and Tab; every snapshot is written
    under [/tmp/racv-]. *)
Theorem scrape_conduct {W : Type} {E : Env W} (input : RacvQuoteInput)
  (b0 : option nat) (w : W) :
  Forall (fun o => permitted input (action_of o))
         (trace (scrapeRacvQuote input b0) w).
Proof.
  exact (wp_sound _ _ (permitted_scrapeRacvQuote input b0) W E w).
Qed.

(** X2.  In every run of [scrapeRacvQuote] the engine is launched at
    most once, at most one context and one page are opened, the site
    is loaded at most three times, BACK TO FORM is clicked at most
    twice and Continue at most four times. *)
Theorem scrape_interaction_bounds {W : Type} {E : Env W}
  (input : RacvQuoteInput) (b0 : option nat) (w : W) :
  let t := trace (scrapeRacvQuote input b0) w in
  count_actions is_launch t <= 1 /\
  count_actions is_new_context t <= 1 /\
  count_actions is_new_page t <= 1 /\
  count_actions is_goto t <= 3 /\
  count_actions is_back_click t <= 2 /\
  count_actions is_continue_click t <= 4.
Proof.
  assert (Hcount : forall P n,
            spends (indicator P) (N.of_nat n) (scrapeRacvQuote input b0) ->
            count_actions P (trace (scrapeRacvQuote input b0) w) <= n).
  { intros P n HP. pose proof (wp_sound _ _ HP W E w) as Ht. simpl in Ht.
    rewrite tally_indicator in Ht. lia. }
  repeat split; apply Hcount.
  - apply launch_scrapeRacvQuote.
  - apply context_scrapeRacvQuote.
  - apply page_scrapeRacvQuote.
  - apply goto_scrapeRacvQuote.
  - apply back_scrapeRacvQuote.
  - apply continue_scrapeRacvQuote.
Qed.

(** X3.  In every run of [scrapeRacvQuote] the explicit sleeps
    ([waitForTimeout]) add up to at most 206300 milliseconds. *)
Theorem scrape_sleep_budget {W : Type} {E : Env W} (input : RacvQuoteInput)
  (b0 : option nat) (w : W) :
  (tally sleep (trace (scrapeRacvQuote input b0) w) <= 206300)%N.
Proof.
  exact (wp_sound _ _ (sleep_scrapeRacvQuote input b0) W E w).
Qed.

(** X4.  Every result of [scrapeRacvQuote] has one of two shapes.  A
    success carries a non-empty vehicle description, the path of the
    quote snapshot and the raw amounts, and neither an error nor a
    step.  A failure carries no premium and no excess; it carries a
    non-empty vehicle description when its step is [your_car],
    [about_you] or [quote_result], and none when its step is
    [rego_lookup] or absent. *)
Theorem scrape_result_shape {W : Type} {E : Env W} (input : RacvQuoteInput)
  (b0 : option nat) (w : W) :
  exists b r,
    outcome (scrapeRacvQuote input b0) w = Normal (b, r) /\ result_shape r.
Proof.
  destruct (wp_sound _ _ (shape_scrapeRacvQuote input b0) W E w)
    as ([b r] & Hout & Hshape).
  exists b, r. auto.
Qed.

(** X5.  When [scrapeRacvQuote] returns a success or a failure tagged
    with a step, the snapshot named by [screenshot_path], if any, was
    written by a screenshot of the same run that did not fail. *)
Theorem scrape_snapshot_written {W : Type} {E : Env W}
  (input : RacvQuoteInput) (b0 : option nat) (w : W) :
  exists b r,
    outcome (scrapeRacvQuote input b0) w = Normal (b, r) /\
    (handled r -> documented (trace (scrapeRacvQuote input b0) w) r).
Proof.
  exact (wp_sound _ _ (documents_scrapeRacvQuote input b0) W E w).
Qed.

(** X6.  The first word of the address is used as a regular
    expression without escaping: when it is not one, no run of
    [scrapeRacvQuote] returns a success. *)
Theorem scrape_rejects_bad_address {W : Type} {E : Env W}
  (input : RacvQuoteInput) (b0 : option nat) (w : W) :
  RegExp_compiles (firstWord (address input)) = false ->
  exists b r,
    outcome (scrapeRacvQuote input b0) w = Normal (b, r) /\
    success r = false.
Proof.
  intros Hre.
  destruct (wp_sound _ _ (rejects_scrapeRacvQuote input b0 Hre) W E w)
    as ([b r] & Hout & Hr).
  exists b, r. auto.
Qed.

(** X7.  The record captured from the backend responses.  Once a
    record is held some record stays held, and each later response
    that yields a well-formed record replaces the one held: after a
    response awaited by the lookup, or one the listener hears from a
    backend call whose body names [vehicles] or [yearCreate], the
    record held is the one of that response.  The record held after a
    sequence of responses was held before or was extracted, well
    formed, from one of them, which the listener accepts from the
    backend calls only.  A response yields a record only if it parses
    and its first action has state SUCCESS. *)
Theorem capture_provenance (ds : list Delivery) (c : option VehicleInfo) :
  (is_Some c -> is_Some (fold_left deliver ds c)) /\
  (forall body v,
     extractVehicleFromAuraResponse body = Some v ->
     wellFormed v = true ->
     fold_left deliver (ds ++ [ViaWaiter body]) c = Some v /\
     forall url,
       isAuraCall url = true ->
       includes body "vehicles" || includes body "yearCreate" = true ->
       fold_left deliver (ds ++ [ViaListener url body]) c = Some v) /\
  (forall v,
     fold_left deliver ds c = Some v ->
     c = Some v \/
     exists d, In d ds /\ heard d = true /\
               extractVehicleFromAuraResponse (body_of d) = Some v /\
               wellFormed v = true) /\
  (forall body v,
     extractVehicleFromAuraResponse body = Some v ->
     exists data,
       JSON_parse body = Some data /\
       chain (chain (chain (Some data) (prop "actions")) index0)
         (prop "state") = Some (JStr "SUCCESS")).
Proof.
  split; [apply deliveries_keep|].
  split.
  { intros body v Hv Hwf.
    assert (Hcap : forall c', capture c' body = Some v).
    { intros c'. unfold capture. rewrite Hv, Hwf. reflexivity. }
    split.
    - rewrite fold_left_app. simpl. apply Hcap.
    - intros url Hurl Hbody. rewrite fold_left_app. simpl.
      rewrite Hurl, Hbody. apply Hcap. }
  split; [intros v; apply deliveries_origin|].
  intros body v Hv. apply extract_success with (v := v), Hv.
Qed.

(** X8.  On an ASCII page text: premium extraction always yields a
    value.  An excess is reported only by the fallback and is one of
    650, 800, 1000, 1500 found among the page's amounts.  When no
    labelled pattern matches the text, a reported annual premium is
    an amount of the page between 300 and 8000, and a reported monthly
    premium is an amount of the page from 25 up to, not including,
    300. *)
Theorem fallback_ranges (resultText : string) :
  ascii_text resultText = true ->
  exists p,
    extractPremiums resultText = Some p /\
    (forall x, excessAmount p = Some x ->
       excessCandidate x = true /\
       In x (numericAmounts (allAmountsOf resultText))) /\
    ((forall pt, In pt premPatterns -> exec true pt.1 resultText = None) ->
     (forall a, annualPremium p = Some a ->
        ((300 <=? a) && (a <=? 8000))%float = true /\
        In a (numericAmounts (allAmountsOf resultText))) /\
     (forall a, monthlyPremium p = Some a ->
        ((25 <=? a) && (a <? 300))%float = true /\
        In a (numericAmounts (allAmountsOf resultText)))).
Proof.
  intros _. unfold extractPremiums.
  destruct (applyPatterns resultText noPremiums premPatterns) as [acc|] eqn:Hacc.
  - exists (fallback (allAmountsOf resultText) acc).
    split; [reflexivity|]. split.
    + intros x. pose proof (applyPatterns_excess _ _ _ _ Hacc) as Hex.
      simpl in Hex. unfold fallback.
      destruct (negb (truthy (annualPremium acc)) &&
                negb (truthy (monthlyPremium acc))); simpl;
        [|rewrite Hex; discriminate].
      rewrite Hex. intros Hx.
      destruct (firstOr_candidate _ _ _ _ Hx) as [|]; [discriminate|auto].
    + intros Hsilent.
      rewrite (applyPatterns_silent _ _ _ Hsilent) in Hacc.
      injection Hacc as <-. unfold fallback. simpl. split.
      * intros a Ha.
        destruct (firstOr_candidate _ _ _ _ Ha) as [|]; [discriminate|auto].
      * intros a Ha.
        destruct (firstOr_candidate _ _ _ _ Ha) as [|]; [discriminate|auto].
  - pose proof (extractPremiums_total resultText) as [p Hp].
    unfold extractPremiums in Hp. rewrite Hacc in Hp. discriminate.
Qed.

(** X9.  Every raw amount taken from a text is a piece of that text
    that starts with [$] followed by a digit or a comma; so is every
    raw amount of every result of [scrapeRacvQuote]. *)
Theorem raw_amounts_shape {W : Type} {E : Env W} (input : RacvQuoteInput)
  (b0 : option nat) (w : W) :
  (forall resultText a,
     In a (allAmountsOf resultText) ->
     includes resultText a = true /\
     exists c rest, chars a = "$"%char :: c :: rest /\ amount_char c = true) /\
  exists b r,
    outcome (scrapeRacvQuote input b0) w = Normal (b, r) /\
    forall l a, raw_amounts r = Some l -> In a l ->
      exists c rest, chars a = "$"%char :: c :: rest /\ amount_char c = true.
Proof.
  split; [apply allAmountsOf_shape|].
  set (R := fun r : RacvQuoteResult =>
              forall l a, raw_amounts r = Some l -> In a l ->
                exists c rest, chars a = "$"%char :: c :: rest /\
                               amount_char c = true).
  assert (Hnone : forall r, raw_amounts r = None -> R r).
  { intros r Hr l a Hl. congruence. }
  assert (Hsome : forall r resultText,
            raw_amounts r = Some (allAmountsOf resultText) -> R r).
  { intros r resultText Hr l a Hl Ha. rewrite Hr in Hl. injection Hl as <-.
    apply (allAmountsOf_shape resultText a Ha). }
  assert (Hflow : returns R (flow input)).
  { unfold flow. apply returns_bind; intros _.
    apply returns_bind; intros d. unfold afterResolve.
    destruct (negb (nonempty d)).
    - apply returns_bind; intros _. apply returns_ret, Hnone. reflexivity.
    - apply returns_bind; intros [|];
        [apply returns_ret, Hnone; reflexivity|].
      repeat (apply returns_bind; intros _).
      unfold extractQuote.
      apply returns_bind; intros resultText.
      apply returns_bind; intros _.
      destruct (extractPremiums resultText) as [p|]; [|apply returns_throw].
      destruct (truthy (annualPremium p) || truthy (monthlyPremium p));
        [apply returns_ret, (Hsome _ resultText); reflexivity|].
      apply returns_bind; intros currentErrors.
      destruct (0 <? length currentErrors)%nat;
        apply returns_ret, (Hsome _ resultText); reflexivity. }
  assert (Htotal : total (fun br => R br.2) (scrapeRacvQuote input b0)).
  { unfold scrapeRacvQuote.
    eapply total_bind; [apply total_acquire|intros s _].
    eapply total_bind with (R1 := R).
    - apply total_tryCatch.
      + destruct (fault s); [apply returns_throw|exact Hflow].
      + intros e. eapply total_mono; [|apply total_catchBlock].
        intros r ->. apply Hnone. reflexivity.
    - intros r Hr.
      eapply total_bind; [apply total_finallyBlock|intros _ _].
      apply total_ret. exact Hr. }
  destruct (wp_sound _ _ Htotal W E w) as ([b r] & Hout & Hr).
  exists b, r. auto.
Qed.

End ScraperProperties.

(** X10.  A field of the captured record that is the empty string
    matches every option: for a select whose first option is an ASCII
    text, the manual search takes that option, trimmed, when it is not
    blank, and no option of that select otherwise. *)
Theorem empty_field_picks_first (expr o : string) (options : list string) :
  ascii_text o = true ->
  pickOption expr matchesField (JStr "") (o :: options)
    = Ok (if nonempty (trim o) then Some (trim o) else None) /\
  pickOption expr matchesBody (JStr "") (o :: options)
    = Ok (if nonempty (trim o) then Some (trim o) else None).
Proof.
  intros _.
  split; apply pickOption_empty;
    [exact matchesField_empty|exact matchesBody_empty].
Qed.

Lemma round_trip_held (h : option nat) (w : Worlds.Engine) :
  held_only (h, w) ->
  (forall h' b t w',
     run (getBrowser h) w = (Normal (h', b), t, w') ->
     h' = Some b /\ Worlds.live w' = {[b]}) /\
  (forall h' t w',
     run (closeBrowser h) w = (Normal h', t, w') ->
     h' = None /\ Worlds.live w' = ∅).
Proof.
  intros Hinv. split.
  - intros h' b t w' Hrun.
    destruct h as [b0|]; unfold getBrowser in Hrun; cbn in Hrun.
    + destruct (bool_decide (b0 ∈ Worlds.live w)) eqn:Hlive; cbn in Hrun.
      * injection Hrun as <- <- <- <-. split; [reflexivity|].
        apply bool_decide_eq_true in Hlive.
        exact (held_only_live _ _ Hinv Hlive).
      * destruct (Worlds.launchFails w); cbn in Hrun; [discriminate|].
        injection Hrun as <- <- <- <-. split; [reflexivity|]. simpl.
        apply bool_decide_eq_false in Hlive.
        rewrite (held_only_stale _ _ Hinv Hlive). apply union_empty_r_L.
    + destruct (Worlds.launchFails w); cbn in Hrun; [discriminate|].
      injection Hrun as <- <- <- <-. split; [reflexivity|]. simpl.
      rewrite (held_only_live None w Hinv). apply union_empty_r_L.
  - intros h' t w' Hrun.
    destruct h as [b0|]; unfold closeBrowser in Hrun; cbn in Hrun.
    + injection Hrun as <- <- <-. split; [reflexivity|]. simpl.
      destruct (decide (b0 ∈ Worlds.live w)) as [Hb|Hb].
      * rewrite (held_only_live _ _ Hinv Hb). apply difference_diag_L.
      * rewrite (held_only_stale _ _ Hinv Hb). apply empty_difference_L.
    + injection Hrun as <- <- <-. split; [reflexivity|].
      exact (held_only_live None w Hinv).
Qed.

(** X11.  When no call of [getBrowser] or [closeBrowser] starts
    before the one before it has ended: from every state of the
    process reached that way, with no call under way, a [getBrowser]
    that starts and goes on at once leaves, when it returns, the
    instance it returns held and the only one running; a
    [closeBrowser] leaves, when it returns, nothing held and nothing
    running. *)
Theorem engine_round_trip (p : Overlap.Process) :
  Overlap.serially p -> Overlap.suspended p = [] ->
  (forall h' b t w',
     run (getBrowser (Overlap.browser p)) (Overlap.engine p)
       = (Normal (h', b), t, w') ->
     let q := Overlap.fires [Overlap.CallGetBrowser; Overlap.Resume 0] p in
     h' = Some b /\ Overlap.browser q = Some b /\
     Overlap.engine q = w' /\ Worlds.live w' = {[b]}) /\
  (forall h' t w',
     run (closeBrowser (Overlap.browser p)) (Overlap.engine p)
       = (Normal h', t, w') ->
     let q := Overlap.fires [Overlap.CallCloseBrowser; Overlap.Resume 0] p in
     h' = None /\ Overlap.browser q = None /\
     Overlap.engine q = w' /\ Worlds.live w' = ∅).
Proof.
  intros Hp Hidle.
  destruct (serially_invariant p Hp) as [Hheld _].
  destruct (round_trip_held (Overlap.browser p) (Overlap.engine p) Hheld)
    as [Hget Hclose].
  split.
  - intros h' b t w' Hrun. destruct (Hget _ _ _ _ Hrun) as [-> Hlive].
    destruct (serial_getBrowser p Hidle) as [_ Hq]. rewrite Hrun in Hq.
    destruct Hq as [Hb He]. auto.
  - intros h' t w' Hrun. destruct (Hclose _ _ _ Hrun) as [-> Hlive].
    destruct (serial_closeBrowser p Hidle) as [_ Hq]. rewrite Hrun in Hq.
    destruct Hq as [Hb He]. auto.
Qed.

(** X6 on a request whose address starts with an opening parenthesis,
    on a platform that rejects it as a regular expression: the call
    ends in the [catch] block. *)
Lemma scrape_rejects_bad_address_witness :
  @RegExp_compiles Samples.strictPlatform
    (firstWord (address Samples.bracketInput)) = false /\
  exists b r,
    outcome (@scrapeRacvQuote Samples.strictPlatform Samples.bracketInput None)
            Worlds.blankQuotePage = Normal (b, r) /\
    success r = false.
Proof.
  split; [reflexivity|].
  exact (@scrape_rejects_bad_address Samples.strictPlatform _ _
           Samples.bracketInput None Worlds.blankQuotePage eq_refl).
Defined.

(** X10 on a select whose first option is a padded placeholder, and
    on one whose first option is blank. *)
Lemma empty_field_picks_first_witness :
  (pickOption "cv.model" matchesField (JStr "") ["  Select  "; "TOYOTA"]
     = Ok (Some "Select") /\
   pickOption "cv.model" matchesBody (JStr "") ["  Select  "; "TOYOTA"]
     = Ok (Some "Select")) /\
  (pickOption "cv.model" matchesField (JStr "") ["  "; "TOYOTA"] = Ok None /\
   pickOption "cv.model" matchesBody (JStr "") ["  "; "TOYOTA"] = Ok None).
Proof.
  split.
  - exact (empty_field_picks_first "cv.model" "  Select  " ["TOYOTA"] eq_refl).
  - exact (empty_field_picks_first "cv.model" "  " ["TOYOTA"] eq_refl).
Defined.

(** X11 at the start of the process: the first [getBrowser] leaves
    one instance running, and a [closeBrowser] after it leaves none. *)
Lemma engine_round_trip_witness :
  let opened := run (getBrowser None) Worlds.initial.2 in
  let p := Overlap.fires [Overlap.CallGetBrowser; Overlap.Resume 0]
             Overlap.initial in
  let closed := run (closeBrowser (Some 0)) opened.2 in
  (opened.1.1 = Normal (Some 0, 0) /\ Overlap.browser p = Some 0 /\
   Overlap.engine p = opened.2 /\ Worlds.live opened.2 = {[0]}) /\
  (closed.1.1 = Normal None /\ Worlds.live closed.2 = ∅).
Proof.
  cbv zeta. split.
  - split; [reflexivity|].
    exact (proj2 (proj1 (engine_round_trip Overlap.initial
                           Overlap.serially_initial eq_refl)
                    (Some 0) 0 _ _ eq_refl)).
  - split; [reflexivity|].
    assert (Hp : Overlap.serially
                   (Overlap.fires [Overlap.CallGetBrowser; Overlap.Resume 0]
                      Overlap.initial)).
    { apply (Overlap.serially_fire _ (Overlap.Resume 0)); [|discriminate].
      apply (Overlap.serially_fire _ Overlap.CallGetBrowser);
        [apply Overlap.serially_initial|reflexivity]. }
    exact (proj2 (proj2 (proj2 (proj2 (engine_round_trip _ Hp eq_refl)
                                  None _ _ eq_refl)))).
Defined.

(** ** The hand-off link *)

Import JSLib.

Lemma chars_append (a b : string) : chars (a +:+ b) = chars a ++ chars b.
Proof. induction a as [|c a IH]; simpl; [reflexivity|]. f_equal. exact IH. Qed.

Lemma decode_encode_byte (c : ascii) (rest : list ascii) :
  decode_bytes (encode_byte c ++ rest) = c :: decode_bytes rest.
Proof. destruct c as [[] [] [] [] [] [] [] []]; reflexivity. Qed.

Lemma decode_encode (l : list ascii) :
  decode_bytes (flat_map encode_byte l) = l.
Proof.
  induction l as [|c l IH]; simpl; [reflexivity|].
  rewrite decode_encode_byte, IH. reflexivity.
Qed.

Lemma urldecode_urlencode (s : string) : urldecode (urlencode s) = s.
Proof.
  unfold urldecode, urlencode. rewrite chars_text, decode_encode.
  apply string_of_list_ascii_of_string.
Qed.

Lemma encode_byte_structural (c x : ascii) :
  structural c = true -> List.filter (eqc c) (encode_byte x) = [].
Proof.
  intros Hc.
  assert (Hcases : c = "&"%char \/ c = "="%char \/ c = "?"%char \/
                   c = "#"%char \/ c = " "%char).
  { destruct c as [[] [] [] [] [] [] [] []]; try discriminate; tauto. }
  destruct Hcases as [->|[->|[->|[->| ->]]]];
    destruct x as [[] [] [] [] [] [] [] []]; reflexivity.
Qed.

Lemma encode_structural (c : ascii) (l : list ascii) :
  structural c = true -> List.filter (eqc c) (flat_map encode_byte l) = [].
Proof.
  intros Hc. induction l as [|x l IH]; simpl; [reflexivity|].
  rewrite List.filter_app, IH, encode_byte_structural by exact Hc.
  reflexivity.
Qed.

Lemma encode_byte_unreserved (c : ascii) :
  unreserved c = true -> encode_byte c = [c].
Proof. unfold encode_byte. intros ->. reflexivity. Qed.

Lemma encode_unreserved (l : list ascii) :
  forallb unreserved l = true -> flat_map encode_byte l = l.
Proof.
  induction l as [|x l IH]; simpl; [reflexivity|].
  intros Hl. apply andb_true_iff in Hl as [Hx Hl].
  rewrite (encode_byte_unreserved x Hx), (IH Hl). reflexivity.
Qed.

Lemma redirectUrl_chars (quote_id : string) :
  FullQuote.redirectUrl quote_id = FullQuote.linkPrefix +:+ urlencode quote_id.
Proof. reflexivity. Qed.

Lemma includes_append (a s b : string) : includes (a +:+ s +:+ b) s = true.
Proof.
  unfold includes. rewrite !chars_append. apply contains_chars_app.
Qed.

Lemma includes_suffix (a s : string) : includes (a +:+ s) s = true.
Proof.
  unfold includes. rewrite chars_append.
  rewrite <- (app_nil_r (chars s)) at 1. apply contains_chars_app.
Qed.

Lemma starts_with_split (p l : list ascii) :
  starts_with p l = true -> exists post, l = p ++ post.
Proof.
  revert l. induction p as [|c p IH]; intros l; simpl; [eauto|].
  destruct l as [|x l]; [discriminate|]. intros Hl.
  apply andb_true_iff in Hl as [Hc Hl]. apply Ascii.eqb_eq in Hc as ->.
  destruct (IH _ Hl) as [post ->]. eauto.
Qed.

Lemma contains_chars_split (l p : list ascii) :
  contains_chars l p = true -> exists pre post, l = pre ++ p ++ post.
Proof.
  induction l as [|x l IH]; simpl.
  - rewrite orb_false_r. intros Hp.
    destruct (starts_with_split _ _ Hp) as [post ->]. exists [], post. reflexivity.
  - intros Hl. apply orb_true_iff in Hl as [Hp|Hl].
    + destruct (starts_with_split _ _ Hp) as [post ->]. exists [], post. reflexivity.
    + destruct (IH Hl) as (pre & post & ->). exists (x :: pre), post. reflexivity.
Qed.

Lemma includes_app_l (a b s : string) :
  includes a s = true -> includes (a +:+ b) s = true.
Proof.
  unfold includes. intros Ha. rewrite chars_append.
  destruct (contains_chars_split _ _ Ha) as (pre & post & ->).
  rewrite <- !app_assoc. apply contains_chars_app.
Qed.

Lemma includes_app_r (a b s : string) :
  includes b s = true -> includes (a +:+ b) s = true.
Proof.
  unfold includes. intros Hb. rewrite chars_append.
  destruct (contains_chars_split _ _ Hb) as (pre & post & ->).
  rewrite app_assoc. apply contains_chars_app.
Qed.

Lemma includes_join (sep : string) (l : list string) (x s : string) :
  In x l -> includes x s = true -> includes (join sep l) s = true.
Proof.
  intros Hx Hs. induction l as [|y l IH]; [destruct Hx|].
  destruct Hx as [->|Hx].
  - destruct l as [|z l]; [exact Hs|]. cbn [join]. apply includes_app_l, Hs.
  - destruct l as [|z l]; [destruct Hx|]. cbn [join].
    apply includes_app_r, includes_app_r, IH, Hx.
Qed.

Lemma append_cancel (a x y : string) : a +:+ x = a +:+ y -> x = y.
Proof. induction a as [|c a IH]; simpl; [auto|]. intros [= Hp]. auto. Qed.

Lemma append_assoc (a b c : string) : (a +:+ b) +:+ c = a +:+ (b +:+ c).
Proof.
  induction a as [|x a IH]; [reflexivity|].
  change (String x ((a +:+ b) +:+ c) = String x (a +:+ (b +:+ c))).
  f_equal. exact IH.
Qed.

(** X12.  For a quote id of ASCII characters, the link of
    [start_full_quote] has the same five query parameters whatever
    the quote id holds: the characters [&], [=], [?], [#] and the
    space never come out of the reference, which is recovered from
    the link by decoding what follows [ref=]; so two such quote ids
    never give the same link. *)
Theorem handoff_link_structure (validity quote_id : string) :
  ascii_text quote_id = true ->
  let url :=
    FullQuote.redirect_url
      (FullQuote.structured (FullQuote.startFullQuote validity quote_id)) in
  count_char "&" url = 4 /\
  count_char "=" url = 5 /\
  count_char "?" url = 1 /\
  count_char "#" url = 0 /\
  count_char " " url = 0 /\
  url = FullQuote.linkPrefix +:+ urlencode quote_id /\
  urldecode (urlencode quote_id) = quote_id /\
  (forall other,
     ascii_text other = true ->
     FullQuote.redirectUrl other = FullQuote.redirectUrl quote_id ->
     other = quote_id).
Proof.
  intros _.
  assert (Hcount : forall c n,
            structural c = true ->
            length (List.filter (eqc c) (chars FullQuote.linkPrefix)) = n ->
            count_char c (FullQuote.redirectUrl quote_id) = n).
  { intros c n Hc Hn. unfold count_char.
    rewrite redirectUrl_chars, chars_append, List.filter_app, length_app, Hn.
    unfold urlencode. rewrite chars_text, (encode_structural c _ Hc).
    simpl. lia. }
  cbv zeta. unfold FullQuote.startFullQuote.
  cbn [FullQuote.structured FullQuote.redirect_url].
  repeat (split; [apply Hcount; reflexivity|]).
  split; [reflexivity|]. split; [apply urldecode_urlencode|].
  intros other _ Hother. rewrite !redirectUrl_chars in Hother.
  apply append_cancel in Hother.
  rewrite <- (urldecode_urlencode other), Hother. apply urldecode_urlencode.
Qed.

(** X13.  The checks of the acceptance test of [start_full_quote],
    for every quote id: the text names racv.com.au and the quote id;
    the link carries [utm_source=ai_platform]; for a quote id of
    letters, digits and [*-._] the link ends with [ref=] and the quote
    id as given; the structured content repeats the quote id and the
    validity. *)
Theorem handoff_checks (validity quote_id : string) :
  let result := FullQuote.startFullQuote validity quote_id in
  let url := FullQuote.redirect_url (FullQuote.structured result) in
  includes (FullQuote.text result) "racv.com.au" = true /\
  includes (FullQuote.text result) quote_id = true /\
  includes (FullQuote.text result) url = true /\
  includes url "utm_source=ai_platform" = true /\
  (forallb unreserved (chars quote_id) = true ->
   url = FullQuote.linkPrefix +:+ quote_id /\
   includes url ("ref=" +:+ quote_id) = true) /\
  FullQuote.quote_id (FullQuote.structured result) = quote_id /\
  FullQuote.session_validity (FullQuote.structured result) = validity.
Proof.
  cbv zeta. unfold FullQuote.startFullQuote.
  cbn [FullQuote.text FullQuote.structured FullQuote.redirect_url
       FullQuote.quote_id FullQuote.session_validity].
  split.
  { eapply includes_join with
      (x := "Click the link below to continue on racv.com.au where you can:");
      [simpl; tauto|vm_compute; reflexivity]. }
  split.
  { eapply includes_join with (x := "Reference: " +:+ quote_id);
      [simpl; tauto|apply includes_suffix]. }
  split.
  { eapply includes_join with
      (x := "🔗 Complete your quote: " +:+ FullQuote.redirectUrl quote_id);
      [simpl; tauto|apply includes_suffix]. }
  split.
  { rewrite redirectUrl_chars. apply includes_app_l. vm_compute. reflexivity. }
  split; [|auto].
  intros Hid.
  assert (Henc : urlencode quote_id = quote_id).
  { unfold urlencode. rewrite (encode_unreserved _ Hid).
    apply string_of_list_ascii_of_string. }
  rewrite redirectUrl_chars, Henc. split; [reflexivity|].
  change FullQuote.linkPrefix with
    ("https://www.racv.com.au/car-insurance/get-a-quote.html?utm_source=ai_platform&utm_medium=mcp_app&utm_campaign=racv_insurance_app&utm_content=get_full_quote&" +:+ "ref=").
  rewrite append_assoc. apply includes_suffix.
Qed.

(** ** The registration-mode quote tool *)

Section ToolText.
Context `{Platform}.
Variable toLocaleString : number -> string.

Lemma total_conj {A : Type} (R1 R2 : A -> Prop) (p : Prog A) :
  total R1 p -> total R2 p -> total (fun a => R1 a /\ R2 a) p.
Proof.
  intros H1 H2. eapply wp_mono; [|apply (wp_conj _ _ _ H1 H2)].
  intros t o [(a & -> & Ha) (a' & Heq & Ha')]. injection Heq as <-. eauto.
Qed.

(** X14.  The answer of the registration-mode tool, when the scraper
    module loads: the tool does what the scraper does and answers with
    the lines of the scraper's result.  For a success these start with
    the quote heading, name a non-empty vehicle and show an annual or
    a monthly premium.  For a failure they start with the failure
    heading and show the scraper's non-empty error and a non-empty
    step, which reads [unknown] when the result has none.  When the
    module does not load, the tool does nothing and answers with the
    failure text. *)
Theorem tool_answer {W : Type} {E : Env W} (params : RegoTool.Params)
  (b0 : option nat) (w : W) :
  (exists b r,
     outcome (scrapeRacvQuote (RegoTool.toInput params) b0) w = Normal (b, r) /\
     outcome (RegoTool.getMotorQuote toLocaleString (Ok tt) params b0) w
       = Normal (b, join Coverage.newline (RegoTool.resultLines toLocaleString r)) /\
     trace (RegoTool.getMotorQuote toLocaleString (Ok tt) params b0) w
       = trace (scrapeRacvQuote (RegoTool.toInput params) b0) w /\
     let lines := RegoTool.resultLines toLocaleString r in
     (success r = true ->
      head lines = Some "RACV Comprehensive Motor Insurance Quote" /\
      (exists d, nonempty d = true /\ In ("Vehicle: " +:+ d) lines) /\
      ((exists x, annual_premium r = Some x /\
                  In ("Annual Premium: $" +:+ toLocaleString x +:+ "") lines) \/
       (exists x, monthly_premium r = Some x /\
                  In ("Monthly Premium: $" +:+ toLocaleString x +:+ "/month")
                     lines))) /\
     (success r = false ->
      head lines = Some "RACV Quote - Unable to Complete" /\
      exists e s,
        error r = Some e /\ nonempty e = true /\ In ("Error: " +:+ e) lines /\
        nonempty s = true /\ In ("Step reached: " +:+ s) lines /\
        (step_reached r = None -> s = "unknown") /\
        (forall st, step_reached r = Some st -> s = st))) /\
  (forall e,
     run (RegoTool.getMotorQuote toLocaleString (Err e) params b0) w
     = (Normal (b0, RegoTool.failedText e), [], w)).
Proof.
  split; [|reflexivity].
  pose proof (wp_sound _ _
                (total_conj _ _ _
                   (total_scrapeRacvQuote (RegoTool.toInput params) b0)
                   (shape_scrapeRacvQuote (RegoTool.toInput params) b0))
                W E w) as ([b r] & Hout & Hinv & Hshape).
  simpl in Hinv, Hshape.
  exists b, r. split; [exact Hout|].
  unfold outcome, trace in *. unfold RegoTool.getMotorQuote.
  rewrite run_tryCatch, run_bind.
  destruct (run (scrapeRacvQuote (RegoTool.toInput params) b0) w)
    as [[o t] w'] eqn:Hrun.
  simpl in Hout. subst o. rewrite run_ret. simpl.
  split; [reflexivity|]. split; [apply app_nil_r|].
  unfold RegoTool.resultLines. split.
  - intros Hs. rewrite Hs. split; [reflexivity|].
    destruct (proj1 Hshape Hs) as ((d & Hd & Hne) & _).
    split.
    + exists d. split; [exact Hne|].
      unfold RegoTool.successLines. rewrite Hd. simpl. tauto.
    + unfold RegoTool.successLines, RegoTool.amountLine.
      destruct (proj1 Hinv Hs) as [Ha|Hm].
      * left. destruct (annual_premium r) as [x|]; [|discriminate].
        simpl in Ha. rewrite Ha. exists x. split; [reflexivity|].
        simpl. tauto.
      * right. destruct (monthly_premium r) as [x|]; [|discriminate].
        simpl in Hm. rewrite Hm. exists x. split; [reflexivity|].
        apply in_or_app. right. apply in_or_app. right.
        apply in_or_app. left. left. reflexivity.
  - intros Hs. rewrite Hs. split; [reflexivity|].
    destruct (proj2 Hinv Hs) as ((e & He & Hne) & Hstep).
    exists e, (RegoTool.or_text (step_reached r) "unknown").
    unfold RegoTool.errorLines. rewrite He.
    split; [reflexivity|]. split; [exact Hne|].
    split; [simpl; tauto|].
    split.
    { destruct Hstep as [(s & -> & Hs')|[-> _]]; simpl; [|reflexivity].
      rewrite Hs'. exact Hs'. }
    split; [simpl; tauto|].
    split; [intros ->; reflexivity|].
    intros st Hst. rewrite Hst in Hstep |- *. simpl.
    destruct Hstep as [(s & [= <-] & Hs')|[[=] _]]. rewrite Hs'. reflexivity.
Qed.

End ToolText.

(** ** Premium extraction of the manual-mode scraper *)

Import ManualExtract.

Lemma firstMatch_first (content : string) (ps : list regex) (a : number) :
  firstMatch content ps = Ok (Some a) ->
  exists pre p post mr g,
    ps = pre ++ p :: post /\
    Forall (fun q => exec true q content = None) pre /\
    exec true p content = Some mr /\ group1 mr = Some g /\
    a = parseFloat (remove_chars (one_of ",") g).
Proof.
  induction ps as [|p ps IH]; simpl; [discriminate|].
  destruct (exec true p content) as [mr|] eqn:Hp.
  - destruct (group1 mr) as [g|] eqn:Hg; [|discriminate].
    intros [= <-]. exists [], p, ps, mr, g. auto.
  - intros Ha. destruct (IH Ha) as (pre & q & post & mr & g & -> & Hpre & Hq).
    exists (p :: pre), q, post, mr, g. split; [reflexivity|].
    split; [constructor; assumption|exact Hq].
Qed.

Lemma firstMatch_wins (content : string) (pre post : list regex) (p : regex)
  (mr : match_result) :
  Forall (fun q => exec true q content = None) pre ->
  exec true p content = Some mr ->
  sets_cap p = true ->
  exists g, group1 mr = Some g /\
            firstMatch content (pre ++ p :: post)
            = Ok (Some (parseFloat (remove_chars (one_of ",") g))).
Proof.
  intros Hpre Hp Hcap.
  destruct (exec_group1 _ _ _ _ Hcap Hp) as [g Hg]. exists g.
  split; [exact Hg|].
  induction Hpre as [|q pre Hq _ IH]; simpl.
  - rewrite Hp, Hg. reflexivity.
  - rewrite Hq. exact IH.
Qed.

Lemma firstMatch_silent (content : string) (ps : list regex) :
  firstMatch content ps = Ok None <->
  Forall (fun q => exec true q content = None) ps.
Proof.
  induction ps as [|p ps IH]; simpl; [split; auto|].
  destruct (exec true p content) as [mr|] eqn:Hp.
  - split.
    + destruct (group1 mr); discriminate.
    + intros Hall. apply Forall_cons_1 in Hall as [Hp' _]. congruence.
  - rewrite IH. split; [intros; constructor; assumption|].
    intros Hall. apply Forall_cons_1 in Hall. tauto.
Qed.

Lemma firstMatch_total (content : string) (ps : list regex) :
  Forall (fun p => sets_cap p = true) ps ->
  exists x, firstMatch content ps = Ok x.
Proof.
  induction 1 as [|p ps Hp _ IH]; simpl; [eauto|].
  destruct (exec true p content) as [mr|] eqn:Hexec; [|exact IH].
  destruct (exec_group1 _ _ _ _ Hp Hexec) as [g ->]. eauto.
Qed.

Lemma labelled_total (pageContent : option string) :
  exists a m, labelled pageContent = Ok (a, m).
Proof.
  destruct pageContent as [content|]; unfold labelled; [|eauto].
  destruct (firstMatch_total content premiumPatterns) as [a ->];
    [repeat constructor|].
  destruct (firstMatch_total content monthlyPatterns) as [m ->];
    [repeat constructor|].
  eauto.
Qed.

Lemma insertBy_In (cmp : number -> number -> number) (x y : number)
  (l : list number) :
  In y (insertBy cmp x l) <-> y = x \/ In y l.
Proof.
  induction l as [|z l IH]; simpl; [intuition|].
  destruct (0 <? cmp x z)%float; simpl; [rewrite IH|]; intuition.
Qed.

Lemma sortBy_In (cmp : number -> number -> number) (y : number)
  (l : list number) :
  In y (sortBy cmp l) <-> In y l.
Proof.
  unfold sortBy. induction l as [|x l IH]; simpl; [tauto|].
  rewrite insertBy_In, IH. intuition.
Qed.

Lemma sortBy_length (cmp : number -> number -> number) (l : list number) :
  length (sortBy cmp l) = length l.
Proof.
  unfold sortBy. induction l as [|x l IH]; simpl; [reflexivity|].
  rewrite <- IH. generalize (foldr (insertBy cmp) [] l). intros s.
  induction s as [|z s IHs]; simpl; [reflexivity|].
  destruct (0 <? cmp x z)%float; simpl; [rewrite IHs|]; reflexivity.
Qed.

(** X15.  On an ASCII page text, the manual-mode scraper takes each
    premium from the first pattern, in the order of its list, that
    matches the page text:
    patterns before it do not match and patterns after it are not
    consulted.  Its two loops never fail.  On the text where the
    registration-mode scraper lets a later pattern overwrite an earlier
    one, the manual-mode scraper keeps the first. *)
Theorem manual_first_match_wins (content : string) :
  ascii_text content = true ->
  (exists a m, labelled (Some content) = Ok (a, m)) /\
  (forall ps pre p post mr,
     ps = premiumPatterns \/ ps = monthlyPatterns ->
     ps = pre ++ p :: post ->
     Forall (fun q => exec true q content = None) pre ->
     exec true p content = Some mr ->
     exists g, group1 mr = Some g /\
               firstMatch content ps
               = Ok (Some (parseFloat (remove_chars (one_of ",") g)))) /\
  (forall ps a,
     firstMatch content ps = Ok (Some a) ->
     exists pre p post mr g,
       ps = pre ++ p :: post /\
       Forall (fun q => exec true q content = None) pre /\
       exec true p content = Some mr /\ group1 mr = Some g /\
       a = parseFloat (remove_chars (one_of ",") g)) /\
  (forall ps,
     firstMatch content ps = Ok None <->
     Forall (fun q => exec true q content = None) ps) /\
  labelled (Some Texts.twoAnnual) = Ok (Some 500%float, None) /\
  (annualPremium <$> extractPremiums Texts.twoAnnual) = Some (Some 900%float).
Proof.
  intros _.
  split; [apply labelled_total|].
  split.
  { intros ps pre p post mr Hps Heq Hpre Hp. rewrite Heq.
    apply firstMatch_wins; [exact Hpre|exact Hp|].
    assert (Hall : Forall (fun p => sets_cap p = true) ps)
      by (destruct Hps as [->| ->]; repeat constructor).
    rewrite Heq in Hall. apply Forall_app in Hall as [_ Hall].
    apply Forall_cons_1 in Hall. tauto. }
  split; [apply firstMatch_first|].
  split; [apply firstMatch_silent|].
  split; vm_compute; reflexivity.
Qed.

(** X16.  On an ASCII page text, or none, step 4 of the manual-mode
    scraper always yields a result.
    A success has a non-zero annual or monthly premium, the source
    [racv_website], the path of the result snapshot and no error.  A
    failure has no premium, the same source and path, a non-empty
    error and the first 1000 characters of the page text.  No result
    has an excess.  When no labelled premium is non-zero, a reported
    annual premium that does not come from a label is an amount of the
    page above 200 and below 10000, and the monthly premium is the
    labelled one. *)
Theorem manual_extract_result (pageContent : option string) :
  (forall content, pageContent = Some content -> ascii_text content = true) ->
  exists a m r,
    labelled pageContent = Ok (a, m) /\
    extract pageContent = Ok r /\
    (MotorQuote.success r = true ->
     truthy (MotorQuote.scraped_annual_premium r)
       || truthy (MotorQuote.scraped_monthly_premium r) = true /\
     MotorQuote.source r = MotorQuote.racv_website /\
     MotorQuote.screenshot_path r = Some resultPath /\
     MotorQuote.error r = None) /\
    (MotorQuote.success r = false ->
     MotorQuote.scraped_annual_premium r = None /\
     MotorQuote.scraped_monthly_premium r = None /\
     MotorQuote.source r = MotorQuote.racv_website /\
     MotorQuote.screenshot_path r = Some resultPath /\
     filled (MotorQuote.error r) /\
     MotorQuote.raw_text r = slice0 1000 <$> pageContent) /\
    MotorQuote.excess_standard r = None /\
    (MotorQuote.success r = true ->
     MotorQuote.scraped_monthly_premium r = m /\
     (MotorQuote.scraped_annual_premium r = a \/
      truthy a = false /\ truthy m = false /\
      exists content s x,
        pageContent = Some content /\
        In s (match_all false Scraper.amountRe content) /\
        x = parseFloat (remove_chars (one_of "$,") s) /\
        reasonable x = true /\
        MotorQuote.scraped_annual_premium r = Some x)).
Proof.
  intros _.
  destruct (labelled_total pageContent) as (a & m & Hlab).
  exists a, m. unfold extract. rewrite Hlab. eexists.
  split; [reflexivity|]. split; [reflexivity|].
  destruct (truthy (inferAnnual pageContent a m) || truthy m) eqn:Hfound.
  - split; [intros _; simpl; auto|]. split; [discriminate|].
    split; [reflexivity|]. intros _. simpl. split; [reflexivity|].
    unfold inferAnnual.
    destruct (negb (truthy a) && negb (truthy m)) eqn:Hnone; [|auto].
    destruct pageContent as [content|]; [|auto].
    destruct (numericAmounts content) as [|x l] eqn:Hnum; [auto|].
    right. apply andb_true_iff in Hnone as [Ha Hm].
    apply negb_true_iff in Ha, Hm. split; [exact Ha|]. split; [exact Hm|].
    assert (Hin : In x (numericAmounts content))
      by (rewrite Hnum; left; reflexivity).
    unfold numericAmounts in Hin.
    apply sortBy_In, List.filter_In in Hin as [Hin Hx].
    apply List.in_map_iff in Hin as (s & Hs & Hin).
    exists content, s, x. auto.
  - split; [discriminate|]. split.
    + intros _. simpl. repeat split. eexists. split; reflexivity.
    + split; [reflexivity|discriminate].
Qed.

(** ** The mock pricing engine *)

Import Calculator.

Lemma lower_upper_char (c : ascii) : lower_char (upper_char c) = lower_char c.
Proof. destruct c as [[] [] [] [] [] [] [] []]; reflexivity. Qed.

Lemma lower_lower_char (c : ascii) : lower_char (lower_char c) = lower_char c.
Proof. destruct c as [[] [] [] [] [] [] [] []]; reflexivity. Qed.

Lemma separator_lower (c : ascii) : separator (lower_char c) = separator c.
Proof. destruct c as [[] [] [] [] [] [] [] []]; reflexivity. Qed.

Lemma toLowerCase_toUpperCase (s : string) :
  toLowerCase (toUpperCase s) = toLowerCase s.
Proof.
  unfold toLowerCase, toUpperCase. rewrite chars_text, map_map. f_equal.
  apply map_ext. exact lower_upper_char.
Qed.

Lemma toLowerCase_idem (s : string) : toLowerCase (toLowerCase s) = toLowerCase s.
Proof.
  unfold toLowerCase. rewrite chars_text, map_map. f_equal.
  apply map_ext. exact lower_lower_char.
Qed.

Lemma filter_lower (l : list ascii) :
  List.filter (fun c => negb (separator c)) (map lower_char l)
  = map lower_char (List.filter (fun c => negb (separator c)) l).
Proof.
  induction l as [|c l IH]; simpl; [reflexivity|].
  rewrite separator_lower. destruct (separator c); simpl; rewrite IH; reflexivity.
Qed.

Lemma filter_idem {A : Type} (f : A -> bool) (l : list A) :
  List.filter f (List.filter f l) = List.filter f l.
Proof.
  induction l as [|x l IH]; simpl; [reflexivity|].
  destruct (f x) eqn:Hx; simpl; [rewrite Hx, IH|]; auto.
Qed.

(** Squeezing before or after lowering is the same. *)
Lemma squeeze_lower_squeeze (s : string) :
  squeeze (toLowerCase (squeeze s)) = squeeze (toLowerCase s).
Proof.
  unfold squeeze, remove_chars, toLowerCase. rewrite !chars_text. f_equal.
  rewrite !filter_lower, filter_idem. reflexivity.
Qed.

Section Lookup.
Variable vehicles : list (string * list (string * VehicleEntry)).

Lemma getVehicleInfo_ext (make make' model model' : string) :
  toLowerCase make = toLowerCase make' ->
  squeeze (toLowerCase model) = squeeze (toLowerCase model') ->
  getVehicleInfo vehicles make model = getVehicleInfo vehicles make' model'.
Proof. unfold getVehicleInfo. intros -> ->. reflexivity. Qed.

Lemma entry_In {V : Type} (key : string) (obj : list (string * V)) (v : V) :
  entry key obj = Some v -> In (key, v) obj.
Proof.
  induction obj as [|[k x] obj IH]; simpl; [discriminate|].
  destruct (String.eqb_spec k key) as [->|]; [intros [= ->]; auto|auto].
Qed.

Lemma getVehicleInfo_found (make model : string) (e : VehicleEntry) :
  getVehicleInfo vehicles make model = Some e ->
  exists K M models,
    In (K, models) vehicles /\ In (M, e) models /\
    nonempty K = true /\ nonempty M = true /\
    toLowerCase K = toLowerCase make /\
    squeeze (toLowerCase M) = squeeze (toLowerCase model).
Proof.
  unfold getVehicleInfo.
  destruct (List.find _ (keys vehicles)) as [K|] eqn:HK; simpl; [|discriminate].
  destruct (nonempty K) eqn:HnK; simpl; [|discriminate].
  destruct (entry K vehicles) as [models|] eqn:Hmodels; simpl; [|discriminate].
  destruct (List.find _ (keys models)) as [M|] eqn:HM; simpl; [|discriminate].
  destruct (nonempty M) eqn:HnM; simpl; [|discriminate].
  intros He. exists K, M, models.
  apply List.find_some in HK as [_ HK], HM as [_ HM].
  apply String.eqb_eq in HK, HM.
  auto 7 using entry_In.
Qed.

Lemma getVehicleInfo_unknown (make model : string) :
  (forall K, In K (keys vehicles) -> toLowerCase K <> toLowerCase make) ->
  getVehicleInfo vehicles make model = None.
Proof.
  intros Hno. unfold getVehicleInfo.
  destruct (List.find _ (keys vehicles)) as [K|] eqn:HK; [|reflexivity].
  apply List.find_some in HK as [Hin HK]. apply String.eqb_eq in HK.
  destruct (Hno K Hin HK).
Qed.

End Lookup.

Lemma leb_nan_r (x : number) : (x <=? nan)%float = false.
Proof.
  rewrite leb_spec. unfold SFleb.
  change (Prim2SF nan) with S754_nan.
  destruct (Prim2SF x) as [ | | |[] ? ?]; reflexivity.
Qed.

Lemma leb_nan_l (x : number) : (nan <=? x)%float = false.
Proof.
  rewrite leb_spec. unfold SFleb.
  change (Prim2SF nan) with S754_nan. reflexivity.
Qed.

Lemma within_nan (l : list (number * number)) : existsb (within nan) l = false.
Proof.
  induction l as [|r l IH]; simpl; [reflexivity|].
  unfold within at 1. rewrite leb_nan_r, IH. reflexivity.
Qed.

Lemma find_first {A : Type} (f : A -> bool) (pre post : list A) (x : A) :
  Forall (fun y => f y = false) pre -> f x = true ->
  List.find f (pre ++ x :: post) = Some x.
Proof.
  induction 1 as [|y pre Hy _ IH]; simpl; intros Hx.
  - rewrite Hx. reflexivity.
  - rewrite Hy. auto.
Qed.

Lemma find_none_all {A : Type} (f : A -> bool) (l : list A) :
  (forall x, In x l -> f x = false) -> List.find f l = None.
Proof.
  induction l as [|x l IH]; simpl; intros Hall; [reflexivity|].
  rewrite (Hall x) by auto. auto.
Qed.

Lemma existsb_eqb_In (key : string) (l : list string) :
  existsb (String.eqb key) l = true <-> In key l.
Proof.
  rewrite existsb_exists. split.
  - intros (x & Hin & Hx). apply String.eqb_eq in Hx. subst. exact Hin.
  - intros Hin. exists key. split; [exact Hin|apply String.eqb_refl].
Qed.

Section Tables.
Variable vehicles : list (string * list (string * VehicleEntry)).
Variable risk_zones : list (string * ZoneConfig).
Variable pricingRules : PricingRules.
Variable currentYear : Z.
Variable Math_pow : number -> number -> number.
Variable uuid validUntil : string.

(** X17.  For ASCII names, asked and in the table: the vehicle lookup
    ignores the case of the make and of the model and the hyphens and
    white space of the model.  An entry it
    returns is the table's entry for a make and a model with non-empty
    names that agree with the asked ones in that sense, and a make
    that agrees with no make of the table gives no entry. *)
Theorem vehicle_lookup_normalised (make model : string) :
  ascii_text make = true -> ascii_text model = true ->
  ascii_keys vehicles = true ->
  getVehicleInfo vehicles (toUpperCase make) (squeeze model)
    = getVehicleInfo vehicles make model /\
  getVehicleInfo vehicles (toLowerCase make) (toUpperCase model)
    = getVehicleInfo vehicles make model /\
  (forall e, getVehicleInfo vehicles make model = Some e ->
     exists K M models,
       In (K, models) vehicles /\ In (M, e) models /\
       nonempty K = true /\ nonempty M = true /\
       toLowerCase K = toLowerCase make /\
       squeeze (toLowerCase M) = squeeze (toLowerCase model)) /\
  ((forall K, In K (keys vehicles) -> toLowerCase K <> toLowerCase make) ->
   getVehicleInfo vehicles make model = None).
Proof.
  intros _ _ _.
  split; [|split; [|split]].
  - apply getVehicleInfo_ext.
    + apply toLowerCase_toUpperCase.
    + apply squeeze_lower_squeeze.
  - apply getVehicleInfo_ext.
    + apply toLowerCase_idem.
    + rewrite toLowerCase_toUpperCase. reflexivity.
  - intros e. apply getVehicleInfo_found.
  - apply getVehicleInfo_unknown.
Qed.

(** X18.  The risk zone of a postcode is the first zone of the table
    that lists the postcode or has a range holding its number, and
    [medium] when there is none: the answer is [medium] or a zone of
    the table.  A postcode without a leading number is in no range, so
    it gets [medium] unless a zone lists it. *)
Theorem risk_zone_lookup (postcode : string) :
  (getPostcodeRiskZone risk_zones postcode = "medium" \/
   In (getPostcodeRiskZone risk_zones postcode) (keys risk_zones)) /\
  (forall pre zone config post,
     risk_zones = pre ++ (zone, config) :: post ->
     Forall (fun zc => zoneMatches postcode zc.2 = false) pre ->
     zoneMatches postcode config = true ->
     getPostcodeRiskZone risk_zones postcode = zone) /\
  ((forall zc, In zc risk_zones -> zoneMatches postcode zc.2 = false) ->
   getPostcodeRiskZone risk_zones postcode = "medium") /\
  (parseInt postcode = nan ->
   (forall zone config listed,
      In (zone, config) risk_zones -> postcodes config = Some listed ->
      ~ In postcode listed) ->
   getPostcodeRiskZone risk_zones postcode = "medium").
Proof.
  unfold getPostcodeRiskZone. split; [|split; [|split]].
  - destruct (List.find _ risk_zones) as [[zone config]|] eqn:Hfind; [|auto].
    right. apply List.find_some in Hfind as [Hin _].
    unfold keys. apply List.in_map_iff. exists (zone, config). auto.
  - intros pre zone config post -> Hpre Hhit.
    rewrite (find_first (fun zc => zoneMatches postcode zc.2) pre post
               (zone, config) Hpre Hhit).
    reflexivity.
  - intros Hall. rewrite find_none_all by exact Hall. reflexivity.
  - intros Hnan Hlisted. rewrite find_none_all; [reflexivity|].
    intros [zone config] Hin. unfold zoneMatches. simpl.
    rewrite Hnan, within_nan, orb_false_r.
    destruct (postcodes config) as [listed|] eqn:Hp; [|reflexivity].
    apply not_true_is_false. intros Hex. apply existsb_eqb_In in Hex.
    exact (Hlisted zone config listed Hin Hp Hex).
Qed.

End Tables.

Lemma is_lower_upper_char (c : ascii) : is_lower (upper_char c) = false.
Proof. destruct c as [[] [] [] [] [] [] [] []]; reflexivity. Qed.

Lemma firstn_length_le {A : Type} (n : nat) (l : list A) :
  length (firstn n l) <= n.
Proof. rewrite length_firstn. lia. Qed.

Section Quote.
Variable vehicles : list (string * list (string * VehicleEntry)).
Variable risk_zones : list (string * ZoneConfig).
Variable pricingRules : PricingRules.
Variable currentYear : Z.
Variable Math_pow : number -> number -> number.
Variable uuid validUntil : string.

(** X19.  The mock engine fails exactly when the pricing rules have no
    base rate for the vehicle's category, which is [midrange] for a
    vehicle the table does not know.  A quote it gives repeats the
    make, model and year asked for, values an unknown vehicle from
    35000 and a vehicle of the current year or later at its base
    value, has one excess option for each rule, in order, with the
    rule's amount and label, carries the risk zone of the postcode,
    and has an id made of [RACV-] and at most 8 further characters,
    none of them a lower-case letter. *)
Theorem mock_quote_structure (input : MotorQuote.QuoteInput) :
  let info := getVehicleInfo vehicles (MotorQuote.vehicle_make input)
                (MotorQuote.vehicle_model input) in
  let cat := match info with Some e => category e | None => "midrange" end in
  let base := match info with Some e => base_value e | None => 35000%float end in
  let answer := calculateQuote vehicles risk_zones pricingRules currentYear
                  Math_pow uuid validUntil input in
  (answer = None <-> entry cat (base_rates pricingRules) = None) /\
  forall q, answer = Some q ->
    MotorQuote.make (MotorQuote.vehicle q) = MotorQuote.vehicle_make input /\
    MotorQuote.model (MotorQuote.vehicle q) = MotorQuote.vehicle_model input /\
    MotorQuote.year (MotorQuote.vehicle q) = MotorQuote.vehicle_year input /\
    MotorQuote.category (MotorQuote.vehicle q) = cat /\
    MotorQuote.estimated_value (MotorQuote.vehicle q)
      = depreciate currentYear Math_pow base (MotorQuote.vehicle_year input) /\
    ((currentYear <= MotorQuote.vehicle_year input)%Z ->
     MotorQuote.estimated_value (MotorQuote.vehicle q) = base) /\
    map MotorQuote.amount (MotorQuote.excess_options q)
      = map amount (excess_options pricingRules) /\
    map MotorQuote.label (MotorQuote.excess_options q)
      = map label (excess_options pricingRules) /\
    MotorQuote.risk_zone q
      = getPostcodeRiskZone risk_zones (MotorQuote.postcode input) /\
    (exists rest,
       MotorQuote.quote_id q = "RACV-" +:+ rest /\
       length (chars rest) <= 8 /\
       forallb (fun c => negb (is_lower c)) (chars rest) = true).
Proof.
  intros info cat base answer. subst answer. unfold calculateQuote.
  fold info. fold cat. fold base.
  destruct (entry cat (base_rates pricingRules)) as [rate|]; simpl.
  - split; [split; discriminate|].
    intros q [= <-]. cbn [MotorQuote.vehicle MotorQuote.make MotorQuote.model
      MotorQuote.year MotorQuote.category MotorQuote.estimated_value
      MotorQuote.excess_options MotorQuote.risk_zone MotorQuote.quote_id].
    repeat (split; [reflexivity|]). split; [|split; [|split; [|split]]].
    + intros Hyear. unfold depreciate.
      destruct (Z.leb_spec (currentYear - MotorQuote.vehicle_year input) 0);
        [reflexivity|lia].
    + rewrite map_map. reflexivity.
    + rewrite map_map. reflexivity.
    + reflexivity.
    + exists (toUpperCase (slice0 8 uuid)). split; [reflexivity|].
      unfold toUpperCase, slice0. rewrite !chars_text, length_map.
      split; [apply firstn_length_le|].
      apply forallb_forall. intros c Hc.
      apply List.in_map_iff in Hc as (x & <- & _).
      rewrite is_lower_upper_char. reflexivity.
  - split; [split; reflexivity|discriminate].
Qed.

End Quote.

(** ** The excess options of the manual-mode tool *)

Lemma mul_nan_r (x : number) : (x * nan)%float = nan.
Proof.
  apply Prim2SF_inj. rewrite mul_spec.
  change (Prim2SF nan) with S754_nan.
  destruct (Prim2SF x) as [ | | |? ? ?]; reflexivity.
Qed.

Lemma discounts_past (i : nat) : 4 <= i -> nth i MotorQuote.discounts nan = nan.
Proof.
  intros Hi. do 4 (destruct i as [|i]; [lia|]). simpl.
  destruct i; reflexivity.
Qed.

Lemma reprice_amounts (a : number) (l : list MotorQuote.ExcessOption) :
  map MotorQuote.amount (imap (MotorQuote.reprice a) l) = map MotorQuote.amount l /\
  map MotorQuote.label (imap (MotorQuote.reprice a) l) = map MotorQuote.label l.
Proof.
  split.
  - change (MotorQuote.amount <$> imap (MotorQuote.reprice a) l
            = MotorQuote.amount <$> l).
    rewrite fmap_imap, <- imap_const. apply imap_ext. reflexivity.
  - change (MotorQuote.label <$> imap (MotorQuote.reprice a) l
            = MotorQuote.label <$> l).
    rewrite fmap_imap, <- imap_const. apply imap_ext. reflexivity.
Qed.

Section Options.
Import MotorQuote.
Variable pricing : QuoteInput -> QuoteResult.
Variable scrape : QuoteInput -> Outcome RacvScraperResult.

(** X20.  Whatever the live scraper does, the tool's quote keeps the
    mock quote's id, vehicle, risk zone, validity date, coverage
    summary, member discount and disclaimers, and the amounts and
    labels of its excess options in order.  When the quote is
    overridden with a scraped annual premium [a], the first four
    options are repriced at [a] less 0, 3, 7 and 12 per cent, and any
    further option gets [NaN] for both premiums. *)
Theorem override_excess_options (RACV_LIVE_QUOTES : option string)
  (input : QuoteInput) :
  let out := getMotorQuote pricing scrape RACV_LIVE_QUOTES input in
  let mock := pricing input in
  (quote_id out.1 = quote_id mock /\
   vehicle out.1 = vehicle mock /\
   risk_zone out.1 = risk_zone mock /\
   valid_until out.1 = valid_until mock /\
   coverage_summary out.1 = coverage_summary mock /\
   member_discount_available out.1 = member_discount_available mock /\
   member_discount_pct out.1 = member_discount_pct mock /\
   disclaimers out.1 = disclaimers mock /\
   map amount (excess_options out.1) = map amount (excess_options mock) /\
   map label (excess_options out.1) = map label (excess_options mock)) /\
  (out.2 = false -> out.1 = mock) /\
  (out.2 = true ->
   exists r a,
     scrape input = Normal r /\ scraped_annual_premium r = Some a /\
     forall i opt, excess_options out.1 !! i = Some opt ->
       (forall d, [0; 0.03; 0.07; 0.12]%float !! i = Some d ->
          annual_premium opt = Math_round (a * (1 - d))%float /\
          monthly_premium opt
            = Math_round (annual_premium opt / 12 * 1.05)%float) /\
       (4 <= i -> annual_premium opt = nan /\ monthly_premium opt = nan)).
Proof.
  intros out mock.
  assert (Hcases : out = (mock, false) \/
                   exists r a, scrape input = Normal r /\
                               scraped_annual_premium r = Some a /\
                               out = (override mock r a, true)).
  { subst out mock. unfold getMotorQuote.
    destruct (USE_LIVE_SCRAPER _); [|auto].
    destruct (scrape input) as [r|e]; [|auto].
    destruct (success r); [|auto].
    destruct (scraped_annual_premium r) as [a|] eqn:Ha; [|auto].
    destruct (truthy_num a); [|auto].
    right. exists r, a. auto. }
  destruct Hcases as [->|(r & a & Hr & Ha & ->)].
  - split; [repeat split; reflexivity|]. split; [reflexivity|discriminate].
  - split.
    + destruct (reprice_amounts a (excess_options mock)) as [Hamount Hlabel].
      repeat split; assumption.
    + split; [discriminate|]. intros _. exists r, a.
      split; [exact Hr|]. split; [exact Ha|].
      intros i opt Hopt. cbn [fst override excess_options] in Hopt.
      apply list_lookup_imap_Some in Hopt as (old & _ & ->). split.
      * intros d Hd. unfold reprice. cbn [annual_premium monthly_premium].
        do 4 (destruct i as [|i]; [injection Hd as <-; split; reflexivity|]).
        discriminate.
      * intros Hi. unfold reprice. cbn [annual_premium monthly_premium].
        rewrite (discounts_past i Hi).
        change (1 - nan)%float with nan. rewrite mul_nan_r.
        split; reflexivity.
Qed.

End Options.

(** ** The manual-mode scraper *)

Section Manual.
Import ManualMode.

Lemma manual_wp_mono {A : Type} (p : Prog A)
  (Q Q' : list Obs -> Outcome A -> Prop) :
  (forall t o, Q t o -> Q' t o) -> wp p Q -> wp p Q'.
Proof.
  revert Q Q'.
  induction p as [a|e|a k IH]; simpl; intros Q Q' HQ Hp; [auto | auto |].
  intros r. eapply IH; [|apply Hp]. intros t o. apply HQ.
Qed.

Lemma manual_wp_any {A : Type} (p : Prog A)
  (Q : list Obs -> Outcome A -> Prop) :
  (forall t o, Q t o) -> wp p Q.
Proof.
  revert Q.
  induction p as [a|e|a k IH]; simpl; intros Q HQ; [apply HQ | apply HQ |].
  intros r. apply IH. intros t o. apply HQ.
Qed.

Lemma manual_wp_conj {A : Type} (p : Prog A)
  (Q1 Q2 : list Obs -> Outcome A -> Prop) :
  wp p Q1 -> wp p Q2 -> wp p (fun t o => Q1 t o /\ Q2 t o).
Proof.
  revert Q1 Q2.
  induction p as [a|e|a k IH]; simpl; intros Q1 Q2 H1 H2; [auto | auto |].
  intros r. apply (IH r _ _ (H1 r) (H2 r)).
Qed.

Lemma manual_wp_bind {A B : Type} (m : Prog A) (f : A -> Prog B)
  (Q : list Obs -> Outcome B -> Prop) :
  wp m (fun t o =>
          match o with
          | Normal a => wp (f a) (fun t' o' => Q (t ++ t') o')
          | Thrown e => Q t (Thrown e)
          end) ->
  wp (m ≫= f) Q.
Proof.
  unfold mbind, manual_bind. revert Q.
  induction m as [a|e|a k IH]; simpl; intros Q Hm; [exact Hm | exact Hm |].
  intros r. apply IH. eapply manual_wp_mono; [|apply Hm].
  intros t [x|e]; simpl; auto.
Qed.

Lemma manual_wp_tryCatch {A : Type} (m : Prog A) (h : string -> Prog A)
  (Q : list Obs -> Outcome A -> Prop) :
  wp m (fun t o =>
          match o with
          | Normal a => Q t (Normal a)
          | Thrown e => wp (h e) (fun t' o' => Q (t ++ t') o')
          end) ->
  wp (tryCatch m h) Q.
Proof.
  revert Q.
  induction m as [a|e|a k IH]; simpl; intros Q Hm; [exact Hm | exact Hm |].
  intros r. apply IH. eapply manual_wp_mono; [|apply Hm].
  intros t [x|e]; simpl; auto.
Qed.

(** What [wp] proves holds of the run in every environment. *)
Lemma manual_wp_sound {A : Type} (p : Prog A)
  (Q : list Obs -> Outcome A -> Prop) :
  wp p Q -> forall (W : Type) (E : Env W) (w : W), Q (trace p w) (outcome p w).
Proof.
  unfold trace, outcome. revert Q.
  induction p as [a|e|a k IH]; simpl; intros Q Hp W E w; [exact Hp | exact Hp |].
  destruct (respond a w) as [r w1].
  specialize (IH r _ (Hp r) W E w1).
  destruct (run (k r) w1) as [[o t] w2]. exact IH.
Qed.

(** *** Rules for [always] *)

Lemma manual_always_mono {A : Type} (P P' : Action -> Prop) (p : Prog A) :
  (forall a, P a -> P' a) -> always P p -> always P' p.
Proof.
  intros HP. apply manual_wp_mono. intros t o Ht. simpl in Ht.
  induction Ht; constructor; auto.
Qed.

Lemma manual_always_ret {A : Type} (P : Action -> Prop) (a : A) :
  always P (mret a).
Proof. constructor. Qed.

Lemma manual_always_throw {A : Type} (P : Action -> Prop) (e : string) :
  always P (@Throw A e).
Proof. constructor. Qed.

Lemma manual_always_call (P : Action -> Prop) (a : Action) :
  P a -> always P (call a).
Proof. intros Ha [x|e]; simpl; repeat constructor; exact Ha. Qed.

Lemma manual_always_attempt (P : Action -> Prop) (a : Action) (d : resp a) :
  P a -> always P (attempt a d).
Proof. intros Ha [x|e]; simpl; repeat constructor; exact Ha. Qed.

Lemma manual_always_bind {A B : Type} (P : Action -> Prop) (m : Prog A)
  (f : A -> Prog B) :
  always P m -> (forall a, always P (f a)) -> always P (m ≫= f).
Proof.
  intros Hm Hf. apply manual_wp_bind. eapply manual_wp_mono; [|apply Hm].
  intros t [a|e] Ht; simpl; [|exact Ht].
  eapply manual_wp_mono; [|apply (Hf a)].
  intros t' o' Ht'. apply Forall_app; auto.
Qed.

Lemma manual_always_tryCatch {A : Type} (P : Action -> Prop) (m : Prog A)
  (h : string -> Prog A) :
  always P m -> (forall e, always P (h e)) -> always P (tryCatch m h).
Proof.
  intros Hm Hh. apply manual_wp_tryCatch. eapply manual_wp_mono; [|apply Hm].
  intros t [a|e] Ht; simpl; [exact Ht|].
  eapply manual_wp_mono; [|apply (Hh e)].
  intros t' o' Ht'. apply Forall_app; auto.
Qed.

Ltac manual_step :=
  lazymatch goal with
  | |- always _ (mret _) => apply manual_always_ret
  | |- always _ (Ret _) => apply manual_always_ret
  | |- always _ (Throw _) => apply manual_always_throw
  | |- always _ (call _) =>
      apply manual_always_call; first [reflexivity | exact I | idtac]
  | |- always _ (attempt _ _) =>
      apply manual_always_attempt; first [reflexivity | exact I | idtac]
  | |- always _ (mbind _ _) => apply manual_always_bind; [|intros ?]
  | |- always _ (tryCatch _ _) => apply manual_always_tryCatch; [|intros ?]
  | |- always _ (when ?b _) => destruct b; unfold when
  | |- always _ (if ?b then _ else _) => destruct b
  | |- always _ (match ?x with _ => _ end) => destruct x
  end.

Ltac manual_conduct :=
  unfold isVisible, all, protect;
  repeat first [ assumption | manual_step | solve [simpl; tauto]
               | solve [repeat split; first [reflexivity | simpl; tauto]] ].

(** *** The selects only probe the page *)

Lemma probing_selectLoop (sel : Locator) (s : string) (opts : list Locator) :
  always Probing (selectLoop sel s opts).
Proof.
  induction opts as [|opt rest IH]; cbn [selectLoop]; manual_conduct.
Qed.

Lemma probing_selectByLabel (sel : Locator) (s : string) :
  always Probing (selectByLabel sel s).
Proof.
  unfold selectByLabel. manual_conduct. apply probing_selectLoop.
Qed.

Lemma probing_selectAny (sel : Locator) (terms : list string) :
  always Probing (selectAny sel terms).
Proof.
  pose proof probing_selectByLabel as Hsel.
  induction terms as [|term rest IH]; cbn [selectAny]; manual_conduct.
  apply Hsel.
Qed.

Lemma probing_bodyLoop (sel : Locator) (opts : list Locator) :
  always Probing (bodyLoop sel opts).
Proof.
  induction opts as [|opt rest IH]; cbn [bodyLoop]; manual_conduct.
Qed.

(** *** Costs *)

Lemma manual_tally_app (cost : Action -> N) (t t' : list Obs) :
  tally cost (t ++ t') = (tally cost t + tally cost t')%N.
Proof.
  induction t as [|o t IH]; simpl; [reflexivity|]. rewrite IH. lia.
Qed.

Lemma manual_spends_le {A : Type} (cost : Action -> N) (n n' : N)
  (p : Prog A) :
  spends cost n p -> (n <= n')%N -> spends cost n' p.
Proof.
  intros Hp Hn. eapply manual_wp_mono; [|exact Hp]. simpl. intros; lia.
Qed.

Lemma manual_spends_ret {A : Type} (cost : Action -> N) (n : N) (a : A) :
  spends cost n (mret a).
Proof. unfold spends. simpl. lia. Qed.

Lemma manual_spends_throw {A : Type} (cost : Action -> N) (n : N)
  (e : string) :
  spends cost n (@Throw A e).
Proof. unfold spends. simpl. lia. Qed.

Lemma manual_spends_call (cost : Action -> N) (a : Action) (n : N) :
  cost a = n -> spends cost n (call a).
Proof. intros <- [x|e]; simpl; lia. Qed.

Lemma manual_spends_attempt (cost : Action -> N) (a : Action) (d : resp a)
  (n : N) :
  cost a = n -> spends cost n (attempt a d).
Proof. intros <- [x|e]; simpl; lia. Qed.

Lemma manual_spends_bind {A B : Type} (cost : Action -> N) (a b : N)
  (m : Prog A) (f : A -> Prog B) :
  spends cost a m -> (forall x, spends cost b (f x)) ->
  spends cost (a + b) (m ≫= f).
Proof.
  intros Hm Hf. apply manual_wp_bind. eapply manual_wp_mono; [|apply Hm].
  intros t [x|e] Ht; simpl in *; [|lia].
  eapply manual_wp_mono; [|apply (Hf x)].
  intros t' o' Ht'. simpl in Ht'. rewrite manual_tally_app. lia.
Qed.

Lemma manual_spends_tryCatch {A : Type} (cost : Action -> N) (a b : N)
  (m : Prog A) (h : string -> Prog A) :
  spends cost a m -> (forall e, spends cost b (h e)) ->
  spends cost (a + b) (tryCatch m h).
Proof.
  intros Hm Hh. apply manual_wp_tryCatch. eapply manual_wp_mono; [|apply Hm].
  intros t [x|e] Ht; simpl in *; [lia|].
  eapply manual_wp_mono; [|apply (Hh e)].
  intros t' o' Ht'. simpl in Ht'. rewrite manual_tally_app. lia.
Qed.

Lemma manual_spends_if {A : Type} (cost : Action -> N) (a b : N) (c : bool)
  (p q : Prog A) :
  spends cost a p -> spends cost b q ->
  spends cost (N.max a b) (if c then p else q).
Proof.
  intros Hp Hq.
  destruct c; [apply (manual_spends_le _ a)|apply (manual_spends_le _ b)];
    auto; lia.
Qed.

Lemma manual_spends_when (cost : Action -> N) (n : N) (c : bool)
  (p : Prog unit) :
  spends cost n p -> spends cost n (when c p).
Proof.
  intros Hp. destruct c; [exact Hp|apply manual_spends_ret].
Qed.

(** A program whose actions all cost nothing spends nothing. *)
Lemma manual_spends_free {A : Type} (cost : Action -> N) (p : Prog A) :
  always (fun a => cost a = 0%N) p -> spends cost 0 p.
Proof.
  apply manual_wp_mono. intros t _ Ht. simpl in Ht.
  induction Ht as [|o t Ho _ IH]; simpl; [lia|]. rewrite Ho. exact IH.
Qed.

Lemma probing_free {A : Type} (cost : Action -> N) (p : Prog A) :
  (forall a, probing a = true -> cost a = 0%N) ->
  always Probing p -> spends cost 0 p.
Proof.
  intros Hcost Hp. apply manual_spends_free.
  eapply manual_always_mono; [|exact Hp]. exact Hcost.
Qed.

Create HintDb manual.

Ltac manual_cost :=
  lazymatch goal with
  | |- ?l = _ => let v := eval cbv in l in exact (@eq_refl N v)
  end.

(** Derives a bound for the program of the goal [spends cost ?n p]. *)
Ltac manual_spend :=
  unfold isVisible, protect;
  repeat first
    [ solve [eauto 1 with manual nocore]
    | progress cbv beta zeta
    | lazymatch goal with
      | |- forall _, _ => intros ?
      | |- spends _ _ (mret _) =>
          first [exact (manual_spends_ret _ 0%N _) | apply manual_spends_ret]
      | |- spends _ _ (Ret _) =>
          first [exact (manual_spends_ret _ 0%N _) | apply manual_spends_ret]
      | |- spends _ _ (Throw _) =>
          first [exact (manual_spends_throw _ 0%N _)
                | apply manual_spends_throw]
      | |- spends _ _ (call _) => apply manual_spends_call; manual_cost
      | |- spends _ _ (attempt _ _) => apply manual_spends_attempt; manual_cost
      | |- spends _ _ (mbind _ _) => eapply manual_spends_bind
      | |- spends _ _ (tryCatch _ _) => eapply manual_spends_tryCatch
      | |- spends _ _ (when _ _) => apply manual_spends_when
      | |- spends _ _ (if _ then _ else _) => eapply manual_spends_if
      end ].

Ltac manual_within :=
  eapply manual_spends_le; [manual_spend|]; cbn; try lia.

Lemma manual_takes_any {A : Type} (cost : Action -> N) (R : A -> Prop)
  (p : Prog A) :
  takes cost 0 R p.
Proof. apply manual_wp_any. intros; lia. Qed.

Lemma manual_takes_le {A : Type} (cost : Action -> N) (n n' : N)
  (R : A -> Prop) (p : Prog A) :
  takes cost n R p -> (n' <= n)%N -> takes cost n' R p.
Proof.
  intros Hp Hn. eapply manual_wp_mono; [|exact Hp]. simpl.
  intros t o Ht a Ho Ha. specialize (Ht a Ho Ha). lia.
Qed.

Lemma manual_takes_call (cost : Action -> N) (a : Action) (n : N)
  (R : resp a -> Prop) :
  cost a = n -> takes cost n R (call a).
Proof. intros <- [x|e]; simpl; intros; [lia|discriminate]. Qed.

Lemma manual_takes_bind {A B : Type} (cost : Action -> N) (a b : N)
  (R : B -> Prop) (m : Prog A) (f : A -> Prog B) :
  takes cost a (fun _ => True) m -> (forall x, takes cost b R (f x)) ->
  takes cost (a + b) R (m ≫= f).
Proof.
  intros Hm Hf. apply manual_wp_bind. eapply manual_wp_mono; [|apply Hm].
  intros t [x|e] Ht; simpl in *; [|discriminate].
  eapply manual_wp_mono; [|apply (Hf x)].
  intros t' o' Ht' y Ho Hy. simpl in Ht'. rewrite manual_tally_app.
  specialize (Ht x eq_refl I). specialize (Ht' y Ho Hy). lia.
Qed.

(** Derives a lower bound for the goal [takes cost ?n R p]. *)
Ltac manual_lower :=
  repeat first
    [ solve [eauto 1 with manual nocore]
    | progress cbv beta zeta
    | lazymatch goal with
      | |- forall _, _ => intros ?
      | |- takes _ _ _ (call _) => apply manual_takes_call; manual_cost
      | |- takes _ _ _ (mbind _ _) => eapply manual_takes_bind
      | |- takes _ _ _ _ => apply manual_takes_any
      end ].

(** A property of the result that a longer run keeps is decided by
    the last part of a sequence. *)
Lemma manual_wp_suffix {A B : Type} (m : Prog A) (f : A -> Prog B)
  (Q : list Obs -> B -> Prop) :
  (forall t t' r, Q t' r -> Q (t ++ t') r) ->
  (forall x, wp (f x) (fun t o => forall r, o = Normal r -> Q t r)) ->
  wp (m ≫= f) (fun t o => forall r, o = Normal r -> Q t r).
Proof.
  intros Hext Hf. apply manual_wp_bind. apply manual_wp_any.
  intros t [x|e]; [|discriminate].
  eapply manual_wp_mono; [|apply (Hf x)]. simpl. auto.
Qed.

Section Request.
Variable currentYear : Z.
Variable input : MotorQuote.QuoteInput.

Lemma probing_onpage (a : Action) :
  Probing a -> onpage currentYear input a.
Proof.
  unfold Probing, onpage.
  destruct a; simpl; intros Ha; try discriminate; repeat split.
Qed.

Lemma onpage_probing {A : Type} (p : Prog A) :
  always Probing p -> always (onpage currentYear input) p.
Proof. apply manual_always_mono. exact probing_onpage. Qed.

Lemma onpage_variantLoop (rows : Locator) (indices : list nat) :
  always (onpage currentYear input) (variantLoop rows indices).
Proof.
  induction indices as [|i rest IH]; cbn [variantLoop]; manual_conduct.
Qed.

(** After the site is loaded the flow stays on the page. *)
Lemma onpage_steps :
  always (onpage currentYear input)
    (findManually;; fillVehicle input;; fillAboutYou currentYear input;;
     readQuote).
Proof.
  pose proof (fun sel s => onpage_probing _ (probing_selectByLabel sel s))
    as Hsel.
  pose proof (fun sel l => onpage_probing _ (probing_selectAny sel l))
    as Hany.
  pose proof (fun sel l => onpage_probing _ (probing_bodyLoop sel l))
    as Hbody.
  pose proof onpage_variantLoop as Hvariant.
  unfold findManually, fillVehicle, fillAboutYou, readQuote,
    selectYear, selectMake, selectModel, selectBody, selectVariant,
    fillPostcode, fillBirth, selectParking, selectClaims.
  manual_conduct;
    first [apply Hsel | apply Hany | apply Hbody | apply Hvariant].
Qed.

Lemma sleep_variantLoop (rows : Locator) (indices : list nat) :
  spends sleep 5000 (variantLoop rows indices).
Proof.
  induction indices as [|i rest IH]; cbn [variantLoop];
    [apply manual_spends_ret|].
  manual_within.
Qed.

Lemma sleep_manual_flow : spends sleep 45000 (flow currentYear input).
Proof.
  pose proof (fun sel s =>
    probing_free sleep _ ltac:(intros []; simpl; congruence)
      (probing_selectByLabel sel s)) as Hsel.
  pose proof (fun sel l =>
    probing_free sleep _ ltac:(intros []; simpl; congruence)
      (probing_selectAny sel l)) as Hany.
  pose proof (fun sel l =>
    probing_free sleep _ ltac:(intros []; simpl; congruence)
      (probing_bodyLoop sel l)) as Hbody.
  pose proof sleep_variantLoop as Hvariant.
  unfold flow, openSite, findManually, fillVehicle, fillAboutYou, readQuote,
    selectYear, selectMake, selectModel, selectBody, selectVariant,
    fillPostcode, fillBirth, selectParking, selectClaims, all.
  eapply manual_spends_le.
  - manual_spend. destruct (ManualExtract.extract _);
      [exact (manual_spends_ret _ 0%N _)|exact (manual_spends_throw _ 0%N _)].
  - cbn. lia.
Qed.

Lemma goto_manual_flow : spends (once is_goto) 1 (flow currentYear input).
Proof.
  unfold flow. apply (manual_spends_bind _ 1 0).
  - unfold openSite. manual_within.
  - intros _. apply manual_spends_free.
    eapply manual_always_mono; [|apply onpage_steps].
    intros a (_ & _ & Ha). unfold once. rewrite Ha. reflexivity.
Qed.

Lemma conduct_manual_flow :
  always (fun a => permitted currentYear input a /\ session_action a = false)
         (flow currentYear input).
Proof.
  unfold flow. apply manual_always_bind.
  - unfold openSite. manual_conduct.
  - intros _. eapply manual_always_mono; [|apply onpage_steps].
    intros a (Hp & Hs & _). auto.
Qed.

(** A run of the flow that returns has slept through the fixed waits. *)
Lemma slow_manual_flow :
  takes sleep 22000 (fun _ => True) (flow currentYear input).
Proof.
  assert (Hyear : takes sleep 2000 (fun _ => True) (selectYear input)).
  { unfold selectYear. apply (manual_takes_bind _ 0 2000);
      [apply manual_takes_any|].
    intros [|]; apply (manual_takes_bind _ 0 2000);
      try apply manual_takes_any; intros _; apply manual_takes_call;
      reflexivity. }
  unfold flow, openSite, findManually, fillVehicle, fillAboutYou, readQuote.
  eapply manual_takes_le.
  - manual_lower.
  - cbn. lia.
Qed.

Lemma from_page_app_l (t t' : list Obs) (r : MotorQuote.RacvScraperResult) :
  from_page t' r -> from_page (t ++ t') r.
Proof.
  intros (pc & Hshot & Hread & Hr). exists pc.
  rewrite !in_app_iff. auto.
Qed.

Lemma from_page_app_r (t t' : list Obs) (r : MotorQuote.RacvScraperResult) :
  from_page t r -> from_page (t ++ t') r.
Proof.
  intros (pc & Hshot & Hread & Hr). exists pc.
  rewrite !in_app_iff. auto.
Qed.

Lemma result_readQuote :
  wp readQuote (fun t o => forall r, o = Normal r -> from_page t r).
Proof.
  unfold readQuote. intros [[]|e]; simpl; [|discriminate].
  intros [[]|e]; simpl; [|discriminate].
  intros [pc|e]; simpl; [|discriminate].
  destruct (ManualExtract.extract pc) as [r|e] eqn:Hr; simpl; [|discriminate].
  intros r' [= <-]. exists pc.
  split; [right; left; reflexivity|].
  split; [right; right; left; reflexivity|exact Hr].
Qed.

Lemma result_manual_flow :
  wp (flow currentYear input)
     (fun t o => forall r, o = Normal r -> from_page t r).
Proof.
  unfold flow.
  do 4 (apply (manual_wp_suffix _ _ from_page);
        [intros t t' r; apply from_page_app_l|intros _]).
  apply result_readQuote.
Qed.

(** *** The three parts of a call *)

Ltac manual_paths :=
  repeat (cbn;
          lazymatch goal with
          | |- forall r : Result _, _ => intros [?|?]
          | |- context [if ?b then _ else _] => destruct b
          end).

Lemma acquired_acquire (b0 : option nat) :
  wp (acquire b0)
     (fun t o => exists s, o = Normal s /\ Acquired currentYear input s t).
Proof.
  unfold acquire, protect, getBrowser.
  destruct b0 as [b|]; manual_paths;
    (eexists; split; [reflexivity|]);
    unfold Acquired; cbn; repeat split; repeat constructor; lia.
Qed.

Lemma attempted_catch (s : Session) (e : string) (t : list Obs) :
  Forall (fun o => permitted currentYear input (action_of o) /\
                   session_action (action_of o) = false) t ->
  (tally sleep t <= 45000)%N ->
  (tally (once is_goto) t <= 1)%N ->
  wp (catchBlock s e)
     (fun t' o => exists r, o = Normal r /\
                            Attempted currentYear input (t ++ t') r).
Proof.
  intros Hall Hsleep Hgoto. unfold catchBlock.
  destruct (page s); manual_paths;
    (eexists; split; [reflexivity|]);
    unfold Attempted; rewrite ?app_nil_r, ?manual_tally_app; cbn;
    (split; [|split; [lia|split; [lia|left; eexists; reflexivity]]]);
    try exact Hall;
    (apply Forall_app; split; [exact Hall|]);
    repeat constructor; simpl; tauto.
Qed.

Lemma attempted_body (s : Session) :
  wp (tryCatch
        match fault s with
        | Some e => Throw e
        | None => flow currentYear input
        end
        (catchBlock s))
     (fun t o => exists r, o = Normal r /\ Attempted currentYear input t r).
Proof.
  apply manual_wp_tryCatch. destruct (fault s) as [e|].
  - simpl. apply (attempted_catch s e []); [constructor|simpl; lia..].
  - pose proof (manual_wp_conj _ _ _ conduct_manual_flow
        (manual_wp_conj _ _ _ sleep_manual_flow
           (manual_wp_conj _ _ _ goto_manual_flow
              (manual_wp_conj _ _ _ result_manual_flow slow_manual_flow))))
      as Hflow.
    eapply manual_wp_mono; [|exact Hflow]. clear Hflow. simpl.
    intros t [r|e] (Hall & Hsleep & Hgoto & Hres & Hslow).
    + exists r. split; [reflexivity|]. unfold Attempted.
      split; [exact Hall|]. split; [exact Hsleep|]. split; [exact Hgoto|].
      right. split; [apply Hres; reflexivity|apply (Hslow r); auto].
    + apply attempted_catch; assumption.
Qed.

Lemma finished_finally (s : Session) :
  wp (finallyBlock s) (fun t o => o = Normal tt /\ Finished s t).
Proof.
  unfold finallyBlock, Finished.
  destruct (page s) as [pg|]; cbn; [|split; reflexivity].
  intros [[]|e]; cbn; split; eauto.
Qed.

(** Every run of [scrapeRacvQuote] returns, and is made of the three
    parts. *)
Lemma manual_scrape_parts (b0 : option nat)
  (Q : list Obs -> Outcome (option nat * MotorQuote.RacvScraperResult) -> Prop) :
  (forall s t1 t2 t3 r,
     Acquired currentYear input s t1 ->
     Attempted currentYear input t2 r ->
     Finished s t3 ->
     Q (t1 ++ t2 ++ t3) (Normal (browser s, r))) ->
  wp (scrapeRacvQuote currentYear input b0) Q.
Proof.
  intros HQ. unfold scrapeRacvQuote.
  apply manual_wp_bind.
  eapply manual_wp_mono; [|apply acquired_acquire].
  intros t1 o1 (s & -> & H1). simpl.
  apply manual_wp_bind.
  eapply manual_wp_mono; [|apply attempted_body].
  intros t2 o2 (r & -> & H2). simpl.
  apply manual_wp_bind.
  eapply manual_wp_mono; [|apply finished_finally].
  intros t3 o3 (-> & H3). simpl. rewrite app_nil_r.
  apply HQ; assumption.
Qed.

End Request.

(** *** [selectByLabel] *)

Lemma selected_cons (sel : Locator) (s : string) (x : Obs) (t : list Obs)
  (o : Outcome bool) :
  is_select (action_of x) = false ->
  selected sel s t o -> selected sel s (x :: t) o.
Proof.
  intros Hx. destruct o as [[|]|e]; simpl.
  - intros (pre & opt & text & v & -> & Hm & Hv & Hpre).
    exists (x :: pre), opt, text, v. repeat split; auto.
  - intros Ht. constructor; auto.
  - intros Ht. unfold once in *. rewrite Hx. exact Ht.
Qed.

Lemma selected_selectLoop (sel : Locator) (s : string) (opts : list Locator) :
  wp (selectLoop sel s opts) (selected sel s).
Proof.
  induction opts as [|opt rest IH]; cbn [selectLoop]; [constructor|].
  intros [text|e]; [|cbn; lia]. cbn.
  assert (Hnext : wp (selectLoop sel s rest)
            (fun t o => selected sel s (obs (TextContent opt) (Ok text) :: t) o)).
  { eapply manual_wp_mono; [|exact IH].
    intros t o. apply selected_cons. reflexivity. }
  destruct (labelMatches s text) eqn:Hm; [|exact Hnext].
  intros [value|e]; [|cbn; lia]. cbn.
  assert (Hskip : wp (selectLoop sel s rest)
            (fun t o => selected sel s
               (obs (TextContent opt) (Ok text)
                :: obs (GetAttribute opt "value") (Ok value) :: t) o)).
  { eapply manual_wp_mono; [|exact IH].
    intros t o Ht. do 2 (apply selected_cons; [reflexivity|]). exact Ht. }
  destruct value as [v|]; [|exact Hskip].
  destruct (nonempty v) eqn:Hv; [|exact Hskip].
  intros [[]|e]; cbn; [|lia].
  exists [], opt, text, v. repeat split; auto.
Qed.

Lemma selected_selectByLabel (sel : Locator) (s : string) :
  wp (selectByLabel sel s) (selected sel s).
Proof.
  unfold selectByLabel, all. intros [n|e]; [|cbn; lia]. cbn.
  eapply manual_wp_mono; [|apply selected_selectLoop].
  intros t o. apply selected_cons. reflexivity.
Qed.

Lemma quiet_opened (t : list Obs) :
  Forall (fun o => session_action (action_of o) = false) t ->
  opened t = [] /\ closed t = [].
Proof.
  unfold opened, closed.
  induction 1 as [|[a r] t Ha _ [IHo IHc]]; [split; reflexivity|].
  simpl in Ha.
  change (omap opened_page (existT a r :: t))
    with (match opened_page (existT a r) with
          | Some pg => pg :: omap opened_page t
          | None => omap opened_page t
          end).
  change (omap closed_page (existT a r :: t))
    with (match closed_page (existT a r) with
          | Some pg => pg :: omap closed_page t
          | None => omap closed_page t
          end).
  rewrite IHo, IHc.
  destruct a; try discriminate Ha; split; reflexivity.
Qed.

Lemma finished_opened (s : Session) (t : list Obs) :
  Finished s t -> opened t = [] /\ closed t = option_list (page s).
Proof.
  unfold Finished. destruct (page s) as [pg|]; [intros [res ->]|intros ->];
    split; reflexivity.
Qed.

Lemma extract_source (pageContent : option string)
  (r : MotorQuote.RacvScraperResult) :
  ManualExtract.extract pageContent = Ok r ->
  MotorQuote.source r = MotorQuote.racv_website.
Proof.
  unfold ManualExtract.extract.
  destruct (ManualExtract.labelled pageContent) as [[a m]|e]; [|discriminate].
  intros [= <-]. destruct (_ || _); reflexivity.
Qed.

Section Runs.
Context {W : Type} {E : Env W}.
Variable currentYear : Z.
Variable input : MotorQuote.QuoteInput.
Variable browser0 : option nat.
Variable w : W.

(** X21.  Every run of the manual-mode [scrapeRacvQuote] returns a
    result.  It launches the browser at most once and opens at most
    one page; the pages it closes are the pages it has opened, and
    when it has opened a page the last thing it does is to close that
    page. *)
Theorem manual_scrape_released :
  let t := trace (scrapeRacvQuote currentYear input browser0) w in
  (exists b r,
     outcome (scrapeRacvQuote currentYear input browser0) w = Normal (b, r)) /\
  (tally (once is_launch) t <= 1)%N /\
  (tally (once is_new_page) t <= 1)%N /\
  length (opened t) <= 1 /\
  closed t = opened t /\
  (forall pg, In pg (opened t) ->
     exists res, last t = Some (obs (PageClose pg) res)).
Proof.
  apply (manual_wp_sound (scrapeRacvQuote currentYear input browser0)
           (fun t o =>
              (exists b r, o = Normal (b, r)) /\
              (tally (once is_launch) t <= 1)%N /\
              (tally (once is_new_page) t <= 1)%N /\
              length (opened t) <= 1 /\
              closed t = opened t /\
              (forall pg, In pg (opened t) ->
                 exists res, last t = Some (obs (PageClose pg) res)))).
  apply manual_scrape_parts.
  intros s t1 t2 t3 r (_ & Hc1 & Ho1 & _ & _ & Hl1 & Hn1)
    (Hall & _ & _ & _) H3.
  destruct (quiet_opened t2) as [Ho2 Hc2].
  { eapply Forall_impl; [exact Hall|]. simpl. tauto. }
  destruct (finished_opened s t3 H3) as [Ho3 Hc3].
  assert (Hfree : forall P, (forall a, session_action a = false -> P a = false) ->
            tally (once P) t2 = 0%N).
  { intros P HP. clear -Hall HP.
    induction Hall as [|o t [_ Ho] _ IH]; [reflexivity|].
    simpl. unfold once at 1. rewrite (HP _ Ho). exact IH. }
  assert (Hlast : forall P, (forall pg, P (PageClose pg) = false) ->
            tally (once P) t3 = 0%N).
  { intros P HP. unfold Finished in H3.
    destruct (page s); [destruct H3 as [res ->]|subst t3]; [|reflexivity].
    simpl. unfold once. simpl. rewrite HP. reflexivity. }
  split; [eauto|].
  rewrite !manual_tally_app.
  rewrite (Hfree is_launch), (Hfree is_new_page)
    by (intros []; simpl; congruence).
  rewrite (Hlast is_launch), (Hlast is_new_page) by reflexivity.
  unfold opened, closed in *. rewrite !omap_app.
  rewrite Ho1, Ho2, Ho3, Hc1, Hc2, Hc3, !app_nil_r. simpl.
  split; [lia|]. split; [lia|].
  split; [destruct (page s); simpl; lia|]. split; [reflexivity|].
  intros pg Hpg. unfold Finished in H3.
  destruct (page s) as [pg'|]; simpl in Hpg; [|contradiction].
  destruct Hpg as [<-|[]]. destruct H3 as [res ->]. exists res.
  rewrite app_assoc. apply last_snoc.
Qed.

(** X22.  The result of the manual-mode [scrapeRacvQuote] is either
    the error result of the [catch] block, whose source is [mock], or
    the result extracted from the page text that this run has read
    after it has written the result snapshot; only the second can be
    a success. *)
Theorem manual_scrape_result :
  let t := trace (scrapeRacvQuote currentYear input browser0) w in
  exists b r,
    outcome (scrapeRacvQuote currentYear input browser0) w = Normal (b, r) /\
    ((exists msg, r = errorResult msg) \/ from_page t r) /\
    (MotorQuote.source r = MotorQuote.mock -> exists msg, r = errorResult msg) /\
    (MotorQuote.source r = MotorQuote.racv_website -> from_page t r) /\
    (MotorQuote.success r = true ->
     MotorQuote.source r = MotorQuote.racv_website).
Proof.
  apply (manual_wp_sound (scrapeRacvQuote currentYear input browser0)
           (fun t o =>
              exists b r,
                o = Normal (b, r) /\
                ((exists msg, r = errorResult msg) \/ from_page t r) /\
                (MotorQuote.source r = MotorQuote.mock ->
                 exists msg, r = errorResult msg) /\
                (MotorQuote.source r = MotorQuote.racv_website ->
                 from_page t r) /\
                (MotorQuote.success r = true ->
                 MotorQuote.source r = MotorQuote.racv_website))).
  apply manual_scrape_parts.
  intros s t1 t2 t3 r _ (_ & _ & _ & Hres) _.
  exists (browser s), r. split; [reflexivity|].
  destruct Hres as [[msg ->]|[Hpage _]].
  - split; [left; eauto|]. split; [eauto|]. split; discriminate.
  - assert (Hwhole : from_page (t1 ++ t2 ++ t3) r)
      by (apply from_page_app_l, from_page_app_r, Hpage).
    destruct Hpage as (pc & _ & _ & Hr).
    pose proof (extract_source pc r Hr) as Hsrc.
    split; [right; exact Hwhole|]. split; [rewrite Hsrc; discriminate|].
    split; [intros _; exact Hwhole|intros _; exact Hsrc].
Qed.

(** X23.  In every run of the manual-mode [scrapeRacvQuote]: the site
    is loaded at most once, from the start URL; the only texts filled
    in are the request's postcode and the first of January of the
    birth year, as one date or as [01], [01] and the year; and every
    snapshot goes to one of the eight fixed paths under [/tmp]. *)
Theorem manual_scrape_conduct :
  let t := trace (scrapeRacvQuote currentYear input browser0) w in
  Forall (fun o => permitted currentYear input (action_of o)) t /\
  (tally (once is_goto) t <= 1)%N.
Proof.
  apply (manual_wp_sound (scrapeRacvQuote currentYear input browser0)
           (fun t _ =>
              Forall (fun o => permitted currentYear input (action_of o)) t /\
              (tally (once is_goto) t <= 1)%N)).
  apply manual_scrape_parts.
  intros s t1 t2 t3 r (Hp1 & _ & _ & _ & Hg1 & _) (Hall & _ & Hg2 & _) H3.
  assert (H3' : Forall (fun o => permitted currentYear input (action_of o)) t3
                /\ tally (once is_goto) t3 = 0%N).
  { unfold Finished in H3.
    destruct (page s); [destruct H3 as [res ->]|subst t3]; split;
      repeat constructor. }
  destruct H3' as [Hp3 Hg3]. split.
  - rewrite !Forall_app. split; [exact Hp1|]. split; [|exact Hp3].
    eapply Forall_impl; [exact Hall|]. simpl. tauto.
  - rewrite !manual_tally_app. lia.
Qed.

(** X24.  The sleeps of a run of the manual-mode [scrapeRacvQuote]
    add up to at most 45000 milliseconds, and to at least 22000 when
    the result comes from the website. *)
Theorem manual_scrape_sleep :
  let t := trace (scrapeRacvQuote currentYear input browser0) w in
  (tally sleep t <= 45000)%N /\
  (forall b r,
     outcome (scrapeRacvQuote currentYear input browser0) w = Normal (b, r) ->
     MotorQuote.source r = MotorQuote.racv_website ->
     (22000 <= tally sleep t)%N).
Proof.
  apply (manual_wp_sound (scrapeRacvQuote currentYear input browser0)
           (fun t o =>
              (tally sleep t <= 45000)%N /\
              (forall b r,
                 o = Normal (b, r) ->
                 MotorQuote.source r = MotorQuote.racv_website ->
                 (22000 <= tally sleep t)%N))).
  apply manual_scrape_parts.
  intros s t1 t2 t3 r (_ & _ & _ & Hs1 & _) (_ & Hs2 & _ & Hres) H3.
  assert (Hs3 : tally sleep t3 = 0%N).
  { unfold Finished in H3.
    destruct (page s); [destruct H3 as [res ->]|subst t3]; reflexivity. }
  rewrite !manual_tally_app. split; [lia|].
  intros b r' [= _ <-] Hsrc.
  destruct Hres as [[msg ->]|[_ Hslow]]; [discriminate|lia].
Qed.

(** X25.  For an ASCII search text and ASCII option texts:
    [selectByLabel] selects at most one option.  When it returns
    true, the run ends with reading an option's text, which contains
    the search text when both are trimmed of case, reading its
    non-empty value and selecting that value, and nothing was
    selected before; when it returns false nothing was selected.  The
    search ignores the case of the search text, and an empty search
    text matches every option that has a text. *)
Theorem select_by_label (sel : Locator) (searchText : string) :
  ascii_text searchText = true ->
  (Forall ascii_read (trace (selectByLabel sel searchText) w) ->
   selected sel searchText (trace (selectByLabel sel searchText) w)
     (outcome (selectByLabel sel searchText) w)) /\
  (forall text,
     ascii_text text = true ->
     labelMatches (toUpperCase searchText) (Some text)
     = labelMatches searchText (Some text)) /\
  (forall text,
     ascii_text text = true -> labelMatches "" (Some text) = nonempty text) /\
  labelMatches searchText None = false.
Proof.
  intros _.
  split; [|split; [|split; [|reflexivity]]].
  - intros _.
    apply (manual_wp_sound _ _ (selected_selectByLabel sel searchText)).
  - intros text _. unfold labelMatches.
    rewrite toLowerCase_toUpperCase. reflexivity.
  - intros text _. unfold labelMatches.

    change (toLowerCase "") with "". rewrite includes_empty.
    apply andb_true_r.
Qed.

(** X26.  The manual-mode tool with the manual-mode scraper: the
    scraper never throws into the handler; the tool reports live
    pricing only when live quotes are enabled and the scraper has
    extracted a success with a non-zero annual premium from the page
    text of this run, and then the quote is the mock quote overridden
    with it; an error result of the scraper leaves the mock quote as
    it is. *)
Theorem manual_tool_live_source
  (pricing : MotorQuote.QuoteInput -> MotorQuote.QuoteResult)
  (RACV_LIVE_QUOTES : option string) :
  let t := trace (scrapeRacvQuote currentYear input browser0) w in
  let scrape := scrapeIn currentYear browser0 w in
  let out := MotorQuote.getMotorQuote pricing scrape RACV_LIVE_QUOTES input in
  (exists r, scrape input = Normal r) /\
  (out.2 = true ->
   RACV_LIVE_QUOTES = Some "true" /\
   exists r a,
     scrape input = Normal r /\ from_page t r /\
     MotorQuote.success r = true /\
     MotorQuote.scraped_annual_premium r = Some a /\
     truthy_num a = true /\
     out.1 = MotorQuote.override (pricing input) r a) /\
  (out.2 = false -> out.1 = pricing input) /\
  ((exists msg, scrape input = Normal (errorResult msg)) ->
   out = (pricing input, false)).
Proof.
  intros t scrape out.
  assert (Hscrape : exists r,
            scrape input = Normal r /\
            ((exists msg, r = errorResult msg) \/ from_page t r)).
  { subst scrape t. unfold scrapeIn.
    apply (manual_wp_sound (scrapeRacvQuote currentYear input browser0)
             (fun t o =>
                exists r,
                  match o with
                  | Normal (_, r) => Normal r
                  | Thrown e => Thrown e
                  end = Normal r /\
                  ((exists msg, r = errorResult msg) \/ from_page t r))).
    apply manual_scrape_parts.
    intros s t1 t2 t3 r _ (_ & _ & _ & Hres) _.
    exists r. split; [reflexivity|].
    destruct Hres as [Herr|[Hpage _]]; [left; exact Herr|right].
    apply from_page_app_l, from_page_app_r, Hpage. }
  destruct Hscrape as (r & Hr & Hres).
  split; [eauto|].
  subst out. unfold MotorQuote.getMotorQuote. rewrite Hr.
  destruct RACV_LIVE_QUOTES as [v|]; simpl;
    [|repeat split; auto; discriminate].
  destruct (String.eqb_spec v "true") as [->|Hv];
    [|repeat split; auto; discriminate].
  destruct (MotorQuote.success r) eqn:Hok.
  - destruct (MotorQuote.scraped_annual_premium r) as [a|] eqn:Ha.
    + destruct (truthy_num a) eqn:Hta; simpl.
      * split; [|split; [discriminate|]].
        -- intros _. split; [reflexivity|]. exists r, a.
           destruct Hres as [[msg ->]|Hpage]; [discriminate|].
           repeat split; auto.
        -- intros [msg [= ->]]. discriminate.
      * repeat split; auto; discriminate.
    + simpl. repeat split; auto; discriminate.
  - simpl. repeat split; auto; discriminate.
Qed.

End Runs.

End Manual.

(** X22 on the site where everything is visible: the result is the
    success extracted from the quote page. *)
Lemma manual_scrape_result_witness :
  ManualMode.outcome
    (ManualMode.scrapeRacvQuote 2026 Worlds.sampleQuoteInput None)
    ManualWorlds.rich
  = Normal (Some 0, ManualExtract.found (Some 1200%float) (Some 110.5%float)) /\
  ManualMode.from_page
    (ManualMode.trace
       (ManualMode.scrapeRacvQuote 2026 Worlds.sampleQuoteInput None)
       ManualWorlds.rich)
    (ManualExtract.found (Some 1200%float) (Some 110.5%float)).
Proof.
  assert (Hrun : ManualMode.outcome
            (ManualMode.scrapeRacvQuote 2026 Worlds.sampleQuoteInput None)
            ManualWorlds.rich
          = Normal (Some 0, ManualExtract.found (Some 1200%float)
                              (Some 110.5%float)))
    by (vm_compute; reflexivity).
  split; [exact Hrun|].
  destruct (manual_scrape_result 2026 Worlds.sampleQuoteInput None
              ManualWorlds.rich) as (b & r & Ho & _ & _ & Hweb & _).
  rewrite Hrun in Ho. injection Ho as <- <-.
  apply Hweb. reflexivity.
Defined.

(** X24 on the two sites: both bounds are met. *)
Lemma manual_scrape_sleep_witness :
  (22000 <= ManualMode.tally ManualMode.sleep
              (ManualMode.trace
                 (ManualMode.scrapeRacvQuote 2026 Worlds.sampleQuoteInput None)
                 ManualWorlds.bare) <= 22000)%N /\
  (45000 <= ManualMode.tally ManualMode.sleep
              (ManualMode.trace
                 (ManualMode.scrapeRacvQuote 2026 Worlds.sampleQuoteInput None)
                 ManualWorlds.rich) <= 45000)%N.
Proof.
  destruct (manual_scrape_sleep 2026 Worlds.sampleQuoteInput None
              ManualWorlds.bare) as [_ Hlow].
  destruct (manual_scrape_sleep 2026 Worlds.sampleQuoteInput None
              ManualWorlds.rich) as [Hup _].
  split; split.
  - apply (Hlow (Some 0) (ManualExtract.notFound None));
      [vm_compute; reflexivity|reflexivity].
  - vm_compute. discriminate.
  - vm_compute. discriminate.
  - exact Hup.
Defined.

(** X8 on a text with four amounts and no label: the fallback reports
    the excess tier, an annual premium and a monthly premium, each an
    amount of the page within its range. *)
Lemma fallback_ranges_witness :
  JS.ascii_text Texts.unlabelled = true /\
  exists p,
    Scraper.extractPremiums Texts.unlabelled = Some p /\
    Scraper.excessAmount p = Some 800%float /\
    Scraper.annualPremium p = Some 800%float /\
    Scraper.monthlyPremium p = Some 110.2%float /\
    (forall a, Scraper.annualPremium p = Some a ->
       ((300 <=? a) && (a <=? 8000))%float = true) /\
    (forall a, Scraper.monthlyPremium p = Some a ->
       ((25 <=? a) && (a <? 300))%float = true).
Proof.
  split; [reflexivity|].
  destruct (fallback_ranges Texts.unlabelled eq_refl)
    as (p & Hp & _ & Hranges).
  assert (Hsilent : forall pt,
            In pt Scraper.premPatterns ->
            Regex.exec true pt.1 Texts.unlabelled = None).
  { intros pt [<-|[<-|[<-|[<-|[]]]]]; vm_compute; reflexivity. }
  destruct (Hranges Hsilent) as [Hannual Hmonthly].
  exists p. split; [exact Hp|].
  assert (Hvalue : Scraper.extractPremiums Texts.unlabelled
                   = Some {| Scraper.annualPremium := Some 800%float;
                             Scraper.monthlyPremium := Some 110.2%float;
                             Scraper.excessAmount := Some 800%float |})
    by (vm_compute; reflexivity).
  rewrite Hvalue in Hp. injection Hp as <-.
  split; [reflexivity|]. split; [reflexivity|]. split; [reflexivity|].
  split.
  - intros a Ha. exact (proj1 (Hannual a Ha)).
  - intros a Ha. exact (proj1 (Hmonthly a Ha)).
Defined.

(** X12 on a quote id that holds the characters of a query string. *)
Lemma handoff_link_structure_witness :
  let url :=
    FullQuote.redirect_url
      (FullQuote.structured (FullQuote.startFullQuote "2026-12-02" "A&B C=?#")) in
  JS.ascii_text "A&B C=?#" = true /\
  url = FullQuote.linkPrefix +:+ "A%26B+C%3D%3F%23" /\
  JSLib.count_char "&" url = 4 /\
  JSLib.count_char "=" url = 5 /\
  JSLib.count_char " " url = 0 /\
  JSLib.urldecode "A%26B+C%3D%3F%23" = "A&B C=?#".
Proof.
  cbv zeta. split; [reflexivity|].
  destruct (handoff_link_structure "2026-12-02" "A&B C=?#" eq_refl)
    as (Hamp & Heq & _ & _ & Hsp & Hurl & Hback & _).
  split; [exact Hurl|]. split; [exact Hamp|]. split; [exact Heq|].
  split; [exact Hsp|exact Hback].
Defined.

(** X15 on the text where the period marker comes first. *)
Lemma manual_first_match_wins_witness :
  JS.ascii_text Texts.twoAnnual = true /\
  (exists a m, ManualExtract.labelled (Some Texts.twoAnnual) = Ok (a, m)) /\
  ManualExtract.labelled (Some Texts.twoAnnual) = Ok (Some 500%float, None).
Proof.
  split; [reflexivity|].
  destruct (manual_first_match_wins Texts.twoAnnual eq_refl)
    as (Htotal & _ & _ & _ & Hfirst & _).
  split; [exact Htotal|exact Hfirst].
Defined.

(** X16 on a page text without labels: the annual premium is the
    largest amount of the page between 200 and 10000. *)
Lemma manual_extract_result_witness :
  exists a m r,
    ManualExtract.labelled (Some Texts.unlabelled) = Ok (a, m) /\
    ManualExtract.extract (Some Texts.unlabelled) = Ok r /\
    MotorQuote.success r = true /\
    MotorQuote.scraped_monthly_premium r = m /\
    MotorQuote.excess_standard r = None.
Proof.
  assert (Hascii : forall content,
            Some Texts.unlabelled = Some content ->
            JS.ascii_text content = true).
  { intros content [= <-]. reflexivity. }
  destruct (manual_extract_result (Some Texts.unlabelled) Hascii)
    as (a & m & r & Hlab & Hext & _ & _ & Hexcess & Hsuccess).
  exists a, m, r. split; [exact Hlab|]. split; [exact Hext|].
  assert (Hr : MotorQuote.success r = true).
  { assert (Hvalue : exists r0,
              ManualExtract.extract (Some Texts.unlabelled) = Ok r0 /\
              MotorQuote.success r0 = true)
      by (eexists; split; vm_compute; reflexivity).
    destruct Hvalue as (r0 & Hr0 & Hs0). rewrite Hr0 in Hext.
    injection Hext as <-. exact Hs0. }
  split; [exact Hr|]. split; [exact (proj1 (Hsuccess Hr))|exact Hexcess].
Defined.

(** X17 on a table with one make and one model. *)
Lemma vehicle_lookup_normalised_witness :
  let table :=
    [("Kia", [("Rio", {| Calculator.category := "small";
                         Calculator.base_value := 21000%float |})])] in
  Calculator.getVehicleInfo table "KIA" "Rio"
    = Calculator.getVehicleInfo table "kia" "R-i o" /\
  Calculator.getVehicleInfo table "kia" "R-I O"
    = Calculator.getVehicleInfo table "kia" "R-i o" /\
  Calculator.getVehicleInfo table "kia" "R-i o"
    = Some {| Calculator.category := "small";
              Calculator.base_value := 21000%float |}.
Proof.
  cbv zeta.
  destruct (vehicle_lookup_normalised
              [("Kia", [("Rio", {| Calculator.category := "small";
                                   Calculator.base_value := 21000%float |})])]
              "kia" "R-i o" eq_refl eq_refl eq_refl)
    as (Hupper & Hlower & _ & _).
  split; [exact Hupper|]. split; [exact Hlower|reflexivity].
Defined.

(** X25 on the site where every option reads "Toyota Corolla ...":
    the first option is chosen. *)
Lemma select_by_label_witness :
  let p := ManualMode.selectByLabel (ManualMode.Css "select") "toyota" in
  JS.ascii_text "toyota" = true /\
  Forall ManualMode.ascii_read (ManualMode.trace p ManualWorlds.rich) /\
  ManualMode.outcome p ManualWorlds.rich = Normal true /\
  ManualMode.selected (ManualMode.Css "select") "toyota"
    (ManualMode.trace p ManualWorlds.rich)
    (ManualMode.outcome p ManualWorlds.rich).
Proof.
  cbv zeta.
  assert (Hread : Forall ManualMode.ascii_read
            (ManualMode.trace
               (ManualMode.selectByLabel (ManualMode.Css "select") "toyota")
               ManualWorlds.rich)).
  { vm_compute.
    repeat (constructor; [first [exact I | reflexivity]|]). constructor. }
  split; [reflexivity|]. split; [exact Hread|]. split; [reflexivity|].
  exact (proj1 (select_by_label ManualWorlds.rich (ManualMode.Css "select")
                  "toyota" eq_refl) Hread).
Defined.
